(** * Half-edge mesh kernels of PYME/experimental/triangle_mesh_utils.c

    A shallow embedding of [norm], [cross], [update_vertex_neighbors] and
    [update_face_normals], and the properties of the ring traversal that
    the design document states about them.

    The three numpy record arrays are lists of records, addressed through
    [GETPTR1]; a dereference outside an array is the outcome [Fault].  The
    two [while (1)] loops run on fuel; running out of it is [Timeout].
    Arithmetic on C [float] is a parameter of the development (class
    [FloatOps]); it is instantiated with IEEE binary32, the operations
    of [SpecFloat]; what rounding leaves of a normalised vector is bounded
    over the real numbers, from the definitions of these operations. *)

From Stdlib Require Import ZArith Lia Reals Lra.
From Stdlib Require Floats.SpecFloat.
From stdpp Require Import base tactics option list sets.

Local Open Scope Z_scope.

(** ** Outcomes of a kernel run *)

Inductive outcome (A : Type) : Type :=
  | Done (a : A)      (* ran to the end *)
  | Fault             (* dereferenced a record outside its array *)
  | Timeout.          (* a [while (1)] loop outlived its fuel *)
Arguments Done {A} a.
Arguments Fault {A}.
Arguments Timeout {A}.

#[global] Instance outcome_ret : MRet outcome := fun A a => Done a.
#[global] Instance outcome_bind : MBind outcome := fun A B k c =>
  match c with
  | Done a => k a
  | Fault => Fault
  | Timeout => Timeout
  end.

(** How one pass through a loop body ends. *)
Inductive ctl (S : Type) : Type :=
  | Continue (s : S)
  | Break (s : S).
Arguments Continue {S} s.
Arguments Break {S} s.

(** [while (1) body], with fuel. *)
Fixpoint while {S : Type} (fuel : nat) (body : S -> outcome (ctl S)) (s : S)
  : outcome S :=
  match fuel with
  | O => Timeout
  | Datatypes.S fuel' =>
      match body s with
      | Done (Continue s') => while fuel' body s'
      | Done (Break s') => Done s'
      | Fault => Fault
      | Timeout => Timeout
      end
  end.

(** ** Scalars: the operations the kernels apply to C [float] *)

Class FloatOps (F : Type) : Type := {
  f0 : F;                    (* the constant 0 *)
  fadd : F -> F -> F;
  fsub : F -> F -> F;
  fmul : F -> F -> F;
  fdiv : F -> F -> F;
  fsqrt : F -> F;            (* sqrt(n), the result stored in a float *)
  fhalf : F -> F;            (* 0.5*nn, the result stored in a float *)
  fgt0 : F -> bool           (* nn > 0 *)
}.

(** ** Records of the three arrays

    Modelled from the spec: triangle_mesh_utils.h ([halfedge_t],
    [vertex_t], [face_t], VECTORSIZE, NEIGHBORSIZE) is not among the
    sources.  The fields are those the kernels read and write, typed as the
    data model of the design document gives them; VECTORSIZE is 3 (vec3,
    and [cross] indexes 0..2); NEIGHBORSIZE (N_MAX) stays a parameter. *)

Record vec3 (F : Type) : Type := V3 { vx : F; vy : F; vz : F }.
Arguments V3 {F} vx vy vz.
Arguments vx {F} v.
Arguments vy {F} v.
Arguments vz {F} v.

Record halfedge_t (F : Type) : Type := Halfedge {
  he_vertex : Z;   (* the vertex this edge points to *)
  he_face : Z;
  he_twin : Z;
  he_next : Z;
  he_prev : Z;
  he_length : F
}.
Arguments Halfedge {F}.
Arguments he_vertex {F} h.
Arguments he_face {F} h.
Arguments he_twin {F} h.
Arguments he_next {F} h.
Arguments he_prev {F} h.
Arguments he_length {F} h.

Record face_t (F : Type) : Type := Face {
  f_halfedge : Z;
  f_normal : vec3 F;
  f_area : F
}.
Arguments Face {F}.
Arguments f_halfedge {F} f.
Arguments f_normal {F} f.
Arguments f_area {F} f.

Record vertex_t (F : Type) : Type := Vertex {
  v_position : vec3 F;
  v_normal : vec3 F;
  v_halfedge : Z;
  v_valence : Z;
  v_neighbors : list Z      (* signed int neighbors[NEIGHBORSIZE] *)
}.
Arguments Vertex {F}.
Arguments v_position {F} v.
Arguments v_normal {F} v.
Arguments v_halfedge {F} v.
Arguments v_valence {F} v.
Arguments v_neighbors {F} v.

Record mesh (F : Type) : Type := Mesh {
  halfedges : list (halfedge_t F);
  vertices : list (vertex_t F);
  faces : list (face_t F)
}.
Arguments Mesh {F}.
Arguments halfedges {F} m.
Arguments vertices {F} m.
Arguments faces {F} m.

(** ** Array access *)

(** [PyArray_GETPTR1(arr, i)] followed by a read through the pointer. *)
Definition GETPTR1 {A : Type} (arr : list A) (i : Z) : outcome A :=
  if decide (0 <= i) then
    match arr !! Z.to_nat i with
    | Some x => Done x
    | None => Fault
    end
  else Fault.

(** [PyArray_GETPTR1(arr, i)] followed by a write through the pointer. *)
Definition SETPTR1 {A : Type} (arr : list A) (i : Z) (f : A -> A)
  : outcome (list A) :=
  if decide (0 <= i) then
    match arr !! Z.to_nat i with
    | Some x => Done (<[Z.to_nat i := f x]> arr)
    | None => Fault
    end
  else Fault.

Section Kernel.
Context {F : Type} {FO : FloatOps F}.
Variable NEIGHBORSIZE : nat.

(** *** Vector kernel *)

(** [norm]: n = 0; n += pos[i]*pos[i] for i = 0, 1, 2; sqrt(n). *)
Definition norm (pos : vec3 F) : F :=
  fsqrt (fadd (fadd (fadd f0 (fmul (vx pos) (vx pos)))
                    (fmul (vy pos) (vy pos)))
              (fmul (vz pos) (vz pos))).

Definition cross (a b : vec3 F) : vec3 F :=
  V3 (fsub (fmul (vy a) (vz b)) (fmul (vz a) (vy b)))
     (fsub (fmul (vz a) (vx b)) (fmul (vx a) (vz b)))
     (fsub (fmul (vx a) (vy b)) (fmul (vy a) (vx b))).

(** position[k] = a[k] - b[k] *)
Definition vsub (a b : vec3 F) : vec3 F :=
  V3 (fsub (vx a) (vx b)) (fsub (vy a) (vy b)) (fsub (vz a) (vz b)).

(** normal[k] += fn[k]*a *)
Definition accumulate (normal fn : vec3 F) (a : F) : vec3 F :=
  V3 (fadd (vx normal) (fmul (vx fn) a))
     (fadd (vy normal) (fmul (vy fn) a))
     (fadd (vz normal) (fmul (vz fn) a)).

Definition vzero : vec3 F := V3 f0 f0 f0.

(** nn = norm(n); if (nn > 0) n[k]/nn else 0 *)
Definition normalized (n : vec3 F) : vec3 F :=
  let nn := norm n in
  if fgt0 nn then V3 (fdiv (vx n) nn) (fdiv (vy n) nn) (fdiv (vz n) nn)
  else vzero.

(** *** Field writes *)

Definition with_length (l : F) (h : halfedge_t F) : halfedge_t F :=
  Halfedge (he_vertex h) (he_face h) (he_twin h) (he_next h) (he_prev h) l.

Definition with_neighbors (nb : list Z) (v : vertex_t F) : vertex_t F :=
  Vertex (v_position v) (v_normal v) (v_halfedge v) (v_valence v) nb.

Definition with_valence (n : Z) (v : vertex_t F) : vertex_t F :=
  Vertex (v_position v) (v_normal v) (v_halfedge v) n (v_neighbors v).

Definition with_normal (n : vec3 F) (v : vertex_t F) : vertex_t F :=
  Vertex (v_position v) n (v_halfedge v) (v_valence v) (v_neighbors v).

Definition with_face_geometry (n : vec3 F) (a : F) (f : face_t F) : face_t F :=
  Face (f_halfedge f) n a.

Definition set_halfedges (hs : list (halfedge_t F)) (m : mesh F) : mesh F :=
  Mesh hs (vertices m) (faces m).

Definition set_vertices (vs : list (vertex_t F)) (m : mesh F) : mesh F :=
  Mesh (halfedges m) vs (faces m).

Definition set_faces (fs : list (face_t F)) (m : mesh F) : mesh F :=
  Mesh (halfedges m) (vertices m) fs.

(** edge->length = l *)
Definition store_length (e : Z) (l : F) (m : mesh F) : outcome (mesh F) :=
  hs ← SETPTR1 (halfedges m) e (with_length l);
  mret (set_halfedges hs m).

(** (curr_vertex->neighbors)[k]: a read inside the fixed-size array. *)
Definition load_neighbor (v_idx k : Z) (m : mesh F) : outcome Z :=
  cv ← GETPTR1 (vertices m) v_idx;
  if decide (k < Z.of_nat NEIGHBORSIZE) then GETPTR1 (v_neighbors cv) k
  else Fault.

(** (curr_vertex->neighbors)[k] = x *)
Definition store_neighbor (v_idx k x : Z) (m : mesh F) : outcome (mesh F) :=
  cv ← GETPTR1 (vertices m) v_idx;
  if decide (k < Z.of_nat NEIGHBORSIZE) then
    nb ← SETPTR1 (v_neighbors cv) k (fun _ => x);
    vs ← SETPTR1 (vertices m) v_idx (with_neighbors nb);
    mret (set_vertices vs m)
  else Fault.

(** *** Vertex neighbour traversal *)

(** The locals of one pass of the [for] loop of
    [update_vertex_neighbors].  [curr_edge] and [twin_edge] always point
    at [halfedges[curr_idx]] and [halfedges[twin_idx]] when they are
    dereferenced, so the indices stand for them.  [w_visited] is a log,
    read by no statement: the values [curr_idx] and [twin_idx] had each
    time the body of a sweep got past its first test.  [w_i] is the
    [signed int i] of the code, held as an integer of [Z]: the two agree
    as long as a pass increments it fewer than [2^31] times, and the
    statements about passes that run on carry that bound ([INT_MAX]). *)
Record walk : Type := Walk {
  w_mesh : mesh F;
  w_i : Z;
  w_curr : Z;
  w_twin : Z;
  w_normal : vec3 F;
  w_visited : list (Z * Z)
}.

(** if (i < NEIGHBORSIZE) { neighbors[i] = curr_idx; normal += ... } *)
Definition record_neighbor (v_idx : Z) (s : walk) : outcome walk :=
  if decide (w_i s < Z.of_nat NEIGHBORSIZE) then
    m ← store_neighbor v_idx (w_i s) (w_curr s) (w_mesh s);
    ce ← GETPTR1 (halfedges m) (w_curr s);
    cf ← GETPTR1 (faces m) (he_face ce);
    mret (Walk m (w_i s) (w_curr s) (w_twin s)
               (accumulate (w_normal s) (f_normal cf) (f_area cf))
               (w_visited s ++ [(w_curr s, w_twin s)]))
  else
    mret (Walk (w_mesh s) (w_i s) (w_curr s) (w_twin s) (w_normal s)
               (w_visited s ++ [(w_curr s, w_twin s)])).

(** l = norm(curr_vertex->position - loop_vertex->position) *)
Definition edge_length (v_idx e : Z) (m : mesh F) : outcome F :=
  ce ← GETPTR1 (halfedges m) e;
  loop_vertex ← GETPTR1 (vertices m) (he_vertex ce);
  curr_vertex ← GETPTR1 (vertices m) v_idx;
  mret (norm (vsub (v_position curr_vertex) (v_position loop_vertex))).

Definition set_mesh (m : mesh F) (s : walk) : walk :=
  Walk m (w_i s) (w_curr s) (w_twin s) (w_normal s) (w_visited s).

(** Body of the first [while (1)] (the sweep by twin, then next). *)
Definition forward_body (v_idx orig_idx : Z) (s : walk) : outcome (ctl walk) :=
  if decide (w_curr s = -1) then mret (Break s) else
  s ← record_neighbor v_idx s;
  l ← edge_length v_idx (w_curr s) (w_mesh s);
  m ← store_length (w_curr s) l (w_mesh s);
  if decide (w_twin s = -1) then mret (Break (set_mesh m s)) else
  m ← store_length (w_twin s) l m;
  twin_edge ← GETPTR1 (halfedges m) (w_twin s);
  let curr_idx := he_next twin_edge in
  curr_edge ← GETPTR1 (halfedges m) curr_idx;
  let twin_idx := he_twin curr_edge in
  let s' := Walk m (w_i s + 1) curr_idx twin_idx (w_normal s) (w_visited s) in
  if decide (curr_idx = orig_idx) then mret (Break s') else mret (Continue s').

(** for (k = i; k > 1; k--) swap neighbors[k] and neighbors[k-1];
    [n] is the number of passes left. *)
Fixpoint shift_neighbors (n : nat) (v_idx k : Z) (m : mesh F)
  : outcome (mesh F) :=
  match n with
  | O => mret m
  | S n' =>
      tmp ← load_neighbor v_idx k m;
      x ← load_neighbor v_idx (k - 1) m;
      m ← store_neighbor v_idx k x m;
      m ← store_neighbor v_idx (k - 1) tmp m;
      shift_neighbors n' v_idx (k - 1) m
  end.

(** Body of the second [while (1)] (the sweep by prev, then twin);
    [twin_idx] holds the index of the prev edge there. *)
Definition reverse_body (v_idx orig_idx : Z) (s : walk) : outcome (ctl walk) :=
  if decide (w_curr s = -1) then mret (Break s) else
  s ← record_neighbor v_idx s;
  l ← edge_length v_idx (w_curr s) (w_mesh s);
  m ← store_length (w_curr s) l (w_mesh s);
  m ← store_length (w_twin s) l m;
  curr_edge ← GETPTR1 (halfedges m) (w_curr s);
  let twin_idx := he_prev curr_edge in
  if decide (twin_idx = -1) then
    mret (Break (Walk m (w_i s) (w_curr s) twin_idx (w_normal s) (w_visited s)))
  else
  twin_edge ← GETPTR1 (halfedges m) twin_idx;
  let curr_idx := he_twin twin_edge in
  if decide (curr_idx = -1) then
    mret (Break (Walk m (w_i s) curr_idx twin_idx (w_normal s) (w_visited s)))
  else if decide (curr_idx = orig_idx) then
    mret (Break (Walk m (w_i s) curr_idx twin_idx (w_normal s) (w_visited s)))
  else
    mret (Continue (Walk m (w_i s + 1) curr_idx twin_idx (w_normal s) (w_visited s))).

(** How the traversal of one vertex ends: by a [continue] of the [for]
    loop, or at the statement [curr_vertex->valence = i]. *)
Inductive walked : Type :=
  | Skipped (s : walk)
  | Walked (s : walk).

(** if ((twin_idx == -1) && (curr_idx != -1)) *)
Definition enters_fallback (s : walk) : bool :=
  bool_decide (w_twin s = -1) && negb (bool_decide (w_curr s = -1)).

Definition boundary_fallback (fuel : nat) (v_idx orig_idx : Z) (s : walk)
  : outcome walked :=
  m ← shift_neighbors (Z.to_nat (w_i s - 1)) v_idx (w_i s) (w_mesh s);
  curr_edge ← GETPTR1 (halfedges m) orig_idx;
  let twin_idx := he_prev curr_edge in
  if decide (twin_idx = -1) then
    mret (Skipped (Walk m (w_i s) orig_idx twin_idx (w_normal s) (w_visited s)))
  else
  twin_edge ← GETPTR1 (halfedges m) twin_idx;
  let curr_idx := he_twin twin_edge in
  if decide (curr_idx = -1) then
    mret (Skipped (Walk m (w_i s) curr_idx twin_idx (w_normal s) (w_visited s)))
  else
  s ← while fuel (reverse_body v_idx orig_idx)
        (Walk m (w_i s + 1) curr_idx twin_idx (w_normal s) (w_visited s));
  mret (Walked s).

(** The state in which the first [while (1)] is entered. *)
Definition start_walk (v_idx orig_idx : Z) (m : mesh F) : outcome walk :=
  curr_edge ← GETPTR1 (halfedges m) orig_idx;
  vs ← SETPTR1 (vertices m) v_idx
         (with_neighbors (replicate NEIGHBORSIZE (-1)));
  mret (Walk (set_vertices vs m) 0 orig_idx (he_twin curr_edge) vzero []).

Definition forward_sweep (fuel : nat) (v_idx orig_idx : Z) (m : mesh F)
  : outcome walk :=
  s ← start_walk v_idx orig_idx m;
  while fuel (forward_body v_idx orig_idx) s.

Definition traverse (fuel : nat) (v_idx orig_idx : Z) (m : mesh F)
  : outcome walked :=
  s ← forward_sweep fuel v_idx orig_idx m;
  if enters_fallback s then boundary_fallback fuel v_idx orig_idx s
  else mret (Walked s).

(** curr_vertex->valence = i; then the normalised accumulated normal. *)
Definition finish (v_idx : Z) (s : walk) : outcome (mesh F) :=
  vs ← SETPTR1 (vertices (w_mesh s)) v_idx
         (fun cv => with_normal (normalized (w_normal s))
                      (with_valence (w_i s) cv));
  mret (set_vertices vs (w_mesh s)).

(** One pass of the [for] loop of [update_vertex_neighbors]. *)
Definition update_vertex (fuel : nat) (v_idx : Z) (m : mesh F)
  : outcome (mesh F) :=
  if decide (v_idx = -1) then mret m else
  curr_vertex ← GETPTR1 (vertices m) v_idx;
  let orig_idx := v_halfedge curr_vertex in
  if decide (orig_idx = -1) then mret m else
  r ← traverse fuel v_idx orig_idx m;
  match r with
  | Skipped s => mret (w_mesh s)
  | Walked s => finish v_idx s
  end.

Fixpoint update_vertex_neighbors (fuel : nat) (v_idxs : list Z) (m : mesh F)
  : outcome (mesh F) :=
  match v_idxs with
  | [] => mret m
  | v_idx :: rest =>
      m ← update_vertex fuel v_idx m;
      update_vertex_neighbors fuel rest m
  end.

(** *** Face normal and area *)

(** One pass of the [for] loop of [update_face_normals]. *)
Definition update_face (f_idx : Z) (m : mesh F) : outcome (mesh F) :=
  if decide (f_idx = -1) then mret m else
  curr_face ← GETPTR1 (faces m) f_idx;
  let curr_idx := f_halfedge curr_face in
  if decide (curr_idx = -1) then mret m else
  curr_edge ← GETPTR1 (halfedges m) curr_idx;
  let prev_idx := he_prev curr_edge in
  if decide (prev_idx = -1) then mret m else
  let next_idx := he_next curr_edge in
  if decide (next_idx = -1) then mret m else
  prev_edge ← GETPTR1 (halfedges m) prev_idx;
  next_edge ← GETPTR1 (halfedges m) next_idx;
  curr_vertex ← GETPTR1 (vertices m) (he_vertex curr_edge);
  prev_vertex ← GETPTR1 (vertices m) (he_vertex prev_edge);
  next_vertex ← GETPTR1 (vertices m) (he_vertex next_edge);
  let v1 := v_position curr_vertex in
  let u := vsub (v_position prev_vertex) v1 in
  let v := vsub (v_position next_vertex) v1 in
  let n := cross u v in
  fs ← SETPTR1 (faces m) f_idx
         (with_face_geometry (normalized n) (fhalf (norm n)));
  mret (set_faces fs m).

Fixpoint update_face_normals (f_idxs : list Z) (m : mesh F)
  : outcome (mesh F) :=
  match f_idxs with
  | [] => mret m
  | f_idx :: rest =>
      m ← update_face f_idx m;
      update_face_normals rest m
  end.
End Kernel.

Arguments walk F : clear implicits.
Arguments walked F : clear implicits.

(** ** IEEE binary32, the arithmetic of C [float]

    The operations are those of the Standard Library's executable
    specification of IEEE 754 at precision 24 and exponent bound 128.
    [sqrt] and the product by the [double] constant 0.5 are computed in
    binary64 and rounded when stored, as C does. *)
Module B32.
Import Floats.SpecFloat.

Definition float : Type := spec_float.

Definition of_double (x : spec_float) : float :=
  match x with
  | S754_finite s m e => binary_normalize 24 128 (cond_Zopp s (Zpos m)) e s
  | _ => x
  end.

Definition to_double (x : float) : spec_float :=
  match x with
  | S754_finite s m e => binary_normalize 53 1024 (cond_Zopp s (Zpos m)) e s
  | _ => x
  end.

(** The float of value [m * 2^e]. *)
Definition lit (m e : Z) : float := binary_normalize 24 128 m e false.

Definition zero : float := S754_zero false.
Definition one : float := lit 1 0.
Definition half : float := lit 1 (-1).

#[global] Instance ops : FloatOps float := {|
  f0 := zero;
  fadd := SFadd 24 128;
  fsub := SFsub 24 128;
  fmul := SFmul 24 128;
  fdiv := SFdiv 24 128;
  fsqrt := fun x => of_double (SFsqrt 53 1024 (to_double x));
  fhalf := fun x =>
    of_double (SFmul 53 1024 (binary_normalize 53 1024 1 (-1) false)
                     (to_double x));
  fgt0 := fun x => SFltb zero x
|}.
End B32.

(** ** What a binary float stands for, and what one rounding leaves *)
Module Rounding.
Import Floats.SpecFloat.

(** The power of two of exponent [e], a real number. *)
Definition bpow (e : Z) : R := powerRZ 2 e.

(** The value of a float that is a number; infinities and NaN count for
    zero, and are told apart by [finite]. *)
Definition value (x : spec_float) : R :=
  match x with
  | S754_finite s m e =>
      if s then (- (IZR (Z.pos m) * bpow e))%R else (IZR (Z.pos m) * bpow e)%R
  | _ => 0%R
  end.

(** [x] is a zero or a finite number in the format's canonical form. *)
Definition finite (prec emax : Z) (x : spec_float) : Prop :=
  match x with
  | S754_zero _ => True
  | S754_finite _ m e => bounded prec emax m e = true
  | _ => False
  end.

(** The sign bit of a float. *)
Definition sign_of (x : spec_float) : bool :=
  match x with
  | S754_zero s | S754_infinity s | S754_finite s _ _ => s
  | S754_nan => false
  end.

(** [located x m e l]: the real [x] lies in the slice that starts at
    [m * 2^e] and is [2^e] wide, at the place [l] tells: on its start, in
    its lower half, on its middle or in its upper half. *)
Definition located (x : R) (m e : Z) (l : location) : Prop :=
  match l with
  | loc_Exact => x = (IZR m * bpow e)%R
  | loc_Inexact Lt => (IZR m * bpow e < x < (IZR m + / 2) * bpow e)%R
  | loc_Inexact Eq => x = ((IZR m + / 2) * bpow e)%R
  | loc_Inexact Gt => ((IZR m + / 2) * bpow e < x < (IZR m + 1) * bpow e)%R
  end.

(** The relative and the absolute error of one rounding to nearest:
    half a unit in the last place, and half the smallest subnormal. *)
Definition eps (prec : Z) : R := bpow (- prec).
Definition eta (prec emax : Z) : R := bpow (emin prec emax - 1).

(** [rounded prec emax r z]: the float [z] is a number of the format, as
    close to the real [r] as one rounding leaves it, and on the same side
    of zero. *)
Definition rounded (prec emax : Z) (r : R) (z : spec_float) : Prop :=
  finite prec emax z /\
  (Rabs (value z - r) <= eps prec * Rabs r + eta prec emax)%R /\
  (0 <= r -> 0 <= value z)%R /\ (r <= 0 -> value z <= 0)%R.

(** Not below zero in the order of C: a zero of either sign, a positive
    number, plus infinity, or NaN, which compares false with everything. *)
Definition not_negative (x : spec_float) : Prop :=
  match x with
  | S754_finite true _ _ | S754_infinity true => False
  | _ => True
  end.
End Rounding.

(** ** Vectors of binary32 numbers, as vectors of real numbers *)
Module Tolerance.
Import Floats.SpecFloat B32 Rounding.

(** The length, a real number, of the vector that three binary32 numbers
    stand for. *)
Definition real_length (u : vec3 float) : R :=
  sqrt (value (vx u) * value (vx u) + value (vy u) * value (vy u)
        + value (vz u) * value (vz u)).

Definition finite3 (u : vec3 float) : Prop :=
  finite 24 128 (vx u) /\ finite 24 128 (vy u) /\ finite 24 128 (vz u).

(** The components are numbers of magnitude at most [2^60], and one of
    them has magnitude at least [2^-60]: far from overflow, and far
    enough from underflow that the squares of the larger components are
    normal numbers. *)
Definition well_scaled (n : vec3 float) : Prop :=
  finite3 n /\
  (Rabs (value (vx n)) <= bpow 60 /\ Rabs (value (vy n)) <= bpow 60 /\
   Rabs (value (vz n)) <= bpow 60)%R /\
  (bpow (-60) <= Rabs (value (vx n)) \/ bpow (-60) <= Rabs (value (vy n)) \/
   bpow (-60) <= Rabs (value (vz n)))%R.

(** A unit vector within floating-point tolerance: the length is within
    [2^-19], sixteen units in the last place of 1, of 1. *)
Definition near_unit (u : vec3 float) : Prop :=
  finite3 u /\ (Rabs (real_length u - 1) <= bpow (-19))%R.

(** All three components are zeros, of either sign. *)
Definition all_zero (n : vec3 float) : Prop :=
  (exists s, vx n = S754_zero s) /\ (exists s, vy n = S754_zero s) /\
  (exists s, vz n = S754_zero s).
End Tolerance.

(** ** Concrete meshes, over binary32 *)
Module Scenario.
Import B32.

Definition point (x y z : Z) : vec3 float := V3 (lit x 0) (lit y 0) (lit z 0).

Definition origin : vec3 float := point 0 0 0.

(** A vertex with nothing derived yet. *)
Definition fresh_vertex (N : nat) (p : vec3 float) (h : Z) : vertex_t float :=
  Vertex p origin h (-1) (replicate N (-1)).

(** The single triangle A=(0,0,0), B=(1,0,0), C=(0,1,0): vertices 0, 1,
    2, one face, three half-edges without twin, the ring running
    A -> C -> B -> A (half-edge 0 leaves A); [nrmA], [valA] and [nbA]
    are what A holds as normal, valence and neighbours beforehand. *)
Definition single_triangle (nrmA : vec3 float) (valA : Z) (nbA : list Z)
  : mesh float :=
  Mesh [Halfedge 2 0 (-1) 1 2 zero;      (* 0: A -> C *)
        Halfedge 1 0 (-1) 2 0 zero;      (* 1: C -> B *)
        Halfedge 0 0 (-1) 0 1 zero]      (* 2: B -> A *)
       [Vertex (point 0 0 0) nrmA 0 valA nbA;
        Vertex (point 1 0 0) origin 2 (-1) nbA;
        Vertex (point 0 1 0) origin 1 (-1) nbA]
       [Face 0 origin zero].

(** Triangle [k] of a fan around vertex 0: half-edges [3k] (0 -> P_k),
    [3k+1] (P_k -> P_k+1) and [3k+2] (P_k+1 -> 0); P_k is vertex
    [1 + k mod rim]. *)
Definition fan_triangle (n rim : nat) (closed : bool) (k : nat)
  : list (halfedge_t float) :=
  let a (j : nat) : Z := 3 * Z.of_nat j in
  let p (j : nat) : Z := 1 + Z.of_nat (j mod rim) in
  let before : Z :=
    match k with
    | O => if closed then a (n - 1)%nat + 2 else -1
    | S k' => a k' + 2
    end in
  let after : Z :=
    if decide (S k < n)%nat then a (S k) else if closed then a 0%nat else -1 in
  [Halfedge (p k) (Z.of_nat k) before (a k + 1) (a k + 2) zero;
   Halfedge (p (S k)) (Z.of_nat k) (-1) (a k + 2) (a k) zero;
   Halfedge 0 (Z.of_nat k) after (a k) (a k + 1) zero].

(** A fan of [n] triangles around vertex 0 at the origin, with rim
    vertices at [rim], closed or open, vertex 0 anchored at [anchor];
    the faces carry [geometry]. *)
Definition fan (N : nat) (rim : list (vec3 float)) (n : nat) (closed : bool)
    (anchor : Z) (geometry : nat -> vec3 float * float) : mesh float :=
  Mesh (flat_map (fan_triangle n (length rim) closed) (seq 0 n))
       (fresh_vertex N origin anchor
        :: imap (fun k p =>
                   fresh_vertex N p
                     (if decide (k < n)%nat then 3 * Z.of_nat k + 1
                      else 3 * Z.of_nat n - 1)) rim)
       (map (fun k => Face (3 * Z.of_nat k) (geometry k).1 (geometry k).2)
            (seq 0 n)).

Definition flat (k : nat) : vec3 float * float := (point 0 0 1, one).

(** Four triangles in the plane z = 0, open at both ends; the forward
    sweep from half-edge 9 collects 9, 6, 3, 0 and stops on the missing
    twin of 0. *)
Definition open_fan (N : nat) : mesh float :=
  fan N [point 2 0 0; point 2 1 0; point 1 2 0; point 0 2 0; point (-1) 2 0]
      4 false 9 flat.

(** Three triangles closing a ring around vertex 0. *)
Definition closed_fan (N : nat) : mesh float :=
  fan N [point 1 0 0; point 0 1 0; point (-1) (-1) 0] 3 true 0 flat.

(** The ring of [closed_fan] with a face that stands out: face 1, the
    face of half-edge 3, holds the normal (1,0,0) and the area 5, the two
    others the normal (0,0,1) and the area 1. *)
Definition tilted (k : nat) : vec3 float * float :=
  if decide (k = 1%nat) then (point 1 0 0, lit 5 0) else (point 0 0 1, one).

Definition tilted_fan (N : nat) : mesh float :=
  fan N [point 1 0 0; point 0 1 0; point (-1) (-1) 0] 3 true 0 tilted.

(** Two triangles on the same three vertices, back to back: faces 0
    (ring A -> C -> B) and 1 (ring A -> B -> C), every half-edge with
    its twin in the other face. *)
Definition pillow (N : nat) : mesh float :=
  Mesh [Halfedge 2 0 5 1 2 zero;        (* 0: A -> C *)
        Halfedge 1 0 4 2 0 zero;        (* 1: C -> B *)
        Halfedge 0 0 3 0 1 zero;        (* 2: B -> A *)
        Halfedge 1 1 2 4 5 zero;        (* 3: A -> B *)
        Halfedge 2 1 1 5 3 zero;        (* 4: B -> C *)
        Halfedge 0 1 0 3 4 zero]        (* 5: C -> A *)
       [fresh_vertex N (point 0 0 0) 0;
        fresh_vertex N (point 1 0 0) 2;
        fresh_vertex N (point 0 1 0) 1]
       [Face 0 origin zero; Face 3 origin zero].

(** The single triangle and a fourth vertex, with no half-edge. *)
Definition triangle_and_isolated (N : nat) : mesh float :=
  let t := single_triangle origin (-1) (replicate N (-1)) in
  Mesh (halfedges t)
       (vertices t ++ [Vertex (point 5 5 5) (point 0 0 1) (-1) 4 [1; 2]])
       (faces t).

(** The single triangle scaled by [2^e]: A=(0,0,0), B=(2^e,0,0),
    C=(0,2^e,0). *)
Definition scaled_triangle (e : Z) : mesh float :=
  Mesh (halfedges (single_triangle origin (-1) []))
       [Vertex origin origin 0 (-1) [];
        Vertex (V3 (lit 1 e) zero zero) origin 2 (-1) [];
        Vertex (V3 zero (lit 1 e) zero) origin 1 (-1) []]
       [Face 0 origin zero].

(** An edge A - C whose twin has lost its [next]. *)
Definition torn (N : nat) : mesh float :=
  Mesh [Halfedge 1 0 1 (-1) (-1) zero;  (* 0: A -> C *)
        Halfedge 0 0 0 (-1) (-1) zero]  (* 1: C -> A *)
       [fresh_vertex N (point 0 0 0) 0; fresh_vertex N (point 0 1 0) 1]
       [Face 0 (point 0 0 1) half].
End Scenario.

(** More concrete meshes. *)
Module Probe.
Import B32 Scenario.

(** The open fan of [open_fan], vertex 0 anchored at [anchor]. *)
Definition open_fan_at (N : nat) (anchor : Z) : mesh float :=
  fan N [point 2 0 0; point 2 1 0; point 1 2 0; point 0 2 0; point (-1) 2 0]
      4 false anchor flat.

(** A sweep that never comes back: from the anchor 0 the sweep steps to
    half-edge 2, and from 2 to 2 again. *)
Definition lasso (N : nat) : mesh float :=
  Mesh [Halfedge 1 0 1 (-1) (-1) zero;
        Halfedge 0 0 0 2 (-1) zero;
        Halfedge 1 0 3 (-1) (-1) zero;
        Halfedge 0 0 2 2 (-1) zero]
       [fresh_vertex N (point 0 0 0) 0; fresh_vertex N (point 0 1 0) 1]
       [Face 0 (point 0 0 1) half].

End Probe.

(** * Vocabulary of the statements *)

Section Vocabulary.
Context {F : Type} {FO : FloatOps F}.

(** The three corners of a face, as [update_face] resolves them: the
    vertices that [h], [prev(h)] and [next(h)] point to. *)
Definition corners (m : mesh F) (f : Z) (c0 c1 c2 : vec3 F) : Prop :=
  exists cf ce pe ne v0 v1 v2,
    GETPTR1 (faces m) f = Done cf /\
    f_halfedge cf <> -1 /\ GETPTR1 (halfedges m) (f_halfedge cf) = Done ce /\
    he_prev ce <> -1 /\ GETPTR1 (halfedges m) (he_prev ce) = Done pe /\
    he_next ce <> -1 /\ GETPTR1 (halfedges m) (he_next ce) = Done ne /\
    GETPTR1 (vertices m) (he_vertex ce) = Done v0 /\
    GETPTR1 (vertices m) (he_vertex pe) = Done v1 /\
    GETPTR1 (vertices m) (he_vertex ne) = Done v2 /\
    c0 = v_position v0 /\ c1 = v_position v1 /\ c2 = v_position v2.

(** Face [f] holds area [a] and normal [n]. *)
Definition face_geometry (m : mesh F) (f : Z) (n : vec3 F) (a : F) : Prop :=
  exists cf, GETPTR1 (faces m) f = Done cf /\ f_normal cf = n /\ f_area cf = a.

(** The link fields of a half-edge: all but [length]. *)
Definition links (h : halfedge_t F) : Z * Z * Z * Z * Z :=
  (he_vertex h, he_face h, he_twin h, he_next h, he_prev h).

(** The input fields of a vertex. *)
Definition core (cv : vertex_t F) : vec3 F * Z :=
  (v_position cv, v_halfedge cv).

(** All of a vertex but its neighbour slots. *)
Definition kept (cv : vertex_t F) : vec3 F * vec3 F * Z * Z :=
  (v_position cv, v_normal cv, v_halfedge cv, v_valence cv).

(** [wframe v m m']: [m'] differs from [m] at most in the length of
    half-edges and in the neighbour slots of vertex [v]. *)
Definition wframe (v : Z) (m m' : mesh F) : Prop :=
  faces m' = faces m /\
  links <$> halfedges m' = links <$> halfedges m /\
  kept <$> vertices m' = kept <$> vertices m /\
  (forall n, n <> Z.to_nat v -> vertices m' !! n = vertices m !! n).

(** [frame v m m']: [m'] differs from [m] at most in the length of
    half-edges and in the derived fields of vertex [v]. *)
Definition frame (v : Z) (m m' : mesh F) : Prop :=
  faces m' = faces m /\
  links <$> halfedges m' = links <$> halfedges m /\
  core <$> vertices m' = core <$> vertices m /\
  (forall n, n <> Z.to_nat v -> vertices m' !! n = vertices m !! n).

Definition mesh_of (r : walked F) : mesh F :=
  match r with Skipped s | Walked s => w_mesh s end.

(** The face a half-edge belongs to, as [record_neighbor] fetches it. *)
Definition face_of (m : mesh F) (e : Z) : outcome (face_t F) :=
  ce ← GETPTR1 (halfedges m) e;
  GETPTR1 (faces m) (he_face ce).

(** The area-weighted sum of the normals of the faces of [es], in the
    order of [es]. *)
Definition ring_normal (m : mesh F) (es : list Z) : vec3 F :=
  foldl (fun acc e =>
           match face_of m e with
           | Done cf => accumulate acc (f_normal cf) (f_area cf)
           | _ => acc
           end) vzero es.

(** [n] scaled by [a], and the sum of two vectors, component by
    component. *)
Definition weighted (n : vec3 F) (a : F) : vec3 F :=
  V3 (fmul (vx n) a) (fmul (vy n) a) (fmul (vz n) a).

Definition vadd (a b : vec3 F) : vec3 F :=
  V3 (fadd (vx a) (vx b)) (fadd (vy a) (vy b)) (fadd (vz a) (vz b)).

(** The area-weighted normal of the design document for the half-edges
    [es]: starting from zero, the normal of the face of each half-edge
    times the area of that face is added, in the order of [es]. *)
Definition face_sum (m : mesh F) (es : list Z) : vec3 F :=
  foldl (fun acc e =>
           match face_of m e with
           | Done cf => vadd acc (weighted (f_normal cf) (f_area cf))
           | _ => acc
           end) vzero es.

(** The distance from vertex [v] to the vertex half-edge [e] points to. *)
Definition length_of (m : mesh F) (v e : Z) : F :=
  match edge_length v e m with
  | Done l => l
  | _ => f0
  end.

Definition put_length (e : Z) (l : F) (hs : list (halfedge_t F))
  : list (halfedge_t F) :=
  if decide (0 <= e) then alter (with_length l) (Z.to_nat e) hs else hs.

(** The half-edge array after the length writes of a log of visits: at
    each entry [(e, p)], the length of [e] goes to [e] and to [p]. *)
Definition replay_lengths (m : mesh F) (v : Z) (log : list (Z * Z))
    (hs : list (halfedge_t F)) : list (halfedge_t F) :=
  foldl (fun hs ep =>
           put_length ep.2 (length_of m v ep.1)
             (put_length ep.1 (length_of m v ep.1) hs)) hs log.

(** The neighbour slots after the visits [es] of a forward sweep. *)
Definition slots (N : nat) (es : list Z) : list Z :=
  take N es ++ replicate (N - length es) (-1).
(** The walk state [m], [n], [log] against the mesh [m0] the traversal
    started from: [m] differs from [m0] by the neighbour slots of [v] and
    the lengths of the log, and [n] sums the first [N] visits. *)
Definition tracked (N : nat) (m0 : mesh F) (v : Z) (m : mesh F) (n : vec3 F)
      (log : list (Z * Z)) : Prop :=
    wframe v m0 m /\
    n = ring_normal m0 (take N log.*1) /\
    halfedges m = replay_lengths m0 v log (halfedges m0).

(** The neighbour slots of vertex [v] are [nb]. *)
Definition neighbors_are (m : mesh F) (v : Z) (nb : list Z) : Prop :=
  exists cv, GETPTR1 (vertices m) v = Done cv /\ v_neighbors cv = nb.

(** What holds each time the first loop is at its top. *)
Definition forward_top (N : nat) (m0 : mesh F) (v orig : Z) (s : walk F) : Prop :=
  tracked N m0 v (w_mesh s) (w_normal s) (w_visited s) /\
  neighbors_are (w_mesh s) v (slots N (w_visited s).*1) /\
  w_i s = Z.of_nat (length (w_visited s)) /\
  0 <= w_curr s /\
  exists ce0, GETPTR1 (halfedges m0) orig = Done ce0 /\
    match w_visited s with
    | [] => w_twin s = he_twin ce0
    | _ => he_twin ce0 <> -1
    end.

(** What holds when the first loop is left: it stopped either on an edge
    without twin, which is logged but not counted, or back on the
    anchor. *)
Definition forward_exit (N : nat) (m0 : mesh F) (v orig : Z) (s : walk F) : Prop :=
  tracked N m0 v (w_mesh s) (w_normal s) (w_visited s) /\
  neighbors_are (w_mesh s) v (slots N (w_visited s).*1) /\
  0 <= w_curr s /\
  ((w_twin s = -1 /\ 0 <= w_i s /\
    w_i s + 1 = Z.of_nat (length (w_visited s))) \/
   (w_twin s <> -1 /\ w_curr s = orig /\
    w_i s = Z.of_nat (length (w_visited s)))).

(** [e] is a half-edge with its face and the vertex it points to in the
    mesh, it has a twin, and the twin's [next] is [e']: the forward sweep
    steps from [e] to [e']. *)
Definition ring_step (m : mesh F) (e e' : Z) : Prop :=
  exists h t lv cf,
    GETPTR1 (halfedges m) e = Done h /\ he_twin h <> -1 /\
    GETPTR1 (halfedges m) (he_twin h) = Done t /\ he_next t = e' /\
    GETPTR1 (vertices m) (he_vertex h) = Done lv /\
    GETPTR1 (faces m) (he_face h) = Done cf.

(** The forward sweep steps from [e] through [rest] and then to [last]. *)
Fixpoint ring_path (m : mesh F) (e : Z) (rest : list Z) (last : Z) : Prop :=
  match rest with
  | [] => ring_step m e last
  | e' :: rest' => ring_step m e e' /\ ring_path m e' rest' last
  end.

(** [ring] is the closed ring of vertex [v]: it starts at the anchor of
    [v], every edge of it has a twin, its face and its end vertex, and the
    sweep comes back to the anchor after the last edge and not before. *)
Definition closed_ring (m : mesh F) (v : Z) (ring : list Z) : Prop :=
  exists cv rest,
    GETPTR1 (vertices m) v = Done cv /\ v_halfedge cv <> -1 /\
    ring = v_halfedge cv :: rest /\ (v_halfedge cv ∉ rest) /\
    ring_path m (v_halfedge cv) rest (v_halfedge cv).

(** The [twin] field of half-edge [e]. *)
Definition twin_of (m : mesh F) (e : Z) : Z :=
  match GETPTR1 (halfedges m) e with
  | Done h => he_twin h
  | _ => -1
  end.

Definition state_of (r : walked F) : walk F :=
  match r with Skipped s | Walked s => s end.

(** What holds each time the second loop is at its top. *)
Definition reverse_top (N : nat) (m0 : mesh F) (v : Z) (s : walk F) : Prop :=
  tracked N m0 v (w_mesh s) (w_normal s) (w_visited s) /\
  w_i s = Z.of_nat (length (w_visited s)).

(** What holds when a traversal is over: the counter is the number of
    visits, or one less when the last visit ended the walk. *)
Definition counted (N : nat) (m0 : mesh F) (v : Z) (s : walk F) : Prop :=
  tracked N m0 v (w_mesh s) (w_normal s) (w_visited s) /\
  (w_i s = Z.of_nat (length (w_visited s)) \/
   w_i s + 1 = Z.of_nat (length (w_visited s))).

(** One pass of the shift loop on the slots: [nb[k]] and [nb[k-1]] change
    places. *)
Definition swap_slots (k : nat) (nb : list Z) : list Z :=
  match nb !! k, nb !! (k - 1)%nat with
  | Some a, Some b => <[(k - 1)%nat := a]> (<[k := b]> nb)
  | _, _ => nb
  end.

(** [n] passes of the shift loop, from slot [k] down. *)
Fixpoint shifted (n k : nat) (nb : list Z) : list Z :=
  match n with
  | O => nb
  | S n' => shifted n' (k - 1) (swap_slots k nb)
  end.
End Vocabulary.

(** * Conditions and relations of the further statements *)

Section Conditions.
Context {F : Type} {FO : FloatOps F}.

(** [i] indexes a record of [arr]. *)
Definition in_range {A : Type} (arr : list A) (i : Z) : Prop :=
  0 <= i < Z.of_nat (length arr).

(** [i] is the sentinel or indexes a record of [arr]. *)
Definition link {A : Type} (arr : list A) (i : Z) : Prop :=
  i = -1 \/ in_range arr i.

(** Every index stored in the mesh is the sentinel or stays inside its
    array; the vertex and the face of a half-edge are never the
    sentinel. *)
Definition linked (m : mesh F) : Prop :=
  Forall (fun h => in_range (vertices m) (he_vertex h) /\
                   in_range (faces m) (he_face h) /\
                   link (halfedges m) (he_twin h) /\
                   link (halfedges m) (he_next h) /\
                   link (halfedges m) (he_prev h)) (halfedges m) /\
  Forall (fun cf => link (halfedges m) (f_halfedge cf)) (faces m) /\
  Forall (fun cv => link (halfedges m) (v_halfedge cv)) (vertices m).

(** Every half-edge has a [next]. *)
Definition all_next (m : mesh F) : Prop :=
  Forall (fun h => he_next h <> -1) (halfedges m).

(** What holds at the top of the first loop on a linked mesh:
    [forward_top], with [twin_idx] the twin of a [curr_idx] that is in
    the array. *)
Definition forward_inv (N : nat) (m : mesh F) (v orig : Z) (s : walk F) : Prop :=
  forward_top N m v orig s /\
  w_twin s = twin_of m (w_curr s) /\ in_range (halfedges m) (w_curr s).

(** What holds at the top of the second loop on a linked mesh. *)
Definition reverse_inv (N : nat) (m : mesh F) (v : Z) (s : walk F) : Prop :=
  wframe v m (w_mesh s) /\
  (exists nb, neighbors_are (w_mesh s) v nb /\ length nb = N) /\
  0 <= w_i s /\
  in_range (halfedges m) (w_curr s) /\ in_range (halfedges m) (w_twin s).

(** The largest value of a C [int], the type of the counter [i]: the
    statements that follow a sweep with no end in sight are about its
    passes up to that number, since [++i] beyond it is not defined. *)
Definition INT_MAX : Z := 2147483647.

(** [spins body n s s']: from [s], [n] passes through the loop body, each
    of which ends by going on, lead to [s']. *)
Inductive spins {St : Type} (body : St -> outcome (ctl St))
  : nat -> St -> St -> Prop :=
  | spins_O (s : St) : spins body O s s
  | spins_S (n : nat) (s s1 s' : St) :
      body s = Done (Continue s1) -> spins body n s1 s' ->
      spins body (S n) s s'.

(** The [prev] field of half-edge [e]. *)
Definition prev_of (m : mesh F) (e : Z) : Z :=
  match GETPTR1 (halfedges m) e with
  | Done h => he_prev h
  | _ => -1
  end.

(** The forward sweep steps from [e] through [rest] and stops on the last
    of them, a half-edge of the mesh without twin. *)
Fixpoint open_path (m : mesh F) (e : Z) (rest : list Z) : Prop :=
  match rest with
  | [] => exists h, GETPTR1 (halfedges m) e = Done h /\ he_twin h = -1
  | e' :: rest' => ring_step m e e' /\ open_path m e' rest'
  end.

(** The reverse sweep steps from [e] through [rest] (each the twin of
    the [prev] of the one before) and stops on the last of them, whose
    [prev] is missing or has no twin. *)
Fixpoint back_path (m : mesh F) (e : Z) (rest : list Z) : Prop :=
  match rest with
  | [] => exists h, GETPTR1 (halfedges m) e = Done h /\
                    (he_prev h = -1 \/ twin_of m (he_prev h) = -1)
  | e' :: rest' =>
      (exists h, GETPTR1 (halfedges m) e = Done h /\ he_prev h <> -1 /\
                 twin_of m (he_prev h) = e' /\ e' <> -1) /\
      back_path m e' rest'
  end.

(** The last entry moved to the front. *)
Definition last_first (l : list Z) : list Z :=
  match reverse l with
  | [] => []
  | x :: r => x :: reverse r
  end.

(** The log of a reverse sweep from [e] through [rest]: each half-edge
    with the [prev] of the one before. *)
Fixpoint back_log (m : mesh F) (e : Z) (rest : list Z) : list (Z * Z) :=
  match rest with
  | [] => []
  | e' :: rest' => (e', prev_of m e) :: back_log m e' rest'
  end.

(** Two runs end the same way, with results related by [R]. *)
Definition orel {A B : Type} (R : A -> B -> Prop)
    (c1 : outcome A) (c2 : outcome B) : Prop :=
  match c1, c2 with
  | Done a, Done b => R a b
  | Fault, Fault => True
  | Timeout, Timeout => True
  | _, _ => False
  end.

(** Two meshes with the same inputs of a pass on vertex [v]: the faces,
    the links of the half-edges, the positions and anchors of the
    vertices, and the neighbour slots of [v] (which the pass resets
    before it reads them). *)
Definition same_inputs (v : Z) (m1 m2 : mesh F) : Prop :=
  faces m1 = faces m2 /\
  links <$> halfedges m1 = links <$> halfedges m2 /\
  core <$> vertices m1 = core <$> vertices m2 /\
  v_neighbors <$> vertices m1 !! Z.to_nat v
    = v_neighbors <$> vertices m2 !! Z.to_nat v.

(** Two meshes with the same given data: the faces, the links of the
    half-edges, the positions and anchors of the vertices.  They may
    differ in every field the vertex kernel writes. *)
Definition same_given (m1 m2 : mesh F) : Prop :=
  faces m1 = faces m2 /\
  links <$> halfedges m1 = links <$> halfedges m2 /\
  core <$> vertices m1 = core <$> vertices m2.

(** Two walks in the same state, on meshes with the same inputs. *)
Definition same_walk (v : Z) (s1 s2 : walk F) : Prop :=
  w_i s1 = w_i s2 /\ w_curr s1 = w_curr s2 /\ w_twin s1 = w_twin s2 /\
  w_normal s1 = w_normal s2 /\ w_visited s1 = w_visited s2 /\
  same_inputs v (w_mesh s1) (w_mesh s2).

(** Two passes through a loop body that ended the same way. *)
Definition same_ctl {S : Type} (R : S -> S -> Prop) (c1 c2 : ctl S) : Prop :=
  match c1, c2 with
  | Continue a, Continue b | Break a, Break b => R a b
  | _, _ => False
  end.

(** Two traversals that ended the same way, in the same state. *)
Definition same_walked (v : Z) (r1 r2 : walked F) : Prop :=
  match r1, r2 with
  | Skipped s1, Skipped s2 | Walked s1, Walked s2 => same_walk v s1 s2
  | _, _ => False
  end.

(** The mesh after the write of [update_face] on face [f], whose record
    was [cf] and whose corners are [c0], [c1], [c2]. *)
Definition face_written (m : mesh F) (f : Z) (cf : face_t F)
    (c0 c1 c2 : vec3 F) : mesh F :=
  let n := cross (vsub c1 c0) (vsub c2 c0) in
  set_faces
    (<[Z.to_nat f := with_face_geometry (normalized n) (fhalf (norm n)) cf]>
       (faces m)) m.

(** The face record [cf] lacks its anchor, or its anchor lacks its
    [prev] or its [next]. *)
Definition face_unlinked (m : mesh F) (cf : face_t F) : Prop :=
  f_halfedge cf = -1 \/
  exists ce, GETPTR1 (halfedges m) (f_halfedge cf) = Done ce /\
             (he_prev ce = -1 \/ he_next ce = -1).
(** The vertex half-edge [e] points to. *)
Definition target_of (m : mesh F) (e : Z) : Z :=
  match GETPTR1 (halfedges m) e with
  | Done h => he_vertex h
  | _ => -1
  end.

(** The vertex half-edge [e] leaves: the one its [prev] points to. *)
Definition source_of (m : mesh F) (e : Z) : Z := target_of m (prev_of m e).

(** The half-edges fit together as those of a triangulation do (the
    invariants on entry of the design document): a half-edge is the twin
    of its twin, and the twin runs the other way between the same two
    vertices; [prev] undoes [next]; the anchor of a vertex leaves that
    vertex. *)
Definition consistent (m : mesh F) : Prop :=
  (forall e h, GETPTR1 (halfedges m) e = Done h -> he_twin h <> -1 ->
     twin_of m (he_twin h) = e /\
     source_of m (he_twin h) = he_vertex h /\
     target_of m (he_twin h) = source_of m e) /\
  (forall e h, GETPTR1 (halfedges m) e = Done h -> he_next h <> -1 ->
     prev_of m (he_next h) = e) /\
  (forall v cv, GETPTR1 (vertices m) v = Done cv -> v_halfedge cv <> -1 ->
     source_of m (v_halfedge cv) = v).

(** An entry of the log of the pass on [v], on a consistent mesh: a
    half-edge that leaves [v] and whose length can be taken, with its
    twin. *)
Definition visit_of (m : mesh F) (v : Z) (ep : Z * Z) : Prop :=
  source_of m ep.1 = v /\ ep.2 = twin_of m ep.1 /\
  exists l, edge_length v ep.1 m = Done l.

(** What holds each time either loop is at its top, on a consistent
    mesh. *)
Definition sweep_inv (m : mesh F) (v : Z) (s : walk F) : Prop :=
  wframe v m (w_mesh s) /\
  w_twin s = twin_of m (w_curr s) /\ source_of m (w_curr s) = v /\
  Forall (visit_of m v) (w_visited s).

(** What holds when either loop is left. *)
Definition sweep_exit (m : mesh F) (v : Z) (s : walk F) : Prop :=
  wframe v m (w_mesh s) /\ Forall (visit_of m v) (w_visited s).

(** Half-edges [e] and [t] both hold the length [l]. *)
Definition both_hold (hs : list (halfedge_t F)) (e t : Z) (l : F) : Prop :=
  exists he te,
    hs !! Z.to_nat e = Some he /\ hs !! Z.to_nat t = Some te /\
    he_length he = l /\ he_length te = l.
End Conditions.

(** * Properties *)

(** ** The outcome monad and array access *)

Lemma bind_Done {A B : Type} (c : outcome A) (k : A -> outcome B) (r : B) :
  c ≫= k = Done r <-> exists a, c = Done a /\ k a = Done r.
Proof.
  destruct c as [a| |]; simpl; split.
  - intros H. exists a. done.
  - intros (a' & [= <-] & H). done.
  - done.
  - intros (a' & [=] & _).
  - done.
  - intros (a' & [=] & _).
Qed.

Lemma GETPTR1_Done {A : Type} (arr : list A) (i : Z) (x : A) :
  GETPTR1 arr i = Done x <-> 0 <= i /\ arr !! Z.to_nat i = Some x.
Proof.
  unfold GETPTR1. case_decide.
  - destruct (arr !! Z.to_nat i) as [y|]; split.
    + intros [= ->]. done.
    + intros [_ [= ->]]. done.
    + done.
    + intros [_ [=]].
  - split; [done | lia].
Qed.

Lemma GETPTR1_lookup {A : Type} (arr : list A) (n : nat) (x : A) :
  arr !! n = Some x -> GETPTR1 arr (Z.of_nat n) = Done x.
Proof.
  intros H. apply GETPTR1_Done. rewrite Nat2Z.id. split; [lia | done].
Qed.

Lemma SETPTR1_Done {A : Type} (arr arr' : list A) (i : Z) (f : A -> A) :
  SETPTR1 arr i f = Done arr' <->
  exists x, 0 <= i /\ arr !! Z.to_nat i = Some x /\
            arr' = <[Z.to_nat i := f x]> arr.
Proof.
  unfold SETPTR1. case_decide.
  - destruct (arr !! Z.to_nat i) as [y|]; split.
    + intros [= <-]. exists y. done.
    + intros (x & _ & [= <-] & ->). done.
    + done.
    + intros (x & _ & [=] & _).
  - split; [done | intros (x & ? & _); lia].
Qed.

Lemma SETPTR1_lookup {A : Type} (arr : list A) (i : Z) (f : A -> A) (x : A) :
  GETPTR1 arr i = Done x -> SETPTR1 arr i f = Done (<[Z.to_nat i := f x]> arr).
Proof.
  intros [Hi Hx]%GETPTR1_Done. apply SETPTR1_Done. exists x. done.
Qed.

(** A write through the pointer leaves every other slot alone, and the slot
    it hits holds [f] of the old record. *)
Lemma SETPTR1_other {A : Type} (arr arr' : list A) (i : Z) (f : A -> A) (n : nat) :
  SETPTR1 arr i f = Done arr' -> n <> Z.to_nat i -> arr' !! n = arr !! n.
Proof.
  intros (x & Hi & Hx & ->)%SETPTR1_Done Hne.
  by rewrite list_lookup_insert_ne.
Qed.

Lemma SETPTR1_same {A : Type} (arr arr' : list A) (i : Z) (f : A -> A) :
  SETPTR1 arr i f = Done arr' ->
  exists x, arr !! Z.to_nat i = Some x /\ arr' !! Z.to_nat i = Some (f x).
Proof.
  intros (x & Hi & Hx & ->)%SETPTR1_Done. exists x. split; [done|].
  apply list_lookup_insert_eq. by eapply lookup_lt_Some.
Qed.

Lemma SETPTR1_map {A B : Type} (g : A -> B) (arr arr' : list A) (i : Z)
    (f : A -> A) :
  (forall x, g (f x) = g x) ->
  SETPTR1 arr i f = Done arr' -> g <$> arr' = g <$> arr.
Proof.
  intros Hg (x & Hi & Hx & ->)%SETPTR1_Done.
  rewrite list_fmap_insert, Hg. apply list_insert_id.
  by rewrite list_lookup_fmap, Hx.
Qed.

Lemma SETPTR1_length {A : Type} (arr arr' : list A) (i : Z) (f : A -> A) :
  SETPTR1 arr i f = Done arr' -> length arr' = length arr.
Proof.
  intros (x & Hi & Hx & ->)%SETPTR1_Done. apply length_insert.
Qed.

(** An invariant [P] of the body, with [Q] at each [break], gives [Q]
    after the loop. *)
Lemma while_invariant {S : Type} (P Q : S -> Prop) (body : S -> outcome (ctl S)) :
  (forall s s', P s -> body s = Done (Continue s') -> P s') ->
  (forall s s', P s -> body s = Done (Break s') -> Q s') ->
  forall fuel s s', P s -> while fuel body s = Done s' -> Q s'.
Proof.
  intros Hc Hb fuel. induction fuel as [|fuel IH]; intros s s' Hs; simpl.
  - done.
  - destruct (body s) as [[s1|s1]| |] eqn:E; try done.
    + intros H. eapply IH; [|exact H]. eauto.
    + intros [= <-]. eauto.
Qed.

(** More fuel does not change a result. *)
Lemma while_fuel_mono {S : Type} (body : S -> outcome (ctl S)) :
  forall fuel fuel' s s', (fuel <= fuel')%nat ->
    while fuel body s = Done s' -> while fuel' body s = Done s'.
Proof.
  induction fuel as [|fuel IH]; intros fuel' s s' Hle; simpl; [done|].
  destruct fuel' as [|fuel']; [lia|]. simpl.
  destruct (body s) as [[s1|s1]| |]; try done.
  apply IH. lia.
Qed.

(** ** Face normal and area *)

Section FaceEngine.
Context {F : Type} {FO : FloatOps F}.
Implicit Types (m : mesh F) (f : Z).

(** What [update_face] leaves alone: the two other arrays, the anchor of
    every face, and every face but the one it is called on. *)
Lemma update_face_frame f m m' :
  update_face f m = Done m' ->
  halfedges m' = halfedges m /\ vertices m' = vertices m /\
  f_halfedge <$> faces m' = f_halfedge <$> faces m /\
  (forall n, n <> Z.to_nat f -> faces m' !! n = faces m !! n).
Proof.
  unfold update_face. intros H.
  repeat first
    [ case_decide; [by injection H as <- |]
    | apply bind_Done in H; destruct H as (? & ? & H) ].
  injection H as <-. simpl. repeat split.
  - eapply SETPTR1_map; [|eassumption]. done.
  - intros n Hn. eapply SETPTR1_other; eassumption.
Qed.

Lemma update_face_normals_frame f_idxs m m' :
  update_face_normals f_idxs m = Done m' ->
  halfedges m' = halfedges m /\ vertices m' = vertices m /\
  f_halfedge <$> faces m' = f_halfedge <$> faces m.
Proof.
  revert m. induction f_idxs as [|f rest IH]; intros m; simpl.
  - by intros [= <-].
  - intros (m1 & H1 & H2)%bind_Done.
    apply IH in H2 as (-> & -> & ->).
    by apply update_face_frame in H1 as (-> & -> & -> & _).
Qed.

Lemma corners_frame m m' f c0 c1 c2 :
  halfedges m' = halfedges m -> vertices m' = vertices m ->
  f_halfedge <$> faces m' = f_halfedge <$> faces m ->
  corners m f c0 c1 c2 -> corners m' f c0 c1 c2.
Proof.
  intros Hh Hv Hf (cf & ce & pe & ne & v0 & v1 & v2 & Hcf & H).
  apply GETPTR1_Done in Hcf as [Hf0 Hcf].
  assert (Hl : (f_halfedge <$> faces m') !! Z.to_nat f = Some (f_halfedge cf))
    by (by rewrite Hf, list_lookup_fmap, Hcf).
  rewrite list_lookup_fmap in Hl.
  destruct (faces m' !! Z.to_nat f) as [cf'|] eqn:E; [|done].
  injection Hl as Hl.
  exists cf', ce, pe, ne, v0, v1, v2. rewrite Hh, Hv, Hl.
  split; [by apply GETPTR1_Done | done].
Qed.

Lemma update_face_at f m c0 c1 c2 :
  f <> -1 -> corners m f c0 c1 c2 ->
  let n := cross (vsub c1 c0) (vsub c2 c0) in
  exists m', update_face f m = Done m' /\
             face_geometry m' f (normalized n) (fhalf (norm n)).
Proof.
  intros Hf (cf & ce & pe & ne & v0 & v1 & v2 & Hcf & Hh & Hce & Hp & Hpe
             & Hn & Hne & Hv0 & Hv1 & Hv2 & -> & -> & ->) n.
  unfold update_face.
  rewrite decide_False by done. rewrite Hcf. simpl.
  rewrite decide_False by done. rewrite Hce. simpl.
  rewrite decide_False by done. rewrite decide_False by done.
  rewrite Hpe. simpl. rewrite Hne. simpl.
  rewrite Hv0, Hv1, Hv2. simpl.
  erewrite SETPTR1_lookup by eassumption. simpl.
  eexists. split; [done|].
  apply GETPTR1_Done in Hcf as [Hf0 Hcf].
  eexists. split.
  - apply GETPTR1_Done. split; [done|]. simpl.
    apply list_lookup_insert_eq. by eapply lookup_lt_Some.
  - done.
Qed.

Lemma update_face_other g f m m' n a :
  update_face g m = Done m' -> g <> f ->
  face_geometry m f n a -> face_geometry m' f n a.
Proof.
  intros Hu Hne (cf & [Hf0 Hcf]%GETPTR1_Done & Hn & Ha).
  destruct (decide (0 <= g)) as [Hg|Hg].
  - apply update_face_frame in Hu as (_ & _ & _ & Ho).
    exists cf. split; [|done]. apply GETPTR1_Done. split; [done|].
    rewrite Ho; [done|]. lia.
  - unfold update_face in Hu. case_decide.
    + injection Hu as <-. exists cf. split; [by apply GETPTR1_Done | done].
    + apply bind_Done in Hu as (? & [? _]%GETPTR1_Done & _). lia.
Qed.

Lemma update_face_normals_keeps f_idxs f m m' c0 c1 c2 :
  f <> -1 -> corners m f c0 c1 c2 ->
  let n := cross (vsub c1 c0) (vsub c2 c0) in
  f ∈ f_idxs \/ face_geometry m f (normalized n) (fhalf (norm n)) ->
  update_face_normals f_idxs m = Done m' ->
  face_geometry m' f (normalized n) (fhalf (norm n)).
Proof.
  intros Hf Hc n. revert m Hc.
  induction f_idxs as [|g rest IH]; intros m Hc Hin; simpl.
  - intros [= <-]. destruct Hin as [Hin|Hin]; [|done].
    by apply elem_of_nil in Hin.
  - intros (m1 & H1 & H2)%bind_Done.
    assert (Hc1 : corners m1 f c0 c1 c2).
    { pose proof (update_face_frame _ _ _ H1) as (Ha & Hb & Hd & _).
      by eapply corners_frame. }
    apply (IH m1 Hc1); [|done].
    destruct (decide (g = f)) as [->|Hne].
    + right. destruct (update_face_at f m c0 c1 c2 Hf Hc) as (m2 & Hm2 & Hg).
      rewrite H1 in Hm2. by injection Hm2 as ->.
    + destruct Hin as [Hin|Hin].
      * left. apply elem_of_cons in Hin as [->|Hin]; done.
      * right. by eapply update_face_other.
Qed.

(** C7.  A face whose anchor [h], [prev(h)] and [next(h)] are all present
    gets, from any batch of [update_face_normals] that names it, the area
    0.5 * norm(cross(c1 - c0, c2 - c0)) and the normal cross/norm when
    the norm is positive and the zero vector otherwise, for c0, c1, c2
    the positions that [h], [prev(h)] and [next(h)] point to; the batch
    made of that face alone runs to the end. *)
Theorem update_face_normals_geometry f m c0 c1 c2 :
  f <> -1 -> corners m f c0 c1 c2 ->
  let n := cross (vsub c1 c0) (vsub c2 c0) in
  let nn := norm n in
  let unit := if fgt0 nn
              then V3 (fdiv (vx n) nn) (fdiv (vy n) nn) (fdiv (vz n) nn)
              else V3 f0 f0 f0 in
  (exists m', update_face_normals [f] m = Done m') /\
  (forall f_idxs m', f ∈ f_idxs -> update_face_normals f_idxs m = Done m' ->
     face_geometry m' f unit (fhalf nn)).
Proof.
  intros Hf Hc n nn unit. split.
  - destruct (update_face_at f m c0 c1 c2 Hf Hc) as (m' & Hm' & _).
    exists m'. simpl. by rewrite Hm'.
  - intros f_idxs m' Hin Hrun.
    by apply (update_face_normals_keeps f_idxs f m m' c0 c1 c2 Hf Hc (or_introl Hin)).
Qed.
End FaceEngine.

(** ** What the traversal of a vertex leaves alone *)

Section Frame.
Context {F : Type} {FO : FloatOps F}.
Variable NEIGHBORSIZE : nat.
Implicit Types (m : mesh F) (s : walk F) (v : Z).

Lemma frame_refl v m : frame v m m.
Proof. done. Qed.

Lemma frame_trans v m1 m2 m3 : frame v m1 m2 -> frame v m2 m3 -> frame v m1 m3.
Proof.
  intros (Ha & Hb & Hc & Hd) (Ha' & Hb' & Hc' & Hd').
  repeat split; try congruence.
  intros n Hn. rewrite Hd', Hd; done.
Qed.

Lemma wframe_refl v m : wframe v m m.
Proof. done. Qed.

Lemma wframe_trans v m1 m2 m3 :
  wframe v m1 m2 -> wframe v m2 m3 -> wframe v m1 m3.
Proof.
  intros (Ha & Hb & Hc & Hd) (Ha' & Hb' & Hc' & Hd').
  repeat split; try congruence.
  intros n Hn. rewrite Hd', Hd; done.
Qed.

Lemma wframe_sym v m1 m2 : wframe v m1 m2 -> wframe v m2 m1.
Proof.
  intros (Ha & Hb & Hc & Hd). repeat split; try done.
  intros n Hn. by rewrite Hd.
Qed.

Lemma wframe_frame v m m' : wframe v m m' -> frame v m m'.
Proof.
  intros (Ha & Hb & Hc & Hd). repeat split; try done.
  change core with ((fun k : vec3 F * vec3 F * Z * Z => (k.1.1.1, k.1.2)) ∘ kept).
  by rewrite !list_fmap_compose, Hc.
Qed.

Lemma store_length_frame v e l m m' :
  store_length e l m = Done m' -> wframe v m m'.
Proof.
  unfold store_length. intros (hs & Hhs & [= <-])%bind_Done.
  repeat split. simpl. eapply SETPTR1_map; [|eassumption]. done.
Qed.

Lemma store_neighbor_frame v k x m m' :
  store_neighbor NEIGHBORSIZE v k x m = Done m' -> wframe v m m'.
Proof.
  unfold store_neighbor. intros (cv & Hcv & Hrun)%bind_Done.
  case_decide; [|done].
  apply bind_Done in Hrun as (nb & Hnb & Hrun).
  apply bind_Done in Hrun as (vs & Hvs & [= <-]).
  repeat split; simpl.
  - eapply SETPTR1_map; [|eassumption]. done.
  - intros n Hn. eapply SETPTR1_other; eassumption.
Qed.

Lemma record_neighbor_frame v s s' :
  record_neighbor NEIGHBORSIZE v s = Done s' -> wframe v (w_mesh s) (w_mesh s').
Proof.
  unfold record_neighbor. case_decide.
  - intros (m & Hm & Hrun)%bind_Done.
    apply bind_Done in Hrun as (ce & _ & Hrun).
    apply bind_Done in Hrun as (cf & _ & [= <-]). simpl.
    by eapply store_neighbor_frame.
  - intros [= <-]. apply wframe_refl.
Qed.

Lemma forward_body_frame v orig s r :
  forward_body NEIGHBORSIZE v orig s = Done r ->
  wframe v (w_mesh s) (w_mesh (match r with Continue s' | Break s' => s' end)).
Proof.
  unfold forward_body. case_decide; [intros [= <-]; apply wframe_refl|].
  intros (s1 & H1 & Hrun)%bind_Done.
  apply bind_Done in Hrun as (l & _ & Hrun).
  apply bind_Done in Hrun as (m2 & H2 & Hrun).
  apply record_neighbor_frame in H1. apply (store_length_frame v) in H2.
  pose proof (wframe_trans _ _ _ _ H1 H2) as H12.
  case_decide; [by injection Hrun as <-|].
  apply bind_Done in Hrun as (m3 & H3 & Hrun).
  apply bind_Done in Hrun as (te & _ & Hrun).
  apply bind_Done in Hrun as (ce & _ & Hrun).
  apply (store_length_frame v) in H3.
  pose proof (wframe_trans _ _ _ _ H12 H3).
  case_decide; by injection Hrun as <-.
Qed.

Lemma reverse_body_frame v orig s r :
  reverse_body NEIGHBORSIZE v orig s = Done r ->
  wframe v (w_mesh s) (w_mesh (match r with Continue s' | Break s' => s' end)).
Proof.
  unfold reverse_body. case_decide; [intros [= <-]; apply wframe_refl|].
  intros (s1 & H1 & Hrun)%bind_Done.
  apply bind_Done in Hrun as (l & _ & Hrun).
  apply bind_Done in Hrun as (m2 & H2 & Hrun).
  apply bind_Done in Hrun as (m3 & H3 & Hrun).
  apply bind_Done in Hrun as (ce & _ & Hrun).
  apply record_neighbor_frame in H1. apply (store_length_frame v) in H2.
  apply (store_length_frame v) in H3.
  pose proof (wframe_trans _ _ _ _ (wframe_trans _ _ _ _ H1 H2) H3) as H13.
  case_decide; [by injection Hrun as <-|].
  apply bind_Done in Hrun as (te & _ & Hrun).
  repeat (case_decide; [by injection Hrun as <-|]).
  by injection Hrun as <-.
Qed.

Lemma shift_neighbors_frame n v k m m' :
  shift_neighbors NEIGHBORSIZE n v k m = Done m' -> wframe v m m'.
Proof.
  revert k m. induction n as [|n IH]; intros k m; simpl.
  - intros [= <-]. apply wframe_refl.
  - intros (tmp & _ & Hrun)%bind_Done.
    apply bind_Done in Hrun as (x & _ & Hrun).
    apply bind_Done in Hrun as (m1 & H1 & Hrun).
    apply bind_Done in Hrun as (m2 & H2 & Hrun).
    apply store_neighbor_frame in H1, H2. apply IH in Hrun.
    eauto using wframe_trans.
Qed.

Lemma while_frame v body fuel s s' :
  (forall s r, body s = Done r ->
     wframe v (w_mesh s) (w_mesh (match r with Continue s' | Break s' => s' end))) ->
  while fuel body s = Done s' -> wframe v (w_mesh s) (w_mesh s').
Proof.
  intros Hbody.
  apply (while_invariant (fun t => wframe v (w_mesh s) (w_mesh t))
           (fun t => wframe v (w_mesh s) (w_mesh t)) body).
  - intros t t' Ht Hb. apply Hbody in Hb. eauto using wframe_trans.
  - intros t t' Ht Hb. apply Hbody in Hb. eauto using wframe_trans.
  - apply wframe_refl.
Qed.

Lemma start_walk_frame v orig m s :
  start_walk NEIGHBORSIZE v orig m = Done s -> wframe v m (w_mesh s).
Proof.
  unfold start_walk. intros (ce & _ & Hrun)%bind_Done.
  apply bind_Done in Hrun as (vs & Hvs & [= <-]). repeat split; simpl.
  - eapply SETPTR1_map; [|eassumption]. done.
  - intros n Hn. eapply SETPTR1_other; eassumption.
Qed.

Lemma forward_sweep_frame fuel v orig m s :
  forward_sweep NEIGHBORSIZE fuel v orig m = Done s -> wframe v m (w_mesh s).
Proof.
  unfold forward_sweep. intros (s0 & H0 & Hrun)%bind_Done.
  apply start_walk_frame in H0.
  apply (while_frame v) in Hrun; [eauto using wframe_trans|].
  apply forward_body_frame.
Qed.

Lemma boundary_fallback_frame fuel v orig s r :
  boundary_fallback NEIGHBORSIZE fuel v orig s = Done r ->
  wframe v (w_mesh s) (mesh_of r).
Proof.
  unfold boundary_fallback. intros (m1 & H1 & Hrun)%bind_Done.
  apply shift_neighbors_frame in H1.
  apply bind_Done in Hrun as (ce & _ & Hrun).
  case_decide; [by injection Hrun as <-|].
  apply bind_Done in Hrun as (te & _ & Hrun).
  case_decide; [by injection Hrun as <-|].
  apply bind_Done in Hrun as (s' & Hs' & [= <-]).
  apply (while_frame v) in Hs'; [|apply reverse_body_frame].
  simpl in *. eauto using wframe_trans.
Qed.

Lemma traverse_frame fuel v orig m r :
  traverse NEIGHBORSIZE fuel v orig m = Done r -> wframe v m (mesh_of r).
Proof.
  unfold traverse. intros (s & Hs & Hrun)%bind_Done.
  apply forward_sweep_frame in Hs.
  destruct (enters_fallback s).
  - apply boundary_fallback_frame in Hrun. eauto using wframe_trans.
  - by injection Hrun as <-.
Qed.

Lemma finish_frame v s m' :
  finish v s = Done m' -> frame v (w_mesh s) m'.
Proof.
  unfold finish. intros (vs & Hvs & [= <-])%bind_Done. repeat split; simpl.
  - eapply SETPTR1_map; [|eassumption]. done.
  - intros n Hn. eapply SETPTR1_other; eassumption.
Qed.

Lemma update_vertex_frame fuel v m m' :
  update_vertex NEIGHBORSIZE fuel v m = Done m' -> frame v m m'.
Proof.
  unfold update_vertex. case_decide; [intros [= <-]; apply frame_refl|].
  intros (cv & _ & Hrun)%bind_Done.
  case_decide; [injection Hrun as <-; apply frame_refl|].
  apply bind_Done in Hrun as (r & Hr & Hrun).
  apply traverse_frame, wframe_frame in Hr.
  destruct r as [s|s]; [by injection Hrun as <-|].
  apply finish_frame in Hrun. eauto using frame_trans.
Qed.

Lemma update_vertex_isolated fuel w m m' (u : nat) (cv : vertex_t F) :
  vertices m !! u = Some cv -> v_halfedge cv = -1 ->
  update_vertex NEIGHBORSIZE fuel w m = Done m' -> vertices m' !! u = Some cv.
Proof.
  intros Hu Hcv Hrun.
  destruct (decide (u = Z.to_nat w)) as [->|Hne].
  - unfold update_vertex in Hrun.
    case_decide; [by injection Hrun as <-|].
    apply bind_Done in Hrun as (cv' & [_ Hcv']%GETPTR1_Done & Hrun).
    assert (cv' = cv) as -> by congruence.
    rewrite decide_True in Hrun by done. by injection Hrun as <-.
  - apply update_vertex_frame in Hrun as (_ & _ & _ & Ho).
    by rewrite Ho.
Qed.

(** C9.  A vertex whose [halfedge] is the sentinel keeps its record,
    [neighbors], [valence] and [normal] included, through any batch of
    [update_vertex_neighbors] and any batch of [update_face_normals]. *)
Theorem isolated_vertex_untouched fuel (v_idxs f_idxs : list Z) m
    (u : nat) (cv : vertex_t F) :
  vertices m !! u = Some cv -> v_halfedge cv = -1 ->
  (forall m', update_vertex_neighbors NEIGHBORSIZE fuel v_idxs m = Done m' ->
     vertices m' !! u = Some cv) /\
  (forall m', update_face_normals f_idxs m = Done m' ->
     vertices m' !! u = Some cv).
Proof.
  intros Hu Hcv. split.
  - revert m Hu. induction v_idxs as [|w rest IH]; intros m Hu m'; simpl.
    + by intros [= <-].
    + intros (m1 & H1 & H2)%bind_Done.
      apply (IH m1); [|done]. by eapply update_vertex_isolated.
  - intros m' (_ & -> & _)%update_face_normals_frame. done.
Qed.
End Frame.

(** ** What a traversal computes, on any mesh *)

Lemma fmap_GETPTR1 {A B : Type} (g : A -> B) (l l' : list A) (i : Z) (x' : A) :
  g <$> l' = g <$> l -> GETPTR1 l' i = Done x' ->
  exists x, GETPTR1 l i = Done x /\ g x = g x'.
Proof.
  intros Hg [Hi Hx']%GETPTR1_Done.
  assert (Hl : (g <$> l) !! Z.to_nat i = Some (g x'))
    by (by rewrite <- Hg, list_lookup_fmap, Hx').
  rewrite list_lookup_fmap in Hl.
  destruct (l !! Z.to_nat i) as [x|] eqn:E; [|done].
  injection Hl as Hl. exists x. split; [by apply GETPTR1_Done | done].
Qed.

Lemma insert_alter_lookup {A : Type} (f : A -> A) (l : list A) (i : nat) (x : A) :
  l !! i = Some x -> <[i := f x]> l = alter f i l.
Proof.
  intros H. apply list_eq. intros j. destruct (decide (i = j)) as [<-|Hne].
  - rewrite list_lookup_insert_eq by (by eapply lookup_lt_Some).
    by rewrite list_lookup_alter_eq, H.
  - by rewrite list_lookup_insert_ne, list_lookup_alter_ne.
Qed.

Section Tracking.
Context {F : Type} {FO : FloatOps F}.
Variable NEIGHBORSIZE : nat.
Implicit Types (m : mesh F) (s : walk F) (v e : Z) (log : list (Z * Z)).

Lemma wframe_halfedge v m0 m e (h : halfedge_t F) :
  wframe v m0 m -> GETPTR1 (halfedges m) e = Done h ->
  exists h0, GETPTR1 (halfedges m0) e = Done h0 /\ links h0 = links h.
Proof. intros (_ & Hl & _) Hh. by eapply fmap_GETPTR1. Qed.

Lemma wframe_vertex v m0 m u (cv : vertex_t F) :
  wframe v m0 m -> GETPTR1 (vertices m) u = Done cv ->
  exists cv0, GETPTR1 (vertices m0) u = Done cv0 /\ kept cv0 = kept cv.
Proof. intros (_ & _ & Hk & _) Hh. by eapply fmap_GETPTR1. Qed.

Lemma wframe_edge_length v m0 m e l :
  wframe v m0 m -> edge_length v e m = Done l -> length_of m0 v e = l.
Proof.
  intros Hf. unfold length_of, edge_length.
  intros (ce & Hce & H)%bind_Done.
  apply bind_Done in H as (lv & Hlv & H).
  apply bind_Done in H as (cv & Hcv & [= <-]).
  destruct (wframe_halfedge _ _ _ _ _ Hf Hce) as (ce0 & -> & [= Hv _ _ _ _]).
  simpl. rewrite Hv.
  destruct (wframe_vertex _ _ _ _ _ Hf Hlv) as (lv0 & -> & [= Hp _ _ _]).
  destruct (wframe_vertex _ _ _ _ _ Hf Hcv) as (cv0 & -> & [= Hq _ _ _]).
  simpl. by rewrite Hp, Hq.
Qed.

Lemma wframe_face_of v m0 m e (ce : halfedge_t F) (cf : face_t F) :
  wframe v m0 m -> GETPTR1 (halfedges m) e = Done ce ->
  GETPTR1 (faces m) (he_face ce) = Done cf -> face_of m0 e = Done cf.
Proof.
  intros Hf Hce Hcf. unfold face_of.
  destruct (wframe_halfedge _ _ _ _ _ Hf Hce) as (ce0 & -> & [= _ Hfc _ _ _]).
  simpl. destruct Hf as (<- & _). by rewrite Hfc.
Qed.

Lemma store_length_put e l m m' :
  store_length e l m = Done m' ->
  halfedges m' = put_length e l (halfedges m).
Proof.
  unfold store_length. intros (hs & Hhs & [= <-])%bind_Done. simpl.
  apply SETPTR1_Done in Hhs as (x & Hi & Hx & ->).
  unfold put_length. rewrite decide_True by done.
  by apply insert_alter_lookup.
Qed.

Lemma store_neighbor_same v k x m m' :
  store_neighbor NEIGHBORSIZE v k x m = Done m' ->
  halfedges m' = halfedges m /\ faces m' = faces m.
Proof.
  unfold store_neighbor. intros (cv & Hcv & H)%bind_Done.
  case_decide as Hk; [|done].
  apply bind_Done in H as (nb & Hnb & H).
  by apply bind_Done in H as (vs & Hvs & [= <-]).
Qed.

(** The visit that [record_neighbor] logs, and what it accumulates. *)
Lemma record_neighbor_spec v s s1 :
  record_neighbor NEIGHBORSIZE v s = Done s1 ->
  w_i s1 = w_i s /\ w_curr s1 = w_curr s /\ w_twin s1 = w_twin s /\
  w_visited s1 = w_visited s ++ [(w_curr s, w_twin s)] /\
  halfedges (w_mesh s1) = halfedges (w_mesh s) /\
  if decide (w_i s < Z.of_nat NEIGHBORSIZE) then
    store_neighbor NEIGHBORSIZE v (w_i s) (w_curr s) (w_mesh s)
      = Done (w_mesh s1) /\
    exists cf, face_of (w_mesh s) (w_curr s) = Done cf /\
               w_normal s1 = accumulate (w_normal s) (f_normal cf) (f_area cf)
  else w_mesh s1 = w_mesh s /\ w_normal s1 = w_normal s.
Proof.
  unfold record_neighbor. case_decide as Hi.
  - intros (m & Hm & H)%bind_Done.
    apply bind_Done in H as (ce & Hce & H).
    apply bind_Done in H as (cf & Hcf & [= <-]). simpl.
    destruct (store_neighbor_same _ _ _ _ _ Hm) as [Hh Hf].
    repeat split; try done. exists cf. split; [|done].
    unfold face_of. rewrite <- Hh, Hce. simpl. by rewrite <- Hf.
  - by intros [= <-].
Qed.

Lemma put_length_sentinel l (hs : list (halfedge_t F)) :
  put_length (-1) l hs = hs.
Proof. unfold put_length. by rewrite decide_False by lia. Qed.

Lemma replay_lengths_snoc m v log e p (hs : list (halfedge_t F)) :
  replay_lengths m v (log ++ [(e, p)]) hs =
  put_length p (length_of m v e)
    (put_length e (length_of m v e) (replay_lengths m v log hs)).
Proof. unfold replay_lengths. by rewrite foldl_app. Qed.

Lemma ring_normal_snoc m es e :
  ring_normal m (es ++ [e]) =
  match face_of m e with
  | Done cf => accumulate (ring_normal m es) (f_normal cf) (f_area cf)
  | _ => ring_normal m es
  end.
Proof. unfold ring_normal. by rewrite foldl_app. Qed.

(** What the statements of one visit keep true: the mesh differs from
    the initial one by the neighbour slots of [v] and by the lengths of
    the log; the sum holds the first NEIGHBORSIZE visits. *)
Lemma visit_tracked m0 v s s1 l m2 m3 :
  tracked NEIGHBORSIZE m0 v (w_mesh s) (w_normal s) (w_visited s) ->
  w_i s = Z.of_nat (length (w_visited s)) ->
  record_neighbor NEIGHBORSIZE v s = Done s1 ->
  edge_length v (w_curr s) (w_mesh s1) = Done l ->
  store_length (w_curr s) l (w_mesh s1) = Done m2 ->
  (w_twin s = -1 /\ m3 = m2) \/ store_length (w_twin s) l m2 = Done m3 ->
  tracked NEIGHBORSIZE m0 v m3 (w_normal s1) (w_visited s1).
Proof.
  intros (Hf & Hn & Hr) Hi Hrec Hl H2 H3.
  pose proof (record_neighbor_frame _ _ _ _ Hrec) as Hf1.
  pose proof (wframe_trans _ _ _ _ Hf Hf1) as Hf01.
  apply record_neighbor_spec in Hrec as (_ & _ & _ & Hlog & Hhs & Hacc).
  pose proof (wframe_edge_length _ _ _ _ _ Hf01 Hl) as Hlen.
  pose proof (store_length_frame v _ _ _ _ H2) as Hf2.
  pose proof (store_length_put _ _ _ _ H2) as Hp2.
  assert (Hf3 : wframe v m0 m3 /\
                halfedges m3 = put_length (w_twin s) l (halfedges m2)).
  { destruct H3 as [[Ht ->]|H3].
    - rewrite Ht, put_length_sentinel. eauto using wframe_trans.
    - split; [|by apply store_length_put].
      pose proof (store_length_frame v _ _ _ _ H3). eauto using wframe_trans. }
  destruct Hf3 as [Hf3 Hp3]. repeat split; try apply Hf3.
  - rewrite Hlog, fmap_app. simpl.
    assert (Hlen' : length (w_visited s).*1 = length (w_visited s))
      by apply length_fmap.
    case_decide as Hlt.
    + destruct Hacc as (_ & cf & Hcf & ->).
      rewrite take_ge by (rewrite length_app; simpl; lia).
      rewrite ring_normal_snoc.
      destruct (bind_Done (GETPTR1 (halfedges (w_mesh s)) (w_curr s))
                  (fun ce => GETPTR1 (faces (w_mesh s)) (he_face ce)) cf)
        as [(ce & Hce & Hcf') _]; [exact Hcf|].
      rewrite (wframe_face_of _ _ _ _ _ _ Hf Hce Hcf').
      rewrite Hn, take_ge by lia. done.
    + destruct Hacc as (_ & ->). rewrite take_app_le by lia. done.
  - rewrite Hp3, Hp2, Hhs, Hr, Hlog, replay_lengths_snoc, Hlen. done.
Qed.

Lemma store_length_vertices e l m m' :
  store_length e l m = Done m' -> vertices m' = vertices m.
Proof. unfold store_length. by intros (hs & _ & [= <-])%bind_Done. Qed.

Lemma store_neighbor_spec v k x m m' :
  store_neighbor NEIGHBORSIZE v k x m = Done m' ->
  exists cv, GETPTR1 (vertices m) v = Done cv /\
    (Z.to_nat k < length (v_neighbors cv))%nat /\
    neighbors_are m' v (<[Z.to_nat k := x]> (v_neighbors cv)).
Proof.
  unfold store_neighbor. intros (cv & Hcv & H)%bind_Done.
  case_decide as Hk; [|done].
  apply bind_Done in H as (nb & Hnb & H).
  apply bind_Done in H as (vs & Hvs & [= <-]).
  apply SETPTR1_Done in Hnb as (y & Hk0 & Hy & ->).
  exists cv. split; [done|]. split; [by eapply lookup_lt_Some|].
  pose proof Hcv as [Hv0 Hcv']%GETPTR1_Done.
  apply SETPTR1_Done in Hvs as (cv' & _ & Hcv'' & ->).
  assert (cv' = cv) as -> by congruence.
  eexists. split.
  - apply GETPTR1_Done. split; [done|]. simpl.
    apply list_lookup_insert_eq. by eapply lookup_lt_Some.
  - done.
Qed.

Lemma slots_snoc (es : list Z) (e : Z) :
  (length es < NEIGHBORSIZE)%nat ->
  <[length es := e]> (slots NEIGHBORSIZE es) = slots NEIGHBORSIZE (es ++ [e]).
Proof.
  intros Hlt. unfold slots.
  rewrite !take_ge by (rewrite ?length_app; simpl; lia).
  rewrite length_app. simpl.
  replace (NEIGHBORSIZE - length es)%nat
    with (S (NEIGHBORSIZE - (length es + 1)))%nat by lia.
  rewrite <- (Nat.add_0_r (length es)) at 1.
  rewrite insert_app_r. simpl. by rewrite <- app_assoc.
Qed.

Lemma slots_full (es : list Z) (e : Z) :
  (NEIGHBORSIZE <= length es)%nat ->
  slots NEIGHBORSIZE (es ++ [e]) = slots NEIGHBORSIZE es.
Proof.
  intros Hle. unfold slots. rewrite take_app_le by done.
  rewrite length_app. simpl.
  by replace (NEIGHBORSIZE - (length es + 1))%nat
    with (NEIGHBORSIZE - length es)%nat by lia.
Qed.

Lemma record_neighbor_slots v s s1 :
  record_neighbor NEIGHBORSIZE v s = Done s1 ->
  w_i s = Z.of_nat (length (w_visited s)) ->
  neighbors_are (w_mesh s) v (slots NEIGHBORSIZE (w_visited s).*1) ->
  neighbors_are (w_mesh s1) v (slots NEIGHBORSIZE (w_visited s1).*1).
Proof.
  intros Hrec Hi (cv & Hcv & Hnb).
  apply record_neighbor_spec in Hrec as (_ & _ & _ & -> & _ & H).
  rewrite fmap_app. simpl.
  assert (Hlen : length (w_visited s).*1 = length (w_visited s))
    by apply length_fmap.
  case_decide as Hlt.
  - destruct H as (Hst & _).
    apply store_neighbor_spec in Hst as (cv' & Hcv' & _ & Hnew).
    assert (cv' = cv) as -> by congruence.
    rewrite Hnb, Hi, Nat2Z.id, <- Hlen, slots_snoc in Hnew by lia. done.
  - destruct H as (-> & _). rewrite slots_full by lia. by exists cv.
Qed.

Lemma neighbors_are_vertices m m' v nb :
  vertices m' = vertices m -> neighbors_are m v nb -> neighbors_are m' v nb.
Proof. intros Hv (cv & Hcv & Hnb). exists cv. by rewrite Hv. Qed.

Lemma start_walk_top v orig m0 s :
  start_walk NEIGHBORSIZE v orig m0 = Done s ->
  forward_top NEIGHBORSIZE m0 v orig s /\ w_curr s = orig.
Proof.
  intros Hs. pose proof (start_walk_frame _ _ _ _ _ Hs) as Hf.
  unfold start_walk in Hs. apply bind_Done in Hs as (ce & Hce & H).
  apply bind_Done in H as (vs & Hvs & [= <-]). simpl.
  split; [|done]. repeat split; simpl; try apply Hf.
  - by rewrite take_nil.
  - apply SETPTR1_Done in Hvs as (cv & Hv0 & Hcv & ->).
    eexists. split.
    + apply GETPTR1_Done. split; [done|]. simpl.
      apply list_lookup_insert_eq. by eapply lookup_lt_Some.
    + simpl. unfold slots. rewrite take_nil. simpl. by rewrite Nat.sub_0_r.
  - by apply GETPTR1_Done in Hce as [? _].
  - by exists ce.
Qed.

(** The statements one pass of the first loop runs, when it gets past
    its first test. *)
Lemma forward_body_inv v orig s r :
  forward_body NEIGHBORSIZE v orig s = Done r -> w_curr s <> -1 ->
  exists s1 l m2,
    record_neighbor NEIGHBORSIZE v s = Done s1 /\
    edge_length v (w_curr s) (w_mesh s1) = Done l /\
    store_length (w_curr s) l (w_mesh s1) = Done m2 /\
    ((w_twin s = -1 /\ r = Break (set_mesh m2 s1)) \/
     (w_twin s <> -1 /\ exists m3 te ce,
        store_length (w_twin s) l m2 = Done m3 /\
        GETPTR1 (halfedges m3) (w_twin s) = Done te /\
        GETPTR1 (halfedges m3) (he_next te) = Done ce /\
        r = (if decide (he_next te = orig) then Break else Continue)
              (Walk m3 (w_i s + 1) (he_next te) (he_twin ce)
                    (w_normal s1) (w_visited s1)))).
Proof.
  unfold forward_body. intros Hrun Hc.
  rewrite decide_False in Hrun by done.
  apply bind_Done in Hrun as (s1 & H1 & Hrun).
  destruct (record_neighbor_spec _ _ _ H1) as (Hi & Hcu & Htw & _).
  rewrite Hi, Hcu, Htw in Hrun.
  apply bind_Done in Hrun as (l & Hl & Hrun).
  apply bind_Done in Hrun as (m2 & H2 & Hrun).
  exists s1, l, m2. repeat (split; [done|]).
  case_decide as Ht.
  - left. by injection Hrun as <-.
  - right. split; [done|].
    apply bind_Done in Hrun as (m3 & H3 & Hrun).
    apply bind_Done in Hrun as (te & Hte & Hrun).
    apply bind_Done in Hrun as (ce & Hce & Hrun).
    exists m3, te, ce. repeat (split; [done|]).
    case_decide; by injection Hrun as <-.
Qed.

Lemma forward_body_top m0 v orig s s' :
  forward_top NEIGHBORSIZE m0 v orig s ->
  forward_body NEIGHBORSIZE v orig s = Done (Continue s') ->
  forward_top NEIGHBORSIZE m0 v orig s'.
Proof.
  intros (Htr & Hnb & Hi & Hc & ce0 & Hce0 & Hlog) Hrun.
  apply forward_body_inv in Hrun as (s1 & l & m2 & H1 & Hl & H2 & Hcase);
    [|lia].
  destruct Hcase as [[_ [=]]|(Ht & m3 & te & ce & H3 & Hte & Hce & Hr)].
  case_decide; [done|]. injection Hr as ->.
  pose proof (record_neighbor_spec _ _ _ H1) as (_ & _ & _ & Hlog1 & _).
  assert (Htr3 : tracked NEIGHBORSIZE m0 v m3 (w_normal s1) (w_visited s1))
    by (eapply visit_tracked; eauto).
  refine (conj Htr3 (conj _ (conj _ (conj _ _)))); simpl.
  - apply (record_neighbor_slots _ _ _ H1 Hi) in Hnb.
    eapply neighbors_are_vertices; [|exact Hnb].
    apply store_length_vertices in H2, H3. congruence.
  - rewrite Hlog1, length_app. simpl. lia.
  - by apply GETPTR1_Done in Hce as [? _].
  - exists ce0. split; [done|]. rewrite Hlog1.
    destruct (w_visited s); simpl; [congruence | done].
Qed.

Lemma forward_body_exit m0 v orig s s' :
  forward_top NEIGHBORSIZE m0 v orig s ->
  forward_body NEIGHBORSIZE v orig s = Done (Break s') ->
  forward_exit NEIGHBORSIZE m0 v orig s'.
Proof.
  intros (Htr & Hnb & Hi & Hc & ce0 & Hce0 & Hlog) Hrun.
  apply forward_body_inv in Hrun as (s1 & l & m2 & H1 & Hl & H2 & Hcase);
    [|lia].
  pose proof (record_neighbor_spec _ _ _ H1) as (Hi1 & Hc1 & Ht1 & Hlog1 & _).
  pose proof (record_neighbor_slots _ _ _ H1 Hi Hnb) as Hnb1.
  destruct Hcase as [[Ht [= ->]]|(Ht & m3 & te & ce & H3 & Hte & Hce & Hr)].
  - assert (Htr2 : tracked NEIGHBORSIZE m0 v m2 (w_normal s1) (w_visited s1))
      by (eapply visit_tracked; eauto).
    refine (conj Htr2 (conj _ (conj _ _))); simpl.
    + eapply neighbors_are_vertices; [|exact Hnb1].
      by apply store_length_vertices in H2.
    + lia.
    + left. rewrite Hlog1, length_app. simpl. lia.
  - case_decide as Ho; [|done]. injection Hr as ->.
    assert (Htr3 : tracked NEIGHBORSIZE m0 v m3 (w_normal s1) (w_visited s1))
      by (eapply visit_tracked; eauto).
    refine (conj Htr3 (conj _ (conj _ _))); simpl.
    + eapply neighbors_are_vertices; [|exact Hnb1].
      apply store_length_vertices in H2, H3. congruence.
    + by apply GETPTR1_Done in Hce as [? _].
    + right. rewrite Hlog1, length_app. simpl.
      split; [|split; [done | lia]].
      destruct Htr3 as (Hf3 & _). rewrite Ho in Hce.
      destruct (wframe_halfedge _ _ _ _ _ Hf3 Hce) as (h0 & Hh0 & [= _ _ Htw _ _]).
      assert (h0 = ce0) as -> by congruence. rewrite <- Htw.
      destruct (w_visited s); [congruence | done].
Qed.

(** On any mesh, a forward sweep that runs to its end is left in a state
    of [forward_exit]. *)
Lemma forward_sweep_exit fuel v orig m0 s :
  forward_sweep NEIGHBORSIZE fuel v orig m0 = Done s ->
  forward_exit NEIGHBORSIZE m0 v orig s.
Proof.
  unfold forward_sweep. intros (s0 & Hs0 & Hrun)%bind_Done.
  apply start_walk_top in Hs0 as [Htop _].
  eapply (while_invariant (forward_top NEIGHBORSIZE m0 v orig)
            (forward_exit NEIGHBORSIZE m0 v orig)); [| |exact Htop|exact Hrun].
  - intros t t'. apply forward_body_top.
  - intros t t'. apply forward_body_exit.
Qed.
End Tracking.

(** ** The forward sweep on a closed ring *)

Section ClosedRing.
Context {F : Type} {FO : FloatOps F}.
Variable NEIGHBORSIZE : nat.
Implicit Types (m : mesh F) (s : walk F) (v e : Z) (log : list (Z * Z)).

Lemma ring_step_wframe v m m' e e' :
  wframe v m m' -> ring_step m e e' -> ring_step m' e e'.
Proof.
  intros Hf%wframe_sym (h & t & lv & cf & Hh & Htw & Ht & Hn & Hlv & Hcf).
  destruct (wframe_halfedge _ _ _ _ _ Hf Hh) as (h' & Hh' & [= Hv Hfc Ht' _ _]).
  destruct (wframe_halfedge _ _ _ _ _ Hf Ht) as (t' & Ht'' & [= _ _ _ Hn' _]).
  destruct (wframe_vertex _ _ _ _ _ Hf Hlv) as (lv' & Hlv' & _).
  exists h', t', lv', cf. rewrite Ht', Hn', Hv, Hfc.
  destruct Hf as (Hfaces & _). rewrite <- Hfaces. done.
Qed.

Lemma ring_step_det m e e1 e2 :
  ring_step m e e1 -> ring_step m e e2 -> e1 = e2.
Proof.
  intros (h & t & lv & cf & Hh & _ & Ht & <- & _)
         (h' & t' & lv' & cf' & Hh' & _ & Ht' & <- & _).
  congruence.
Qed.

Lemma length_slots (es : list Z) : length (slots NEIGHBORSIZE es) = NEIGHBORSIZE.
Proof. unfold slots. rewrite length_app, length_take, length_replicate. lia. Qed.

Lemma store_length_progress e l m (h : halfedge_t F) :
  GETPTR1 (halfedges m) e = Done h ->
  exists m', store_length e l m = Done m'.
Proof.
  intros Hh. unfold store_length.
  erewrite SETPTR1_lookup by done. simpl. eauto.
Qed.

Lemma record_neighbor_progress v s nb (h : halfedge_t F) (cf : face_t F) :
  neighbors_are (w_mesh s) v nb -> length nb = NEIGHBORSIZE -> 0 <= w_i s ->
  GETPTR1 (halfedges (w_mesh s)) (w_curr s) = Done h ->
  GETPTR1 (faces (w_mesh s)) (he_face h) = Done cf ->
  exists s1, record_neighbor NEIGHBORSIZE v s = Done s1.
Proof.
  intros (cv & Hcv & <-) Hlen Hi Hh Hcf. unfold record_neighbor.
  case_decide as Hlt; [|eauto].
  unfold store_neighbor. rewrite Hcv. simpl.
  rewrite decide_True by done.
  destruct (lookup_lt_is_Some_2 (v_neighbors cv) (Z.to_nat (w_i s)))
    as [x Hx]; [lia|].
  erewrite (SETPTR1_lookup (v_neighbors cv)) by (by apply GETPTR1_Done).
  simpl. erewrite SETPTR1_lookup by done. simpl.
  rewrite Hh. simpl. rewrite Hcf. simpl. eauto.
Qed.

Lemma edge_length_progress v m e (h : halfedge_t F) (lv cv : vertex_t F) :
  GETPTR1 (halfedges m) e = Done h ->
  GETPTR1 (vertices m) (he_vertex h) = Done lv ->
  GETPTR1 (vertices m) v = Done cv ->
  exists l, edge_length v e m = Done l.
Proof.
  intros Hh Hlv Hcv. unfold edge_length.
  rewrite Hh. simpl. rewrite Hlv. simpl. rewrite Hcv. simpl. eauto.
Qed.

(** One pass of the first loop on an edge of the ring runs to its end. *)
Lemma forward_body_progress v orig s e' nb (h' : halfedge_t F) :
  ring_step (w_mesh s) (w_curr s) e' ->
  w_twin s = twin_of (w_mesh s) (w_curr s) ->
  GETPTR1 (halfedges (w_mesh s)) e' = Done h' ->
  neighbors_are (w_mesh s) v nb -> length nb = NEIGHBORSIZE -> 0 <= w_i s ->
  exists s',
    forward_body NEIGHBORSIZE v orig s
      = Done ((if decide (e' = orig) then Break else Continue) s') /\
    w_curr s' = e' /\ w_twin s' = he_twin h' /\
    w_visited s' = w_visited s ++ [(w_curr s, w_twin s)].
Proof.
  intros Hstep Htw Hh' Hnb Hlen Hi.
  pose proof Hstep as (h & t & lv & cf & Hh & Hne & Ht & Hn & Hlv & Hcf).
  assert (Hc : w_curr s <> -1) by (apply GETPTR1_Done in Hh as [? _]; lia).
  unfold twin_of in Htw. rewrite Hh in Htw.
  destruct (record_neighbor_progress v s nb h cf) as [s1 H1]; try done.
  pose proof (record_neighbor_frame _ _ _ _ H1) as Hf1.
  pose proof (record_neighbor_spec _ _ _ _ H1) as (Hi1 & Hc1 & Ht1 & Hlog & _).
  pose proof (record_neighbor_slots _ _ _ _ H1) as Hnb1.
  pose proof (ring_step_wframe _ _ _ _ _ Hf1 Hstep)
    as (h1 & t1 & lv1 & cf1 & Hh1 & Hne1 & Ht1' & Hn1 & Hlv1 & Hcf1).
  assert (Hcv1 : exists cv1, GETPTR1 (vertices (w_mesh s1)) v = Done cv1).
  { destruct Hnb as (cv & Hcv & _).
    destruct (wframe_vertex _ _ _ _ _ (wframe_sym _ _ _ Hf1) Hcv) as (cv1 & ? & _).
    eauto. }
  destruct Hcv1 as [cv1 Hcv1].
  destruct (edge_length_progress v _ _ _ _ _ Hh1 Hlv1 Hcv1) as [l Hl].
  destruct (store_length_progress _ l _ _ Hh1) as [m2 H2].
  pose proof (store_length_frame v _ _ _ _ H2) as Hf2.
  pose proof (ring_step_wframe _ _ _ _ _ Hf2
                (ring_step_wframe _ _ _ _ _ Hf1 Hstep))
    as (h2 & t2 & lv2 & cf2 & Hh2 & Hne2 & Ht2 & Hn2 & _).
  assert (Htw2 : he_twin h2 = w_twin s).
  { destruct (wframe_halfedge _ _ _ _ _ (wframe_trans _ _ _ _ Hf1 Hf2) Hh2)
      as (h0 & Hh0 & [= _ _ E _ _]). congruence. }
  rewrite Htw2 in *.
  destruct (store_length_progress _ l _ _ Ht2) as [m3 H3].
  pose proof (store_length_frame v _ _ _ _ H3) as Hf3.
  pose proof (wframe_trans _ _ _ _ (wframe_trans _ _ _ _ Hf1 Hf2) Hf3) as Hf.
  pose proof (ring_step_wframe _ _ _ _ _ Hf Hstep)
    as (h3 & t3 & lv3 & cf3 & Hh3 & Hne3 & Ht3 & Hn3 & _).
  assert (Htw3 : he_twin h3 = w_twin s).
  { destruct (wframe_halfedge _ _ _ _ _ Hf Hh3)
      as (h0 & Hh0 & [= _ _ E _ _]). congruence. }
  rewrite Htw3 in *.
  destruct (wframe_halfedge _ _ _ _ _ (wframe_sym _ _ _ Hf) Hh')
    as (h3' & Hh3' & [= _ _ Etw _ _]).
  eexists. split; [|split; [|split]].
  - unfold forward_body. rewrite decide_False by done.
    rewrite H1. simpl. rewrite Hc1, Ht1, Hi1, Hl. simpl. rewrite H2. simpl.
    rewrite decide_False by done. rewrite H3. simpl.
    rewrite Ht3. simpl. rewrite Hn3, Hh3'. simpl.
    destruct (decide (e' = orig)); reflexivity.
  - done.
  - done.
  - done.
Qed.

Lemma twin_of_wframe v m0 m e :
  wframe v m0 m -> twin_of m e = twin_of m0 e.
Proof.
  intros Hf. unfold twin_of.
  destruct (GETPTR1 (halfedges m) e) as [h| |] eqn:E.
  - by destruct (wframe_halfedge _ _ _ _ _ Hf E) as (h0 & -> & [= _ _ -> _ _]).
  - destruct (GETPTR1 (halfedges m0) e) as [h0| |] eqn:E0; try done.
    destruct (wframe_halfedge _ _ _ _ _ (wframe_sym _ _ _ Hf) E0)
      as (h & Hh & _). congruence.
  - destruct (GETPTR1 (halfedges m0) e) as [h0| |] eqn:E0; try done.
    destruct (wframe_halfedge _ _ _ _ _ (wframe_sym _ _ _ Hf) E0)
      as (h & Hh & _). congruence.
Qed.

Lemma ring_path_head m e rest last :
  ring_path m e rest last -> exists h, GETPTR1 (halfedges m) e = Done h.
Proof.
  destruct rest as [|e' rest]; simpl.
  - intros (h & _ & _ & _ & Hh & _). eauto.
  - intros [(h & _ & _ & _ & Hh & _) _]. eauto.
Qed.

(** The first loop, entered at [e] with [orig] not among the edges still
    ahead, walks them all and stops back on [orig]. *)
Lemma forward_chain m0 v orig rest :
  forall e s fuel,
    forward_top NEIGHBORSIZE m0 v orig s ->
    w_curr s = e -> w_twin s = twin_of m0 e ->
    ring_path m0 e rest orig -> orig ∉ rest ->
    (length rest < fuel)%nat ->
    exists s',
      while fuel (forward_body NEIGHBORSIZE v orig) s = Done s' /\
      w_visited s' = w_visited s ++ ((fun x => (x, twin_of m0 x)) <$> e :: rest) /\
      w_curr s' = orig /\ w_twin s' = twin_of m0 orig.
Proof.
  induction rest as [|e' rest IH]; intros e s fuel Htop Hcurr Htwin Hpath Hnot Hfuel;
    (destruct fuel as [|fuel]; [simpl in Hfuel; lia|]);
    pose proof Htop as ((Hf & _) & (cv & Hcv & Hnb) & Hi & _ & ce0 & Hce0 & _).
  - simpl in Hpath.
    destruct (wframe_halfedge _ _ _ _ _ (wframe_sym _ _ _ Hf) Hce0)
      as (h' & Hh' & [= _ _ Etw _ _]).
    destruct (forward_body_progress v orig s orig (slots NEIGHBORSIZE (w_visited s).*1) h') as (s' & Hb & Hc' & Ht' & Hlog');
      try done.
    + rewrite Hcurr. by eapply ring_step_wframe.
    + by rewrite (twin_of_wframe _ _ _ _ Hf), Hcurr.
    + by exists cv.
    + apply length_slots.
    + lia.
    + exists s'. simpl. rewrite Hb, decide_True by done.
      repeat split; try done.
      * by rewrite Hlog', Hcurr, Htwin.
      * rewrite Ht'. unfold twin_of. by rewrite Hce0.
  - simpl in Hpath. destruct Hpath as [Hstep Hpath].
    apply not_elem_of_cons in Hnot as [Hne Hnot].
    destruct (ring_path_head _ _ _ _ Hpath) as [h0 Hh0].
    destruct (wframe_halfedge _ _ _ _ _ (wframe_sym _ _ _ Hf) Hh0)
      as (h' & Hh' & [= _ _ Etw _ _]).
    destruct (forward_body_progress v orig s e' (slots NEIGHBORSIZE (w_visited s).*1) h') as (s' & Hb & Hc' & Ht' & Hlog');
      try done.
    + rewrite Hcurr. by eapply ring_step_wframe.
    + by rewrite (twin_of_wframe _ _ _ _ Hf), Hcurr.
    + by exists cv.
    + apply length_slots.
    + lia.
    + rewrite decide_False in Hb by done.
      destruct (IH e' s' fuel) as (s'' & Hw & Hlog'' & Hc'' & Ht''); try done.
      * by eapply forward_body_top.
      * rewrite Ht'. unfold twin_of. by rewrite Hh0.
      * simpl in Hfuel. lia.
      * exists s''. simpl. rewrite Hb. split; [done|].
        split; [|done]. rewrite Hlog'', Hlog', Hcurr, Htwin, <- app_assoc. done.
Qed.

Lemma ring_path_suffix m e r1 x r2 last :
  ring_path m e (r1 ++ x :: r2) last -> ring_path m x r2 last.
Proof.
  revert e. induction r1 as [|y r1 IH]; intros e; simpl.
  - by intros [_ H].
  - intros [_ H]. by eapply IH.
Qed.

(** Two sweeps from the same edge go through the same edges. *)
Lemma ring_path_shorter m r2 :
  forall e r1 l1 l2,
    ring_path m e r1 l1 -> ring_path m e r2 l2 ->
    (length r2 < length r1)%nat -> l2 ∈ r1.
Proof.
  induction r2 as [|x r2 IH]; intros e [|y r1] l1 l2; simpl;
    try (intros _ _ ?; lia).
  - intros [H1 _] H2 _. rewrite (ring_step_det _ _ _ _ H2 H1). left.
  - intros [H1 P1] [H2 P2] Hlen.
    rewrite (ring_step_det _ _ _ _ H2 H1) in P2. right.
    eapply IH; [exact P1 | exact P2 | lia].
Qed.

Lemma ring_path_NoDup m rest :
  forall e last, ring_path m e rest last -> last ∉ rest -> NoDup (e :: rest).
Proof.
  induction rest as [|e' rest IH]; intros e last Hpath Hlast.
  - apply NoDup_singleton.
  - apply NoDup_cons. split.
    + intros (r1 & r2 & Hsplit)%list_elem_of_split.
      pose proof Hpath as Hsuf. rewrite Hsplit in Hsuf.
      apply ring_path_suffix in Hsuf.
      apply Hlast.
      eapply (ring_path_shorter m r2 e (e' :: rest)); [exact Hpath|exact Hsuf|].
      rewrite Hsplit, length_app. simpl. lia.
    + simpl in Hpath. destruct Hpath as [_ Hpath].
      apply not_elem_of_cons in Hlast as [_ Hlast]. by eapply IH.
Qed.

Lemma closed_ring_NoDup m v ring : closed_ring m v ring -> NoDup ring.
Proof.
  intros (cv & rest & _ & _ & -> & Hnot & Hpath). by eapply ring_path_NoDup.
Qed.

Lemma start_walk_progress v orig m (cv : vertex_t F) (h : halfedge_t F) :
  GETPTR1 (vertices m) v = Done cv -> GETPTR1 (halfedges m) orig = Done h ->
  exists s, start_walk NEIGHBORSIZE v orig m = Done s /\ w_twin s = he_twin h.
Proof.
  intros Hcv Hh. unfold start_walk. rewrite Hh. simpl.
  erewrite SETPTR1_lookup by done. simpl. eauto.
Qed.

(** The forward sweep of a closed ring: it logs the ring, counts its
    edges, and stops on the anchor with a twin in hand. *)
Lemma closed_ring_sweep m v ring fuel :
  closed_ring m v ring -> (length ring <= fuel)%nat ->
  exists cv s,
    GETPTR1 (vertices m) v = Done cv /\ v_halfedge cv <> -1 /\
    forward_sweep NEIGHBORSIZE fuel v (v_halfedge cv) m = Done s /\
    w_visited s = (fun x => (x, twin_of m x)) <$> ring /\
    w_curr s = v_halfedge cv /\ w_twin s <> -1 /\
    w_i s = Z.of_nat (length ring) /\
    forward_exit NEIGHBORSIZE m v (v_halfedge cv) s.
Proof.
  intros (cv & rest & Hcv & Ho & -> & Hnot & Hpath) Hfuel.
  destruct (ring_path_head _ _ _ _ Hpath) as [h Hh].
  destruct (start_walk_progress v _ m cv h Hcv Hh) as (s0 & Hs0 & Ht0).
  destruct (start_walk_top _ _ _ _ _ Hs0) as [Htop Hc0].
  pose proof Hs0 as Hlog0. unfold start_walk in Hlog0.
  rewrite Hh in Hlog0. simpl in Hlog0.
  apply bind_Done in Hlog0 as (vs & _ & [= <-]). simpl in *.
  destruct (forward_chain m v (v_halfedge cv) rest (v_halfedge cv) _ fuel
              Htop Hc0) as (s & Hw & Hlog & Hc & Ht); try done.
  { simpl. unfold twin_of. by rewrite Hh. }
  assert (Hsweep : forward_sweep NEIGHBORSIZE fuel v (v_halfedge cv) m = Done s).
  { unfold forward_sweep. rewrite Hs0. done. }
  pose proof (forward_sweep_exit _ _ _ _ _ _ Hsweep) as Hexit.
  assert (Htne : w_twin s <> -1).
  { rewrite Ht. unfold twin_of. rewrite Hh.
    assert (Hstep : exists e', ring_step m (v_halfedge cv) e').
    { destruct rest; simpl in Hpath; [eauto | destruct Hpath; eauto]. }
    destruct Hstep as (e' & h1 & _ & _ & _ & Hh1 & Hne & _). congruence. }
  exists cv, s. repeat (split; [done|]). split; [|done].
  destruct Hexit as (_ & _ & _ & [[? _]|(_ & _ & ->)]); [done|].
  rewrite Hlog. simpl. by rewrite length_fmap.
Qed.
End ClosedRing.

(** ** The boundary fallback, on any mesh *)

Section Fallback.
Context {F : Type} {FO : FloatOps F}.
Variable NEIGHBORSIZE : nat.
Implicit Types (m : mesh F) (s : walk F) (v e : Z) (log : list (Z * Z)).

Lemma shift_neighbors_same n v k m m' :
  shift_neighbors NEIGHBORSIZE n v k m = Done m' ->
  halfedges m' = halfedges m /\ faces m' = faces m.
Proof.
  revert k m. induction n as [|n IH]; intros k m; simpl.
  - by intros [= <-].
  - intros (tmp & _ & H)%bind_Done.
    apply bind_Done in H as (x & _ & H).
    apply bind_Done in H as (m1 & H1 & H).
    apply bind_Done in H as (m2 & H2 & H).
    apply store_neighbor_same in H1 as [Ha1 Hb1], H2 as [Ha2 Hb2].
    apply IH in H as [-> ->]. split; congruence.
Qed.

Lemma tracked_shift m0 v n k m m' nrm log :
  tracked NEIGHBORSIZE m0 v m nrm log ->
  shift_neighbors NEIGHBORSIZE n v k m = Done m' ->
  tracked NEIGHBORSIZE m0 v m' nrm log.
Proof.
  intros (Hf & Hn & Hr) Hs.
  pose proof (shift_neighbors_frame _ _ _ _ _ _ Hs) as Hf'.
  apply shift_neighbors_same in Hs as [Hh _].
  repeat split; try apply (wframe_trans _ _ _ _ Hf Hf'); try done.
  by rewrite Hh.
Qed.

(** The statements one pass of the second loop runs, when it gets past
    its first test. *)
Lemma reverse_body_inv v orig s r :
  reverse_body NEIGHBORSIZE v orig s = Done r -> w_curr s <> -1 ->
  exists s1 l m2 m3,
    record_neighbor NEIGHBORSIZE v s = Done s1 /\
    edge_length v (w_curr s) (w_mesh s1) = Done l /\
    store_length (w_curr s) l (w_mesh s1) = Done m2 /\
    store_length (w_twin s) l m2 = Done m3 /\
    exists c t,
      (r = Break (Walk m3 (w_i s) c t (w_normal s1) (w_visited s1)) \/
       r = Continue (Walk m3 (w_i s + 1) c t (w_normal s1) (w_visited s1))).
Proof.
  unfold reverse_body. intros Hrun Hc.
  rewrite decide_False in Hrun by done.
  apply bind_Done in Hrun as (s1 & H1 & Hrun).
  destruct (record_neighbor_spec _ _ _ _ H1) as (Hi & Hcu & Htw & _).
  rewrite Hi, Hcu, Htw in Hrun.
  apply bind_Done in Hrun as (l & Hl & Hrun).
  apply bind_Done in Hrun as (m2 & H2 & Hrun).
  apply bind_Done in Hrun as (m3 & H3 & Hrun).
  apply bind_Done in Hrun as (ce & Hce & Hrun).
  exists s1, l, m2, m3. repeat (split; [done|]).
  case_decide; [injection Hrun as <-; eauto|].
  apply bind_Done in Hrun as (te & Hte & Hrun).
  repeat (case_decide; [injection Hrun as <-; eauto|]).
  injection Hrun as <-; eauto.
Qed.

Lemma reverse_body_step m0 v orig s r :
  reverse_top NEIGHBORSIZE m0 v s ->
  reverse_body NEIGHBORSIZE v orig s = Done r ->
  match r with
  | Continue s' => reverse_top NEIGHBORSIZE m0 v s'
  | Break s' => counted NEIGHBORSIZE m0 v s'
  end.
Proof.
  intros [Htr Hi] Hrun.
  destruct (decide (w_curr s = -1)) as [Hc|Hc].
  { unfold reverse_body in Hrun. rewrite decide_True in Hrun by done.
    injection Hrun as <-. split; [done | by left]. }
  apply reverse_body_inv in Hrun
    as (s1 & l & m2 & m3 & H1 & Hl & H2 & H3 & c & t & Hr); [|done].
  pose proof (record_neighbor_spec _ _ _ _ H1) as (_ & _ & _ & Hlog & _).
  assert (Htr3 : tracked NEIGHBORSIZE m0 v m3 (w_normal s1) (w_visited s1))
    by (eapply visit_tracked; eauto).
  destruct Hr as [-> | ->]; (split; [done|]); simpl.
  - right. rewrite Hlog, length_app. simpl. lia.
  - rewrite Hlog, length_app. simpl. lia.
Qed.

Lemma boundary_fallback_counted fuel m0 v orig s r :
  forward_exit NEIGHBORSIZE m0 v orig s -> w_twin s = -1 ->
  boundary_fallback NEIGHBORSIZE fuel v orig s = Done r ->
  counted NEIGHBORSIZE m0 v (state_of r).
Proof.
  intros (Htr & _ & _ & Hcase) Ht Hrun.
  assert (Hi : w_i s + 1 = Z.of_nat (length (w_visited s)))
    by (destruct Hcase as [(_ & _ & ?)|[? _]]; done).
  unfold boundary_fallback in Hrun.
  apply bind_Done in Hrun as (m1 & H1 & Hrun).
  pose proof (tracked_shift _ _ _ _ _ _ _ _ Htr H1) as Htr1.
  apply bind_Done in Hrun as (ce & _ & Hrun).
  case_decide; [injection Hrun as <-; split; [done | by right]|].
  apply bind_Done in Hrun as (te & _ & Hrun).
  case_decide; [injection Hrun as <-; split; [done | by right]|].
  apply bind_Done in Hrun as (s' & Hs' & [= <-]). simpl.
  eapply (while_invariant (reverse_top NEIGHBORSIZE m0 v) (counted NEIGHBORSIZE m0 v));
    [| | |exact Hs'].
  - intros t t' Ht' Hb. apply (reverse_body_step _ _ _ _ _ Ht' Hb).
  - intros t t' Ht' Hb. apply (reverse_body_step _ _ _ _ _ Ht' Hb).
  - split; [done|]. simpl. lia.
Qed.

(** On any mesh, a traversal that runs to its end leaves the mesh, the
    sum and the counter as the log of its visits tells. *)
Lemma traverse_counted fuel v orig m r :
  traverse NEIGHBORSIZE fuel v orig m = Done r -> counted NEIGHBORSIZE m v (state_of r).
Proof.
  unfold traverse. intros (s & Hs & Hrun)%bind_Done.
  apply forward_sweep_exit in Hs.
  destruct (enters_fallback s) eqn:E.
  - apply andb_prop in E as [Ht%bool_decide_eq_true _].
    by eapply boundary_fallback_counted.
  - injection Hrun as <-. simpl. destruct Hs as (Htr & _ & _ & Hcase).
    split; [done|]. destruct Hcase as [(_ & _ & ?)|(_ & _ & ?)]; auto.
Qed.

Lemma finish_inv v s m' :
  finish v s = Done m' ->
  halfedges m' = halfedges (w_mesh s) /\ faces m' = faces (w_mesh s) /\
  exists cv, GETPTR1 (vertices (w_mesh s)) v = Done cv /\
    GETPTR1 (vertices m') v
      = Done (with_normal (normalized (w_normal s)) (with_valence (w_i s) cv)).
Proof.
  unfold finish. intros (vs & Hvs & [= <-])%bind_Done. simpl.
  apply SETPTR1_Done in Hvs as (cv & Hv & Hcv & ->).
  repeat split. exists cv. split; apply GETPTR1_Done; (split; [done|]); [done|].
  apply list_lookup_insert_eq. by eapply lookup_lt_Some.
Qed.

Lemma finish_progress v s (cv : vertex_t F) :
  GETPTR1 (vertices (w_mesh s)) v = Done cv ->
  exists m', finish v s = Done m'.
Proof.
  intros Hcv. unfold finish. erewrite SETPTR1_lookup by done. simpl. eauto.
Qed.

(** One pass of the [for] loop on a vertex with an anchor, on any mesh:
    the lengths of the log are written; when the traversal comes to the
    write of [valence], [valence] gets the counter and [normal] the
    normalised sum over the first NEIGHBORSIZE visits; when it leaves by
    a [continue], [valence] and [normal] stay. *)
Lemma update_vertex_spec fuel v m m' (cv : vertex_t F) :
  GETPTR1 (vertices m) v = Done cv -> v_halfedge cv <> -1 ->
  update_vertex NEIGHBORSIZE fuel v m = Done m' ->
  exists r cv',
    traverse NEIGHBORSIZE fuel v (v_halfedge cv) m = Done r /\
    counted NEIGHBORSIZE m v (state_of r) /\
    halfedges m' = replay_lengths m v (w_visited (state_of r)) (halfedges m) /\
    faces m' = faces m /\
    GETPTR1 (vertices m') v = Done cv' /\
    match r with
    | Walked s =>
        v_valence cv' = w_i s /\
        v_normal cv' =
          normalized (ring_normal m (take NEIGHBORSIZE (w_visited s).*1)) /\
        neighbors_are (w_mesh s) v (v_neighbors cv')
    | Skipped s =>
        v_valence cv' = v_valence cv /\ v_normal cv' = v_normal cv
    end.
Proof.
  intros Hcv Ho Hrun. unfold update_vertex in Hrun.
  pose proof Hcv as [Hv0 _]%GETPTR1_Done.
  rewrite decide_False in Hrun by lia. rewrite Hcv in Hrun. simpl in Hrun.
  rewrite decide_False in Hrun by done.
  apply bind_Done in Hrun as (r & Hr & Hrun).
  pose proof (traverse_counted _ _ _ _ _ Hr) as Hcnt.
  pose proof Hcnt as ((Hf & Hn & Hh) & Hi).
  destruct r as [s|s]; simpl in *.
  - injection Hrun as <-.
    destruct (wframe_vertex _ _ _ _ _ (wframe_sym _ _ _ Hf) Hcv)
      as (cv' & Hcv' & [= _ Hnrm _ Hval]).
    exists (Skipped s), cv'. repeat (split; [done|]).
    split; [apply Hf|]. done.
  - apply finish_inv in Hrun as (Hh' & Hf' & cvs & Hcvs & Hcv').
    exists (Walked s). eexists. repeat (split; [done|]).
    split; [simpl; congruence|]. split; [rewrite Hf'; apply Hf|].
    split; [exact Hcv'|]. simpl. split; [done|]. split; [by rewrite Hn|].
    by exists cvs.
Qed.

(** C5's ring, walked to the end: what [update_vertex] leaves. *)
Lemma closed_ring_update m v ring fuel :
  closed_ring m v ring -> (length ring <= fuel)%nat ->
  exists m' cv',
    update_vertex NEIGHBORSIZE fuel v m = Done m' /\
    GETPTR1 (vertices m') v = Done cv' /\
    v_valence cv' = Z.of_nat (length ring) /\
    v_neighbors cv' = slots NEIGHBORSIZE ring /\
    v_normal cv' = normalized (ring_normal m (take NEIGHBORSIZE ring)) /\
    halfedges m' =
      replay_lengths m v ((fun x => (x, twin_of m x)) <$> ring) (halfedges m) /\
    faces m' = faces m.
Proof.
  intros Hring Hfuel.
  destruct (closed_ring_sweep NEIGHBORSIZE _ _ _ _ Hring Hfuel)
    as (cv & s & Hcv & Ho & Hs & Hlog & Hc & Ht & Hi & Hexit).
  assert (Hfst : (fun x => (x, twin_of m x)) <$> ring = w_visited s) by done.
  assert (Hlog1 : (w_visited s).*1 = ring).
  { rewrite Hlog, <- list_fmap_compose. apply list_fmap_id. }
  assert (Htrav : traverse NEIGHBORSIZE fuel v (v_halfedge cv) m = Done (Walked s)).
  { unfold traverse. rewrite Hs. simpl. unfold enters_fallback.
    by rewrite bool_decide_eq_false_2. }
  destruct Hexit as (_ & (cvs & Hcvs & Hnb) & _).
  destruct (finish_progress v s cvs Hcvs) as [m' Hm'].
  assert (Hrun : update_vertex NEIGHBORSIZE fuel v m = Done m').
  { unfold update_vertex. pose proof Hcv as [Hv0 _]%GETPTR1_Done.
    rewrite decide_False by lia. rewrite Hcv. simpl.
    rewrite decide_False by done. rewrite Htrav. done. }
  destruct (update_vertex_spec _ _ _ _ _ Hcv Ho Hrun)
    as (r & cv' & Hr & _ & Hh & Hf & Hcv' & Hres).
  rewrite Htrav in Hr. injection Hr as <-. simpl in *.
  destruct Hres as (Hval & Hnrm & cvs' & Hcvs' & Hnb').
  assert (cvs' = cvs) as -> by congruence.
  exists m', cv'. rewrite Hfst. split; [done|]. split; [done|].
  split; [by rewrite Hval, Hi|]. split; [by rewrite <- Hnb', Hnb, Hlog1|].
  split; [by rewrite Hnrm, Hlog1|]. done.
Qed.
End Fallback.

(** ** Lengths after a replay *)

Section Lengths.
Context {F : Type} {FO : FloatOps F}.
Implicit Types (m : mesh F) (v e : Z) (log : list (Z * Z))
  (hs : list (halfedge_t F)).

Lemma put_length_other e x l hs :
  0 <= x -> e <> x -> put_length e l hs !! Z.to_nat x = hs !! Z.to_nat x.
Proof.
  intros Hx Hne. unfold put_length. case_decide; [|done].
  apply list_lookup_alter_ne. lia.
Qed.

Lemma put_length_same e l hs (h : halfedge_t F) :
  0 <= e -> hs !! Z.to_nat e = Some h ->
  put_length e l hs !! Z.to_nat e = Some (with_length l h).
Proof.
  intros He Hh. unfold put_length. rewrite decide_True by done.
  by rewrite list_lookup_alter_eq, Hh.
Qed.

Lemma replay_lengths_other m v log hs x :
  0 <= x -> x ∉ log.*1 -> x ∉ log.*2 ->
  replay_lengths m v log hs !! Z.to_nat x = hs !! Z.to_nat x.
Proof.
  intros Hx. revert hs. induction log as [|[a b] log IH]; intros hs H1 H2.
  - done.
  - simpl in *. apply not_elem_of_cons in H1 as [Ha H1], H2 as [Hb H2].
    unfold replay_lengths in *. simpl. rewrite IH by done.
    rewrite !put_length_other by done. done.
Qed.

(** With no half-edge touched twice, an entry of the log leaves its
    length on both of its half-edges. *)
Lemma replay_lengths_entry m v log hs e p (h t : halfedge_t F) :
  NoDup (log.*1 ++ log.*2) -> (e, p) ∈ log -> 0 <= e -> 0 <= p ->
  hs !! Z.to_nat e = Some h -> hs !! Z.to_nat p = Some t ->
  replay_lengths m v log hs !! Z.to_nat e
    = Some (with_length (length_of m v e) h) /\
  replay_lengths m v log hs !! Z.to_nat p
    = Some (with_length (length_of m v e) t).
Proof.
  intros Hnd (l1 & l2 & ->)%list_elem_of_split He Hp Hh Ht.
  rewrite !fmap_app in Hnd. simpl in Hnd.
  assert (Hep : e <> p /\ (e ∉ l1.*1) /\ (e ∉ l1.*2) /\ (e ∉ l2.*1) /\
                (e ∉ l2.*2) /\ (p ∉ l1.*1) /\ (p ∉ l1.*2) /\ (p ∉ l2.*1) /\
                (p ∉ l2.*2)).
  { apply NoDup_app in Hnd as (Hn1 & Hd & Hn2).
    apply NoDup_app in Hn1 as (_ & Hd1 & Hn1).
    apply NoDup_cons in Hn1 as [He2 _].
    apply NoDup_app in Hn2 as (_ & Hd2 & Hn2).
    apply NoDup_cons in Hn2 as [Hp2 _].
    pose proof (Hd e) as Hde. pose proof (Hd p) as Hdp.
    pose proof (Hd1 e) as Hd1e. pose proof (Hd2 p) as Hd2p.
    assert (He1 : e ∈ l1.*1 ++ e :: l2.*1)
      by (apply elem_of_app; right; left).
    assert (Hp1 : p ∈ l1.*2 ++ p :: l2.*2)
      by (apply elem_of_app; right; left).
    specialize (Hde He1). rewrite not_elem_of_app, not_elem_of_cons in Hde.
    destruct Hde as (Hde1 & Hde2 & Hde3).
    repeat split; try done.
    - intros Hin. apply (Hd1 e Hin). left.
    - intros Hin. apply (Hd p); [|done]. apply elem_of_app. by left.
    - intros Hin. apply (Hd2 p Hin). left.
    - intros Hin. apply (Hd p); [|done]. apply elem_of_app. right. by right. }
  destruct Hep as (Hne & A1 & A2 & A3 & A4 & B1 & B2 & B3 & B4).
  unfold replay_lengths. rewrite foldl_app. simpl.
  fold (replay_lengths m v l1 hs).
  set (hs1 := replay_lengths m v l1 hs).
  set (hs2 := put_length p (length_of m v e) (put_length e (length_of m v e) hs1)).
  fold (replay_lengths m v l2 hs2).
  rewrite !replay_lengths_other by done. unfold hs2. split.
  - rewrite put_length_other by done. apply put_length_same; [done|].
    unfold hs1. by rewrite replay_lengths_other.
  - apply put_length_same; [done|]. rewrite put_length_other by done.
    unfold hs1. by rewrite replay_lengths_other.
Qed.
End Lengths.

(** ** The shift of the collected prefix *)

Section Shift.
Context {F : Type} {FO : FloatOps F}.
Variable NEIGHBORSIZE : nat.
Implicit Types (m : mesh F) (s : walk F) (v e : Z) (nb : list Z).

Lemma load_neighbor_spec v k m nb x :
  neighbors_are m v nb -> length nb = NEIGHBORSIZE ->
  nb !! k = Some x ->
  load_neighbor NEIGHBORSIZE v (Z.of_nat k) m = Done x.
Proof.
  intros (cv & Hcv & <-) Hlen Hx. unfold load_neighbor.
  rewrite Hcv. simpl. apply lookup_lt_Some in Hx as Hlt.
  rewrite decide_True by lia. by apply GETPTR1_lookup.
Qed.

Lemma store_neighbor_progress v k x m nb :
  neighbors_are m v nb -> length nb = NEIGHBORSIZE -> (k < length nb)%nat ->
  exists m', store_neighbor NEIGHBORSIZE v (Z.of_nat k) x m = Done m' /\
             neighbors_are m' v (<[k := x]> nb).
Proof.
  intros (cv & Hcv & <-) Hlen Hlt. unfold store_neighbor.
  rewrite Hcv. simpl. rewrite decide_True by lia.
  destruct (lookup_lt_is_Some_2 (v_neighbors cv) k Hlt) as [y Hy].
  erewrite (SETPTR1_lookup (v_neighbors cv)) by (by apply GETPTR1_lookup).
  simpl. erewrite SETPTR1_lookup by done. simpl. rewrite Nat2Z.id.
  eexists. split; [done|].
  pose proof Hcv as [Hv0 Hcv']%GETPTR1_Done.
  eexists. split.
  - apply GETPTR1_Done. split; [done|]. simpl.
    apply list_lookup_insert_eq. by eapply lookup_lt_Some.
  - done.
Qed.

Lemma length_swap_slots k nb : length (swap_slots k nb) = length nb.
Proof.
  unfold swap_slots.
  destruct (nb !! k), (nb !! (k - 1)%nat); by rewrite ?length_insert.
Qed.

(** The shift loop does on the slots of [v] what [shifted] does on a
    list, and stays inside the array when it starts inside. *)
Lemma shift_neighbors_spec n :
  forall k v m nb,
    neighbors_are m v nb -> length nb = NEIGHBORSIZE ->
    (k < length nb)%nat -> (n < k)%nat ->
    exists m', shift_neighbors NEIGHBORSIZE n v (Z.of_nat k) m = Done m' /\
               neighbors_are m' v (shifted n k nb).
Proof.
  induction n as [|n IH]; intros k v m nb Hnb Hlen Hk Hn; simpl.
  - eauto.
  - destruct (lookup_lt_is_Some_2 nb k Hk) as [a Ha].
    destruct (lookup_lt_is_Some_2 nb (k - 1)) as [b Hb]; [lia|].
    rewrite (load_neighbor_spec v k m nb a) by done. simpl.
    replace (Z.of_nat k - 1) with (Z.of_nat (k - 1)) by lia.
    rewrite (load_neighbor_spec v (k - 1) m nb b) by done. simpl.
    destruct (store_neighbor_progress v k b m nb) as (m1 & -> & Hnb1); try done.
    simpl.
    destruct (store_neighbor_progress v (k - 1) a m1 (<[k := b]> nb))
      as (m2 & -> & Hnb2); try done; rewrite ?length_insert; try lia.
    simpl.
    destruct (IH (k - 1)%nat v m2 (swap_slots k nb)) as (m' & Hm' & Hnb').
    + unfold swap_slots. by rewrite Ha, Hb.
    + by rewrite length_swap_slots.
    + rewrite length_swap_slots. lia.
    + lia.
    + eauto.
Qed.

(** [shifted] moves the entry of slot [k] down by [n] slots, and each of
    the [n] entries it passes up by one. *)
Lemma shifted_rotates n :
  forall k nb x,
    (n <= k)%nat -> nb !! k = Some x ->
    shifted n k nb =
      take (k - n) nb ++ x :: take n (drop (k - n) nb) ++ drop (S k) nb.
Proof.
  induction n as [|n IH]; intros k nb x Hn Hx; simpl.
  - rewrite Nat.sub_0_r. by rewrite (take_drop_middle nb k x Hx).
  - destruct (lookup_lt_is_Some_2 nb (k - 1)) as [b Hb];
      [apply lookup_lt_Some in Hx; lia|].
    assert (Hsw : swap_slots k nb = <[(k - 1)%nat := x]> (<[k := b]> nb))
      by (unfold swap_slots; by rewrite Hx, Hb).
    apply lookup_lt_Some in Hx as Hlt.
    rewrite (IH (k - 1)%nat _ x); [|lia|].
    2:{ rewrite Hsw. apply list_lookup_insert_eq. rewrite length_insert. lia. }
    replace (k - 1 - n)%nat with (k - S n)%nat by lia.
    rewrite Hsw.
    rewrite (take_insert_ge _ (k - S n) (k - 1)) by lia.
    rewrite (take_insert_ge _ (k - S n) k) by lia.
    replace (S (k - 1)) with k by lia.
    rewrite (drop_insert_lt _ k (k - 1)) by lia.
    rewrite (drop_insert_ge _ k k) by lia.
    replace (k - k)%nat with 0%nat by lia.
    f_equal. f_equal.
    rewrite (drop_insert_ge _ (k - S n) (k - 1)) by lia.
    rewrite (drop_insert_ge _ (k - S n) k) by lia.
    replace (k - 1 - (k - S n))%nat with n by lia.
    replace (k - (k - S n))%nat with (S n) by lia.
    rewrite (take_insert_ge _ n n) by lia.
    rewrite (take_insert_ge _ n (S n)) by lia.
    assert (Hd : drop (k - S n) nb !! n = Some b)
      by (rewrite lookup_drop; rewrite <- Hb; f_equal; lia).
    rewrite (take_S_r _ _ _ Hd), <- app_assoc. f_equal. simpl.
    rewrite (drop_S _ _ _ Hx). simpl.
    done.
Qed.
End Shift.

(** ** Closed rings and the counters *)

Section Rings.
Context {F : Type} {FO : FloatOps F}.
Variable NEIGHBORSIZE : nat.
Implicit Types (m : mesh F) (s : walk F) (v e : Z) (ring : list Z).

Lemma ring_path_step m rest :
  forall e0 last e, ring_path m e0 rest last -> e ∈ e0 :: rest ->
                    exists e', ring_step m e e'.
Proof.
  induction rest as [|x rest IH]; intros e0 last e Hpath Hin; simpl in Hpath.
  - apply list_elem_of_singleton in Hin as ->. eauto.
  - destruct Hpath as [Hstep Hpath].
    apply elem_of_cons in Hin as [->|Hin]; [eauto|]. by eapply IH.
Qed.

Lemma closed_ring_step m v ring e :
  closed_ring m v ring -> e ∈ ring -> exists e', ring_step m e e'.
Proof.
  intros (cv & rest & _ & _ & -> & _ & Hpath) Hin. by eapply ring_path_step.
Qed.

Lemma update_vertex_neighbors_one fuel v m :
  update_vertex_neighbors NEIGHBORSIZE fuel [v] m
  = update_vertex NEIGHBORSIZE fuel v m.
Proof. simpl. by destruct (update_vertex NEIGHBORSIZE fuel v m). Qed.

(** The traversal of a closed ring is its forward sweep. *)
Lemma closed_ring_traverse m v ring fuel :
  closed_ring m v ring -> (length ring <= fuel)%nat ->
  exists cv s,
    GETPTR1 (vertices m) v = Done cv /\
    forward_sweep NEIGHBORSIZE fuel v (v_halfedge cv) m = Done s /\
    (w_visited s).*1 = ring /\
    w_curr s = v_halfedge cv /\ enters_fallback s = false /\
    traverse NEIGHBORSIZE fuel v (v_halfedge cv) m = Done (Walked s).
Proof.
  intros Hring Hfuel.
  destruct (closed_ring_sweep NEIGHBORSIZE _ _ _ _ Hring Hfuel)
    as (cv & s & Hcv & Ho & Hs & Hlog & Hc & Ht & Hi & Hexit).
  assert (Hfb : enters_fallback s = false).
  { unfold enters_fallback. by rewrite bool_decide_eq_false_2. }
  exists cv, s. repeat (split; [done|]).
  split; [rewrite Hlog, <- list_fmap_compose; apply list_fmap_id|].
  repeat (split; [done|]).
  unfold traverse. rewrite Hs. simpl. by rewrite Hfb.
Qed.

(** C5.  When the ring of a vertex is closed (every edge of it has a
    twin, its face and its end vertex, and the sweep by twin and next
    comes back to the anchor), the forward sweep visits the edges of the
    ring and no other, they are pairwise distinct and as many as the
    valence then written, the sweep ends on the anchor, and the boundary
    fallback is not entered. *)
Theorem closed_ring_forward_sweep m v ring fuel :
  closed_ring m v ring -> (length ring <= fuel)%nat ->
  exists cv s m' cv',
    GETPTR1 (vertices m) v = Done cv /\
    forward_sweep NEIGHBORSIZE fuel v (v_halfedge cv) m = Done s /\
    (w_visited s).*1 = ring /\ NoDup ring /\
    w_curr s = v_halfedge cv /\ enters_fallback s = false /\
    traverse NEIGHBORSIZE fuel v (v_halfedge cv) m = Done (Walked s) /\
    update_vertex_neighbors NEIGHBORSIZE fuel [v] m = Done m' /\
    GETPTR1 (vertices m') v = Done cv' /\
    v_valence cv' = Z.of_nat (length ring).
Proof.
  intros Hring Hfuel.
  destruct (closed_ring_traverse _ _ _ _ Hring Hfuel)
    as (cv & s & Hcv & Hs & Hlog & Hc & Hfb & Htrav).
  destruct (closed_ring_update NEIGHBORSIZE _ _ _ _ Hring Hfuel)
    as (m' & cv' & Hrun & Hcv' & Hval & _).
  exists cv, s, m', cv'. rewrite update_vertex_neighbors_one.
  repeat (split; [done|]).
  split; [by eapply closed_ring_NoDup|]. done.
Qed.


(** What the loops accumulate is the area-weighted sum of the design
    document. *)
Lemma ring_normal_face_sum m (es : list Z) : ring_normal m es = face_sum m es.
Proof.
  unfold ring_normal, face_sum. generalize (@vzero F FO).
  induction es as [|e es IH]; intros acc; [done|]. simpl.
  destruct (face_of m e) as [cf| |]; apply IH.
Qed.

End Rings.

(** ** Missing links *)

Section MissingLinks.
Context {F : Type} {FO : FloatOps F}.
Variable NEIGHBORSIZE : nat.
Implicit Types (m : mesh F) (s : walk F) (v e : Z).

Lemma update_face_skips f m (cf : face_t F) :
  GETPTR1 (faces m) f = Done cf ->
  (f_halfedge cf = -1 \/
   exists ce, GETPTR1 (halfedges m) (f_halfedge cf) = Done ce /\
              (he_prev ce = -1 \/ he_next ce = -1)) ->
  update_face f m = Done m.
Proof.
  intros Hcf Hcase. unfold update_face.
  case_decide; [done|]. rewrite Hcf. simpl.
  destruct Hcase as [Hh|(ce & Hce & Hcase)].
  - by rewrite decide_True.
  - case_decide; [done|]. rewrite Hce. simpl.
    destruct Hcase as [Hp|Hn].
    + by rewrite decide_True.
    + case_decide; [done|]. by rewrite decide_True.
Qed.

Lemma update_vertex_skips fuel v m (cv : vertex_t F) :
  GETPTR1 (vertices m) v = Done cv -> v_halfedge cv = -1 ->
  update_vertex NEIGHBORSIZE fuel v m = Done m.
Proof.
  intros Hcv Ho. unfold update_vertex. case_decide; [done|].
  rewrite Hcv. simpl. by rewrite decide_True.
Qed.

(** The first visit of a forward sweep is the anchor. *)
Lemma forward_sweep_first fuel v orig m s :
  forward_sweep NEIGHBORSIZE fuel v orig m = Done s ->
  exists t rest, w_visited s = (orig, t) :: rest.
Proof.
  unfold forward_sweep. intros (s0 & Hs0 & Hrun)%bind_Done.
  destruct (start_walk_top _ _ _ _ _ Hs0) as [Htop Hc0].
  assert (Hlog0 : w_visited s0 = []).
  { unfold start_walk in Hs0. apply bind_Done in Hs0 as (ce & _ & Hs0).
    by apply bind_Done in Hs0 as (vs & _ & [= <-]). }
  eapply (while_invariant
            (fun t => forward_top NEIGHBORSIZE m v orig t /\
                      ((w_visited t = [] /\ w_curr t = orig) \/
                       exists p rest, w_visited t = (orig, p) :: rest))
            (fun t => exists p rest, w_visited t = (orig, p) :: rest));
    [| | |exact Hrun].
  - intros t t' [Ht Hlog] Hb. split; [by eapply forward_body_top|].
    pose proof Ht as (_ & _ & _ & Hc & _).
    apply forward_body_inv in Hb as (s1 & l & m2 & H1 & _ & _ & Hcase); [|lia].
    apply record_neighbor_spec in H1 as (_ & _ & _ & Hlog1 & _).
    destruct Hcase as [[_ [=]]|(_ & m3 & te & ce & _ & _ & _ & Hr)].
    case_decide; [done|]. injection Hr as ->. simpl. right. rewrite Hlog1.
    destruct Hlog as [[-> ->]|(p & rest & ->)]; simpl; eauto.
  - intros t t' [Ht Hlog] Hb.
    pose proof Ht as (_ & _ & _ & Hc & _).
    apply forward_body_inv in Hb as (s1 & l & m2 & H1 & _ & _ & Hcase); [|lia].
    apply record_neighbor_spec in H1 as (_ & _ & _ & Hlog1 & _).
    assert (Hgoal : exists p rest, w_visited s1 = (orig, p) :: rest).
    { rewrite Hlog1.
      destruct Hlog as [[-> ->]|(p & rest & ->)]; simpl; eauto. }
    destruct Hcase as [[_ [= ->]]|(_ & m3 & te & ce & _ & _ & _ & Hr)];
      [done|].
    case_decide; [|done]. by injection Hr as ->.
  - split; [done|]. left. done.
Qed.

(** The boundary fallback finds no edge before the anchor: the pass on
    the vertex ends there, by [continue], on the mesh the forward sweep
    and the shift loop have made. *)
Lemma fallback_guard_skips fuel v m (cv : vertex_t F) s (ce : halfedge_t F) :
  GETPTR1 (vertices m) v = Done cv ->
  forward_sweep NEIGHBORSIZE fuel v (v_halfedge cv) m = Done s ->
  enters_fallback s = true -> w_i s < Z.of_nat NEIGHBORSIZE ->
  GETPTR1 (halfedges m) (v_halfedge cv) = Done ce ->
  (he_prev ce = -1 \/
   exists pe, GETPTR1 (halfedges m) (he_prev ce) = Done pe /\ he_twin pe = -1) ->
  exists s',
    traverse NEIGHBORSIZE fuel v (v_halfedge cv) m = Done (Skipped s') /\
    halfedges (w_mesh s') = replay_lengths m v (w_visited s) (halfedges m) /\
    neighbors_are (w_mesh s') v
      (shifted (Z.to_nat (w_i s - 1)) (Z.to_nat (w_i s))
         (slots NEIGHBORSIZE (w_visited s).*1)).
Proof.
  intros Hcv Hs Hfb Hi Hce Hcase.
  pose proof (forward_sweep_exit _ _ _ _ _ _ Hs)
    as (Htr & Hnb & _ & Hexit).
  pose proof Htr as (Hf & _).
  apply andb_prop in Hfb as Hfb'. destruct Hfb' as [Ht%bool_decide_eq_true _].
  assert (Hi0 : 0 <= w_i s) by (destruct Hexit as [(_ & ? & _)|[? _]]; done).
  assert (Hshift : exists m1,
    shift_neighbors NEIGHBORSIZE (Z.to_nat (w_i s - 1)) v (w_i s) (w_mesh s)
      = Done m1 /\
    neighbors_are m1 v
      (shifted (Z.to_nat (w_i s - 1)) (Z.to_nat (w_i s))
         (slots NEIGHBORSIZE (w_visited s).*1))).
  { destruct (decide (w_i s = 0)) as [->|Hne]; [simpl; eauto|].
    destruct (shift_neighbors_spec NEIGHBORSIZE (Z.to_nat (w_i s - 1))
                (Z.to_nat (w_i s)) v (w_mesh s) _ Hnb) as (m1 & Hm1 & Hnb1).
    - apply length_slots.
    - rewrite length_slots. lia.
    - lia.
    - rewrite Z2Nat.id in Hm1 by done. eauto. }
  destruct Hshift as (m1 & Hm1 & Hnb1).
  pose proof (shift_neighbors_frame _ _ _ _ _ _ Hm1) as Hf1.
  pose proof (tracked_shift _ _ _ _ _ _ _ _ _ Htr Hm1) as (_ & _ & Hh1).
  pose proof (wframe_sym _ _ _ (wframe_trans _ _ _ _ Hf Hf1)) as Hback.
  destruct (wframe_halfedge _ _ _ _ _ Hback Hce)
    as (ce1 & Hce1 & [= _ _ _ _ Hp]).
  unfold traverse. rewrite Hs. simpl. rewrite Hfb.
  unfold boundary_fallback. rewrite Hm1. simpl. rewrite Hce1. simpl.
  destruct Hcase as [Hprev|(pe & Hpe & Htw)].
  - rewrite decide_True by congruence. eauto.
  - case_decide; [eauto|]. rewrite Hp.
    destruct (wframe_halfedge _ _ _ _ _ Hback Hpe)
      as (pe1 & -> & [= _ _ Htw1 _ _]).
    simpl. rewrite decide_True by congruence. eauto.
Qed.

(** C4 (amended).  A face whose anchor, or the [prev] or [next] of its
    anchor, is the sentinel, and a vertex whose anchor is the sentinel,
    are left as they are and the batch goes on.  When the boundary
    fallback finds the [prev] of the anchor, or the twin of that [prev],
    missing, the pass on the vertex ends there and the batch goes on:
    [valence] and [normal] of the vertex, the faces and the other
    vertices are as before, while what the forward sweep wrote stays
    written: the sweep visited the anchor first, the lengths of all its
    visits are in the half-edges, and the neighbour slots hold its visits
    as the shift loop left them. *)
Theorem missing_link_skips fuel m :
  (forall f rest (cf : face_t F),
     GETPTR1 (faces m) f = Done cf ->
     (f_halfedge cf = -1 \/
      exists ce, GETPTR1 (halfedges m) (f_halfedge cf) = Done ce /\
                 (he_prev ce = -1 \/ he_next ce = -1)) ->
     update_face_normals (f :: rest) m = update_face_normals rest m) /\
  (forall v rest (cv : vertex_t F),
     GETPTR1 (vertices m) v = Done cv -> v_halfedge cv = -1 ->
     update_vertex_neighbors NEIGHBORSIZE fuel (v :: rest) m
     = update_vertex_neighbors NEIGHBORSIZE fuel rest m) /\
  (forall v rest (cv : vertex_t F) s (ce : halfedge_t F),
     GETPTR1 (vertices m) v = Done cv -> v_halfedge cv <> -1 ->
     forward_sweep NEIGHBORSIZE fuel v (v_halfedge cv) m = Done s ->
     enters_fallback s = true -> w_i s < Z.of_nat NEIGHBORSIZE ->
     GETPTR1 (halfedges m) (v_halfedge cv) = Done ce ->
     (he_prev ce = -1 \/
      exists pe, GETPTR1 (halfedges m) (he_prev ce) = Done pe /\
                 he_twin pe = -1) ->
     exists m' cv',
       update_vertex_neighbors NEIGHBORSIZE fuel (v :: rest) m
       = update_vertex_neighbors NEIGHBORSIZE fuel rest m' /\
       wframe v m m' /\
       GETPTR1 (vertices m') v = Done cv' /\
       v_valence cv' = v_valence cv /\ v_normal cv' = v_normal cv /\
       (exists t visits, w_visited s = (v_halfedge cv, t) :: visits) /\
       halfedges m' = replay_lengths m v (w_visited s) (halfedges m) /\
       v_neighbors cv'
       = shifted (Z.to_nat (w_i s - 1)) (Z.to_nat (w_i s))
           (slots NEIGHBORSIZE (w_visited s).*1)).
Proof.
  split; [|split].
  - intros f rest cf Hcf Hcase. simpl.
    by rewrite (update_face_skips _ _ _ Hcf Hcase).
  - intros v rest cv Hcv Ho. simpl.
    by rewrite (update_vertex_skips _ _ _ _ Hcv Ho).
  - intros v rest cv s ce Hcv Ho Hs Hfb Hi Hce Hcase.
    destruct (fallback_guard_skips _ _ _ _ _ _ Hcv Hs Hfb Hi Hce Hcase)
      as (s' & Htrav & Hh & cv1 & Hcv1 & Hnb).
    pose proof (traverse_frame _ _ _ _ _ _ Htrav) as Hf. simpl in Hf.
    destruct (wframe_vertex _ _ _ _ _ (wframe_sym _ _ _ Hf) Hcv)
      as (cv' & Hcv' & [= _ Hn _ Hval]).
    assert (cv1 = cv') as -> by congruence.
    exists (w_mesh s'), cv'. split.
    { simpl. unfold update_vertex.
      pose proof Hcv as [Hv0 _]%GETPTR1_Done.
      rewrite decide_False by lia. rewrite Hcv. simpl.
      rewrite decide_False by done. rewrite Htrav. done. }
    repeat (split; [done|]).
    split; [by eapply forward_sweep_first|done].
Qed.
End MissingLinks.

(** ** The scenarios *)

Import Scenario.

(** C1.  On the open fan the forward sweep from half-edge 9 collects 9, 6,
    3, 0 and stops on the missing twin of 0, with [i = 3].  The shift loop
    leaves 9, 0, 6, 3 in the slots: slot 3 has gone to slot 1 and slots 1
    and 2 have moved up, where a reversal of slots 1 to 3 gives 9, 0, 3,
    6. *)
Theorem open_fan_prefix_rotated :
  exists s m' cv',
    forward_sweep 20 20 0 9 (open_fan 20) = Done s /\
    neighbors_are (w_mesh s) 0 (9 :: 6 :: 3 :: 0 :: replicate 16 (-1)) /\
    w_i s = 3 /\ enters_fallback s = true /\
    update_vertex_neighbors 20 20 [0] (open_fan 20) = Done m' /\
    GETPTR1 (vertices m') 0 = Done cv' /\
    v_neighbors cv' = 9 :: 0 :: 6 :: 3 :: replicate 16 (-1) /\
    v_neighbors cv' <> 9 :: reverse [6; 3; 0] ++ replicate 16 (-1).
Proof.
  do 3 eexists.
  split; [vm_compute; reflexivity|].
  split; [eexists; split; vm_compute; reflexivity|].
  split; [reflexivity|]. split; [reflexivity|].
  split; [vm_compute; reflexivity|].
  split; [vm_compute; reflexivity|].
  split; [reflexivity|]. vm_compute. intros [=].
Qed.

(** C2 (amended).  On the single triangle with its ring running
    A -> C -> B -> A, [update_face_normals] on face 0 gives the normal
    (0,0,1) and the area 0.5.  [update_vertex_neighbors] on A then puts
    the half-edge leaving A in slot 0 and the sentinel in the other slots
    and writes the length 1 of that half-edge; the walk stops on the
    missing twin with the counter at 0, the fallback finds no twin behind
    the anchor and leaves by [continue], so the valence and the normal of
    A are what they were. *)
Theorem single_triangle_scenario (n fuel : nat) (nrmA : vec3 B32.float)
    (valA : Z) (nbA : list Z) :
  exists m1 s m2,
    update_face_normals [0] (single_triangle nrmA valA nbA) = Done m1 /\
    faces m1 = [Face 0 (point 0 0 1) B32.half] /\
    traverse (S n) (S fuel) 0 0 m1 = Done (Skipped s) /\ w_i s = 0 /\
    update_vertex_neighbors (S n) (S fuel) [0] m1 = Done m2 /\
    vertices m2 !! 0%nat
      = Some (Vertex (point 0 0 0) nrmA 0 valA (0 :: replicate n (-1))) /\
    he_length <$> halfedges m2 = [B32.one; B32.zero; B32.zero].
Proof.
  do 3 eexists.
  split; [vm_compute; reflexivity|].
  split; [reflexivity|].
  split; [vm_compute; reflexivity|].
  split; [reflexivity|].
  split; [vm_compute; reflexivity|].
  split; reflexivity.
Qed.

(** C2, as stated, fails on the triangle: the valence of A is not 1 and
    its normal is not (0,0,1) after the two calls. *)
Lemma single_triangle_valence_not_one :
  exists m1 m2 cv,
    update_face_normals [0]
      (single_triangle origin (-1) (replicate 20 (-1))) = Done m1 /\
    update_vertex_neighbors 20 20 [0] m1 = Done m2 /\
    vertices m2 !! 0%nat = Some cv /\
    v_valence cv <> 1 /\ v_normal cv <> point 0 0 1.
Proof.
  do 3 eexists.
  split; [vm_compute; reflexivity|].
  split; [vm_compute; reflexivity|].
  split; [reflexivity|].
  split; [simpl; lia | vm_compute; intros [=]].
Qed.


(** C4, as stated, fails twice.  On the triangle the twin behind the
    anchor is missing and the pass on A is cut short, yet the record of A
    and the length of its anchor have changed.  On the torn edge the
    [next] of the twin is missing and the pass dereferences
    [halfedges[-1]]. *)
Lemma missing_link_not_skipped :
  (exists m',
     update_vertex_neighbors 20 20 [0]
       (single_triangle origin 7 (replicate 20 7)) = Done m' /\
     vertices m' !! 0%nat
       <> vertices (single_triangle origin 7 (replicate 20 7)) !! 0%nat /\
     halfedges m' !! 0%nat
       <> halfedges (single_triangle origin 7 (replicate 20 7)) !! 0%nat) /\
  update_vertex_neighbors 20 20 [0] (torn 20) = Fault.
Proof.
  split; [|vm_compute; reflexivity].
  eexists. split; [vm_compute; reflexivity|].
  split; vm_compute; intros [=].
Qed.

(** ** The statements at work on the scenarios *)

Ltac ring_step_here :=
  do 4 eexists; repeat split; vm_compute; first [reflexivity | discriminate].

(** The three triangles of [closed_fan] close a ring around vertex 0. *)
Lemma closed_fan_ring (N : nat) : closed_ring (closed_fan N) 0 [0; 6; 3].
Proof.
  exists (fresh_vertex N origin 0), [6; 3].
  split; [reflexivity|]. split; [simpl; lia|]. split; [reflexivity|].
  split.
  - simpl. intros H.
    repeat (apply elem_of_cons in H as [H|H]; [discriminate|]).
    by apply elem_of_nil in H.
  - simpl. repeat split; ring_step_here.
Defined.

Lemma closed_ring_forward_sweep_witness :
  closed_ring (closed_fan 2) 0 [0; 6; 3] /\ (length [0; 6; 3] <= 3)%nat /\
  exists s m' cv',
    forward_sweep 2 3 0 0 (closed_fan 2) = Done s /\
    (w_visited s).*1 = [0; 6; 3] /\ NoDup [0; 6; 3] /\
    w_curr s = 0 /\ enters_fallback s = false /\
    update_vertex_neighbors 2 3 [0] (closed_fan 2) = Done m' /\
    GETPTR1 (vertices m') 0 = Done cv' /\ v_valence cv' = 3.
Proof.
  split; [apply closed_fan_ring|]. split; [simpl; lia|].
  destruct (closed_ring_forward_sweep 2 (closed_fan 2) 0 [0; 6; 3] 3
              (closed_fan_ring 2) (le_n 3))
    as (cv & s & m' & cv' & Hcv & Hs & Hlog & Hnd & Hc & Hfb & _ & Hrun & Hcv' & Hval).
  assert (Done cv = Done (fresh_vertex 2 origin 0)) as [= ->]
    by (rewrite <- Hcv; reflexivity).
  exists s, m', cv'.
  split; [exact Hs|].
  split; [exact Hlog|].
  split; [exact Hnd|].
  split; [exact Hc|].
  split; [exact Hfb|].
  split; [exact Hrun|].
  split; [exact Hcv'|exact Hval].
Defined.


(** The ring of [tilted_fan] is that of [closed_fan]. *)
Lemma tilted_fan_ring (N : nat) : closed_ring (tilted_fan N) 0 [0; 6; 3].
Proof.
  exists (fresh_vertex N origin 0), [6; 3].
  split; [reflexivity|]. split; [simpl; lia|]. split; [reflexivity|].
  split.
  - simpl. intros H.
    repeat (apply elem_of_cons in H as [H|H]; [discriminate|]).
    by apply elem_of_nil in H.
  - simpl. repeat split; ring_step_here.
Defined.


Lemma single_triangle_corners (nrmA : vec3 B32.float) (valA : Z) (nbA : list Z) :
  corners (single_triangle nrmA valA nbA) 0
    (point 0 1 0) (point 0 0 0) (point 1 0 0).
Proof.
  do 7 eexists. repeat split; try reflexivity; simpl; lia.
Defined.

Lemma update_face_normals_geometry_witness :
  0 <> -1 /\
  corners (single_triangle origin (-1) []) 0
    (point 0 1 0) (point 0 0 0) (point 1 0 0) /\
  (exists m', update_face_normals [0] (single_triangle origin (-1) []) = Done m') /\
  (forall f_idxs m',
     0 ∈ f_idxs ->
     update_face_normals f_idxs (single_triangle origin (-1) []) = Done m' ->
     face_geometry m' 0 (point 0 0 1) B32.half).
Proof.
  assert (Hne : 0 <> -1) by lia.
  split; [exact Hne|]. split; [apply single_triangle_corners|].
  exact (update_face_normals_geometry 0 (single_triangle origin (-1) [])
           (point 0 1 0) (point 0 0 0) (point 1 0 0) Hne
           (single_triangle_corners origin (-1) [])).
Defined.

Lemma isolated_vertex_untouched_witness :
  vertices (triangle_and_isolated 4) !! 3%nat
    = Some (Vertex (point 5 5 5) (point 0 0 1) (-1) 4 [1; 2]) /\
  v_halfedge (Vertex (point 5 5 5) (point 0 0 1) (-1) 4 [1; 2]) = -1 /\
  (forall m',
     update_vertex_neighbors 4 4 [0; 3; 1] (triangle_and_isolated 4) = Done m' ->
     vertices m' !! 3%nat
       = Some (Vertex (point 5 5 5) (point 0 0 1) (-1) 4 [1; 2])) /\
  (forall m',
     update_face_normals [0] (triangle_and_isolated 4) = Done m' ->
     vertices m' !! 3%nat
       = Some (Vertex (point 5 5 5) (point 0 0 1) (-1) 4 [1; 2])).
Proof.
  split; [reflexivity|]. split; [reflexivity|].
  exact (isolated_vertex_untouched 4 4 [0; 3; 1] [0] (triangle_and_isolated 4)
           3 _ eq_refl eq_refl).
Defined.

Lemma missing_link_skips_witness :
  (GETPTR1 (faces (Mesh [] [] [Face (-1) origin B32.zero])) 0
     = Done (Face (-1) origin B32.zero) /\
   update_face_normals [0; 0] (Mesh [] [] [Face (-1) origin B32.zero])
     = update_face_normals [0] (Mesh [] [] [Face (-1) origin B32.zero])) /\
  (GETPTR1 (vertices (triangle_and_isolated 4)) 3
     = Done (Vertex (point 5 5 5) (point 0 0 1) (-1) 4 [1; 2]) /\
   update_vertex_neighbors 4 4 [3; 0] (triangle_and_isolated 4)
     = update_vertex_neighbors 4 4 [0] (triangle_and_isolated 4)) /\
  (exists s m' cv',
     forward_sweep 4 4 0 0 (single_triangle origin 7 (replicate 4 7)) = Done s /\
     enters_fallback s = true /\ w_i s < 4 /\
     update_vertex_neighbors 4 4 [0; 1] (single_triangle origin 7 (replicate 4 7))
       = update_vertex_neighbors 4 4 [1] m' /\
     GETPTR1 (vertices m') 0 = Done cv' /\
     v_valence cv' = 7 /\ v_normal cv' = origin /\
     v_neighbors cv' = [0; -1; -1; -1] /\
     exists h0, GETPTR1 (halfedges m') 0 = Done h0 /\ he_length h0 = B32.one).
Proof.
  split; [|split].
  - split; [reflexivity|].
    exact (proj1 (missing_link_skips 4 4 (Mesh [] [] [Face (-1) origin B32.zero]))
             0 [0] _ eq_refl (or_introl eq_refl)).
  - split; [reflexivity|].
    exact (proj1 (proj2 (missing_link_skips 4 4 (triangle_and_isolated 4)))
             3 [0] _ eq_refl eq_refl).
  - set (m := single_triangle origin 7 (replicate 4 7)).
    assert (H1 : GETPTR1 (vertices m) 0 = Done (Vertex origin origin 0 7 (replicate 4 7)))
      by reflexivity.
    assert (H2 : v_halfedge (Vertex (F := B32.float) origin origin 0 7 (replicate 4 7)) <> -1)
      by (simpl; lia).
    destruct (forward_sweep 4 4 0
                (v_halfedge (Vertex (F := B32.float) origin origin 0 7 (replicate 4 7))) m)
      as [s| |] eqn:H3; try (vm_compute in H3; discriminate H3).
    assert (H4 : enters_fallback s = true).
    { vm_compute in H3. injection H3 as <-. reflexivity. }
    assert (H5 : w_i s < 4).
    { vm_compute in H3. injection H3 as <-. reflexivity. }
    destruct (proj2 (proj2 (missing_link_skips 4 4 m)) 0 [1] _ s
                (Halfedge 2 0 (-1) 1 2 B32.zero) H1 H2 H3 H4 H5 eq_refl
                (or_intror (ex_intro _ (Halfedge 0 0 (-1) 0 1 B32.zero)
                              (conj eq_refl eq_refl))))
      as (m' & cv' & Hrun & _ & Hcv' & Hval & Hn & _ & Hh & Hnb).
    exists s, m', cv'.
    split; [exact H3|]. split; [exact H4|]. split; [exact H5|].
    split; [exact Hrun|]. split; [exact Hcv'|]. split; [exact Hval|].
    split; [exact Hn|].
    pose proof H3 as H6. vm_compute in H6. injection H6 as <-.
    split; [rewrite Hnb; reflexivity|].
    exists (with_length B32.one (Halfedge 2 0 (-1) 1 2 B32.zero)).
    split; [|reflexivity].
    apply GETPTR1_Done. split; [lia|]. rewrite Hh. vm_compute. reflexivity.
Defined.

(** * Further properties of the kernels *)

(** ** Passes of the face kernel, repeated and reordered *)

Section FaceBatches.
Context {F : Type} {FO : FloatOps F}.
Implicit Types (m : mesh F) (f g : Z) (cf : face_t F).

Lemma update_face_run f m cf c0 c1 c2 :
  f <> -1 -> GETPTR1 (faces m) f = Done cf -> corners m f c0 c1 c2 ->
  update_face f m = Done (face_written m f cf c0 c1 c2).
Proof.
  intros Hf Hcf (cf' & ce & pe & ne & v0 & v1 & v2 & Hcf' & Hh & Hce & Hp & Hpe
                 & Hn & Hne & Hv0 & Hv1 & Hv2 & -> & -> & ->).
  assert (cf' = cf) as -> by congruence.
  unfold update_face.
  rewrite decide_False by done. rewrite Hcf. simpl.
  rewrite decide_False by done. rewrite Hce. simpl.
  rewrite decide_False by done. rewrite decide_False by done.
  rewrite Hpe. simpl. rewrite Hne. simpl.
  rewrite Hv0, Hv1, Hv2. simpl.
  erewrite SETPTR1_lookup by eassumption. done.
Qed.

Lemma update_face_inv f m m' :
  update_face f m = Done m' ->
  (f = -1 /\ m' = m) \/
  exists cf, f <> -1 /\ GETPTR1 (faces m) f = Done cf /\
    ((m' = m /\ face_unlinked m cf) \/
     exists c0 c1 c2, corners m f c0 c1 c2 /\ m' = face_written m f cf c0 c1 c2).
Proof.
  unfold update_face, face_unlinked. intros Hrun.
  case_decide as Hf; [left; by injection Hrun as <-|]. right.
  apply bind_Done in Hrun as (cf & Hcf & Hrun). exists cf.
  do 2 (split; [done|]).
  case_decide as Hh; [left; injection Hrun as <-; auto|].
  apply bind_Done in Hrun as (ce & Hce & Hrun).
  case_decide as Hp; [left; injection Hrun as <-; eauto 6|].
  case_decide as Hn; [left; injection Hrun as <-; eauto 6|].
  apply bind_Done in Hrun as (pe & Hpe & Hrun).
  apply bind_Done in Hrun as (ne & Hne & Hrun).
  apply bind_Done in Hrun as (v0 & Hv0 & Hrun).
  apply bind_Done in Hrun as (v1 & Hv1 & Hrun).
  apply bind_Done in Hrun as (v2 & Hv2 & Hrun).
  apply bind_Done in Hrun as (fs & Hfs & [= <-]).
  right. exists (v_position v0), (v_position v1), (v_position v2). split.
  - exists cf, ce, pe, ne, v0, v1, v2. done.
  - apply SETPTR1_Done in Hfs as (x & Hi & Hx & ->).
    apply GETPTR1_Done in Hcf as [_ Hcf]. by assert (x = cf) as -> by congruence.
Qed.

Lemma set_faces_id m : set_faces (faces m) m = m.
Proof. by destruct m. Qed.

Lemma corners_det m f c0 c1 c2 d0 d1 d2 :
  corners m f c0 c1 c2 -> corners m f d0 d1 d2 ->
  c0 = d0 /\ c1 = d1 /\ c2 = d2.
Proof.
  intros (cf & ce & pe & ne & v0 & v1 & v2 & Hcf & Hh & Hce & Hp & Hpe
          & Hn & Hne & Hv0 & Hv1 & Hv2 & -> & -> & ->)
         (cf' & ce' & pe' & ne' & w0 & w1 & w2 & Hcf' & Hh' & Hce' & Hp' & Hpe'
          & Hn' & Hne' & Hw0 & Hw1 & Hw2 & -> & -> & ->).
  assert (cf' = cf) as -> by congruence.
  assert (ce' = ce) as -> by congruence.
  assert (pe' = pe) as -> by congruence.
  assert (ne' = ne) as -> by congruence.
  assert (w0 = v0) as -> by congruence.
  assert (w1 = v1) as -> by congruence.
  assert (w2 = v2) as -> by congruence. done.
Qed.

(** [update_face f] reads the two other arrays and the anchor of face [f]
    only: a mesh that agrees on them is left alone when [m] is. *)
Lemma update_face_fixed_transfer f m m1 :
  halfedges m1 = halfedges m -> vertices m1 = vertices m ->
  faces m1 !! Z.to_nat f = faces m !! Z.to_nat f ->
  update_face f m = Done m -> update_face f m1 = Done m1.
Proof.
  intros Hh Hv Hl Hfix.
  destruct (update_face_inv _ _ _ Hfix) as [[-> _]|(cf & Hf & Hcf & Hcase)];
    [done|].
  pose proof Hcf as [Hf0 Hcf']%GETPTR1_Done.
  assert (Hcf1 : GETPTR1 (faces m1) f = Done cf)
    by (apply GETPTR1_Done; by rewrite Hl).
  destruct Hcase as [[_ Hun]|(c0 & c1 & c2 & Hc & Hm)].
  - apply (update_face_skips f m1 cf Hcf1). by rewrite Hh.
  - assert (Hc1 : corners m1 f c0 c1 c2).
    { destruct Hc as (cf' & ce & pe & ne & v0 & v1 & v2 & Hcf'' & H).
      assert (cf' = cf) as -> by congruence.
      exists cf, ce, pe, ne, v0, v1, v2. by rewrite Hh, Hv. }
    rewrite (update_face_run f m1 cf c0 c1 c2 Hf Hcf1 Hc1).
    assert (Hsame : faces m !! Z.to_nat f
                    = Some (with_face_geometry
                              (normalized (cross (vsub c1 c0) (vsub c2 c0)))
                              (fhalf (norm (cross (vsub c1 c0) (vsub c2 c0)))) cf)).
    { rewrite Hm at 1. unfold face_written. simpl. apply list_lookup_insert_eq.
      by eapply lookup_lt_Some. }
    rewrite Hcf' in Hsame. injection Hsame as Hsame.
    unfold face_written. simpl. rewrite <- Hsame.
    rewrite list_insert_id by (by rewrite Hl). by rewrite set_faces_id.
Qed.

(** A second pass on a face changes nothing. *)
Lemma update_face_twice f m m' :
  update_face f m = Done m' -> update_face f m' = Done m'.
Proof.
  intros Hrun.
  destruct (update_face_inv _ _ _ Hrun) as [[_ ->]|(cf & Hf & Hcf & Hcase)];
    [done|].
  destruct Hcase as [[-> _]|(c0 & c1 & c2 & Hc & ->)]; [done|].
  pose proof Hcf as [Hf0 Hcf']%GETPTR1_Done.
  pose (cf1 := with_face_geometry (normalized (cross (vsub c1 c0) (vsub c2 c0)))
                (fhalf (norm (cross (vsub c1 c0) (vsub c2 c0)))) cf).
  assert (Hcf1 : GETPTR1 (faces (face_written m f cf c0 c1 c2)) f = Done cf1).
  { apply GETPTR1_Done. split; [done|]. simpl.
    apply list_lookup_insert_eq. by eapply lookup_lt_Some. }
  assert (Hc1 : corners (face_written m f cf c0 c1 c2) f c0 c1 c2).
  { destruct Hc as (cf' & ce & pe & ne & v0 & v1 & v2 & Hcf'' & H).
    assert (cf' = cf) as -> by congruence.
    exists cf1, ce, pe, ne, v0, v1, v2. split; [exact Hcf1|]. exact H. }
  rewrite (update_face_run f _ cf1 c0 c1 c2 Hf Hcf1 Hc1).
  unfold face_written, cf1. simpl. by rewrite list_insert_insert_eq.
Qed.

Lemma update_face_keeps_fixed f g m m1 :
  update_face f m = Done m -> update_face g m = Done m1 ->
  update_face f m1 = Done m1.
Proof.
  intros Hfix Hg.
  destruct (decide (f = g)) as [->|Hne]; [by eapply update_face_twice|].
  destruct (decide (f = -1)) as [->|Hf]; [done|].
  destruct (update_face_inv _ _ _ Hfix) as [[-> _]|(cf & _ & [Hf0 _]%GETPTR1_Done & _)];
    [done|].
  destruct (update_face_inv _ _ _ Hg) as [[_ ->]|(cg & _ & [Hg0 _]%GETPTR1_Done & _)];
    [done|].
  pose proof (update_face_frame _ _ _ Hg) as (Hh & Hv & _ & Ho).
  eapply update_face_fixed_transfer; try done. apply Ho. lia.
Qed.

Lemma update_face_normals_keeps_fixed f l m m' :
  update_face f m = Done m -> update_face_normals l m = Done m' ->
  update_face f m' = Done m'.
Proof.
  revert m. induction l as [|g l IH]; intros m Hfix; simpl.
  - by intros [= <-].
  - intros (m1 & H1 & H2)%bind_Done. apply (IH m1); [|done].
    by eapply update_face_keeps_fixed.
Qed.

Lemma update_face_normals_fixed l m m' :
  update_face_normals l m = Done m' ->
  forall f, f ∈ l -> update_face f m' = Done m'.
Proof.
  revert m. induction l as [|g l IH]; intros m; simpl.
  - intros _ f Hf. by apply elem_of_nil in Hf.
  - intros (m1 & H1 & H2)%bind_Done f [->|Hin]%elem_of_cons.
    + eapply update_face_normals_keeps_fixed; [|exact H2].
      by eapply update_face_twice.
    + by eapply IH.
Qed.

(** X5.  A second call of [update_face_normals] on the same batch, on
    the mesh the first call left, runs to its end and changes nothing. *)
Theorem update_face_normals_idempotent (l : list Z) m m' :
  update_face_normals l m = Done m' -> update_face_normals l m' = Done m'.
Proof.
  intros Hrun. pose proof (update_face_normals_fixed _ _ _ Hrun) as Hfix.
  clear Hrun. induction l as [|g l IH]; simpl; [done|].
  rewrite Hfix by left. simpl. apply IH. intros f Hf. apply Hfix. by right.
Qed.

Lemma mesh_eq m1 m2 :
  halfedges m1 = halfedges m2 -> vertices m1 = vertices m2 ->
  faces m1 = faces m2 -> m1 = m2.
Proof. destruct m1, m2. simpl. by intros -> -> ->. Qed.

(** What a pass on face [f] that runs to its end writes is one record
    [x] for slot [f], the same on every mesh that agrees with [m] on the
    two other arrays and on the record of [f]. *)
Lemma update_face_transfer f m m' :
  update_face f m = Done m' -> f <> -1 ->
  exists x,
    0 <= f /\ (Z.to_nat f < length (faces m))%nat /\
    faces m' = <[Z.to_nat f := x]> (faces m) /\
    forall m1,
      halfedges m1 = halfedges m -> vertices m1 = vertices m ->
      faces m1 !! Z.to_nat f = faces m !! Z.to_nat f ->
      update_face f m1 = Done (set_faces (<[Z.to_nat f := x]> (faces m1)) m1).
Proof.
  intros Hrun Hf.
  destruct (update_face_inv _ _ _ Hrun) as [[-> _]|(cf & _ & Hcf & Hcase)];
    [done|].
  pose proof Hcf as [Hf0 Hcf']%GETPTR1_Done.
  pose proof (lookup_lt_Some _ _ _ Hcf') as Hlt.
  destruct Hcase as [[-> Hun]|(c0 & c1 & c2 & Hc & ->)].
  - exists cf. split; [done|]. split; [done|].
    split; [by rewrite list_insert_id|].
    intros m1 Hh Hv Hl.
    rewrite list_insert_id by (by rewrite Hl). rewrite set_faces_id.
    apply (update_face_skips f m1 cf).
    + apply GETPTR1_Done. by rewrite Hl.
    + unfold face_unlinked in Hun. by rewrite Hh.
  - eexists. split; [done|]. split; [done|]. split; [reflexivity|].
    intros m1 Hh Hv Hl.
    assert (Hcf1 : GETPTR1 (faces m1) f = Done cf)
      by (apply GETPTR1_Done; by rewrite Hl).
    apply (update_face_run f m1 cf c0 c1 c2 Hf Hcf1).
    destruct Hc as (cf' & ce & pe & ne & v0 & v1 & v2 & Hcf'' & H).
    assert (cf' = cf) as -> by congruence.
    exists cf, ce, pe, ne, v0, v1, v2. by rewrite Hh, Hv.
Qed.

(** The passes on two faces can change places. *)
Lemma update_face_swap f g m m1 m2 :
  update_face f m = Done m1 -> update_face g m1 = Done m2 ->
  exists m1', update_face g m = Done m1' /\ update_face f m1' = Done m2.
Proof.
  intros Hf Hg.
  destruct (decide (f = g)) as [->|Hne]; [eauto|].
  destruct (decide (f = -1)) as [->|Hf1].
  { injection Hf as <-. exists m2. split; done. }
  destruct (decide (g = -1)) as [->|Hg1].
  { injection Hg as <-. exists m. split; done. }
  pose proof (update_face_frame _ _ _ Hf) as (Hh1 & Hv1 & _ & Ho1).
  pose proof (update_face_frame _ _ _ Hg) as (Hh2 & Hv2 & _ & Ho2).
  destruct (update_face_transfer _ _ _ Hf Hf1) as (x & Hf0 & Hfl & Hfs & Hft).
  destruct (update_face_transfer _ _ _ Hg Hg1) as (y & Hg0 & Hgl & Hgs & Hgt).
  assert (Hn : Z.to_nat f <> Z.to_nat g) by lia.
  eexists. split.
  - apply Hgt; [done|done|]. symmetry. by apply Ho1.
  - rewrite Hft; simpl; [|done|done|by rewrite list_lookup_insert_ne]. f_equal.
    apply mesh_eq; simpl; [congruence|congruence|].
    rewrite Hgs, Hfs. by apply list_insert_insert_ne.
Qed.

Lemma update_face_normals_permuted (l1 l2 : list Z) :
  l1 ≡ₚ l2 -> forall m m',
    update_face_normals l1 m = Done m' -> update_face_normals l2 m = Done m'.
Proof.
  induction 1 as [|x l1 l2 _ IH|x y l|l1 l2 l3 _ IH1 _ IH2]; intros m m'; simpl.
  - done.
  - intros (m1 & H1 & H2)%bind_Done. rewrite H1. simpl. by apply IH.
  - intros (m1 & H1 & H2)%bind_Done.
    apply bind_Done in H2 as (m2 & H2 & H3).
    destruct (update_face_swap _ _ _ _ _ H1 H2) as (m1' & -> & H2').
    simpl. rewrite H2'. done.
  - intros H1. by apply IH2, IH1.
Qed.

Lemma GETPTR1_total {A : Type} (arr : list A) (i : Z) :
  (exists x, GETPTR1 arr i = Done x) \/ GETPTR1 arr i = Fault.
Proof.
  unfold GETPTR1. case_decide; [|by right].
  destruct (arr !! Z.to_nat i); eauto.
Qed.

Lemma SETPTR1_total {A : Type} (arr : list A) (i : Z) (h : A -> A) :
  (exists x, SETPTR1 arr i h = Done x) \/ SETPTR1 arr i h = Fault.
Proof.
  unfold SETPTR1. case_decide; [|by right].
  destruct (arr !! Z.to_nat i); eauto.
Qed.

Lemma update_face_ends f m : update_face f m <> Timeout.
Proof.
  unfold update_face.
  repeat first
    [ done
    | case_decide; [done|]
    | match goal with
      | |- context [GETPTR1 ?a ?i] =>
          destruct (GETPTR1_total a i) as [[? ->]| ->]; simpl
      | |- context [SETPTR1 ?a ?i ?h] =>
          destruct (SETPTR1_total a i h) as [[? ->]| ->]; simpl
      end ].
Qed.

Lemma update_face_normals_ends (l : list Z) m : update_face_normals l m <> Timeout.
Proof.
  revert m. induction l as [|f l IH]; intros m; simpl; [done|].
  pose proof (update_face_ends f m).
  destruct (update_face f m); simpl; [apply IH|done|done].
Qed.

(** X6.  The outcome of [update_face_normals] does not depend on the
    order of the batch. *)
Theorem update_face_normals_any_order (l1 l2 : list Z) m :
  l1 ≡ₚ l2 -> update_face_normals l1 m = update_face_normals l2 m.
Proof.
  intros Hp.
  pose proof (update_face_normals_ends l1 m) as T1.
  pose proof (update_face_normals_ends l2 m) as T2.
  destruct (update_face_normals l1 m) as [a| |] eqn:E1; [| |done].
  - symmetry. by eapply update_face_normals_permuted.
  - destruct (update_face_normals l2 m) as [b| |] eqn:E2; [|done|done].
    symmetry in Hp. apply (update_face_normals_permuted _ _ Hp) in E2.
    congruence.
Qed.

(** X7.  [update_face_normals] writes to the faces of its batch and to
    nothing else: the half-edges, the vertices, the anchor of every face
    and every face that the batch does not name are as before. *)
Theorem update_face_normals_preserves (f_idxs : list Z) m m' :
  update_face_normals f_idxs m = Done m' ->
  halfedges m' = halfedges m /\ vertices m' = vertices m /\
  f_halfedge <$> faces m' = f_halfedge <$> faces m /\
  (forall n, Z.of_nat n ∉ f_idxs -> faces m' !! n = faces m !! n).
Proof.
  revert m. induction f_idxs as [|f l IH]; intros m; simpl.
  - by intros [= <-].
  - intros (m1 & H1 & H2)%bind_Done.
    destruct (IH _ H2) as (Hh & Hv & Hf & Ho).
    pose proof (update_face_frame _ _ _ H1) as (Hh1 & Hv1 & Hf1 & Ho1).
    split; [congruence|]. split; [congruence|]. split; [congruence|].
    intros n [Hn Hin]%not_elem_of_cons. rewrite (Ho n Hin).
    destruct (update_face_inv _ _ _ H1)
      as [[_ ->]|(cf & _ & [Hf0 _]%GETPTR1_Done & _)]; [done|].
    apply Ho1. lia.
Qed.
End FaceBatches.

Lemma in_range_GETPTR1 {A : Type} (arr : list A) (i : Z) :
  in_range arr i <-> exists x, GETPTR1 arr i = Done x.
Proof.
  unfold in_range. split.
  - intros [H0 Hlt].
    destruct (lookup_lt_is_Some_2 arr (Z.to_nat i)) as [x Hx]; [lia|].
    exists x. by apply GETPTR1_Done.
  - intros (x & [H0 Hx]%GETPTR1_Done). apply lookup_lt_Some in Hx. lia.
Qed.

Lemma in_range_length {A B : Type} (arr : list A) (arr' : list B) (i : Z) :
  length arr' = length arr -> in_range arr i -> in_range arr' i.
Proof. unfold in_range. by intros ->. Qed.

Lemma link_length {A B : Type} (arr : list A) (arr' : list B) (i : Z) :
  length arr' = length arr -> link arr i -> link arr' i.
Proof. intros Hl [->|H]; [by left | right; by eapply in_range_length]. Qed.

(** ** The face kernel on a linked mesh *)

Section Linked.
Context {F : Type} {FO : FloatOps F}.
Implicit Types (m : mesh F) (f g : Z) (cf : face_t F).

Lemma linked_halfedge m e (h : halfedge_t F) :
  linked m -> GETPTR1 (halfedges m) e = Done h ->
  in_range (vertices m) (he_vertex h) /\ in_range (faces m) (he_face h) /\
  link (halfedges m) (he_twin h) /\ link (halfedges m) (he_next h) /\
  link (halfedges m) (he_prev h).
Proof.
  intros (Hh & _) [_ He]%GETPTR1_Done.
  by apply (proj1 (Forall_lookup _ _) Hh _ _ He).
Qed.

Lemma linked_face m f cf :
  linked m -> GETPTR1 (faces m) f = Done cf -> link (halfedges m) (f_halfedge cf).
Proof.
  intros (_ & Hf & _) [_ He]%GETPTR1_Done.
  by apply (proj1 (Forall_lookup _ _) Hf _ _ He).
Qed.

Lemma linked_vertex m v (cv : vertex_t F) :
  linked m -> GETPTR1 (vertices m) v = Done cv -> link (halfedges m) (v_halfedge cv).
Proof.
  intros (_ & _ & Hv) [_ He]%GETPTR1_Done.
  by apply (proj1 (Forall_lookup _ _) Hv _ _ He).
Qed.

(** [linked] looks at the link fields only. *)
Lemma linked_links m m' :
  links <$> halfedges m' = links <$> halfedges m ->
  f_halfedge <$> faces m' = f_halfedge <$> faces m ->
  v_halfedge <$> vertices m' = v_halfedge <$> vertices m ->
  linked m -> linked m'.
Proof.
  intros Hh Hf Hv (H1 & H2 & H3).
  assert (Lh : length (halfedges m') = length (halfedges m))
    by (rewrite <- (length_fmap links), Hh; apply length_fmap).
  assert (Lf : length (faces m') = length (faces m))
    by (rewrite <- (length_fmap f_halfedge), Hf; apply length_fmap).
  assert (Lv : length (vertices m') = length (vertices m))
    by (rewrite <- (length_fmap v_halfedge), Hv; apply length_fmap).
  split; [|split].
  - change (Forall ((fun k : Z * Z * Z * Z * Z =>
               in_range (vertices m') k.1.1.1.1 /\
               in_range (faces m') k.1.1.1.2 /\
               link (halfedges m') k.1.1.2 /\
               link (halfedges m') k.1.2 /\
               link (halfedges m') k.2) ∘ links) (halfedges m')).
    rewrite <- Forall_fmap, Hh, Forall_fmap.
    eapply Forall_impl; [exact H1|]. simpl.
    intros h (A & B & C & D & E).
    eauto 10 using in_range_length, link_length.
  - change (Forall ((fun k => link (halfedges m') k) ∘ f_halfedge) (faces m')).
    rewrite <- Forall_fmap, Hf, Forall_fmap.
    eapply Forall_impl; [exact H2|]. simpl. eauto using link_length.
  - change (Forall ((fun k => link (halfedges m') k) ∘ v_halfedge) (vertices m')).
    rewrite <- Forall_fmap, Hv, Forall_fmap.
    eapply Forall_impl; [exact H3|]. simpl. eauto using link_length.
Qed.

Lemma update_face_linked f m m' :
  update_face f m = Done m' -> linked m -> linked m'.
Proof.
  intros (Hh & Hv & Hf & _)%update_face_frame. apply linked_links; congruence.
Qed.

Lemma update_face_safe f m :
  linked m -> link (faces m) f -> exists m', update_face f m = Done m'.
Proof.
  intros Hl [->|Hf]; [by exists m|].
  apply in_range_GETPTR1 in Hf as Hcf. destruct Hcf as [cf Hcf].
  unfold update_face. case_decide; [eauto|]. rewrite Hcf. simpl.
  case_decide as Hh; [eauto|].
  destruct (linked_face _ _ _ Hl Hcf) as [?|Hce]; [done|].
  apply in_range_GETPTR1 in Hce as [ce Hce]. rewrite Hce. simpl.
  destruct (linked_halfedge _ _ _ Hl Hce) as (Hv0 & _ & _ & Hn & Hp).
  case_decide as Hp1; [eauto|]. case_decide as Hn1; [eauto|].
  destruct Hp as [?|Hp]; [done|]. destruct Hn as [?|Hn]; [done|].
  apply in_range_GETPTR1 in Hp as [pe Hpe]. rewrite Hpe. simpl.
  apply in_range_GETPTR1 in Hn as [ne Hne]. rewrite Hne. simpl.
  destruct (linked_halfedge _ _ _ Hl Hpe) as (Hv1 & _).
  destruct (linked_halfedge _ _ _ Hl Hne) as (Hv2 & _).
  apply in_range_GETPTR1 in Hv0 as [v0 ->], Hv1 as [v1 ->], Hv2 as [v2 ->].
  simpl. erewrite SETPTR1_lookup by done. simpl. eauto.
Qed.

(** X8.  On a mesh whose stored indices all are the sentinel or inside
    their array, [update_face_normals] on a batch of face indices of that
    kind runs to its end, and leaves such a mesh. *)
Theorem update_face_normals_in_bounds (f_idxs : list Z) m :
  linked m -> Forall (link (faces m)) f_idxs ->
  exists m', update_face_normals f_idxs m = Done m' /\ linked m'.
Proof.
  revert m. induction f_idxs as [|f l IH]; intros m Hl Hin; simpl; [eauto|].
  apply Forall_cons in Hin as [Hf Hin].
  destruct (update_face_safe f m Hl Hf) as [m1 H1]. rewrite H1. simpl.
  pose proof (update_face_frame _ _ _ H1) as (_ & _ & Hfh & _).
  apply IH; [by eapply update_face_linked|].
  eapply Forall_impl; [exact Hin|]. intros g. apply link_length.
  rewrite <- (length_fmap f_halfedge), Hfh. apply length_fmap.
Qed.
End Linked.

(** ** Batches of the vertex kernel, and what a pass counts *)

Section VertexBatches.
Context {F : Type} {FO : FloatOps F}.
Variable NEIGHBORSIZE : nat.
Implicit Types (m : mesh F) (s : walk F) (v e : Z).

Lemma update_vertex_index fuel v m m' :
  update_vertex NEIGHBORSIZE fuel v m = Done m' -> m' = m \/ 0 <= v.
Proof.
  unfold update_vertex. case_decide; [intros [= <-]; by left|].
  intros (cv & [? _]%GETPTR1_Done & _)%bind_Done. by right.
Qed.

Lemma update_vertex_neighbors_others fuel (v_idxs : list Z) m m' :
  update_vertex_neighbors NEIGHBORSIZE fuel v_idxs m = Done m' ->
  forall n, Z.of_nat n ∉ v_idxs -> vertices m' !! n = vertices m !! n.
Proof.
  revert m. induction v_idxs as [|v l IH]; intros m; simpl.
  - by intros [= <-].
  - intros (m1 & H1 & H2)%bind_Done n [Hn Hin]%not_elem_of_cons.
    rewrite (IH _ H2 n Hin).
    destruct (update_vertex_index _ _ _ _ H1) as [->|Hv]; [done|].
    pose proof (update_vertex_frame _ _ _ _ _ H1) as (_ & _ & _ & Ho1).
    apply Ho1. lia.
Qed.

(** X9.  [update_vertex_neighbors] never changes a face, a link of a
    half-edge, the position or the anchor of a vertex, nor anything of a
    vertex that the batch does not name. *)
Theorem update_vertex_neighbors_preserves fuel (v_idxs : list Z) m m' :
  update_vertex_neighbors NEIGHBORSIZE fuel v_idxs m = Done m' ->
  faces m' = faces m /\
  links <$> halfedges m' = links <$> halfedges m /\
  core <$> vertices m' = core <$> vertices m /\
  (forall n, Z.of_nat n ∉ v_idxs -> vertices m' !! n = vertices m !! n).
Proof.
  intros Hrun. split; [|split; [|split]];
    [| | |by eapply update_vertex_neighbors_others];
    revert m Hrun; induction v_idxs as [|v l IH]; intros m; simpl;
    try (by intros [= <-]);
    intros (m1 & H1 & H2)%bind_Done;
    pose proof (update_vertex_frame _ _ _ _ _ H1) as (Hf1 & Hl1 & Hc1 & _);
    rewrite (IH _ H2); done.
Qed.

(** One pass of the second loop, in detail: the visit is logged and its
    slot written, and the loop goes on only on a half-edge that is
    there. *)
Lemma reverse_body_cases v orig s r :
  reverse_body NEIGHBORSIZE v orig s = Done r -> w_curr s <> -1 ->
  exists s1 m3,
    record_neighbor NEIGHBORSIZE v s = Done s1 /\
    vertices m3 = vertices (w_mesh s1) /\
    ((exists c t,
        r = Break (Walk m3 (w_i s) c t (w_normal s1) (w_visited s1))) \/
     (exists c t, c <> -1 /\ c <> orig /\
        r = Continue (Walk m3 (w_i s + 1) c t (w_normal s1) (w_visited s1)))).
Proof.
  unfold reverse_body. intros Hrun Hc.
  rewrite decide_False in Hrun by done.
  apply bind_Done in Hrun as (s1 & H1 & Hrun).
  destruct (record_neighbor_spec _ _ _ _ H1) as (Hi & Hcu & Htw & _).
  rewrite Hi, Hcu, Htw in Hrun.
  apply bind_Done in Hrun as (l & Hl & Hrun).
  apply bind_Done in Hrun as (m2 & H2 & Hrun).
  apply bind_Done in Hrun as (m3 & H3 & Hrun).
  apply bind_Done in Hrun as (ce & Hce & Hrun).
  exists s1, m3. split; [done|].
  split; [apply store_length_vertices in H2, H3; congruence|].
  case_decide; [injection Hrun as <-; eauto|].
  apply bind_Done in Hrun as (te & Hte & Hrun).
  case_decide as Hm; [injection Hrun as <-; eauto|].
  case_decide as Ho; [injection Hrun as <-; eauto|].
  injection Hrun as <-. right. eauto.
Qed.

(** The second loop counts one less than it visits. *)
Lemma reverse_loop_count fuel v orig s s' :
  w_i s = Z.of_nat (length (w_visited s)) -> 1 <= w_i s -> w_curr s <> -1 ->
  while fuel (reverse_body NEIGHBORSIZE v orig) s = Done s' ->
  w_i s' + 1 = Z.of_nat (length (w_visited s')) /\ 1 <= w_i s'.
Proof.
  intros Hi H1 Hc Hrun.
  eapply (while_invariant
            (fun t => w_i t = Z.of_nat (length (w_visited t)) /\ 1 <= w_i t /\
                      w_curr t <> -1)
            (fun t => w_i t + 1 = Z.of_nat (length (w_visited t)) /\ 1 <= w_i t));
    [| | |exact Hrun]; [| |done].
  - intros t t' (Hit & H1t & Hct) Hb.
    apply reverse_body_cases in Hb as (s1 & m3 & Hrec & _ & Hcase); [|done].
    apply record_neighbor_spec in Hrec as (_ & _ & _ & Hlog & _).
    destruct Hcase as [(c & p & [=])|(c & p & Hc1 & _ & [= ->])]. simpl.
    rewrite Hlog, length_app. simpl. split; [lia|]. split; [lia|done].
  - intros t t' (Hit & H1t & Hct) Hb.
    apply reverse_body_cases in Hb as (s1 & m3 & Hrec & _ & Hcase); [|done].
    apply record_neighbor_spec in Hrec as (_ & _ & _ & Hlog & _).
    destruct Hcase as [(c & p & [= ->])|(c & p & _ & _ & [=])]. simpl.
    rewrite Hlog, length_app. simpl. lia.
Qed.

Lemma traverse_count fuel v orig m s0 s :
  forward_sweep NEIGHBORSIZE fuel v orig m = Done s0 ->
  traverse NEIGHBORSIZE fuel v orig m = Done (Walked s) ->
  1 <= w_i s /\
  Z.of_nat (length (w_visited s))
    = w_i s + (if enters_fallback s0 then 1 else 0).
Proof.
  intros Hs0 Htrav. unfold traverse in Htrav. rewrite Hs0 in Htrav.
  simpl in Htrav.
  pose proof (forward_sweep_exit _ _ _ _ _ _ Hs0) as (_ & _ & Hc0 & Hexit).
  destruct (forward_sweep_first _ _ _ _ _ _ Hs0) as (p & rest & Hlog).
  destruct (enters_fallback s0) eqn:E.
  - apply andb_prop in E as [Ht%bool_decide_eq_true _].
    destruct Hexit as [(_ & Hi0 & Hi)|[? _]]; [|done].
    unfold boundary_fallback in Htrav.
    apply bind_Done in Htrav as (m1 & _ & Htrav).
    apply bind_Done in Htrav as (ce & _ & Htrav).
    case_decide; [done|].
    apply bind_Done in Htrav as (te & _ & Htrav).
    case_decide; [done|].
    apply bind_Done in Htrav as (s' & Hs' & [= <-]).
    apply reverse_loop_count in Hs' as [Hn H1]; simpl; [lia|lia|lia|done].
  - injection Htrav as <-.
    unfold enters_fallback in E. apply andb_false_iff in E as [E|E].
    + apply bool_decide_eq_false in E.
      destruct Hexit as [[? _]|(_ & _ & Hi)]; [done|].
      rewrite Hlog in Hi |- *. simpl in *. lia.
    + apply negb_false_iff, bool_decide_eq_true in E. lia.
Qed.

(** X10.  The valence that a pass writes is at least 1; it is the number
    of half-edges the traversal visited when the forward sweep closed the
    ring, and one less than that number when the traversal went through
    the boundary fallback. *)
Theorem valence_counts_visits fuel v m m' (cv : vertex_t F) s0 s :
  GETPTR1 (vertices m) v = Done cv -> v_halfedge cv <> -1 ->
  forward_sweep NEIGHBORSIZE fuel v (v_halfedge cv) m = Done s0 ->
  traverse NEIGHBORSIZE fuel v (v_halfedge cv) m = Done (Walked s) ->
  update_vertex_neighbors NEIGHBORSIZE fuel [v] m = Done m' ->
  exists cv',
    GETPTR1 (vertices m') v = Done cv' /\ 1 <= v_valence cv' /\
    Z.of_nat (length (w_visited s))
      = v_valence cv' + (if enters_fallback s0 then 1 else 0).
Proof.
  intros Hcv Ho Hs0 Htrav Hrun. rewrite update_vertex_neighbors_one in Hrun.
  destruct (update_vertex_spec NEIGHBORSIZE _ _ _ _ _ Hcv Ho Hrun)
    as (r & cv' & Hr & _ & _ & _ & Hcv' & Hres).
  rewrite Htrav in Hr. injection Hr as <-. destruct Hres as (Hval & _).
  destruct (traverse_count _ _ _ _ _ _ Hs0 Htrav) as [H1 Hn].
  exists cv'. rewrite Hval. done.
Qed.

Lemma load_neighbor_past v k m :
  Z.of_nat NEIGHBORSIZE <= k -> load_neighbor NEIGHBORSIZE v k m = Fault.
Proof.
  intros Hk. unfold load_neighbor.
  destruct (GETPTR1_total (vertices m) v) as [[cv ->]| ->]; [|done].
  simpl. by rewrite decide_False by lia.
Qed.

(** X12.  When the forward sweep stops on a boundary after NEIGHBORSIZE
    steps or more, and after two at least, the shift loop starts at slot
    [i], past the end of the neighbour array: the call leaves the
    array. *)
Theorem shift_loop_out_of_bounds fuel v (rest : list Z) m
    (cv : vertex_t F) s0 :
  GETPTR1 (vertices m) v = Done cv -> v_halfedge cv <> -1 ->
  forward_sweep NEIGHBORSIZE fuel v (v_halfedge cv) m = Done s0 ->
  enters_fallback s0 = true ->
  Z.of_nat NEIGHBORSIZE <= w_i s0 -> 2 <= w_i s0 ->
  update_vertex_neighbors NEIGHBORSIZE fuel (v :: rest) m = Fault.
Proof.
  intros Hcv Ho Hs0 Hfb Hcap H2. simpl. unfold update_vertex.
  pose proof Hcv as [Hv0 _]%GETPTR1_Done.
  rewrite decide_False by lia. rewrite Hcv. simpl.
  rewrite decide_False by done.
  unfold traverse. rewrite Hs0. simpl. rewrite Hfb.
  unfold boundary_fallback.
  destruct (Z.to_nat (w_i s0 - 1)) as [|n] eqn:En; [lia|]. simpl.
  rewrite (load_neighbor_past v (w_i s0)) by lia. reflexivity.
Qed.
End VertexBatches.

(** A loop whose body runs to its end under an invariant does not
    fault. *)
Lemma while_no_fault {S : Type} (P : S -> Prop) (body : S -> outcome (ctl S)) :
  (forall s, P s -> exists r, body s = Done r) ->
  (forall s s', P s -> body s = Done (Continue s') -> P s') ->
  forall fuel s, P s -> while fuel body s <> Fault.
Proof.
  intros Hrun Hinv fuel. induction fuel as [|fuel IH]; intros s Hs; simpl.
  - done.
  - destruct (Hrun s Hs) as [[s1|s1] E]; rewrite E; [|done].
    apply IH. eauto.
Qed.

(** ** The vertex kernel on a linked mesh *)

Section Safety.
Context {F : Type} {FO : FloatOps F}.
Variable NEIGHBORSIZE : nat.
Implicit Types (m : mesh F) (s : walk F) (v e : Z) (nb : list Z).

Lemma wframe_lengths v m m' :
  wframe v m m' ->
  length (halfedges m') = length (halfedges m) /\
  length (vertices m') = length (vertices m) /\
  length (faces m') = length (faces m).
Proof.
  intros (Hf & Hl & Hk & _). split; [|split].
  - rewrite <- (length_fmap links), Hl. apply length_fmap.
  - rewrite <- (length_fmap kept), Hk. apply length_fmap.
  - by rewrite Hf.
Qed.

Lemma wframe_linked v m m' : wframe v m m' -> linked m -> linked m'.
Proof.
  intros (Hf & Hl & Hk & _). apply linked_links; [done|by rewrite Hf|].
  change (@v_halfedge F) with ((fun k : vec3 F * vec3 F * Z * Z => k.1.2) ∘ kept).
  by rewrite !list_fmap_compose, Hk.
Qed.

Lemma wframe_all_next v m m' : wframe v m m' -> all_next m -> all_next m'.
Proof.
  intros (_ & Hl & _) H. unfold all_next in *.
  change (Forall ((fun k : Z * Z * Z * Z * Z => k.1.2 <> -1) ∘ links) (halfedges m')).
  rewrite <- Forall_fmap, Hl, Forall_fmap. done.
Qed.

Lemma all_next_halfedge m e (h : halfedge_t F) :
  all_next m -> GETPTR1 (halfedges m) e = Done h -> he_next h <> -1.
Proof.
  intros Ha [_ He]%GETPTR1_Done.
  by apply (proj1 (Forall_lookup _ _) Ha _ _ He).
Qed.

(** On a linked mesh every half-edge with a twin has a forward step. *)
Lemma linked_ring_step m e (h : halfedge_t F) :
  linked m -> all_next m -> GETPTR1 (halfedges m) e = Done h ->
  he_twin h <> -1 ->
  exists e', ring_step m e e' /\ in_range (halfedges m) e'.
Proof.
  intros Hl Ha Hh Ht.
  destruct (linked_halfedge _ _ _ Hl Hh) as (Hv & Hf & [?|Htw] & _); [done|].
  apply in_range_GETPTR1 in Htw as [t Htw].
  destruct (linked_halfedge _ _ _ Hl Htw) as (_ & _ & _ & Hn & _).
  pose proof (all_next_halfedge _ _ _ Ha Htw) as Hn1.
  destruct Hn as [?|Hn]; [done|].
  apply in_range_GETPTR1 in Hv as [lv Hlv], Hf as [cf Hcf].
  exists (he_next t). split; [|done].
  exists h, t, lv, cf. done.
Qed.

(** One pass of the first loop on a half-edge without twin. *)
Lemma forward_body_boundary v orig s nb (h : halfedge_t F) :
  linked (w_mesh s) -> GETPTR1 (halfedges (w_mesh s)) (w_curr s) = Done h ->
  w_twin s = -1 ->
  neighbors_are (w_mesh s) v nb -> length nb = NEIGHBORSIZE -> 0 <= w_i s ->
  exists s',
    forward_body NEIGHBORSIZE v orig s = Done (Break s') /\
    w_curr s' = w_curr s /\ w_twin s' = -1 /\ w_i s' = w_i s /\
    w_visited s' = w_visited s ++ [(w_curr s, -1)].
Proof.
  intros Hl Hh Ht Hnb Hlen Hi.
  destruct (linked_halfedge _ _ _ Hl Hh) as (Hv & Hf & _).
  apply in_range_GETPTR1 in Hv as [lv Hlv], Hf as [cf Hcf].
  assert (Hc : w_curr s <> -1) by (apply GETPTR1_Done in Hh as [? _]; lia).
  destruct (record_neighbor_progress NEIGHBORSIZE v s nb h cf) as [s1 H1];
    try done.
  pose proof (record_neighbor_frame _ _ _ _ H1) as Hf1.
  pose proof (record_neighbor_spec _ _ _ _ H1) as (Hi1 & Hc1 & Ht1 & Hlog & _).
  destruct (wframe_halfedge _ _ _ _ _ (wframe_sym _ _ _ Hf1) Hh)
    as (h1 & Hh1 & [= Hv1 _ _ _ _]).
  destruct (wframe_vertex _ _ _ _ _ (wframe_sym _ _ _ Hf1) Hlv)
    as (lv1 & Hlv1 & _).
  destruct Hnb as (cv & Hcv & _).
  destruct (wframe_vertex _ _ _ _ _ (wframe_sym _ _ _ Hf1) Hcv)
    as (cv1 & Hcv1 & _).
  rewrite <- Hv1 in Hlv1.
  destruct (edge_length_progress v _ _ _ _ _ Hh1 Hlv1 Hcv1) as [l Hlen1].
  destruct (store_length_progress _ l _ _ Hh1) as [m2 H2].
  eexists. split.
  - unfold forward_body. rewrite decide_False by done.
    rewrite H1. simpl. rewrite Hc1, Ht1, Hi1, Hlen1. simpl. rewrite H2. simpl.
    rewrite decide_True by done. reflexivity.
  - simpl. rewrite Hlog, Hc1, Ht1, Hi1, Ht. done.
Qed.

(** The state a visit leaves the neighbour slots in. *)
Lemma record_neighbor_slot v s s1 nb :
  record_neighbor NEIGHBORSIZE v s = Done s1 ->
  neighbors_are (w_mesh s) v nb ->
  neighbors_are (w_mesh s1) v
    (if decide (w_i s < Z.of_nat NEIGHBORSIZE)
     then <[Z.to_nat (w_i s) := w_curr s]> nb else nb).
Proof.
  intros Hrec (cv & Hcv & Hnb).
  apply record_neighbor_spec in Hrec as (_ & _ & _ & _ & _ & H).
  case_decide as Hlt.
  - destruct H as (Hst & _).
    apply store_neighbor_spec in Hst as (cv' & Hcv' & _ & Hnew).
    assert (cv' = cv) as -> by congruence. by rewrite Hnb in Hnew.
  - destruct H as (-> & _). by exists cv.
Qed.

Lemma twin_of_GETPTR1 m e (h : halfedge_t F) :
  GETPTR1 (halfedges m) e = Done h -> twin_of m e = he_twin h.
Proof. intros Hh. unfold twin_of. by rewrite Hh. Qed.

(** One pass of the second loop on a linked mesh. *)
Lemma reverse_body_progress v orig s nb (h : halfedge_t F) :
  linked (w_mesh s) ->
  GETPTR1 (halfedges (w_mesh s)) (w_curr s) = Done h ->
  in_range (halfedges (w_mesh s)) (w_twin s) ->
  neighbors_are (w_mesh s) v nb -> length nb = NEIGHBORSIZE -> 0 <= w_i s ->
  exists s1 m3,
    record_neighbor NEIGHBORSIZE v s = Done s1 /\
    wframe v (w_mesh s) m3 /\ vertices m3 = vertices (w_mesh s1) /\
    reverse_body NEIGHBORSIZE v orig s = Done
      (if decide (he_prev h = -1) then
         Break (Walk m3 (w_i s) (w_curr s) (-1) (w_normal s1) (w_visited s1))
       else
         let c := twin_of (w_mesh s) (he_prev h) in
         if decide (c = -1) then
           Break (Walk m3 (w_i s) c (he_prev h) (w_normal s1) (w_visited s1))
         else if decide (c = orig) then
           Break (Walk m3 (w_i s) c (he_prev h) (w_normal s1) (w_visited s1))
         else
           Continue (Walk m3 (w_i s + 1) c (he_prev h) (w_normal s1)
                          (w_visited s1))).
Proof.
  intros Hl Hh Ht Hnb Hlen Hi.
  destruct (linked_halfedge _ _ _ Hl Hh) as (Hv & Hf & _ & _ & Hp).
  apply in_range_GETPTR1 in Hv as [lv Hlv], Hf as [cf Hcf].
  assert (Hc : w_curr s <> -1) by (apply GETPTR1_Done in Hh as [? _]; lia).
  destruct (record_neighbor_progress NEIGHBORSIZE v s nb h cf) as [s1 H1];
    try done.
  pose proof (record_neighbor_frame _ _ _ _ H1) as Hf1.
  pose proof (record_neighbor_spec _ _ _ _ H1) as (Hi1 & Hc1 & Ht1 & Hlog & _).
  destruct (wframe_halfedge _ _ _ _ _ (wframe_sym _ _ _ Hf1) Hh)
    as (h1 & Hh1 & [= Hv1 _ _ _ _]).
  destruct (wframe_vertex _ _ _ _ _ (wframe_sym _ _ _ Hf1) Hlv)
    as (lv1 & Hlv1 & _).
  destruct Hnb as (cv & Hcv & _).
  destruct (wframe_vertex _ _ _ _ _ (wframe_sym _ _ _ Hf1) Hcv)
    as (cv1 & Hcv1 & _).
  rewrite <- Hv1 in Hlv1.
  destruct (edge_length_progress v _ _ _ _ _ Hh1 Hlv1 Hcv1) as [l Hlen1].
  destruct (store_length_progress _ l _ _ Hh1) as [m2 H2].
  pose proof (store_length_frame v _ _ _ _ H2) as Hf2.
  pose proof (wframe_trans _ _ _ _ Hf1 Hf2) as Hf12.
  destruct (wframe_lengths _ _ _ Hf12) as (Lh2 & _).
  assert (Ht2 : in_range (halfedges m2) (w_twin s))
    by (eapply in_range_length; [exact Lh2|exact Ht]).
  apply in_range_GETPTR1 in Ht2 as [t2 Ht2].
  destruct (store_length_progress _ l _ _ Ht2) as [m3 H3].
  pose proof (store_length_frame v _ _ _ _ H3) as Hf3.
  pose proof (wframe_trans _ _ _ _ Hf12 Hf3) as Hf13.
  destruct (wframe_halfedge _ _ _ _ _ (wframe_sym _ _ _ Hf13) Hh)
    as (h3 & Hh3 & [= _ _ _ _ Hp3]).
  exists s1, m3. split; [done|]. split; [done|].
  split; [apply store_length_vertices in H2, H3; congruence|].
  unfold reverse_body. rewrite decide_False by done.
  rewrite H1. simpl. rewrite Hc1, Ht1, Hi1, Hlen1. simpl. rewrite H2. simpl.
  rewrite H3. simpl. rewrite Hh3. simpl. rewrite Hp3.
  case_decide as Hp1; [by rewrite Hp1|].
  destruct Hp as [?|Hp]; [done|].
  apply in_range_GETPTR1 in Hp as [te Hte].
  destruct (wframe_halfedge _ _ _ _ _ (wframe_sym _ _ _ Hf13) Hte)
    as (te3 & Hte3 & [= _ _ Htw3 _ _]).
  rewrite Hte3. simpl. rewrite (twin_of_GETPTR1 _ _ _ Hte), Htw3.
  repeat case_decide; done.
Qed.

Lemma forward_body_runs m v orig s :
  linked m -> all_next m -> forward_inv NEIGHBORSIZE m v orig s ->
  exists r, forward_body NEIGHBORSIZE v orig s = Done r.
Proof.
  intros Hl Ha (Htop & Htw & Hc).
  pose proof Htop as ((Hf & _) & Hnb & Hi & _).
  pose proof (wframe_linked _ _ _ Hf Hl) as Hl'.
  pose proof (wframe_all_next _ _ _ Hf Ha) as Ha'.
  destruct (wframe_lengths _ _ _ Hf) as (Lh & _).
  assert (Hc' : in_range (halfedges (w_mesh s)) (w_curr s))
    by (eapply in_range_length; [exact Lh|exact Hc]).
  apply in_range_GETPTR1 in Hc' as [h Hh].
  rewrite <- (twin_of_wframe _ _ _ _ Hf), (twin_of_GETPTR1 _ _ _ Hh) in Htw.
  destruct (decide (w_twin s = -1)) as [Ht|Ht].
  - destruct (forward_body_boundary v orig s _ h Hl' Hh Ht Hnb) as (s' & -> & _);
      [apply length_slots|lia|eauto].
  - rewrite Htw in Ht.
    destruct (linked_ring_step _ _ _ Hl' Ha' Hh Ht) as (e' & Hstep & He').
    apply in_range_GETPTR1 in He' as [h' Hh'].
    destruct (forward_body_progress NEIGHBORSIZE v orig s e'
                (slots NEIGHBORSIZE (w_visited s).*1) h' Hstep)
      as (s' & -> & _); try done; [|apply length_slots|lia|eauto].
    by rewrite (twin_of_GETPTR1 _ _ _ Hh).
Qed.

Lemma forward_body_keeps m v orig s s' :
  forward_inv NEIGHBORSIZE m v orig s ->
  forward_body NEIGHBORSIZE v orig s = Done (Continue s') ->
  forward_inv NEIGHBORSIZE m v orig s'.
Proof.
  intros (Htop & Htw & Hc) Hrun.
  pose proof (forward_body_top _ _ _ _ _ _ Htop Hrun) as Htop'.
  split; [done|].
  pose proof Htop' as ((Hf' & _) & _).
  pose proof Htop as (_ & _ & _ & Hc0 & _).
  apply forward_body_inv in Hrun as (s1 & l & m2 & _ & _ & _ & Hcase); [|lia].
  destruct Hcase as [[_ [=]]|(_ & m3 & te & ce & _ & _ & Hce & Hr)].
  case_decide; [done|]. injection Hr as ->. simpl in *.
  rewrite <- (twin_of_wframe _ _ _ _ Hf'), (twin_of_GETPTR1 _ _ _ Hce).
  split; [done|].
  destruct (wframe_lengths _ _ _ Hf') as (Lh & _).
  eapply in_range_length; [symmetry; exact Lh|].
  apply in_range_GETPTR1. eauto.
Qed.

Lemma forward_sweep_start m v orig (cv : vertex_t F) :
  GETPTR1 (vertices m) v = Done cv -> in_range (halfedges m) orig ->
  exists s0, start_walk NEIGHBORSIZE v orig m = Done s0 /\
             forward_inv NEIGHBORSIZE m v orig s0.
Proof.
  intros Hcv Ho. pose proof Ho as Ho'. apply in_range_GETPTR1 in Ho' as [h Hh].
  destruct (start_walk_progress NEIGHBORSIZE v orig m cv h Hcv Hh)
    as (s0 & Hs0 & Ht0).
  destruct (start_walk_top _ _ _ _ _ Hs0) as [Htop Hc0].
  exists s0. split; [done|]. split; [done|]. rewrite Hc0.
  by rewrite (twin_of_GETPTR1 _ _ _ Hh).
Qed.

Lemma forward_sweep_no_fault fuel m v orig (cv : vertex_t F) :
  linked m -> all_next m ->
  GETPTR1 (vertices m) v = Done cv -> in_range (halfedges m) orig ->
  forward_sweep NEIGHBORSIZE fuel v orig m <> Fault.
Proof.
  intros Hl Ha Hcv Ho.
  destruct (forward_sweep_start m v orig cv Hcv Ho) as (s0 & Hs0 & Hinv).
  unfold forward_sweep. rewrite Hs0. simpl.
  apply (while_no_fault (forward_inv NEIGHBORSIZE m v orig)); [| |done].
  - intros s. by apply forward_body_runs.
  - intros s s'. apply forward_body_keeps.
Qed.

Lemma reverse_body_runs m v orig s :
  linked m -> reverse_inv NEIGHBORSIZE m v s ->
  exists r, reverse_body NEIGHBORSIZE v orig s = Done r.
Proof.
  intros Hl (Hf & (nb & Hnb & Hlen) & Hi & Hc & Ht).
  destruct (wframe_lengths _ _ _ Hf) as (Lh & _).
  assert (Hc' : in_range (halfedges (w_mesh s)) (w_curr s))
    by (eapply in_range_length; [exact Lh|exact Hc]).
  apply in_range_GETPTR1 in Hc' as [h Hh].
  destruct (reverse_body_progress v orig s nb h) as (s1 & m3 & _ & _ & _ & ->);
    try done; [by eapply wframe_linked|by eapply in_range_length|eauto].
Qed.

Lemma reverse_body_keeps m v orig s s' :
  linked m -> reverse_inv NEIGHBORSIZE m v s ->
  reverse_body NEIGHBORSIZE v orig s = Done (Continue s') ->
  reverse_inv NEIGHBORSIZE m v s'.
Proof.
  intros Hl (Hf & (nb & Hnb & Hlen) & Hi & Hc & Ht) Hrun.
  destruct (wframe_lengths _ _ _ Hf) as (Lh & _).
  pose proof (wframe_linked _ _ _ Hf Hl) as Hl'.
  assert (Hc' : in_range (halfedges (w_mesh s)) (w_curr s))
    by (eapply in_range_length; [exact Lh|exact Hc]).
  apply in_range_GETPTR1 in Hc' as [h Hh].
  destruct (reverse_body_progress v orig s nb h)
    as (s1 & m3 & H1 & Hf3 & Hv3 & Hr); try done;
    [by eapply in_range_length|].
  rewrite Hr in Hrun.
  destruct (linked_halfedge _ _ _ Hl' Hh) as (_ & _ & _ & _ & Hp).
  case_decide as Hp1; [done|]. simpl in Hrun.
  case_decide as Hc1; [done|]. case_decide as Hc2; [done|].
  injection Hrun as <-.
  destruct Hp as [?|Hp]; [done|].
  pose proof Hp as Hp'. apply in_range_GETPTR1 in Hp' as [te Hte].
  rewrite (twin_of_GETPTR1 _ _ _ Hte) in Hc1 |- *.
  destruct (linked_halfedge _ _ _ Hl' Hte) as (_ & _ & [?|Htw] & _); [done|].
  split; [by eapply wframe_trans|]. simpl. split.
  - eexists. split.
    + eapply neighbors_are_vertices; [exact Hv3|].
      by eapply record_neighbor_slot.
    + case_decide; by rewrite ?length_insert.
  - split; [lia|]. split; eapply in_range_length; try done.
Qed.

Lemma length_shifted n k nb : length (shifted n k nb) = length nb.
Proof.
  revert k nb. induction n as [|n IH]; intros k nb; simpl; [done|].
  by rewrite IH, length_swap_slots.
Qed.

Lemma boundary_fallback_no_fault fuel m v orig s :
  linked m -> forward_exit NEIGHBORSIZE m v orig s -> w_twin s = -1 ->
  in_range (halfedges m) orig ->
  ~ (Z.of_nat NEIGHBORSIZE <= w_i s /\ 2 <= w_i s) ->
  boundary_fallback NEIGHBORSIZE fuel v orig s <> Fault.
Proof.
  intros Hl ((Hf & _) & Hnb & _ & Hcase) Ht Ho Hcap.
  assert (Hi0 : 0 <= w_i s) by (destruct Hcase as [(_ & ? & _)|[? _]]; done).
  assert (Hshift : exists m1 nb,
    shift_neighbors NEIGHBORSIZE (Z.to_nat (w_i s - 1)) v (w_i s) (w_mesh s)
      = Done m1 /\ neighbors_are m1 v nb /\ length nb = NEIGHBORSIZE).
  { destruct (decide (w_i s <= 1)) as [Hle|Hgt].
    - replace (Z.to_nat (w_i s - 1)) with 0%nat by lia. simpl.
      do 2 eexists. split; [done|]. split; [exact Hnb|apply length_slots].
    - destruct (shift_neighbors_spec NEIGHBORSIZE (Z.to_nat (w_i s - 1))
                  (Z.to_nat (w_i s)) v (w_mesh s) _ Hnb) as (m1 & Hm1 & Hnb1).
      + apply length_slots.
      + rewrite length_slots. lia.
      + lia.
      + rewrite Z2Nat.id in Hm1 by done. do 2 eexists. split; [done|].
        split; [exact Hnb1|]. by rewrite length_shifted, length_slots. }
  destruct Hshift as (m1 & nb & Hm1 & Hnb1 & Hlen1).
  pose proof (shift_neighbors_frame _ _ _ _ _ _ Hm1) as Hf1.
  pose proof (wframe_trans _ _ _ _ Hf Hf1) as Hf01.
  pose proof (wframe_linked _ _ _ Hf01 Hl) as Hl1.
  destruct (wframe_lengths _ _ _ Hf01) as (Lh & _).
  assert (Ho1 : in_range (halfedges m1) orig) by (by eapply in_range_length).
  apply in_range_GETPTR1 in Ho1 as [ce Hce].
  unfold boundary_fallback. rewrite Hm1. simpl. rewrite Hce. simpl.
  case_decide as Hp; [done|].
  destruct (linked_halfedge _ _ _ Hl1 Hce) as (_ & _ & _ & _ & [?|Hpr]); [done|].
  pose proof Hpr as Hpr'. apply in_range_GETPTR1 in Hpr' as [te Hte].
  rewrite Hte. simpl. case_decide as Htw; [done|].
  destruct (linked_halfedge _ _ _ Hl1 Hte) as (_ & _ & [?|Htwr] & _); [done|].
  match goal with
  | |- context [while fuel ?b ?st] =>
      pose proof (while_no_fault (reverse_inv NEIGHBORSIZE m v) b
                    (fun t => reverse_body_runs m v orig t Hl)
                    (fun t t' => reverse_body_keeps m v orig t t' Hl)
                    fuel st) as Hnf;
      destruct (while fuel b st); [done| |done]
  end.
  exfalso. apply Hnf; [|done].
  split; [done|]. simpl. split; [eauto|].
  split; [lia|]. split; eapply in_range_length; try done; by symmetry.
Qed.

(** X13.  On a mesh whose stored indices all are the sentinel or inside
    their array and whose half-edges all have a [next], a pass on a vertex
    that makes no more passes through its two loops than the counter [i]
    can count ([fuel] through each, and [++i] once in between) leaves the
    arrays in the shift loop or not at all. *)
Theorem vertex_pass_faults_only_in_shift fuel v m :
  linked m -> all_next m -> link (vertices m) v ->
  2 * Z.of_nat fuel + 1 <= INT_MAX ->
  update_vertex_neighbors NEIGHBORSIZE fuel [v] m = Fault ->
  exists cv s0,
    GETPTR1 (vertices m) v = Done cv /\ v_halfedge cv <> -1 /\
    forward_sweep NEIGHBORSIZE fuel v (v_halfedge cv) m = Done s0 /\
    enters_fallback s0 = true /\
    Z.of_nat NEIGHBORSIZE <= w_i s0 /\ 2 <= w_i s0.
Proof.
  intros Hl Ha Hv _. rewrite update_vertex_neighbors_one.
  unfold update_vertex. case_decide as Hv1; [done|].
  destruct Hv as [?|Hv]; [done|].
  apply in_range_GETPTR1 in Hv as [cv Hcv]. rewrite Hcv. simpl.
  case_decide as Ho; [done|].
  destruct (linked_vertex _ _ _ Hl Hcv) as [?|Hor]; [done|].
  pose proof (forward_sweep_no_fault fuel m v _ cv Hl Ha Hcv Hor) as Hnf.
  unfold traverse.
  destruct (forward_sweep NEIGHBORSIZE fuel v (v_halfedge cv) m)
    as [s0| |] eqn:Hs0; [|done|done].
  simpl.
  pose proof (forward_sweep_exit _ _ _ _ _ _ Hs0) as Hexit.
  pose proof (forward_sweep_frame _ _ _ _ _ _ Hs0) as Hf0.
  destruct (enters_fallback s0) eqn:Hfb.
  - destruct (decide (Z.of_nat NEIGHBORSIZE <= w_i s0 /\ 2 <= w_i s0))
      as [[Hcap H2]|Hcap].
    { intros _. exists cv, s0. done. }
    apply andb_prop in Hfb as [Ht%bool_decide_eq_true _].
    pose proof (boundary_fallback_no_fault fuel m v _ s0 Hl Hexit Ht Hor Hcap)
      as Hnf2.
    destruct (boundary_fallback NEIGHBORSIZE fuel v (v_halfedge cv) s0)
      as [[s|s]| |] eqn:Hb; [done| |done|done].
    simpl. apply boundary_fallback_frame in Hb. simpl in Hb.
    destruct (wframe_vertex _ _ _ _ _
                (wframe_sym _ _ _ (wframe_trans _ _ _ _ Hf0 Hb)) Hcv)
      as (cv1 & Hcv1 & _).
    by destruct (finish_progress v s cv1 Hcv1) as [m' ->].
  - simpl.
    destruct (wframe_vertex _ _ _ _ _ (wframe_sym _ _ _ Hf0) Hcv)
      as (cv1 & Hcv1 & _).
    by destruct (finish_progress v s0 cv1 Hcv1) as [m' ->].
Qed.
End Safety.

(** ** A sweep that does not come back *)

Section Trapped.
Context {F : Type} {FO : FloatOps F}.
Variable NEIGHBORSIZE : nat.
Implicit Types (m : mesh F) (s : walk F) (v e : Z) (nb : list Z).

(** The first loop on a sweep that steps on and on without meeting the
    anchor again: [k] passes on, it is still running, and has counted
    them. *)
Lemma forward_spins m v orig (path : nat -> Z) :
  (forall n, ring_step m (path n) (path (S n))) ->
  (forall n, path (S n) <> orig) ->
  forall k n s,
    forward_top NEIGHBORSIZE m v orig s ->
    w_curr s = path n -> w_twin s = twin_of m (path n) ->
    exists s',
      spins (forward_body NEIGHBORSIZE v orig) k s s' /\
      w_i s' = w_i s + Z.of_nat k /\ w_curr s' = path (n + k)%nat.
Proof.
  intros Hstep Hne k. induction k as [|k IH]; intros n s Htop Hc Ht.
  { exists s. split; [constructor|]. split; [lia|]. by rewrite Nat.add_0_r. }
  pose proof Htop as ((Hf & _) & Hnb & Hi & _).
  destruct (Hstep (S n)) as (h0 & _ & _ & _ & Hh0 & _).
  destruct (wframe_halfedge _ _ _ _ _ (wframe_sym _ _ _ Hf) Hh0)
    as (h' & Hh' & [= _ _ Etw _ _]).
  destruct (forward_body_progress NEIGHBORSIZE v orig s (path (S n))
              (slots NEIGHBORSIZE (w_visited s).*1) h')
    as (s1 & Hb & Hc1 & Ht1 & Hlog1); try done.
  - rewrite Hc. by eapply ring_step_wframe.
  - by rewrite (twin_of_wframe _ _ _ _ Hf), Hc.
  - apply length_slots.
  - lia.
  - rewrite decide_False in Hb by apply Hne.
    pose proof (forward_body_top _ _ _ _ _ _ Htop Hb) as Htop1.
    destruct (IH (S n) s1 Htop1 Hc1) as (s' & Hsp & Hi' & Hc').
    { rewrite Ht1, Etw. symmetry. by apply twin_of_GETPTR1. }
    exists s'. split; [by econstructor|].
    destruct Htop1 as (_ & _ & Hi1 & _).
    rewrite Hlog1, length_app in Hi1. simpl in Hi1.
    split; [lia|]. rewrite Hc'. f_equal. lia.
Qed.

(** A loop that is to make more passes than it has fuel runs out of it. *)
Lemma spins_Timeout {St : Type} (body : St -> outcome (ctl St)) k (a b : St) :
  spins body k a b ->
  forall fuel, (fuel <= k)%nat -> while fuel body a = Timeout.
Proof.
  induction 1 as [a|k a a1 b Hb _ IH]; intros [|fuel] Hle; simpl; try done;
    [lia|].
  rewrite Hb. apply IH. lia.
Qed.

(** X14.  When the forward sweep from the anchor steps on and on without
    coming back to the anchor, the first [while (1)] loop takes neither of
    its exits: after any number of passes that the counter [i] can count
    it counts as many, stands on the half-edge reached by as many steps,
    and the call is still in the loop. *)
Theorem trapped_sweep_spins fuel v (rest : list Z) m
    (cv : vertex_t F) (path : nat -> Z) :
  GETPTR1 (vertices m) v = Done cv -> path 0%nat = v_halfedge cv ->
  (forall n, ring_step m (path n) (path (S n))) ->
  (forall n, path (S n) <> v_halfedge cv) ->
  Z.of_nat fuel <= INT_MAX ->
  exists s0 s,
    start_walk NEIGHBORSIZE v (v_halfedge cv) m = Done s0 /\
    spins (forward_body NEIGHBORSIZE v (v_halfedge cv)) fuel s0 s /\
    w_i s = Z.of_nat fuel /\ w_curr s = path fuel /\
    update_vertex_neighbors NEIGHBORSIZE fuel (v :: rest) m = Timeout.
Proof.
  intros Hcv H0 Hstep Hne _.
  pose proof Hcv as [Hv0 _]%GETPTR1_Done.
  destruct (Hstep 0%nat) as (h & _ & _ & _ & Hh & _). rewrite H0 in Hh.
  pose proof Hh as [Ho _]%GETPTR1_Done.
  destruct (start_walk_progress NEIGHBORSIZE v _ m cv h Hcv Hh) as (s0 & Hs0 & Ht0).
  destruct (start_walk_top _ _ _ _ _ Hs0) as [Htop Hc0].
  destruct (forward_spins m v (v_halfedge cv) path Hstep Hne fuel 0%nat s0 Htop)
    as (s & Hsp & Hi & Hc); [congruence| |].
  { rewrite Ht0, H0. symmetry. by apply twin_of_GETPTR1. }
  exists s0, s. split; [done|]. split; [done|].
  split. { destruct Htop as (_ & _ & Hi0 & _). 
           unfold start_walk in Hs0. apply bind_Done in Hs0 as (ce & _ & Hs0).
           apply bind_Done in Hs0 as (vs & _ & [= <-]). simpl in *. lia. }
  split; [done|].
  simpl. unfold update_vertex.
  rewrite decide_False by lia. rewrite Hcv. simpl.
  rewrite decide_False by lia.
  unfold traverse, forward_sweep. rewrite Hs0. simpl.
  by rewrite (spins_Timeout _ _ _ _ Hsp fuel (le_n fuel)).
Qed.
End Trapped.

(** ** The neighbour slots of a vertex *)

Section Shape.
Context {F : Type} {FO : FloatOps F}.
Implicit Types (m : mesh F) (v : Z) (nb : list Z).

Lemma neighbors_are_det m v nb nb' :
  neighbors_are m v nb -> neighbors_are m v nb' -> nb = nb'.
Proof. intros (cv & Hcv & <-) (cv' & Hcv' & <-). congruence. Qed.
End Shape.

(** ** A vertex on the boundary *)

Section Boundary.
Context {F : Type} {FO : FloatOps F}.
Variable NEIGHBORSIZE : nat.
Implicit Types (m : mesh F) (s : walk F) (v e : Z) (nb : list Z).

Lemma open_path_head m e rest :
  open_path m e rest -> exists h, GETPTR1 (halfedges m) e = Done h.
Proof.
  destruct rest as [|e' rest]; simpl.
  - intros (h & Hh & _). eauto.
  - intros [(h & _ & _ & _ & Hh & _) _]. eauto.
Qed.

(** The first loop on an open path: it walks the path and stops on its
    last half-edge, which it logs and does not count. *)
Lemma forward_open_chain m v orig rest :
  linked m ->
  forall e s fuel,
    forward_top NEIGHBORSIZE m v orig s ->
    w_curr s = e -> w_twin s = twin_of m e ->
    open_path m e rest -> orig ∉ rest -> (length rest < fuel)%nat ->
    exists s',
      while fuel (forward_body NEIGHBORSIZE v orig) s = Done s' /\
      w_visited s' = w_visited s ++ ((fun x => (x, twin_of m x)) <$> e :: rest) /\
      w_twin s' = -1 /\ w_i s' = w_i s + Z.of_nat (length rest).
Proof.
  intros Hl.
  induction rest as [|e' rest IH]; intros e s fuel Htop Hcurr Htwin Hpath Hnot Hfuel;
    (destruct fuel as [|fuel]; [simpl in Hfuel; lia|]);
    pose proof Htop as ((Hf & _) & Hnb & Hi & _).
  - simpl in Hpath. destruct Hpath as (h & Hh & Ht).
    destruct (wframe_halfedge _ _ _ _ _ (wframe_sym _ _ _ Hf) Hh)
      as (h' & Hh' & [= _ _ Etw _ _]).
    rewrite (twin_of_GETPTR1 _ _ _ Hh) in Htwin.
    destruct (forward_body_boundary NEIGHBORSIZE v orig s
                (slots NEIGHBORSIZE (w_visited s).*1) h')
      as (s' & Hb & Hc' & Ht' & Hi' & Hlog'); try done.
    + by eapply wframe_linked.
    + by rewrite Hcurr.
    + congruence.
    + apply length_slots.
    + lia.
    + exists s'. simpl. rewrite Hb. split; [done|].
      split; [|split; [done|lia]].
      rewrite Hlog', Hcurr, (twin_of_GETPTR1 _ _ _ Hh), Ht. done.
  - simpl in Hpath. destruct Hpath as [Hstep Hpath].
    apply not_elem_of_cons in Hnot as [Hne Hnot].
    destruct (open_path_head _ _ _ Hpath) as [h0 Hh0].
    destruct (wframe_halfedge _ _ _ _ _ (wframe_sym _ _ _ Hf) Hh0)
      as (h' & Hh' & [= _ _ Etw _ _]).
    destruct (forward_body_progress NEIGHBORSIZE v orig s e'
                (slots NEIGHBORSIZE (w_visited s).*1) h')
      as (s' & Hb & Hc' & Ht' & Hlog'); try done.
    + rewrite Hcurr. by eapply ring_step_wframe.
    + by rewrite (twin_of_wframe _ _ _ _ Hf), Hcurr.
    + apply length_slots.
    + lia.
    + rewrite decide_False in Hb by done.
      pose proof (forward_body_top _ _ _ _ _ _ Htop Hb) as Htop'.
      destruct (IH e' s' fuel) as (s'' & Hw & Hlog'' & Ht'' & Hi''); try done.
      * rewrite Ht', Etw. symmetry. by apply twin_of_GETPTR1.
      * simpl in Hfuel. lia.
      * exists s''. simpl. rewrite Hb. split; [done|].
        split; [by rewrite Hlog'', Hlog', Hcurr, Htwin, <- app_assoc|].
        split; [done|].
        pose proof Htop' as (_ & _ & Hi1 & _).
        rewrite Hi'', Hi1, Hi, Hlog', length_app. simpl. lia.
Qed.

Lemma prev_of_GETPTR1 m e (h : halfedge_t F) :
  GETPTR1 (halfedges m) e = Done h -> prev_of m e = he_prev h.
Proof. intros Hh. unfold prev_of. by rewrite Hh. Qed.

Lemma slots_record (pre : list Z) (i x : Z) :
  i = Z.of_nat (length pre) ->
  (if decide (i < Z.of_nat NEIGHBORSIZE)
   then <[Z.to_nat i := x]> (slots NEIGHBORSIZE pre)
   else slots NEIGHBORSIZE pre) = slots NEIGHBORSIZE (pre ++ [x]).
Proof.
  intros ->. rewrite Nat2Z.id. case_decide.
  - apply slots_snoc. lia.
  - symmetry. apply slots_full. lia.
Qed.

(** The second loop on a reverse path: it walks the path, fills the
    slots after those it found filled, and counts all its visits but the
    last. *)
Lemma reverse_chain m v orig bw :
  linked m ->
  forall e r s pre fuel,
    wframe v m (w_mesh s) ->
    neighbors_are (w_mesh s) v (slots NEIGHBORSIZE pre) ->
    w_i s = Z.of_nat (length pre) ->
    w_curr s = r -> w_twin s = prev_of m e ->
    in_range (halfedges m) (prev_of m e) ->
    back_path m r bw -> orig ∉ bw -> (length bw < fuel)%nat ->
    exists s',
      while fuel (reverse_body NEIGHBORSIZE v orig) s = Done s' /\
      w_visited s' = w_visited s ++ back_log m e (r :: bw) /\
      w_i s' = w_i s + Z.of_nat (length bw) /\
      neighbors_are (w_mesh s') v (slots NEIGHBORSIZE (pre ++ r :: bw)).
Proof.
  intros Hl.
  induction bw as [|r' bw IH];
    intros e r s pre fuel Hf Hnb Hi Hc Ht Hp Hpath Hnot Hfuel;
    (destruct fuel as [|fuel]; [simpl in Hfuel; lia|]);
    pose proof (wframe_linked _ _ _ Hf Hl) as Hl';
    destruct (wframe_lengths _ _ _ Hf) as (Lh & _).
  - simpl in Hpath. destruct Hpath as (h0 & Hh0 & Hend).
    destruct (wframe_halfedge _ _ _ _ _ (wframe_sym _ _ _ Hf) Hh0)
      as (h & Hh & [= _ _ _ _ Epr]).
    destruct (reverse_body_progress NEIGHBORSIZE v orig s
                (slots NEIGHBORSIZE pre) h)
      as (s1 & m3 & H1 & Hf3 & Hv3 & Hb); try done.
    + by rewrite Hc.
    + rewrite Ht. by eapply in_range_length.
    + apply length_slots.
    + lia.
    + pose proof (record_neighbor_spec _ _ _ _ H1) as (_ & _ & _ & Hlog & _).
      pose proof (record_neighbor_slot _ _ _ _ _ H1 Hnb) as Hnb1.
      rewrite (slots_record pre _ _ Hi), Hc in Hnb1.
      rewrite (twin_of_wframe _ _ _ _ Hf), Epr in Hb.
      assert (Hres : exists c t,
        reverse_body NEIGHBORSIZE v orig s
        = Done (Break (Walk m3 (w_i s) c t (w_normal s1) (w_visited s1)))).
      { rewrite Hb. destruct Hend as [Hp1|Hp1].
        - rewrite decide_True by done. eauto.
        - case_decide; [eauto|]. simpl. rewrite decide_True by done. eauto. }
      destruct Hres as (c & t & Hres).
      eexists. simpl. rewrite Hres. split; [done|]. simpl.
      split; [by rewrite Hlog, Hc, Ht|]. split; [lia|].
      by eapply neighbors_are_vertices.
  - simpl in Hpath. destruct Hpath as [(h0 & Hh0 & Hp0 & Htw0 & Hr') Hpath].
    apply not_elem_of_cons in Hnot as [Hne Hnot].
    destruct (wframe_halfedge _ _ _ _ _ (wframe_sym _ _ _ Hf) Hh0)
      as (h & Hh & [= _ _ _ _ Epr]).
    destruct (reverse_body_progress NEIGHBORSIZE v orig s
                (slots NEIGHBORSIZE pre) h)
      as (s1 & m3 & H1 & Hf3 & Hv3 & Hb); try done.
    + by rewrite Hc.
    + rewrite Ht. by eapply in_range_length.
    + apply length_slots.
    + lia.
    + pose proof (record_neighbor_spec _ _ _ _ H1) as (_ & _ & _ & Hlog & _).
      pose proof (record_neighbor_slot _ _ _ _ _ H1 Hnb) as Hnb1.
      rewrite (slots_record pre _ _ Hi), Hc in Hnb1.
      rewrite (twin_of_wframe _ _ _ _ Hf), Epr, Htw0 in Hb.
      rewrite decide_False in Hb by done. simpl in Hb.
      rewrite decide_False in Hb by done.
      rewrite decide_False in Hb by (intros E; apply Hne; by rewrite E).
      destruct (linked_halfedge _ _ _ Hl Hh0) as (_ & _ & _ & _ & [?|Hpr]);
        [done|].
      destruct (IH r r' (Walk m3 (w_i s + 1) r' (he_prev h0) (w_normal s1)
                             (w_visited s1)) (pre ++ [r]) fuel)
        as (s' & Hw & Hlog' & Hi' & Hnb'); simpl; try done.
      * by eapply wframe_trans.
      * by eapply neighbors_are_vertices.
      * rewrite length_app. simpl. lia.
      * symmetry. by apply prev_of_GETPTR1.
      * by rewrite (prev_of_GETPTR1 _ _ _ Hh0).
      * simpl in Hfuel. lia.
      * exists s'. rewrite Hb. split; [done|].
        split; [rewrite Hlog', Hlog, Hc, Ht; simpl; by rewrite <- app_assoc|].
        simpl in Hi' |- *. split; [lia|]. by rewrite <- app_assoc in Hnb'.
Qed.

Lemma last_first_snoc (l : list Z) (x : Z) : last_first (l ++ [x]) = x :: l.
Proof. unfold last_first. by rewrite reverse_snoc, reverse_involutive. Qed.

Lemma length_last_first (l : list Z) : length (last_first l) = length l.
Proof.
  destruct l as [|a l] using rev_ind; [done|].
  by rewrite last_first_snoc, length_app, Nat.add_comm.
Qed.

(** The shift loop on the slots of a forward sweep: the last half-edge
    found comes second, after the anchor. *)
Lemma shifted_slots (e0 : Z) (fw : list Z) :
  (length fw < NEIGHBORSIZE)%nat ->
  shifted (length fw - 1) (length fw) (slots NEIGHBORSIZE (e0 :: fw))
  = slots NEIGHBORSIZE (e0 :: last_first fw).
Proof.
  intros Hlt. destruct fw as [|x fw _] using rev_ind; [done|].
  rewrite last_first_snoc. rewrite length_app in *. simpl in *.
  replace (length fw + 1 - 1)%nat with (length fw) by lia.
  unfold slots. rewrite !take_ge by (simpl; rewrite ?length_app; simpl; lia).
  simpl. rewrite length_app. simpl.
  set (pad := replicate (NEIGHBORSIZE - S (length fw + 1)) (-1)).
  replace (NEIGHBORSIZE - S (S (length fw)))%nat
    with (NEIGHBORSIZE - S (length fw + 1))%nat by lia. fold pad.
  rewrite (shifted_rotates (length fw) (length fw + 1)
             (e0 :: (fw ++ [x]) ++ pad) x); [|lia|].
  2:{ replace (length fw + 1)%nat with (S (length fw)) by lia. simpl.
      rewrite <- app_assoc. rewrite lookup_app_r by lia.
      by rewrite Nat.sub_diag. }
  replace (length fw + 1 - length fw)%nat with 1%nat by lia.
  simpl. f_equal. f_equal. rewrite drop_0.
  rewrite <- !app_assoc. rewrite take_app_length. f_equal.
  replace (length fw + 1)%nat with (length (fw ++ [x])) by
    (rewrite length_app; simpl; lia).
  rewrite app_assoc. by rewrite drop_app_length.
Qed.

Lemma back_log_fst m e (bw : list Z) : (back_log m e bw).*1 = bw.
Proof.
  revert e. induction bw as [|r bw IH]; intros e; simpl; [done|].
  by rewrite IH.
Qed.

Lemma start_walk_fresh v orig m s :
  start_walk NEIGHBORSIZE v orig m = Done s -> w_i s = 0 /\ w_visited s = [].
Proof.
  unfold start_walk. intros (ce & _ & Hs)%bind_Done.
  by apply bind_Done in Hs as (vs & _ & [= <-]).
Qed.

(** The forward sweep of a vertex on a boundary, and the shift loop
    after it. *)
Lemma boundary_sweep_shift fuel v m (cv : vertex_t F) (fw : list Z) :
  linked m -> GETPTR1 (vertices m) v = Done cv ->
  open_path m (v_halfedge cv) fw -> (v_halfedge cv ∉ fw) ->
  (length fw < NEIGHBORSIZE)%nat -> (length fw < fuel)%nat ->
  exists s m1,
    forward_sweep NEIGHBORSIZE fuel v (v_halfedge cv) m = Done s /\
    enters_fallback s = true /\
    w_i s = Z.of_nat (length fw) /\
    w_visited s = (fun x => (x, twin_of m x)) <$> v_halfedge cv :: fw /\
    shift_neighbors NEIGHBORSIZE (Z.to_nat (w_i s - 1)) v (w_i s) (w_mesh s)
      = Done m1 /\
    wframe v m m1 /\
    neighbors_are m1 v (slots NEIGHBORSIZE (v_halfedge cv :: last_first fw)).
Proof.
  intros Hl Hcv Hpath Hnot Hcap Hfuel.
  destruct (open_path_head _ _ _ Hpath) as [h0 Hh0].
  destruct (start_walk_progress NEIGHBORSIZE v _ m cv h0 Hcv Hh0)
    as (s0 & Hs0 & Ht0).
  destruct (start_walk_top _ _ _ _ _ Hs0) as [Htop Hc0].
  destruct (start_walk_fresh _ _ _ _ Hs0) as [Hi0 Hlog0].
  destruct (forward_open_chain m v (v_halfedge cv) fw Hl _ s0 fuel Htop Hc0)
    as (s & Hw & Hlog & Ht & Hi); try done.
  { rewrite Ht0. symmetry. by apply twin_of_GETPTR1. }
  rewrite Hlog0 in Hlog. simpl in Hlog. rewrite Hi0 in Hi. simpl in Hi.
  assert (Hs : forward_sweep NEIGHBORSIZE fuel v (v_halfedge cv) m = Done s)
    by (unfold forward_sweep; rewrite Hs0; done).
  pose proof (forward_sweep_exit _ _ _ _ _ _ Hs) as ((Hf & _) & Hnb & Hc & _).
  assert (Hfst : (w_visited s).*1 = v_halfedge cv :: fw).
  { rewrite Hlog. simpl. f_equal. rewrite <- list_fmap_compose.
    apply list_fmap_id. }
  rewrite Hfst in Hnb.
  assert (Hshift : exists m1,
    shift_neighbors NEIGHBORSIZE (Z.to_nat (w_i s - 1)) v (w_i s) (w_mesh s)
      = Done m1 /\
    neighbors_are m1 v (slots NEIGHBORSIZE (v_halfedge cv :: last_first fw))).
  { destruct (decide (fw = [])) as [->|Hne].
    - rewrite Hi. simpl. eauto.
    - assert (length fw <> 0%nat) by (by destruct fw).
      destruct (shift_neighbors_spec NEIGHBORSIZE (length fw - 1) (length fw)
                  v (w_mesh s) _ Hnb) as (m1 & Hm1 & Hnb1).
      + apply length_slots.
      + rewrite length_slots. lia.
      + lia.
      + rewrite shifted_slots in Hnb1 by done. exists m1. split; [|done].
        rewrite Hi. rewrite <- Hm1. f_equal. lia. }
  destruct Hshift as (m1 & Hm1 & Hnb1).
  exists s, m1. split; [done|]. split.
  - unfold enters_fallback. rewrite bool_decide_eq_true_2 by done.
    rewrite bool_decide_eq_false_2 by lia. done.
  - repeat (split; [done|]). split; [|done].
    pose proof (shift_neighbors_frame _ _ _ _ _ _ Hm1). eauto using wframe_trans.
Qed.

(** X16.  A pass on a vertex of the boundary.  Let the forward sweep go
    from the anchor [e0] through [fw] to a half-edge without twin, after
    fewer than NEIGHBORSIZE steps, and the reverse sweep from [e0] through
    [bw] to a half-edge whose [prev] has no twin.  The pass runs to its
    end; the slots hold [e0], then the last of [fw], then the others of
    [fw] in the order of the sweep, then [bw]; the lengths of all these
    half-edges are written.  With [bw] empty, valence and normal are kept;
    otherwise the valence is the number of half-edges of [fw] and [bw]
    and the normal is the normalised sum over the faces of the first
    NEIGHBORSIZE of [e0], [fw], [bw]. *)
Theorem boundary_vertex_pass fuel v m (cv : vertex_t F) (fw bw : list Z) :
  linked m -> GETPTR1 (vertices m) v = Done cv ->
  open_path m (v_halfedge cv) fw -> (v_halfedge cv ∉ fw) ->
  back_path m (v_halfedge cv) bw -> (v_halfedge cv ∉ bw) ->
  (length fw < NEIGHBORSIZE)%nat ->
  (length fw < fuel)%nat -> (length bw <= fuel)%nat ->
  exists m' cv',
    update_vertex_neighbors NEIGHBORSIZE fuel [v] m = Done m' /\
    GETPTR1 (vertices m') v = Done cv' /\
    v_neighbors cv'
      = slots NEIGHBORSIZE (v_halfedge cv :: last_first fw ++ bw) /\
    halfedges m'
      = replay_lengths m v
          (((fun x => (x, twin_of m x)) <$> v_halfedge cv :: fw)
           ++ back_log m (v_halfedge cv) bw) (halfedges m) /\
    match bw with
    | [] => v_valence cv' = v_valence cv /\ v_normal cv' = v_normal cv
    | _ =>
        v_valence cv' = Z.of_nat (length fw + length bw) /\
        v_normal cv'
          = normalized
              (ring_normal m (take NEIGHBORSIZE (v_halfedge cv :: fw ++ bw)))
    end.
Proof.
  intros Hl Hcv Hpath Hnot Hback Hnotb Hcap Hfuel Hfuelb.
  destruct (boundary_sweep_shift fuel v m cv fw Hl Hcv Hpath Hnot Hcap Hfuel)
    as (s & m1 & Hs & Hfb & Hi & Hlog & Hm1 & Hf1 & Hnb1).
  destruct (open_path_head _ _ _ Hpath) as [h0 Hh0].
  pose proof Hh0 as [Ho0 _]%GETPTR1_Done.
  assert (Ho : v_halfedge cv <> -1) by lia.
  destruct (wframe_halfedge _ _ _ _ _ (wframe_sym _ _ _ Hf1) Hh0)
    as (ce & Hce & [= _ _ _ _ Epr]).
  pose proof (wframe_linked _ _ _ Hf1 Hl) as Hl1.
  assert (Htrav : exists r,
    traverse NEIGHBORSIZE fuel v (v_halfedge cv) m = Done r /\
    w_visited (state_of r)
      = ((fun x => (x, twin_of m x)) <$> v_halfedge cv :: fw)
        ++ back_log m (v_halfedge cv) bw /\
    neighbors_are (mesh_of r) v
      (slots NEIGHBORSIZE (v_halfedge cv :: last_first fw ++ bw)) /\
    match bw with
    | [] => exists s', r = Skipped s'
    | _ => exists s', r = Walked s' /\
                      w_i s' = Z.of_nat (length fw + length bw)
    end).
  { unfold traverse. rewrite Hs. simpl. rewrite Hfb.
    unfold boundary_fallback. rewrite Hm1. simpl. rewrite Hce. simpl.
    rewrite Epr.
    destruct bw as [|r1 bw]; simpl in Hback.
    - destruct Hback as (h & Hh & Hend).
      assert (h = h0) as -> by congruence.
      rewrite !app_nil_r.
      destruct Hend as [Hp|Hp].
      + rewrite decide_True by done. eexists. split; [done|]. simpl. eauto.
      + case_decide as Hp1; [eexists; split; [done|]; simpl; eauto|].
        destruct (linked_halfedge _ _ _ Hl Hh0) as (_ & _ & _ & _ & [?|Hpr]);
          [done|].
        destruct (wframe_lengths _ _ _ Hf1) as (Lh & _).
        assert (Hpr1 : in_range (halfedges m1) (he_prev h0))
          by (by eapply in_range_length).
        apply in_range_GETPTR1 in Hpr1 as [te Hte]. rewrite Hte. simpl.
        rewrite <- (twin_of_wframe _ _ _ _ Hf1), (twin_of_GETPTR1 _ _ _ Hte) in Hp.
        rewrite decide_True by done. eexists. split; [done|]. simpl. eauto.
    - destruct Hback as [(h & Hh & Hp & Htw & Hr1) Hback].
      assert (h = h0) as -> by congruence.
      apply not_elem_of_cons in Hnotb as [Hne Hnotb].
      rewrite decide_False by done.
      destruct (linked_halfedge _ _ _ Hl Hh0) as (_ & _ & _ & _ & [?|Hpr]);
        [done|].
      destruct (wframe_lengths _ _ _ Hf1) as (Lh & _).
      assert (Hpr1 : in_range (halfedges m1) (he_prev h0))
        by (by eapply in_range_length).
      apply in_range_GETPTR1 in Hpr1 as [te Hte]. rewrite Hte. simpl.
      rewrite <- (twin_of_wframe _ _ _ _ Hf1), (twin_of_GETPTR1 _ _ _ Hte) in Htw.
      rewrite Htw. rewrite decide_False by done.
      destruct (reverse_chain m v (v_halfedge cv) bw Hl (v_halfedge cv) r1
                  (Walk m1 (w_i s + 1) r1 (he_prev h0) (w_normal s) (w_visited s))
                  (v_halfedge cv :: last_first fw) fuel)
        as (s' & Hw & Hlog' & Hi' & Hnb'); simpl; try done.
      + rewrite length_last_first. lia.
      + symmetry. by apply prev_of_GETPTR1.
      + by rewrite (prev_of_GETPTR1 _ _ _ Hh0).
      + rewrite Hw. simpl. eexists. split; [done|]. simpl.
        split; [by rewrite Hlog', Hlog|]. split; [done|].
        exists s'. split; [done|]. simpl in Hi'. lia. }
  destruct Htrav as (r & Htrav & Hlogr & Hnbr & Hkind).
  assert (Hfst : (w_visited (state_of r)).*1 = v_halfedge cv :: fw ++ bw).
  { rewrite Hlogr, fmap_app, back_log_fst, fmap_cons. simpl. f_equal. f_equal.
    rewrite <- list_fmap_compose. apply list_fmap_id. }
  pose proof (traverse_frame _ _ _ _ _ _ Htrav) as Hfr.
  destruct (wframe_vertex _ _ _ _ _ (wframe_sym _ _ _ Hfr) Hcv)
    as (cvr & Hcvr & _).
  assert (Hrun : exists m', update_vertex NEIGHBORSIZE fuel v m = Done m').
  { unfold update_vertex. pose proof Hcv as [Hv0 _]%GETPTR1_Done.
    rewrite decide_False by lia. rewrite Hcv. simpl.
    rewrite decide_False by done. rewrite Htrav. simpl.
    destruct r as [s'|s']; [eauto|]. by apply (finish_progress v s' cvr). }
  destruct Hrun as [m' Hrun].
  destruct (update_vertex_spec NEIGHBORSIZE _ _ _ _ _ Hcv Ho Hrun)
    as (r' & cv' & Hr' & _ & Hh' & _ & Hcv' & Hres).
  assert (r' = r) as -> by congruence.
  exists m', cv'. rewrite update_vertex_neighbors_one.
  split; [done|]. split; [done|]. split; [|split; [by rewrite Hh', Hlogr|]].
  - destruct r as [s'|s']; simpl in *.
    + unfold update_vertex in Hrun. pose proof Hcv as [Hv0 _]%GETPTR1_Done.
      rewrite decide_False in Hrun by lia. rewrite Hcv in Hrun.
      simpl in Hrun. rewrite decide_False in Hrun by done.
      rewrite Htrav in Hrun. simpl in Hrun. injection Hrun as <-.
      destruct Hnbr as (cv1 & Hcv1 & <-). congruence.
    + destruct Hres as (_ & _ & Hnb2).
      by apply (neighbors_are_det _ _ _ _ Hnb2 Hnbr).
  - destruct bw as [|r1 bw].
    + destruct Hkind as [s' ->]. done.
    + destruct Hkind as (s' & -> & Hi'). simpl in *.
      destruct Hres as (Hval & Hnrm & _). split; [congruence|].
      by rewrite Hnrm, Hfst.
Qed.
End Boundary.

Lemma orel_bind {A B A' B' : Type} (R : A -> B -> Prop) (R' : A' -> B' -> Prop)
    (c1 : outcome A) (c2 : outcome B) (k1 : A -> outcome A') (k2 : B -> outcome B') :
  orel R c1 c2 -> (forall a b, R a b -> orel R' (k1 a) (k2 b)) ->
  orel R' (c1 ≫= k1) (c2 ≫= k2).
Proof. destruct c1, c2; simpl; try done. intros H Hk. by apply Hk. Qed.

Lemma orel_impl {A B : Type} (R R' : A -> B -> Prop) c1 c2 :
  orel R c1 c2 -> (forall a b, R a b -> R' a b) -> orel R' c1 c2.
Proof. destruct c1, c2; simpl; try done. intros H Hk. by apply Hk. Qed.

(** Reading the same slot of two arrays that agree through [g]. *)
Lemma orel_GETPTR1 {A B : Type} (g : A -> B) (l1 l2 : list A) (i : Z) :
  g <$> l1 = g <$> l2 ->
  orel (fun x y => g x = g y) (GETPTR1 l1 i) (GETPTR1 l2 i).
Proof.
  intros Hg. unfold GETPTR1. case_decide; [|done].
  assert (Hl : g <$> l1 !! Z.to_nat i = g <$> l2 !! Z.to_nat i)
    by (by rewrite <- !list_lookup_fmap, Hg).
  destruct (l1 !! Z.to_nat i), (l2 !! Z.to_nat i); simpl in *; try done.
  by injection Hl.
Qed.

Lemma orel_SETPTR1 {A B : Type} (g : A -> B) (l1 l2 : list A) (i : Z)
    (h1 h2 : A -> A) :
  g <$> l1 = g <$> l2 -> (forall x y, g x = g y -> g (h1 x) = g (h2 y)) ->
  orel (fun x y => g <$> x = g <$> y) (SETPTR1 l1 i h1) (SETPTR1 l2 i h2).
Proof.
  intros Hg Hh. unfold SETPTR1. case_decide; [|done].
  assert (Hl : g <$> l1 !! Z.to_nat i = g <$> l2 !! Z.to_nat i)
    by (by rewrite <- !list_lookup_fmap, Hg).
  destruct (l1 !! Z.to_nat i) as [x|], (l2 !! Z.to_nat i) as [y|];
    simpl in *; try done.
  injection Hl as Hl. rewrite !list_fmap_insert, Hg. f_equal. by apply Hh.
Qed.

Lemma while_rel {S : Type} (R : S -> S -> Prop)
    (body1 body2 : S -> outcome (ctl S)) :
  (forall s1 s2, R s1 s2 -> orel (same_ctl R) (body1 s1) (body2 s2)) ->
  forall fuel s1 s2, R s1 s2 ->
    orel R (while fuel body1 s1) (while fuel body2 s2).
Proof.
  intros Hb fuel. induction fuel as [|fuel IH]; intros s1 s2 Hs; simpl; [done|].
  specialize (Hb s1 s2 Hs).
  destruct (body1 s1) as [[a|a]| |], (body2 s2) as [[b|b]| |]; simpl in *;
    try done. by apply IH.
Qed.

(** ** Two runs on the same given data *)

Section Stale.
Context {F : Type} {FO : FloatOps F}.
Variable NEIGHBORSIZE : nat.
Implicit Types (m : mesh F) (s : walk F) (v e : Z) (nb : list Z).

Lemma same_store_length v e l m1 m2 :
  same_inputs v m1 m2 ->
  orel (same_inputs v) (store_length e l m1) (store_length e l m2).
Proof.
  intros (Hf & Hl & Hc & Hn). unfold store_length.
  eapply orel_bind.
  - apply (orel_SETPTR1 links); [exact Hl|]. intros x y H. exact H.
  - intros hs1 hs2 Hhs. simpl. done.
Qed.

Lemma same_edge_length v e m1 m2 :
  same_inputs v m1 m2 ->
  orel eq (edge_length v e m1) (edge_length v e m2).
Proof.
  intros (Hf & Hl & Hc & Hn). unfold edge_length.
  eapply orel_bind; [apply (orel_GETPTR1 links); exact Hl|].
  intros ce1 ce2 [= Hv _ _ _ _]. rewrite Hv.
  eapply orel_bind; [apply (orel_GETPTR1 core); exact Hc|].
  intros lv1 lv2 [= Hp1 _].
  eapply orel_bind; [apply (orel_GETPTR1 core); exact Hc|].
  intros cv1 cv2 [= Hp2 _]. simpl. by rewrite Hp1, Hp2.
Qed.

(** The neighbour slots of [v], read in two meshes with the same
    inputs. *)
Lemma same_vertex v m1 m2 :
  same_inputs v m1 m2 ->
  orel (fun x y => core x = core y /\ v_neighbors x = v_neighbors y)
    (GETPTR1 (vertices m1) v) (GETPTR1 (vertices m2) v).
Proof.
  intros (Hf & Hl & Hc & Hn). unfold GETPTR1. case_decide; [|done].
  assert (Hk : core <$> vertices m1 !! Z.to_nat v
               = core <$> vertices m2 !! Z.to_nat v)
    by (by rewrite <- !list_lookup_fmap, Hc).
  destruct (vertices m1 !! Z.to_nat v), (vertices m2 !! Z.to_nat v);
    simpl in *; try done.
  unfold core in *. split; congruence.
Qed.

Lemma same_load_neighbor v k m1 m2 :
  same_inputs v m1 m2 ->
  orel eq (load_neighbor NEIGHBORSIZE v k m1) (load_neighbor NEIGHBORSIZE v k m2).
Proof.
  intros Hs. unfold load_neighbor.
  eapply orel_bind; [by apply same_vertex|].
  intros cv1 cv2 [_ Hn]. case_decide; [|done]. rewrite Hn.
  by destruct (GETPTR1 (v_neighbors cv2) k).
Qed.

Lemma same_store_neighbor v k x m1 m2 :
  same_inputs v m1 m2 ->
  orel (same_inputs v) (store_neighbor NEIGHBORSIZE v k x m1)
    (store_neighbor NEIGHBORSIZE v k x m2).
Proof.
  intros Hs. pose proof Hs as (Hf & Hl & Hc & Hn). unfold store_neighbor.
  eapply orel_bind; [by apply same_vertex|].
  intros cv1 cv2 [Hk Hnb]. case_decide; [|done]. rewrite Hnb.
  destruct (SETPTR1 (v_neighbors cv2) k (fun _ => x)) as [nb| |]; simpl;
    [|done|done].
  unfold SETPTR1. case_decide as Hv; [|done].
  assert (Hk' : core <$> vertices m1 !! Z.to_nat v
                = core <$> vertices m2 !! Z.to_nat v)
    by (by rewrite <- !list_lookup_fmap, Hc).
  destruct (vertices m1 !! Z.to_nat v) as [c1|] eqn:E1,
           (vertices m2 !! Z.to_nat v) as [c2|] eqn:E2; simpl in *; try done.
  injection Hk' as Hp Hh. repeat split; simpl; try done.
  - rewrite !list_fmap_insert, Hc. f_equal.
    unfold core. simpl. congruence.
  - rewrite !list_lookup_insert_eq by (by eapply lookup_lt_Some). done.
Qed.

Lemma same_record_neighbor v s1 s2 :
  same_walk v s1 s2 ->
  orel (same_walk v) (record_neighbor NEIGHBORSIZE v s1)
    (record_neighbor NEIGHBORSIZE v s2).
Proof.
  intros (Hi & Hc & Ht & Hn & Hlog & Hm). unfold record_neighbor.
  rewrite Hi, Hc, Ht, Hn, Hlog. case_decide; [|done].
  eapply orel_bind; [by apply same_store_neighbor|].
  intros m1 m2 Hm'. pose proof Hm' as (Hf & Hl & _).
  eapply orel_bind; [apply (orel_GETPTR1 links); exact Hl|].
  intros ce1 ce2 [= _ Hfc _ _ _]. rewrite Hfc, Hf.
  destruct (GETPTR1 (faces m2) (he_face ce2)); simpl; done.
Qed.

Lemma same_forward_body v orig s1 s2 :
  same_walk v s1 s2 ->
  orel (same_ctl (same_walk v)) (forward_body NEIGHBORSIZE v orig s1)
    (forward_body NEIGHBORSIZE v orig s2).
Proof.
  intros Hs. pose proof Hs as (Hi & Hc & Ht & Hn & Hlog & Hm).
  unfold forward_body. rewrite Hc. case_decide; [done|].
  eapply orel_bind; [by apply same_record_neighbor|].
  intros t1 t2 (Hi' & Hc' & Ht' & Hn' & Hlog' & Hm'). rewrite Hc', Ht', Hi'.
  eapply orel_bind; [by apply same_edge_length|]. intros l ? <-.
  eapply orel_bind; [by apply same_store_length|]. intros m1 m2 Hm2.
  case_decide; [simpl; done|].
  eapply orel_bind; [by apply same_store_length|]. intros m1' m2' Hm3.
  pose proof Hm3 as (_ & Hl & _).
  eapply orel_bind; [apply (orel_GETPTR1 links); exact Hl|].
  intros te1 te2 [= _ _ _ Hnx _]. rewrite Hnx.
  eapply orel_bind; [apply (orel_GETPTR1 links); exact Hl|].
  intros ce1 ce2 [= _ _ Htw _ _]. rewrite Htw, Hn', Hlog'.
  case_decide; simpl; done.
Qed.

Lemma same_reverse_body v orig s1 s2 :
  same_walk v s1 s2 ->
  orel (same_ctl (same_walk v)) (reverse_body NEIGHBORSIZE v orig s1)
    (reverse_body NEIGHBORSIZE v orig s2).
Proof.
  intros Hs. pose proof Hs as (Hi & Hc & Ht & Hn & Hlog & Hm).
  unfold reverse_body. rewrite Hc. case_decide; [done|].
  eapply orel_bind; [by apply same_record_neighbor|].
  intros t1 t2 (Hi' & Hc' & Ht' & Hn' & Hlog' & Hm'). rewrite Hc', Ht', Hi'.
  eapply orel_bind; [by apply same_edge_length|]. intros l ? <-.
  eapply orel_bind; [by apply same_store_length|]. intros m1 m2 Hm2.
  eapply orel_bind; [by apply same_store_length|]. intros m1' m2' Hm3.
  pose proof Hm3 as (_ & Hl & _).
  eapply orel_bind; [apply (orel_GETPTR1 links); exact Hl|].
  intros ce1 ce2 [= _ _ _ _ Hpr]. rewrite Hpr, Hn', Hlog'.
  case_decide; [simpl; done|].
  eapply orel_bind; [apply (orel_GETPTR1 links); exact Hl|].
  intros te1 te2 [= _ _ Htw _ _]. rewrite Htw.
  repeat case_decide; simpl; done.
Qed.

Lemma same_shift_neighbors n v k m1 m2 :
  same_inputs v m1 m2 ->
  orel (same_inputs v) (shift_neighbors NEIGHBORSIZE n v k m1)
    (shift_neighbors NEIGHBORSIZE n v k m2).
Proof.
  revert k m1 m2. induction n as [|n IH]; intros k m1 m2 Hm; simpl; [done|].
  eapply orel_bind; [by apply same_load_neighbor|]. intros tmp ? <-.
  eapply orel_bind; [by apply same_load_neighbor|]. intros x ? <-.
  eapply orel_bind; [by apply same_store_neighbor|]. intros a1 a2 Ha.
  eapply orel_bind; [by apply same_store_neighbor|]. intros b1 b2 Hb.
  by apply IH.
Qed.

Lemma same_boundary_fallback fuel v orig s1 s2 :
  same_walk v s1 s2 ->
  orel (same_walked v) (boundary_fallback NEIGHBORSIZE fuel v orig s1)
    (boundary_fallback NEIGHBORSIZE fuel v orig s2).
Proof.
  intros (Hi & Hc & Ht & Hn & Hlog & Hm). unfold boundary_fallback.
  rewrite Hi, Hn, Hlog.
  eapply orel_bind; [by apply same_shift_neighbors|]. intros m1 m2 Hm1.
  pose proof Hm1 as (_ & Hl & _).
  eapply orel_bind; [apply (orel_GETPTR1 links); exact Hl|].
  intros ce1 ce2 [= _ _ _ _ Hpr]. rewrite Hpr.
  case_decide; [simpl; done|].
  eapply orel_bind; [apply (orel_GETPTR1 links); exact Hl|].
  intros te1 te2 [= _ _ Htw _ _]. rewrite Htw.
  case_decide; [simpl; done|].
  eapply orel_bind.
  - apply (while_rel (same_walk v)); [intros; by apply same_reverse_body|].
    done.
  - intros t1 t2 Hst. simpl. done.
Qed.

(** Before the slots of [v] are reset the two meshes need not agree on
    them. *)
Lemma same_start_walk v orig m1 m2 :
  faces m1 = faces m2 ->
  links <$> halfedges m1 = links <$> halfedges m2 ->
  core <$> vertices m1 = core <$> vertices m2 ->
  orel (same_walk v) (start_walk NEIGHBORSIZE v orig m1)
    (start_walk NEIGHBORSIZE v orig m2).
Proof.
  intros Hf Hl Hc. unfold start_walk.
  eapply orel_bind; [apply (orel_GETPTR1 links); exact Hl|].
  intros ce1 ce2 [= _ _ Htw _ _]. rewrite Htw.
  unfold SETPTR1. case_decide; [|done].
  assert (Hk : core <$> vertices m1 !! Z.to_nat v
               = core <$> vertices m2 !! Z.to_nat v)
    by (by rewrite <- !list_lookup_fmap, Hc).
  destruct (vertices m1 !! Z.to_nat v) as [c1|] eqn:E1,
           (vertices m2 !! Z.to_nat v) as [c2|] eqn:E2; simpl in *; try done.
  injection Hk as Hp Hh. repeat split; simpl; try done.
  - rewrite !list_fmap_insert, Hc. f_equal. unfold core. simpl. congruence.
  - rewrite !list_lookup_insert_eq by (by eapply lookup_lt_Some). done.
Qed.

Lemma same_traverse fuel v orig m1 m2 :
  faces m1 = faces m2 ->
  links <$> halfedges m1 = links <$> halfedges m2 ->
  core <$> vertices m1 = core <$> vertices m2 ->
  orel (same_walked v) (traverse NEIGHBORSIZE fuel v orig m1)
    (traverse NEIGHBORSIZE fuel v orig m2).
Proof.
  intros Hf Hl Hc. unfold traverse, forward_sweep.
  eapply orel_bind.
  - eapply orel_bind; [by apply same_start_walk|].
    intros s1 s2 Hs.
    apply (while_rel (same_walk v)); [intros; by apply same_forward_body|done].
  - intros s1 s2 Hs.
    assert (Hfb : enters_fallback s1 = enters_fallback s2).
    { destruct Hs as (_ & Hc' & Ht' & _). unfold enters_fallback.
      by rewrite Hc', Ht'. }
    rewrite Hfb. destruct (enters_fallback s2).
    + by apply same_boundary_fallback.
    + simpl. done.
Qed.
End Stale.

(** ** A pass repeated *)

Section Idempotent.
Context {F : Type} {FO : FloatOps F}.
Variable NEIGHBORSIZE : nat.
Implicit Types (m : mesh F) (s : walk F) (v e : Z) (nb : list Z)
  (hs : list (halfedge_t F)).

(** A replay acts on each half-edge by itself: it leaves it alone or
    gives it a length that the log fixes. *)
Lemma put_length_pointwise e l hs (x : nat) :
  put_length e l hs !! x
  = (if decide (0 <= e /\ x = Z.to_nat e) then with_length l
     else fun h => h) <$> hs !! x.
Proof.
  unfold put_length. case_decide as He.
  - case_decide as Hx.
    + destruct Hx as [_ ->]. by rewrite list_lookup_alter_eq.
    + rewrite list_lookup_alter_ne by (intros <-; by apply Hx).
      by destruct (hs !! x).
  - rewrite decide_False by (intros [? _]; done). by destruct (hs !! x).
Qed.

Lemma replay_lengths_pointwise m v log (x : nat) :
  exists g : halfedge_t F -> halfedge_t F,
    ((forall h, g h = h) \/ exists c, forall h, g h = with_length c h) /\
    forall hs, replay_lengths m v log hs !! x = g <$> hs !! x.
Proof.
  induction log as [|[e p] log IH] using rev_ind.
  - exists (fun h => h). split; [by left|]. intros hs. simpl.
    by destruct (hs !! x).
  - destruct IH as (g & Hg & IH).
    set (l := length_of m v e).
    destruct (decide ((0 <= e /\ x = Z.to_nat e) \/ (0 <= p /\ x = Z.to_nat p)))
      as [Hin|Hout].
    + exists (with_length l). split; [right; by exists l|]. intros hs.
      rewrite replay_lengths_snoc, !put_length_pointwise, IH. fold l.
      destruct (hs !! x) as [h|]; [|done]. simpl. f_equal.
      assert (Hgl : with_length l (g h) = with_length l h)
        by (destruct Hg as [Hg|[c Hg]]; by rewrite Hg).
      repeat case_decide; simpl; try done. tauto.
    + exists g. split; [done|]. intros hs.
      rewrite replay_lengths_snoc, !put_length_pointwise, IH. fold l.
      rewrite !decide_False by tauto. by destruct (hs !! x).
Qed.

Lemma replay_lengths_twice m v log hs :
  replay_lengths m v log (replay_lengths m v log hs)
  = replay_lengths m v log hs.
Proof.
  apply list_eq. intros x.
  destruct (replay_lengths_pointwise m v log x) as (g & Hg & Hr).
  rewrite !Hr. destruct (hs !! x) as [h|]; simpl; [|done]. f_equal.
  destruct Hg as [Hg|[c Hg]]; by rewrite !Hg.
Qed.

Lemma length_of_inputs v e m1 m2 :
  links <$> halfedges m1 = links <$> halfedges m2 ->
  core <$> vertices m1 = core <$> vertices m2 ->
  length_of m1 v e = length_of m2 v e.
Proof.
  intros Hl Hc. unfold length_of, edge_length.
  pose proof (orel_GETPTR1 links _ _ e Hl) as H1.
  destruct (GETPTR1 (halfedges m1) e) as [c1| |],
           (GETPTR1 (halfedges m2) e) as [c2| |]; simpl in *; try done.
  injection H1 as Hv _ _ _ _. rewrite Hv.
  pose proof (orel_GETPTR1 core _ _ (he_vertex c2) Hc) as H2.
  destruct (GETPTR1 (vertices m1) (he_vertex c2)) as [a1| |],
           (GETPTR1 (vertices m2) (he_vertex c2)) as [a2| |]; simpl in *;
    try done.
  injection H2 as Hp _. rewrite Hp.
  pose proof (orel_GETPTR1 core _ _ v Hc) as H3.
  destruct (GETPTR1 (vertices m1) v) as [b1| |],
           (GETPTR1 (vertices m2) v) as [b2| |]; simpl in *; try done.
  injection H3 as Hq _. by rewrite Hq.
Qed.

Lemma replay_lengths_inputs v m1 m2 log hs :
  links <$> halfedges m1 = links <$> halfedges m2 ->
  core <$> vertices m1 = core <$> vertices m2 ->
  replay_lengths m1 v log hs = replay_lengths m2 v log hs.
Proof.
  intros Hl Hc. revert hs. induction log as [|[e p] log IH]; intros hs; [done|].
  unfold replay_lengths in *. simpl.
  rewrite (length_of_inputs v e m1 m2 Hl Hc). apply IH.
Qed.

Lemma vertex_eq (c1 c2 : vertex_t F) :
  kept c1 = kept c2 -> v_neighbors c1 = v_neighbors c2 -> c1 = c2.
Proof. destruct c1, c2. unfold kept. simpl. by intros [= -> -> -> ->] ->. Qed.

(** A second traversal, from the mesh the first pass left, ends as the
    first did and leaves the half-edges as they are. *)
Lemma traverse_again fuel v orig m r1 m' :
  traverse NEIGHBORSIZE fuel v orig m = Done r1 ->
  frame v m m' -> halfedges m' = halfedges (mesh_of r1) ->
  exists r2,
    traverse NEIGHBORSIZE fuel v orig m' = Done r2 /\
    same_walked v r1 r2 /\
    halfedges (mesh_of r2) = halfedges m' /\
    wframe v m' (mesh_of r2).
Proof.
  intros Hr1 (Hf & Hl & Hc & Ho) Hh.
  pose proof (same_traverse NEIGHBORSIZE fuel v orig m m'
                (eq_sym Hf) (eq_sym Hl) (eq_sym Hc)) as Hrel.
  rewrite Hr1 in Hrel.
  destruct (traverse NEIGHBORSIZE fuel v orig m') as [r2| |] eqn:Hr2;
    simpl in Hrel; try done.
  exists r2. split; [done|]. split; [done|].
  pose proof (traverse_counted _ _ _ _ _ _ Hr1) as ((_ & _ & Hh1) & _).
  pose proof (traverse_counted _ _ _ _ _ _ Hr2) as ((Hf2 & _ & Hh2) & _).
  assert (Hlog : w_visited (state_of r2) = w_visited (state_of r1)).
  { destruct r1, r2; simpl in *; try done;
      by destruct Hrel as (_ & _ & _ & _ & -> & _). }
  assert (Hm : w_mesh (state_of r2) = mesh_of r2) by (by destruct r2).
  assert (Hm1 : w_mesh (state_of r1) = mesh_of r1) by (by destruct r1).
  rewrite Hm in Hf2. split; [|done].
  rewrite <- Hm, Hh2, Hlog, Hh, <- Hm1, Hh1.
  rewrite (replay_lengths_inputs v m' m) by done.
  apply replay_lengths_twice.
Qed.

Lemma lookup_fmap_eq {A B : Type} (g : A -> B) (l1 l2 : list A) (n : nat) (x : A) :
  g <$> l1 = g <$> l2 -> l1 !! n = Some x ->
  exists y, l2 !! n = Some y /\ g y = g x.
Proof.
  intros Hg Hx.
  assert (Hl : g <$> l2 !! n = Some (g x))
    by (by rewrite <- list_lookup_fmap, <- Hg, list_lookup_fmap, Hx).
  destruct (l2 !! n) as [y|]; [|done]. injection Hl as Hl. eauto.
Qed.

(** X17.  A second pass on the same vertex, on the mesh the first pass
    left, runs to its end and changes nothing. *)
Theorem vertex_pass_idempotent fuel v m m' :
  update_vertex_neighbors NEIGHBORSIZE fuel [v] m = Done m' ->
  update_vertex_neighbors NEIGHBORSIZE fuel [v] m' = Done m'.
Proof.
  rewrite !update_vertex_neighbors_one. intros Hrun.
  pose proof (update_vertex_frame _ _ _ _ _ Hrun) as Hfr.
  unfold update_vertex in Hrun |- *.
  case_decide as Hv; [done|].
  apply bind_Done in Hrun as (cv & Hcv & Hrun).
  pose proof Hfr as (Hf & Hl & Hc & Ho).
  pose proof (orel_GETPTR1 core _ _ v Hc) as Hcv'. rewrite Hcv in Hcv'.
  destruct (GETPTR1 (vertices m') v) as [cv'| |] eqn:Ecv'; simpl in Hcv';
    try done.
  injection Hcv' as _ Hanchor. simpl. rewrite Hanchor.
  case_decide as Horig; [done|].
  apply bind_Done in Hrun as (r1 & Hr1 & Hrun).
  assert (Hh : halfedges m' = halfedges (mesh_of r1)).
  { destruct r1 as [s1|s1]; simpl in *.
    - by injection Hrun as <-.
    - by apply finish_inv in Hrun as (-> & _). }
  destruct (traverse_again fuel v _ m r1 m' Hr1 Hfr Hh)
    as (r2 & -> & Hrel & Hh2 & (Hf2 & _ & Hk2 & Ho2)).
  simpl. apply GETPTR1_Done in Ecv' as [Hv0 Ecv'].
  destruct (lookup_fmap_eq kept _ _ _ _ (eq_sym Hk2) Ecv') as (c2 & Hc2 & Hkept).
  destruct r1 as [s1|s1], r2 as [s2|s2]; simpl in *; try done;
    destruct Hrel as (Hi & _ & _ & Hn & _ & (_ & _ & Hcore & Hnb)).
  - injection Hrun as <-. f_equal.
    apply mesh_eq; [done| |done]. apply list_eq. intros n.
    destruct (decide (n = Z.to_nat v)) as [->|Hne]; [|by apply Ho2].
    rewrite Hc2, Ecv'. f_equal. apply vertex_eq; [done|].
    rewrite Ecv', Hc2 in Hnb. simpl in Hnb. by injection Hnb.
  - unfold finish in Hrun |- *.
    apply bind_Done in Hrun as (vs & Hvs & [= <-]).
    apply SETPTR1_Done in Hvs as (c1 & _ & Hc1 & ->).
    erewrite SETPTR1_lookup by (apply GETPTR1_Done; split; [exact Hv0|exact Hc2]).
    simpl in *. f_equal. apply mesh_eq; simpl; [done| |done].
    rewrite list_lookup_insert_eq in Ecv' by (by eapply lookup_lt_Some).
    injection Ecv' as <-.
    apply list_eq. intros n.
    destruct (decide (n = Z.to_nat v)) as [->|Hne].
    + rewrite !list_lookup_insert_eq by (by eapply lookup_lt_Some).
      f_equal. rewrite <- Hi, <- Hn.
      rewrite Hc1, Hc2 in Hnb. simpl in Hnb. injection Hnb as Hnb.
      apply vertex_eq; [|simpl; done].
      unfold kept in *. simpl in *. congruence.
    + rewrite list_lookup_insert_ne by done. rewrite Ho2 by done.
      by rewrite list_lookup_insert_ne.
Qed.
End Idempotent.

(** ** Stale derived fields *)

Section Given.
Context {F : Type} {FO : FloatOps F}.
Variable NEIGHBORSIZE : nat.
Implicit Types (m : mesh F) (s : walk F) (v e : Z) (nb : list Z).

Lemma frame_same_given v m m' : frame v m m' -> same_given m' m.
Proof. by intros (Hf & Hl & Hc & _). Qed.

Lemma same_given_trans m1 m2 m3 :
  same_given m1 m2 -> same_given m2 m3 -> same_given m1 m3.
Proof. intros (A & B & C) (A' & B' & C'). repeat split; congruence. Qed.

Lemma same_given_sym m1 m2 : same_given m1 m2 -> same_given m2 m1.
Proof. by intros (A & B & C). Qed.

(** One pass on two meshes with the same given data. *)
Lemma same_update_vertex fuel v m1 m2 :
  same_given m1 m2 ->
  orel (fun a b =>
          same_given a b /\
          forall cv, GETPTR1 (vertices m1) v = Done cv -> v_halfedge cv <> -1 ->
            v_neighbors <$> vertices a !! Z.to_nat v
            = v_neighbors <$> vertices b !! Z.to_nat v)
    (update_vertex NEIGHBORSIZE fuel v m1) (update_vertex NEIGHBORSIZE fuel v m2).
Proof.
  intros Hg. pose proof Hg as (Hf & Hl & Hc). unfold update_vertex.
  case_decide as Hv.
  { simpl. split; [done|]. intros cv [? _]%GETPTR1_Done. lia. }
  pose proof (orel_GETPTR1 core _ _ v Hc) as Hcv.
  destruct (GETPTR1 (vertices m1) v) as [c1| |] eqn:E1,
           (GETPTR1 (vertices m2) v) as [c2| |] eqn:E2; simpl in Hcv; try done.
  injection Hcv as _ Ha. simpl. rewrite Ha.
  case_decide as Ho.
  { simpl. split; [done|]. intros cv [= <-]. congruence. }
  eapply orel_bind; [by apply same_traverse|].
  intros r1 r2 Hr.
  destruct r1 as [s1|s1], r2 as [s2|s2]; simpl in Hr; try done;
    destruct Hr as (Hi & _ & _ & Hn & _ & (Hf' & Hl' & Hc' & Hnb)).
  - simpl. done.
  - unfold finish. rewrite Hi, Hn.
    unfold SETPTR1. case_decide as Hv0; [|done].
    assert (Hk : core <$> vertices (w_mesh s1) !! Z.to_nat v
                 = core <$> vertices (w_mesh s2) !! Z.to_nat v)
      by (by rewrite <- !list_lookup_fmap, Hc').
    destruct (vertices (w_mesh s1) !! Z.to_nat v) as [a1|] eqn:A1,
             (vertices (w_mesh s2) !! Z.to_nat v) as [a2|] eqn:A2;
      simpl in *; try done.
    injection Hk as Hp Hh. injection Hnb as Hnb.
    split; [repeat split; simpl; try done|].
    + rewrite !list_fmap_insert, Hc'. f_equal. unfold core. simpl. congruence.
    + intros _ _ _.
      rewrite !list_lookup_insert_eq by (by eapply lookup_lt_Some).
      simpl. by rewrite Hnb.
Qed.

(** X18.  [update_vertex_neighbors] reads none of the fields it writes
    before it has written them: on two meshes with the same faces, links,
    positions and anchors, a batch ends the same way (at its end, outside
    an array, or in a loop), and at its end every vertex of the batch
    that has an anchor holds the same neighbour slots in both. *)
Theorem stale_fields_ignored fuel (v_idxs : list Z) m1 m2 :
  same_given m1 m2 ->
  orel (fun a b =>
          same_given a b /\
          forall v cv, v ∈ v_idxs ->
            GETPTR1 (vertices m1) v = Done cv -> v_halfedge cv <> -1 ->
            v_neighbors <$> vertices a !! Z.to_nat v
            = v_neighbors <$> vertices b !! Z.to_nat v)
    (update_vertex_neighbors NEIGHBORSIZE fuel v_idxs m1)
    (update_vertex_neighbors NEIGHBORSIZE fuel v_idxs m2).
Proof.
  revert m1 m2. induction v_idxs as [|v l IH]; intros m1 m2 Hg; simpl.
  - split; [done|]. intros v cv Hin. by apply elem_of_nil in Hin.
  - pose proof (same_update_vertex fuel v m1 m2 Hg) as Hstep.
    destruct (update_vertex NEIGHBORSIZE fuel v m1) as [a1| |] eqn:E1,
             (update_vertex NEIGHBORSIZE fuel v m2) as [a2| |] eqn:E2;
      simpl in Hstep |- *; try done.
    destruct Hstep as [Hga Hnb].
    specialize (IH a1 a2 Hga).
    destruct (update_vertex_neighbors NEIGHBORSIZE fuel l a1) as [b1| |] eqn:B1,
             (update_vertex_neighbors NEIGHBORSIZE fuel l a2) as [b2| |] eqn:B2;
      simpl in IH |- *; try done.
    destruct IH as [Hgb IH]. split; [done|].
    intros u cu Hin Hcu Hanch.
    pose proof (update_vertex_frame _ _ _ _ _ E1) as (_ & _ & Hc1 & _).
    pose proof (orel_GETPTR1 core _ _ u Hc1) as Hcu'. rewrite Hcu in Hcu'.
    destruct (GETPTR1 (vertices a1) u) as [cu'| |] eqn:Ecu'; simpl in Hcu';
      try done.
    injection Hcu' as _ Ha.
    destruct (decide (u ∈ l)) as [Hl|Hl].
    + apply (IH u cu'); [done|done|congruence].
    + apply elem_of_cons in Hin as [->|Hin]; [|done].
      pose proof Hcu as [Hv0 _]%GETPTR1_Done.
      pose proof (update_vertex_neighbors_others _ _ _ _ _ B1) as O1.
      pose proof (update_vertex_neighbors_others _ _ _ _ _ B2) as O2.
      rewrite O1, O2 by (by rewrite Z2Nat.id).
      by apply (Hnb cu).
Qed.
End Given.

(** ** The length of an edge and of its twin, after any batch *)

Section EdgeLengths.
Context {F : Type} {FO : FloatOps F}.
Variable NEIGHBORSIZE : nat.
Implicit Types (m : mesh F) (s : walk F) (v e : Z).

Lemma wframe_edge_length_Done v m0 m e l :
  wframe v m0 m -> edge_length v e m = Done l -> edge_length v e m0 = Done l.
Proof.
  intros Hf. unfold edge_length.
  intros (ce & Hce & H)%bind_Done.
  apply bind_Done in H as (lv & Hlv & H).
  apply bind_Done in H as (cv & Hcv & [= <-]).
  destruct (wframe_halfedge _ _ _ _ _ Hf Hce) as (ce0 & -> & [= Hv _ _ _ _]).
  simpl. rewrite Hv.
  destruct (wframe_vertex _ _ _ _ _ Hf Hlv) as (lv0 & -> & [= Hp1 _ _ _]).
  simpl.
  destruct (wframe_vertex _ _ _ _ _ Hf Hcv) as (cv0 & -> & [= Hp2 _ _ _]).
  simpl. by rewrite Hp1, Hp2.
Qed.

Lemma target_of_GETPTR1 m e (h : halfedge_t F) :
  GETPTR1 (halfedges m) e = Done h -> target_of m e = he_vertex h.
Proof. intros Hh. unfold target_of. by rewrite Hh. Qed.

Lemma twin_of_Done m e t :
  twin_of m e = t -> t <> -1 ->
  exists h, GETPTR1 (halfedges m) e = Done h /\ he_twin h = t.
Proof.
  unfold twin_of. destruct (GETPTR1 (halfedges m) e) as [h| |]; [eauto|done|done].
Qed.

(** One visit, logged by [record_neighbor] from a state at the top of a
    loop. *)
Lemma visit_logged m v s s1 l :
  sweep_inv m v s ->
  record_neighbor NEIGHBORSIZE v s = Done s1 ->
  edge_length v (w_curr s) (w_mesh s1) = Done l ->
  wframe v m (w_mesh s1) /\ Forall (visit_of m v) (w_visited s1).
Proof.
  intros (Hf & Ht & Hsrc & Hlog) H1 Hl.
  pose proof (record_neighbor_frame _ _ _ _ H1) as Hf1.
  pose proof (wframe_trans _ _ _ _ Hf Hf1) as Hf01.
  destruct (record_neighbor_spec _ _ _ _ H1) as (_ & _ & _ & Hlog1 & _).
  split; [done|]. rewrite Hlog1. apply Forall_app. split; [done|].
  apply Forall_singleton. repeat split; simpl; try done.
  exists l. by eapply wframe_edge_length_Done.
Qed.

Lemma forward_body_sweep m v orig s r :
  consistent m -> sweep_inv m v s ->
  forward_body NEIGHBORSIZE v orig s = Done r ->
  sweep_inv m v (match r with Continue s' | Break s' => s' end).
Proof.
  intros (Htw & Hnx & _) Hinv Hrun.
  destruct (decide (w_curr s = -1)) as [Hc|Hc].
  { unfold forward_body in Hrun. rewrite decide_True in Hrun by done.
    by injection Hrun as <-. }
  pose proof (forward_body_frame _ _ _ _ _ Hrun) as Hfr.
  pose proof Hinv as (Hf & Ht & Hsrc & Hlog).
  pose proof (wframe_trans _ _ _ _ Hf Hfr) as Hf'.
  destruct (forward_body_inv _ _ _ _ _ Hrun Hc)
    as (s1 & l & m2 & H1 & Hl & H2 & Hcase).
  destruct (visit_logged _ _ _ _ _ Hinv H1 Hl) as [Hf1 Hlog1].
  destruct (record_neighbor_spec _ _ _ _ H1) as (_ & Hc1 & Ht1 & _).
  destruct Hcase as [[Htn ->]|(Htn & m3 & te & ce & H3 & Hte & Hce & ->)].
  - simpl in Hfr. split; [exact Hf'|]. simpl.
    rewrite Hc1, Ht1. done.
  - assert (Hf3 : wframe v m m3)
      by (destruct (decide (he_next te = orig)); exact Hf').
    destruct (wframe_halfedge _ _ _ _ _ Hf3 Hte)
      as (te0 & Hte0 & [= Hv0 _ _ Hn0 _]).
    destruct (wframe_halfedge _ _ _ _ _ Hf3 Hce)
      as (ce0 & Hce0 & [= _ _ Ht0 _ _]).
    assert (Hgoal : sweep_inv m v
              (Walk m3 (w_i s + 1) (he_next te) (he_twin ce)
                    (w_normal s1) (w_visited s1))).
    { split; [done|]. simpl. split.
      - rewrite (twin_of_GETPTR1 _ _ _ Hce0). done.
      - split; [|done].
        destruct (twin_of_Done m (w_curr s) (w_twin s)) as (h & Hh & Hht);
          [done|done|].
        destruct (Htw _ _ Hh) as (_ & _ & Htgt); [congruence|].
        unfold source_of.
        rewrite <- Hn0, (Hnx _ _ Hte0).
        + rewrite <- Hht, Htgt. done.
        + rewrite Hn0. apply GETPTR1_Done in Hce as [? _]. lia. }
    destruct (decide (he_next te = orig)); exact Hgoal.
Qed.

Lemma reverse_body_sweep m v orig s r :
  consistent m -> sweep_inv m v s ->
  reverse_body NEIGHBORSIZE v orig s = Done r ->
  match r with
  | Continue s' => sweep_inv m v s'
  | Break s' => sweep_exit m v s'
  end.
Proof.
  intros (Htw & _ & _) Hinv Hrun.
  pose proof (reverse_body_frame _ _ _ _ _ Hrun) as Hfr.
  pose proof Hinv as (Hf & Ht & Hsrc & Hlog).
  pose proof (wframe_trans _ _ _ _ Hf Hfr) as Hf'.
  unfold reverse_body in Hrun.
  case_decide as Hc; [injection Hrun as <-; by split|].
  apply bind_Done in Hrun as (s1 & H1 & Hrun).
  destruct (record_neighbor_spec _ _ _ _ H1) as (Hi & Hcu & Htw1 & _).
  rewrite Hi, Hcu, Htw1 in Hrun.
  apply bind_Done in Hrun as (l & Hl & Hrun).
  destruct (visit_logged _ _ _ _ _ Hinv H1 Hl) as [Hf1 Hlog1].
  apply bind_Done in Hrun as (m2 & H2 & Hrun).
  apply bind_Done in Hrun as (m3 & H3 & Hrun).
  apply bind_Done in Hrun as (ce & Hce & Hrun).
  case_decide as Hp; [injection Hrun as <-; by split|].
  apply bind_Done in Hrun as (te & Hte & Hrun).
  case_decide as Hm; [injection Hrun as <-; by split|].
  case_decide as Ho; [injection Hrun as <-; by split|].
  injection Hrun as <-. simpl in *.
  destruct (wframe_halfedge _ _ _ _ _ Hf' Hce)
    as (ce0 & Hce0 & [= _ _ _ _ Hp0]).
  destruct (wframe_halfedge _ _ _ _ _ Hf' Hte)
    as (te0 & Hte0 & [= Hv0 _ Ht0 _ _]).
  destruct (Htw _ _ Hte0) as (Hback & Hs & _); [congruence|].
  split; [done|]. simpl. split; [by rewrite <- Ht0, Hback|].
  split; [|done].
  rewrite <- Ht0, Hs. unfold source_of in Hsrc.
  rewrite (prev_of_GETPTR1 _ _ _ Hce0), Hp0 in Hsrc.
  by rewrite (target_of_GETPTR1 _ _ _ Hte0) in Hsrc.
Qed.

(** The log of a traversal on a consistent mesh. *)
Lemma traverse_visits fuel v m (cv : vertex_t F) r :
  consistent m ->
  GETPTR1 (vertices m) v = Done cv -> v_halfedge cv <> -1 ->
  traverse NEIGHBORSIZE fuel v (v_halfedge cv) m = Done r ->
  Forall (visit_of m v) (w_visited (state_of r)).
Proof.
  intros Hcons Hcv Ho Hrun. pose proof Hcons as (Htw & _ & Han).
  unfold traverse in Hrun. apply bind_Done in Hrun as (s & Hs & Hrun).
  assert (Hinv : sweep_inv m v s).
  { unfold forward_sweep in Hs. apply bind_Done in Hs as (s0 & Hs0 & Hs).
    eapply (while_invariant (sweep_inv m v) (sweep_inv m v)); [| | |exact Hs].
    - intros t t' Ht Hb. by apply (forward_body_sweep _ _ _ _ _ Hcons Ht Hb).
    - intros t t' Ht Hb. by apply (forward_body_sweep _ _ _ _ _ Hcons Ht Hb).
    - pose proof (start_walk_frame _ _ _ _ _ Hs0) as Hf0.
      unfold start_walk in Hs0. apply bind_Done in Hs0 as (ce & Hce & Hs0).
      apply bind_Done in Hs0 as (vs & _ & [= <-]).
      split; [done|]. simpl. split; [by rewrite (twin_of_GETPTR1 _ _ _ Hce)|].
      split; [by apply (Han _ _ Hcv)|constructor]. }
  destruct (enters_fallback s); [|injection Hrun as <-; apply Hinv].
  pose proof Hinv as (Hf & Ht & Hsrc & Hlog).
  unfold boundary_fallback in Hrun.
  apply bind_Done in Hrun as (m1 & H1 & Hrun).
  pose proof (shift_neighbors_frame _ _ _ _ _ _ H1) as Hf1.
  pose proof (wframe_trans _ _ _ _ Hf Hf1) as Hf01.
  apply bind_Done in Hrun as (ce & Hce & Hrun).
  case_decide as Hp; [by injection Hrun as <-|].
  apply bind_Done in Hrun as (te & Hte & Hrun).
  case_decide as Hm; [by injection Hrun as <-|].
  apply bind_Done in Hrun as (s' & Hs' & [= <-]). simpl.
  destruct (wframe_halfedge _ _ _ _ _ Hf01 Hce)
    as (ce0 & Hce0 & [= _ _ _ _ Hp0]).
  destruct (wframe_halfedge _ _ _ _ _ Hf01 Hte)
    as (te0 & Hte0 & [= Hv0 _ Ht0 _ _]).
  destruct (Htw _ _ Hte0) as (Hback & Hs0 & _); [congruence|].
  eapply (while_invariant (sweep_inv m v) (sweep_exit m v)); [| | |exact Hs'].
  - intros t t' Ht' Hb. by apply (reverse_body_sweep _ _ _ _ _ Hcons Ht' Hb).
  - intros t t' Ht' Hb. by apply (reverse_body_sweep _ _ _ _ _ Hcons Ht' Hb).
  - split; [done|]. simpl. split; [by rewrite <- Ht0, Hback|].
    split; [|done]. rewrite <- Ht0, Hs0.
    pose proof (Han _ _ Hcv Ho) as Hsrc0. unfold source_of in Hsrc0.
    rewrite (prev_of_GETPTR1 _ _ _ Hce0), Hp0 in Hsrc0.
    by rewrite (target_of_GETPTR1 _ _ _ Hte0) in Hsrc0.
Qed.

(** *** One edge and its twin *)

Section Pair.
Variables (m : mesh F) (e : Z) (h : halfedge_t F) (va vb : vertex_t F).
Hypothesis Hcons : consistent m.
Hypothesis Hsym : forall a b : vec3 F, norm (vsub a b) = norm (vsub b a).
Hypothesis Hh : GETPTR1 (halfedges m) e = Done h.
Hypothesis Hne : he_twin h <> -1.
Hypothesis Hva : GETPTR1 (vertices m) (source_of m e) = Done va.
Hypothesis Hvb : GETPTR1 (vertices m) (he_vertex h) = Done vb.

Let t : Z := he_twin h.
Let L : F := norm (vsub (v_position va) (v_position vb)).

Lemma pair_twin : exists ht,
  GETPTR1 (halfedges m) t = Done ht /\ he_twin ht = e /\
  source_of m t = he_vertex h /\ he_vertex ht = source_of m e.
Proof.
  destruct Hcons as (Htw & _ & _).
  destruct (Htw _ _ Hh Hne) as (Hback & Hs & Ht).
  destruct (twin_of_Done m t e Hback) as (ht & Hht & Hb).
  { apply GETPTR1_Done in Hh as [? _]. lia. }
  exists ht. repeat (split; [done|]).
  by rewrite <- (target_of_GETPTR1 _ _ _ Hht).
Qed.

(** A visit that touches the edge or its twin is a visit of one of them,
    with the other as partner. *)
Lemma visit_pair w (ep : Z * Z) :
  visit_of m w ep ->
  ep.1 = e \/ ep.1 = t \/ ep.2 = e \/ ep.2 = t ->
  (ep.1 = e /\ ep.2 = t) \/ (ep.1 = t /\ ep.2 = e).
Proof.
  destruct ep as [e2 p2]. simpl. intros (_ & Hp & _) Hcase. simpl in Hp.
  destruct Hcons as (Htw & _ & _).
  destruct pair_twin as (ht & Hht & Hb & _).
  pose proof Hh as [He0 _]%GETPTR1_Done.
  pose proof Hht as [Ht0 _]%GETPTR1_Done.
  assert (Hte : twin_of m e = t) by (by apply twin_of_GETPTR1).
  assert (Htt : twin_of m t = e)
    by (by rewrite (twin_of_GETPTR1 _ _ _ Hht)).
  destruct Hcase as [->|[->|[->|Hpt]]].
  - left. by rewrite Hp.
  - right. by rewrite Hp.
  - right. split; [|done].
    destruct (twin_of_Done m e2 e (eq_sym Hp)) as (h2 & Hh2 & Ht2); [lia|].
    destruct (Htw _ _ Hh2) as (Hback & _); [lia|].
    rewrite Ht2, Hte in Hback. done.
  - left. split; [|done]. rewrite Hpt in Hp.
    destruct (twin_of_Done m e2 t (eq_sym Hp)) as (h2 & Hh2 & Ht2); [lia|].
    destruct (Htw _ _ Hh2) as (Hback & _); [lia|].
    rewrite Ht2, Htt in Hback. done.
Qed.

(** The length such a visit writes. *)
Lemma visit_value w (ep : Z * Z) :
  visit_of m w ep -> ep.1 = e \/ ep.1 = t ->
  length_of m w ep.1 = L /\ (w = source_of m e \/ w = he_vertex h).
Proof.
  destruct ep as [e2 p2]. simpl. intros (Hsrc & _ & l & Hl) Hcase.
  simpl in Hsrc, Hl.
  destruct pair_twin as (ht & Hht & _ & Hs & Hv).
  unfold length_of. rewrite Hl.
  unfold edge_length in Hl.
  destruct Hcase as [->| ->].
  - rewrite Hh in Hl. simpl in Hl. rewrite Hvb in Hl. simpl in Hl.
    rewrite <- Hsrc, Hva in Hl. simpl in Hl. injection Hl as <-.
    split; [done|]. left. congruence.
  - rewrite Hht in Hl. simpl in Hl. rewrite Hv, Hva in Hl. simpl in Hl.
    rewrite <- Hsrc, Hs, Hvb in Hl. simpl in Hl. injection Hl as <-.
    split; [apply Hsym|]. right. congruence.
Qed.

Lemma put_pair_lookup (e2 p2 : Z) (l : F) (hs : list (halfedge_t F)) (x : nat) :
  put_length p2 l (put_length e2 l hs) !! x
  = (if decide ((0 <= e2 /\ x = Z.to_nat e2) \/ (0 <= p2 /\ x = Z.to_nat p2))
     then with_length l else fun h => h) <$> hs !! x.
Proof.
  rewrite !put_length_pointwise. destruct (hs !! x) as [h0|]; [|done]. simpl.
  repeat case_decide; try done; tauto.
Qed.

Lemma replay_lengths_lookup w log hs (x : nat) :
  is_Some (replay_lengths m w log hs !! x) <-> is_Some (hs !! x).
Proof.
  destruct (replay_lengths_pointwise m w log x) as (g & _ & ->).
  by rewrite fmap_is_Some.
Qed.

(** The replay of the log of a pass: the edge and its twin keep holding
    the distance, and hold it once the log has visited one of them. *)
Lemma replay_pair w log hs :
  Forall (visit_of m w) log ->
  is_Some (hs !! Z.to_nat e) -> is_Some (hs !! Z.to_nat t) ->
  both_hold hs e t L \/ e ∈ log.*1 \/ t ∈ log.*1 ->
  both_hold (replay_lengths m w log hs) e t L.
Proof.
  intros Hlog Hie Hit.
  pose proof Hh as [He0 _]%GETPTR1_Done.
  destruct pair_twin as (ht & [Ht0 _]%GETPTR1_Done & _).
  induction log as [|[e2 p2] log IH] using rev_ind; intros Hcase.
  { destruct Hcase as [?|[Hin|Hin]]; [done| |]; by apply elem_of_nil in Hin. }
  apply Forall_app in Hlog as [Hlog Hv]. rewrite Forall_singleton in Hv.
  rewrite replay_lengths_snoc.
  set (hs' := replay_lengths m w log hs) in *.
  set (l := length_of m w e2).
  assert (Hie' : is_Some (hs' !! Z.to_nat e)) by (by apply replay_lengths_lookup).
  assert (Hit' : is_Some (hs' !! Z.to_nat t)) by (by apply replay_lengths_lookup).
  destruct Hie' as [he Hhe], Hit' as [te Hte].
  destruct (decide (e2 = e \/ e2 = t \/ p2 = e \/ p2 = t)) as [Htouch|Hout].
  - destruct (visit_value w (e2, p2) Hv) as [Hval _].
    { destruct (visit_pair w (e2, p2) Hv Htouch) as [[? _]|[? _]]; auto. }
    simpl in Hval. fold l in Hval.
    exists (with_length l he), (with_length l te).
    rewrite !put_pair_lookup, Hhe, Hte. simpl.
    destruct (visit_pair w (e2, p2) Hv Htouch) as [[He2 Hp2]|[He2 Hp2]];
      simpl in He2, Hp2; subst e2 p2;
      rewrite !decide_True by (first [by left | by right]); done.
  - assert (Hkeep : both_hold hs' e t L).
    { apply IH; [done|]. destruct Hcase as [?|[Hin|Hin]]; [by left| |].
      - rewrite fmap_app, elem_of_app in Hin. destruct Hin as [?|Hin]; [auto|].
        simpl in Hin. apply list_elem_of_singleton in Hin.
        exfalso. apply Hout. left. by symmetry.
      - rewrite fmap_app, elem_of_app in Hin. destruct Hin as [?|Hin]; [auto|].
        simpl in Hin. apply list_elem_of_singleton in Hin.
        exfalso. apply Hout. right. left. by symmetry. }
    destruct Hkeep as (he' & te' & Hhe' & Hte' & Hl1 & Hl2).
    exists he', te'. rewrite !put_pair_lookup, Hhe', Hte'. simpl.
    rewrite !decide_False; [done| |]; intros [[H0 Heq]|[H0 Heq]];
      apply Hout; first [left; lia | right; left; lia
                        | right; right; left; lia | right; right; right; lia].
Qed.
End Pair.

(** What a pass does to the half-edges, told on the mesh [m] the batch
    started from. *)
Lemma update_vertex_replay fuel w m m1 m2 :
  same_given m1 m ->
  update_vertex NEIGHBORSIZE fuel w m1 = Done m2 ->
  same_given m2 m /\
  (halfedges m2 = halfedges m1 /\
   (w = -1 \/ exists cv, GETPTR1 (vertices m) w = Done cv /\ v_halfedge cv = -1)
   \/
   exists cv r,
     GETPTR1 (vertices m) w = Done cv /\ v_halfedge cv <> -1 /\
     traverse NEIGHBORSIZE fuel w (v_halfedge cv) m = Done r /\
     halfedges m2
     = replay_lengths m w (w_visited (state_of r)) (halfedges m1)).
Proof.
  intros Hg Hrun. pose proof Hg as (Hfa & Hl & Hc).
  split.
  { eapply same_given_trans; [|exact Hg].
    eapply frame_same_given, update_vertex_frame, Hrun. }
  destruct (decide (w = -1)) as [->|Hw].
  { left. unfold update_vertex in Hrun. rewrite decide_True in Hrun by done.
    injection Hrun as <-. auto. }
  destruct (GETPTR1 (vertices m1) w) as [cv1| |] eqn:Hcv1;
    [|unfold update_vertex in Hrun; rewrite decide_False, Hcv1 in Hrun by done;
      done..].
  destruct (fmap_GETPTR1 core (vertices m) (vertices m1) w cv1 Hc Hcv1)
    as (cv & Hcv & [= _ Ho]).
  destruct (decide (v_halfedge cv = -1)) as [Ho1|Ho1].
  { left. unfold update_vertex in Hrun.
    rewrite decide_False, Hcv1 in Hrun by done. simpl in Hrun.
    rewrite decide_True in Hrun by congruence. injection Hrun as <-. eauto. }
  right.
  destruct (update_vertex_spec NEIGHBORSIZE fuel w m1 m2 cv1 Hcv1)
    as (r1 & cv' & Hr1 & _ & Hh & _); [congruence|done|].
  pose proof (same_traverse NEIGHBORSIZE fuel w (v_halfedge cv1) m1 m Hfa Hl Hc)
    as Hsame.
  rewrite Hr1 in Hsame.
  destruct (traverse NEIGHBORSIZE fuel w (v_halfedge cv1) m) as [r| |] eqn:Hr;
    [|done|done].
  exists cv, r. rewrite Ho. split; [done|]. split; [congruence|].
  split; [done|].
  rewrite Hh, (replay_lengths_inputs w m1 m _ _ Hl Hc). f_equal.
  destruct r1, r; simpl in *; try done; by destruct Hsame as (_ & _ & _ & _ & ? & _).
Qed.

Section Batch.
Variables (m : mesh F) (e : Z) (h : halfedge_t F) (va vb : vertex_t F).
Hypothesis Hcons : consistent m.
Hypothesis Hsym : forall a b : vec3 F, norm (vsub a b) = norm (vsub b a).
Hypothesis Hh : GETPTR1 (halfedges m) e = Done h.
Hypothesis Hne : he_twin h <> -1.
Hypothesis Hva : GETPTR1 (vertices m) (source_of m e) = Done va.
Hypothesis Hvb : GETPTR1 (vertices m) (he_vertex h) = Done vb.

Let t : Z := he_twin h.
Let L : F := norm (vsub (v_position va) (v_position vb)).

(** A batch, from a mesh [m1] that earlier passes made of [m]: once the
    edge and its twin hold the distance they hold it to the end, and they
    hold it at the end when a pass of the batch visits one of them. *)
Lemma batch_pair fuel (v_idxs : list Z) :
  forall m1 m',
    same_given m1 m ->
    update_vertex_neighbors NEIGHBORSIZE fuel v_idxs m1 = Done m' ->
    is_Some (halfedges m1 !! Z.to_nat e) ->
    is_Some (halfedges m1 !! Z.to_nat t) ->
    both_hold (halfedges m1) e t L \/
    (exists v cv r,
       v ∈ v_idxs /\ GETPTR1 (vertices m) v = Done cv /\ v_halfedge cv <> -1 /\
       traverse NEIGHBORSIZE fuel v (v_halfedge cv) m = Done r /\
       (e ∈ (w_visited (state_of r)).*1 \/ t ∈ (w_visited (state_of r)).*1)) ->
    both_hold (halfedges m') e t L.
Proof.
  induction v_idxs as [|w rest IH]; intros m1 m' Hg Hrun Hie Hit Hcase.
  { injection Hrun as <-.
    destruct Hcase as [?|(v & _ & _ & Hin & _)]; [done|].
    by apply elem_of_nil in Hin. }
  simpl in Hrun. apply bind_Done in Hrun as (m2 & H2 & Hrun).
  destruct (update_vertex_replay fuel w m m1 m2 Hg H2) as [Hg2 Hpass].
  assert (Hlen : forall x, is_Some (halfedges m1 !! x) ->
                           is_Some (halfedges m2 !! x)).
  { intros x Hx.
    assert (Hl12 : links <$> halfedges m2 = links <$> halfedges m1).
    { destruct Hg as (_ & -> & _). by destruct Hg2 as (_ & -> & _). }
    apply lookup_lt_is_Some. apply lookup_lt_is_Some in Hx.
    apply (f_equal length) in Hl12. rewrite !length_fmap in Hl12. lia. }
  apply (IH m2 m' Hg2 Hrun); [by apply Hlen|by apply Hlen|].
  destruct Hpass as [[Hsame Hskip]|(cv & r & Hcv & Ho & Hr & Hh2)].
  - destruct Hcase as [Hb|(v & cv & r & Hin & Hcv & Ho & Hr & Hvis)].
    { left. by rewrite Hsame. }
    right. exists v, cv, r. split; [|done].
    apply elem_of_cons in Hin as [->|Hin]; [|done].
    destruct Hskip as [->|(cv0 & Hcv0 & Ho0)].
    + apply GETPTR1_Done in Hcv as [? _]. lia.
    + congruence.
  - pose proof (traverse_visits fuel w m cv r Hcons Hcv Ho Hr) as Hlog.
    destruct Hcase as [Hb|(v & cv0 & r0 & Hin & Hcv0 & Ho0 & Hr0 & Hvis)].
    { left. rewrite Hh2.
      apply (replay_pair m e h va vb Hcons Hsym Hh Hne Hva Hvb); auto. }
    apply elem_of_cons in Hin as [->|Hin].
    + left. rewrite Hh2.
      assert (cv0 = cv) as -> by congruence.
      assert (r0 = r) as -> by congruence.
      apply (replay_pair m e h va vb Hcons Hsym Hh Hne Hva Hvb); auto.
    + right. exists v, cv0, r0. done.
Qed.
End Batch.

End EdgeLengths.

(** ** The norm of a difference in binary32 *)

Module B32Facts.
Import Floats.SpecFloat B32.

(** Rounding a negative number is rounding its absolute value and
    changing the sign. *)
Lemma binary_round_aux_opp prec emax mx ex lx :
  binary_round_aux prec emax true mx ex lx
  = SFopp (binary_round_aux prec emax false mx ex lx).
Proof.
  unfold binary_round_aux.
  destruct (shr_fexp prec emax mx ex lx) as [mrs' e'].
  destruct (shr_fexp prec emax _ e' loc_Exact) as [mrs'' e''].
  destruct (shr_m mrs''); [done| |done].
  by destruct (Z.leb e'' (emax - prec)).
Qed.

Lemma binary_normalize_opp prec emax z e :
  binary_normalize prec emax (- z) e false
  = match z with
    | Z0 => S754_zero false
    | _ => SFopp (binary_normalize prec emax z e false)
    end.
Proof.
  destruct z as [|p|p]; simpl; [done| |]; unfold binary_round;
    destruct (shl_align _ _ _) as [mz ez]; rewrite binary_round_aux_opp;
    [done|]. by destruct (binary_round_aux prec emax false (Z.pos mz) ez loc_Exact) as [[]|[]| |[] ? ?].
Qed.

Lemma SFmul_opp_opp prec emax x :
  SFmul prec emax (SFopp x) (SFopp x) = SFmul prec emax x x.
Proof. by destruct x as [[]|[]| |[] ? ?]. Qed.

(** The square of a difference does not depend on the order of its
    terms. *)
Lemma square_sub_sym (a b : float) :
  fmul (fsub a b) (fsub a b) = fmul (fsub b a) (fsub b a).
Proof.
  change (SFmul 24 128 (SFsub 24 128 a b) (SFsub 24 128 a b)
          = SFmul 24 128 (SFsub 24 128 b a) (SFsub 24 128 b a)).
  destruct a as [sa|sa| |sa ma ea], b as [sb|sb| |sb mb eb];
    try (by destruct sa, sb); try (by destruct sa); try (by destruct sb);
    try done.
  unfold SFsub. rewrite (Z.min_comm eb ea).
  set (ez := Z.min ea eb).
  set (A := cond_Zopp sa (Z.pos (shl_align ma ea ez).1)).
  set (B := cond_Zopp sb (Z.pos (shl_align mb eb ez).1)).
  replace (B - A) with (- (A - B)) by lia.
  rewrite binary_normalize_opp.
  destruct (A - B); [done| |]; apply eq_sym, SFmul_opp_opp.
Qed.

Lemma norm_vsub_sym (a b : vec3 float) : norm (vsub a b) = norm (vsub b a).
Proof.
  unfold norm, vsub. cbn [vx vy vz].
  by rewrite (square_sub_sym (vx a) (vx b)), (square_sub_sym (vy a) (vy b)),
    (square_sub_sym (vz a) (vz b)).
Qed.
End B32Facts.

(** ** Rounding in [SpecFloat] *)

Module RoundingFacts.
Import Floats.SpecFloat Rounding.

Arguments bpow : simpl never.

Lemma bpow_pos e : (0 < bpow e)%R.
Proof. apply powerRZ_lt. lra. Qed.

Lemma bpow_add a b : bpow (a + b) = (bpow a * bpow b)%R.
Proof. apply powerRZ_add. lra. Qed.

Lemma bpow_0 : bpow 0 = 1%R.
Proof. reflexivity. Qed.

Lemma bpow_1 : bpow 1 = 2%R.
Proof. unfold bpow. simpl. lra. Qed.

Lemma bpow_succ e : bpow (e + 1) = (2 * bpow e)%R.
Proof. rewrite bpow_add, bpow_1. lra. Qed.

Lemma bpow_pred e : bpow (e - 1) = (bpow e / 2)%R.
Proof.
  replace e with ((e - 1) + 1) at 2 by lia. rewrite bpow_succ. lra.
Qed.

Lemma bpow_IZR k : 0 <= k -> bpow k = IZR (2 ^ k).
Proof.
  intros Hk. unfold bpow. rewrite <- (Z2Nat.id k Hk) at 1.
  rewrite <- pow_powerRZ. rewrite <- (Z2Nat.id k Hk) at 2.
  by rewrite <- pow_IZR.
Qed.

Lemma bpow_ge_1 k : 0 <= k -> (1 <= bpow k)%R.
Proof.
  intros Hk. rewrite bpow_IZR by done. apply IZR_le.
  pose proof (Z.pow_pos_nonneg 2 k). lia.
Qed.

Lemma bpow_le a b : a <= b -> (bpow a <= bpow b)%R.
Proof.
  intros H. replace b with (a + (b - a)) by lia. rewrite bpow_add.
  pose proof (bpow_pos a). pose proof (bpow_ge_1 (b - a) ltac:(lia)). nra.
Qed.

Lemma bpow_lt a b : a < b -> (bpow a < bpow b)%R.
Proof.
  intros H. replace b with (a + 1 + (b - a - 1)) by lia.
  rewrite bpow_add, bpow_succ.
  pose proof (bpow_pos a). pose proof (bpow_ge_1 (b - a - 1) ltac:(lia)). nra.
Qed.

Lemma bpow_lt_inv a b : (bpow a < bpow b)%R -> a < b.
Proof.
  intros H. destruct (Z_lt_le_dec a b) as [|Hle]; [done|].
  apply bpow_le in Hle. lra.
Qed.

Lemma bpow_le_inv a b : (bpow a <= bpow b)%R -> a <= b.
Proof.
  intros H. destruct (Z_le_gt_dec a b) as [|Hgt]; [done|].
  apply Z.gt_lt, bpow_lt in Hgt. lra.
Qed.

Lemma bpow_opp e : bpow (- e) = (/ bpow e)%R.
Proof.
  pose proof (bpow_pos e). pose proof (bpow_add e (- e)) as H1.
  replace (e + - e) with 0 in H1 by lia. rewrite bpow_0 in H1.
  apply Rmult_eq_reg_l with (bpow e); [|lra]. rewrite <- H1. field. lra.
Qed.

(** ** The number of digits *)

Lemma digits2_pos_bounds (p : positive) :
  2 ^ (Z.pos (digits2_pos p) - 1) <= Z.pos p < 2 ^ Z.pos (digits2_pos p).
Proof.
  induction p as [p IH|p IH|]; simpl digits2_pos.
  - rewrite Pos2Z.inj_succ.
    replace (Z.succ (Z.pos (digits2_pos p)) - 1) with (Z.pos (digits2_pos p) - 1 + 1) by lia.
    rewrite Z.pow_succ_r by lia. rewrite Z.pow_add_r by lia. lia.
  - rewrite Pos2Z.inj_succ.
    replace (Z.succ (Z.pos (digits2_pos p)) - 1) with (Z.pos (digits2_pos p) - 1 + 1) by lia.
    rewrite Z.pow_succ_r by lia. rewrite Z.pow_add_r by lia. lia.
  - simpl. lia.
Qed.

Lemma Zdigits2_nonneg m : 0 <= Zdigits2 m.
Proof. destruct m; simpl; lia. Qed.

Lemma Zdigits2_bounds m :
  0 < m -> 2 ^ (Zdigits2 m - 1) <= m < 2 ^ Zdigits2 m.
Proof. destruct m as [|p|p]; try lia. intros _. apply digits2_pos_bounds. Qed.

(** A positive number between two powers of two has as many digits as the
    upper exponent. *)
Lemma Zdigits2_unique m d :
  2 ^ (d - 1) <= m < 2 ^ d -> 0 < m -> Zdigits2 m = d.
Proof.
  intros [Hlo Hhi] Hm. pose proof (Zdigits2_bounds m Hm) as [Hlo' Hhi'].
  pose proof (Zdigits2_nonneg m).
  assert (0 < d).
  { destruct (Z_lt_le_dec 0 d); [done|].
    assert (2 ^ d <= 2 ^ 0) by (apply Z.pow_le_mono_r; lia). simpl in *. lia. }
  assert (0 < Zdigits2 m) by (destruct m; simpl in *; lia).
  destruct (Z.lt_trichotomy (Zdigits2 m) d) as [Hlt|[->|Hgt]]; [|done|].
  - assert (2 ^ Zdigits2 m <= 2 ^ (d - 1)) by (apply Z.pow_le_mono_r; lia). lia.
  - assert (2 ^ d <= 2 ^ (Zdigits2 m - 1)) by (apply Z.pow_le_mono_r; lia). lia.
Qed.

Lemma Zdigits2_le m d : 0 <= m < 2 ^ d -> 0 <= d -> Zdigits2 m <= d.
Proof.
  intros [Hm Hlt] Hd. destruct (Z.eq_dec m 0) as [->|Hne]; [simpl; lia|].
  pose proof (Zdigits2_bounds m ltac:(lia)) as [Hlo _].
  destruct (Z_le_gt_dec (Zdigits2 m) d) as [|Hgt]; [done|].
  assert (2 ^ d <= 2 ^ (Zdigits2 m - 1)) by (apply Z.pow_le_mono_r; lia). lia.
Qed.

(** ** Real bounds of a mantissa *)

Lemma value_bounds m e :
  0 < m ->
  (bpow (Zdigits2 m - 1 + e) <= IZR m * bpow e < bpow (Zdigits2 m + e))%R.
Proof.
  intros Hm. pose proof (Zdigits2_bounds m Hm) as [Hlo Hhi].
  assert (0 < Zdigits2 m) by (destruct m; simpl in *; lia).
  rewrite !bpow_add. pose proof (bpow_pos e).
  rewrite (bpow_IZR (Zdigits2 m - 1)), (bpow_IZR (Zdigits2 m)) by lia.
  apply IZR_le in Hlo. apply IZR_lt in Hhi.
  split; [apply Rmult_le_compat_r; lra | apply Rmult_lt_compat_r; lra].
Qed.

(** [m * 2^e < 2^k] bounds [m]. *)
Lemma mantissa_lt m e k :
  0 <= k - e -> (IZR m * bpow e < bpow k)%R -> m < 2 ^ (k - e).
Proof.
  intros Hk H. replace k with ((k - e) + e) in H by lia.
  rewrite bpow_add in H. pose proof (bpow_pos e).
  rewrite (bpow_IZR (k - e)) in H by done. apply lt_IZR.
  by apply Rmult_lt_reg_r in H.
Qed.

Lemma mantissa_ge m e k :
  0 <= k - e -> (bpow k < (IZR m + 1) * bpow e)%R -> 2 ^ (k - e) <= m.
Proof.
  intros Hk H. replace k with ((k - e) + e) in H by lia.
  rewrite bpow_add in H. pose proof (bpow_pos e).
  rewrite (bpow_IZR (k - e)) in H by done.
  apply Rmult_lt_reg_r in H; [|done].
  assert (H1 : (IZR (2 ^ (k - e)) < IZR (m + 1))%R) by (by rewrite plus_IZR).
  apply lt_IZR in H1. lia.
Qed.

(** ** Shifting a mantissa to the right *)

Lemma IZR_xO p : IZR (Z.pos p~0) = (2 * IZR (Z.pos p))%R.
Proof. rewrite Pos2Z.inj_xO, mult_IZR. done. Qed.

Lemma IZR_xI p : IZR (Z.pos p~1) = (2 * IZR (Z.pos p) + 1)%R.
Proof. rewrite Pos2Z.inj_xI, plus_IZR, mult_IZR. done. Qed.

(** A mantissa with its round and sticky bits tells where the real
    lies. *)
Definition rec_located (x : R) (mrs : shr_record) (e : Z) : Prop :=
  0 <= shr_m mrs /\ located x (shr_m mrs) e (loc_of_shr_record mrs).

Lemma shr_1_located x mrs e :
  rec_located x mrs e -> rec_located x (shr_1 mrs) (e + 1).
Proof.
  destruct mrs as [m r s]. unfold rec_located.
  cbn [shr_m loc_of_shr_record]. intros [Hm Hx].
  pose proof (bpow_pos e) as Hb.
  destruct m as [|[p|p|]|]; try lia;
    destruct r, s;
    cbn [shr_1 shr_m loc_of_shr_record orb located] in *;
    rewrite bpow_succ;
    try rewrite (IZR_xO p) in Hx; try rewrite (IZR_xI p) in Hx;
    (split; [lia|]); lra.
Qed.

Lemma iter_shr_1_located p :
  forall x mrs e,
    rec_located x mrs e -> rec_located x (iter_pos shr_1 p mrs) (e + Z.pos p).
Proof.
  induction p as [p IH|p IH|]; intros x mrs e H; simpl.
  - apply shr_1_located in H. apply IH, IH in H.
    replace (e + Z.pos p~1) with (e + 1 + Z.pos p + Z.pos p) by lia. done.
  - apply IH, IH in H.
    replace (e + Z.pos p~0) with (e + Z.pos p + Z.pos p) by lia. done.
  - by apply shr_1_located.
Qed.

Lemma shr_located x mrs e n :
  rec_located x mrs e ->
  rec_located x (shr mrs e n).1 (shr mrs e n).2 /\
  (shr mrs e n).2 = e + Z.max n 0.
Proof.
  intros H. destruct n as [|p|p]; simpl.
  - split; [done|lia].
  - split; [by apply iter_shr_1_located|lia].
  - split; [done|lia].
Qed.

Lemma located_record x m e l :
  0 <= m -> located x m e l -> rec_located x (shr_record_of_loc m l) e.
Proof.
  intros Hm Hx. unfold rec_located. by destruct l as [|[]].
Qed.

(** ** Rounding to nearest, ties to even *)

Lemma located_bounds x m e l :
  located x m e l -> (IZR m * bpow e <= x < (IZR m + 1) * bpow e)%R.
Proof.
  pose proof (bpow_pos e). destruct l as [|[]]; unfold located; intros Hx; lra.
Qed.

Lemma round_nearest_even_spec x m e l :
  located x m e l ->
  m <= round_nearest_even m l <= m + 1 /\
  (Rabs (IZR (round_nearest_even m l) * bpow e - x) <= bpow e / 2)%R.
Proof.
  pose proof (bpow_pos e). unfold located.
  destruct l as [|[]]; simpl; intros Hx.
  - split; [lia|]. rewrite Hx. replace (IZR m * bpow e - IZR m * bpow e)%R with 0%R by lra.
    rewrite Rabs_R0. lra.
  - destruct (Z.even m); (split; [lia|]); rewrite ?plus_IZR; apply Rabs_le; lra.
  - split; [lia|]. apply Rabs_le; lra.
  - split; [lia|]. rewrite plus_IZR. apply Rabs_le; lra.
Qed.

Section Format.
Variables prec emax : Z.
Hypothesis Hprec : 0 < prec.
Hypothesis Hemax : prec < emax.

Lemma eps_pos : (0 < eps prec)%R.
Proof. apply bpow_pos. Qed.

Lemma eta_pos : (0 < eta prec emax)%R.
Proof. apply bpow_pos. Qed.

Lemma fexp_ge_emin e : emin prec emax <= fexp prec emax e.
Proof. unfold fexp. lia. Qed.

Lemma fexp_mono a b : a <= b -> fexp prec emax a <= fexp prec emax b.
Proof. unfold fexp. lia. Qed.

(** A power of two with at least one digit to give away. *)
Lemma pow2_double k : 0 < k -> exists p, 2 ^ (k - 1) = Z.pos p /\ 2 ^ k = Z.pos p~0.
Proof.
  intros Hk. pose proof (Z.pow_pos_nonneg 2 (k - 1) ltac:(lia) ltac:(lia)) as Hp.
  destruct (2 ^ (k - 1)) as [|p|p] eqn:E; try lia.
  exists p. split; [done|].
  replace k with (k - 1 + 1) by lia. rewrite Z.pow_add_r by lia. rewrite E. lia.
Qed.

(** The second shift of [binary_round_aux]: a rounded mantissa that
    reached [2^prec] is brought back to [prec] digits, any other is left
    as it is. *)
Lemma renormalize m e :
  0 <= m <= 2 ^ prec -> emin prec emax <= e ->
  (m <> 0 -> e = emin prec emax \/ 2 ^ (prec - 1) <= m) ->
  exists mrs e',
    shr_fexp prec emax m e loc_Exact = (mrs, e') /\
    0 <= shr_m mrs < 2 ^ prec /\ e <= e' <= e + 1 /\
    (IZR (shr_m mrs) * bpow e' = IZR m * bpow e)%R /\
    (shr_m mrs <> 0 -> fexp prec emax (Zdigits2 (shr_m mrs) + e') = e').
Proof.
  intros [Hm0 Hm] He Hcase. unfold shr_fexp.
  assert (Hpp : 0 < 2 ^ prec) by (apply Z.pow_pos_nonneg; lia).
  destruct (Z.eq_dec m (2 ^ prec)) as [Heq|Hne].
  - destruct (pow2_double prec Hprec) as (p & Hp & Hp2).
    assert (Hd : Zdigits2 m = prec + 1).
    { apply Zdigits2_unique; [|lia].
      replace (prec + 1 - 1) with prec by lia. rewrite Z.pow_add_r by lia. lia. }
    rewrite Hd.
    assert (Hn : fexp prec emax (prec + 1 + e) - e = 1) by (unfold fexp; lia).
    rewrite Hn. rewrite Heq, Hp2. cbn [shr_record_of_loc shr iter_pos shr_1].
    eexists _, _. split; [reflexivity|]. cbn [shr_m orb].
    split; [lia|]. split; [lia|]. split.
    + rewrite bpow_succ, (IZR_xO p). lra.
    + intros _.
      assert (Hd' : Zdigits2 (Z.pos p) = prec).
      { apply Zdigits2_unique; [|lia]. rewrite <- Hp.
        split; [lia|]. apply Z.pow_lt_mono_r; lia. }
      rewrite Hd'. unfold fexp. lia.
  - assert (Hlt : m < 2 ^ prec) by lia.
    pose proof (Zdigits2_le m prec ltac:(lia) ltac:(lia)) as Hd.
    pose proof (Zdigits2_nonneg m) as Hd0.
    assert (Hn : fexp prec emax (Zdigits2 m + e) - e <= 0) by (unfold fexp; lia).
    assert (Hshr : shr (shr_record_of_loc m loc_Exact) e
                     (fexp prec emax (Zdigits2 m + e) - e)
                   = (shr_record_of_loc m loc_Exact, e)).
    { destruct (fexp prec emax (Zdigits2 m + e) - e); try done; lia. }
    rewrite Hshr. eexists _, _. split; [reflexivity|]. cbn [shr_record_of_loc shr_m].
    split; [lia|]. split; [lia|]. split; [done|].
    intros Hm1. destruct (Hcase Hm1) as [->|Hlo].
    + unfold fexp. lia.
    + rewrite (Zdigits2_unique m prec) by lia. unfold fexp. lia.
Qed.

(** [binary_round_aux] on a real [x >= 0] located by [mx], [ex], [lx],
    with at least the digits the format keeps: unless [x] is out of
    range the result is a zero or a canonical finite number of sign
    [sx], whose absolute value differs from [x] by no more than
    [eps * x + eta]. *)
Lemma binary_round_aux_correct sx mx ex lx x :
  0 <= mx -> located x mx ex lx ->
  ex <= fexp prec emax (Zdigits2 mx + ex) ->
  (x < bpow (emax - 1))%R ->
  exists y,
    finite prec emax (binary_round_aux prec emax sx mx ex lx) /\
    value (binary_round_aux prec emax sx mx ex lx)
      = (if sx then - y else y)%R /\
    sign_of (binary_round_aux prec emax sx mx ex lx) = sx /\
    (0 <= y)%R /\ (Rabs (y - x) <= eps prec * x + eta prec emax)%R.
Proof.
  intros Hmx Hx Hn Hrange.
  pose proof (located_bounds _ _ _ _ Hx) as [Hxlo Hxhi].
  pose proof (bpow_pos ex) as Hbex.
  assert (Hx0 : (0 <= x)%R).
  { apply IZR_le in Hmx. nra. }
  set (d := Zdigits2 mx) in *.
  set (e1 := fexp prec emax (d + ex)) in *.
  pose proof (Zdigits2_nonneg mx) as Hd0. fold d in Hd0.
  pose proof (fexp_ge_emin (d + ex)) as He1min. fold e1 in He1min.
  (* the first shift *)
  unfold binary_round_aux, shr_fexp. fold d. fold e1.
  pose proof (shr_located x (shr_record_of_loc mx lx) ex (e1 - ex)
                (located_record _ _ _ _ Hmx Hx)) as [[Hm1 Hloc1] He'].
  destruct (shr (shr_record_of_loc mx lx) ex (e1 - ex)) as [mrs1 e'] eqn:Eshr.
  cbn [fst snd] in Hm1, Hloc1, He'.
  assert (e' = e1) as -> by lia. clear He'.
  set (m1 := shr_m mrs1) in *. set (l1 := loc_of_shr_record mrs1) in *.
  pose proof (located_bounds _ _ _ _ Hloc1) as [Hlo1 Hhi1].
  pose proof (bpow_pos e1) as Hb1.
  (* x is below 2^(d+ex) *)
  assert (Hxd : (x < bpow (d + ex))%R).
  { destruct (Z.eq_dec mx 0) as [Hz|Hnz].
    - subst mx. unfold d. simpl Zdigits2. rewrite Z.add_0_l. lra.
    - pose proof (value_bounds mx ex ltac:(lia)) as [_ Hv].
      pose proof (Zdigits2_bounds mx ltac:(lia)) as [_ Hhi]. fold d in Hhi, Hv.
      assert (Hle : (IZR mx + 1 <= IZR (2 ^ d))%R)
        by (rewrite <- plus_IZR; apply IZR_le; lia).
      rewrite bpow_add, (bpow_IZR d) by lia. nra. }
  assert (Hm1hi : m1 < 2 ^ prec).
  { replace prec with (e1 + prec - e1) at 1 by lia.
    apply (mantissa_lt m1 e1 (e1 + prec)); [lia|].
    pose proof (bpow_le (d + ex) (e1 + prec) ltac:(unfold e1, fexp; lia)). lra. }
  (* the normal case *)
  assert (Hnormal : emin prec emax < e1 ->
            (bpow (e1 + prec - 1) <= x)%R /\ 2 ^ (prec - 1) <= m1).
  { intros Hgt.
    assert (He1 : e1 = d + ex - prec) by (unfold e1, fexp in *; lia).
    assert (Hnz : 0 < mx).
    { destruct (Z.eq_dec mx 0) as [Hz|Hnz]; [|lia].
      subst mx. unfold d in *. simpl in He1. unfold e1, fexp in Hn. simpl in Hn. lia. }
    pose proof (value_bounds mx ex Hnz) as [Hv _]. fold d in Hv.
    replace (d - 1 + ex) with (e1 + prec - 1) in Hv by lia.
    split; [lra|].
    replace (prec - 1) with (e1 + prec - 1 - e1) by lia.
    apply mantissa_ge; [lia|]. lra. }
  (* rounding *)
  destruct (round_nearest_even_spec _ _ _ _ Hloc1) as [Hm2 Herr].
  set (m2 := round_nearest_even m1 l1) in *.
  (* the second shift *)
  destruct (renormalize m2 e1) as (mrs2 & e2 & Hshr2 & Hmf & He2 & Hval & Hcan);
    [lia|done| |].
  { intros _. destruct (Z_le_gt_dec e1 (emin prec emax)) as [|Hgt]; [left; lia|].
    right. destruct (Hnormal ltac:(lia)) as [_ ?]. lia. }
  unfold shr_fexp in Hshr2. rewrite Hshr2.
  set (mf := shr_m mrs2) in *.
  exists (IZR m2 * bpow e1)%R.
  assert (Hy0 : (0 <= IZR m2 * bpow e1)%R).
  { assert (0 <= IZR m2)%R by (apply IZR_le; lia). nra. }
  assert (Hbound : (Rabs (IZR m2 * bpow e1 - x) <= eps prec * x + eta prec emax)%R).
  { pose proof eps_pos. pose proof eta_pos.
    destruct (Z_le_gt_dec e1 (emin prec emax)) as [Hsub|Hgt].
    - assert (e1 = emin prec emax) as Heq by lia.
      unfold eta. rewrite <- Heq, bpow_pred. nra.
    - destruct (Hnormal ltac:(lia)) as [Hxn _].
      assert (Hhalf : (bpow e1 / 2 = eps prec * bpow (e1 + prec - 1))%R).
      { unfold eps. rewrite <- bpow_add, <- bpow_pred. f_equal. lia. }
      rewrite Hhalf in Herr. nra. }
  assert (Hexp : mf <> 0 -> e2 <= emax - prec).
  { intros _. destruct (Z_le_gt_dec e1 (emin prec emax)) as [Hsub|Hgt].
    - unfold emin in *. lia.
    - destruct (Hnormal ltac:(lia)) as [Hxn _].
      assert (Hlt : e1 + prec - 1 < emax - 1) by (apply bpow_lt_inv; lra). lia. }
  destruct mf as [|pf|pf] eqn:Emf; [| |lia].
  - (* the result is a zero *)
    assert (Hz : (IZR m2 * bpow e1 = 0)%R) by (rewrite <- Hval; lra).
    split; [done|]. split; [simpl; rewrite Hz; destruct sx; lra|].
    split; [done|]. split; [done|]. done.
  - rewrite (proj2 (Z.leb_le e2 (emax - prec))) by (apply Hexp; lia).
    split.
    { simpl. unfold bounded, canonical_mantissa.
      rewrite (proj2 (Z.leb_le e2 (emax - prec))) by (apply Hexp; lia).
      rewrite andb_true_r. apply Z.eqb_eq.
      apply (Hcan ltac:(lia)). }
    split; [simpl; rewrite Hval; done|].
    split; [done|]. split; done.
Qed.
End Format.

(** ** Rounding a number given by an integer and an exponent *)

Lemma iter_xO_spec (m d : positive) :
  Z.pos (Pos.iter xO m d) = Z.pos m * 2 ^ Z.pos d /\
  Z.pos (digits2_pos (Pos.iter xO m d)) = Z.pos (digits2_pos m) + Z.pos d.
Proof.
  induction d as [|d [IH1 IH2]] using Pos.peano_ind.
  - simpl. split; lia.
  - rewrite Pos.iter_succ. cbn [digits2_pos].
    rewrite Pos2Z.inj_xO, IH1, !Pos2Z.inj_succ, IH2.
    rewrite Z.pow_succ_r by lia. split; lia.
Qed.

Lemma shl_align_spec (mx : positive) (ex ex' : Z) :
  (IZR (Z.pos (shl_align mx ex ex').1) * bpow (shl_align mx ex ex').2
   = IZR (Z.pos mx) * bpow ex)%R /\
  (shl_align mx ex ex').2 = Z.min ex ex' /\
  Z.pos (digits2_pos (shl_align mx ex ex').1) + (shl_align mx ex ex').2
  = Z.pos (digits2_pos mx) + ex.
Proof.
  unfold shl_align. destruct (ex' - ex) as [|d|d] eqn:E; cbn [fst snd].
  - split; [done|]. split; lia.
  - split; [done|]. split; lia.
  - destruct (iter_xO_spec mx d) as [Hv Hd]. rewrite Hv, Hd.
    split; [|split; lia].
    rewrite mult_IZR, <- bpow_IZR by lia.
    replace ex with (Z.pos d + ex') by lia. rewrite bpow_add. lra.
Qed.

Section Format2.
Variables prec emax : Z.
Hypothesis Hprec : 0 < prec.
Hypothesis Hemax : prec < emax.

Lemma binary_round_correct sx (mx : positive) ex :
  (IZR (Z.pos mx) * bpow ex < bpow (emax - 1))%R ->
  exists y,
    finite prec emax (binary_round prec emax sx mx ex) /\
    value (binary_round prec emax sx mx ex) = (if sx then - y else y)%R /\
    sign_of (binary_round prec emax sx mx ex) = sx /\
    (0 <= y)%R /\
    (Rabs (y - IZR (Z.pos mx) * bpow ex)
     <= eps prec * (IZR (Z.pos mx) * bpow ex) + eta prec emax)%R.
Proof.
  intros Hrange. unfold binary_round.
  destruct (shl_align_spec mx ex (fexp prec emax (Z.pos (digits2_pos mx) + ex)))
    as (Hv & He & Hd).
  destruct (shl_align mx ex (fexp prec emax (Z.pos (digits2_pos mx) + ex)))
    as [mz ez]. cbn [fst snd] in *.
  rewrite <- Hv in *.
  apply (binary_round_aux_correct prec emax Hprec Hemax sx (Z.pos mz) ez
           loc_Exact); [lia|done| |done].
  cbn [Zdigits2]. rewrite Hd. lia.
Qed.

(** The value of [m * 2^e], rounded: [binary_normalize]. *)
Lemma binary_normalize_correct m e szero :
  (Rabs (IZR m * bpow e) < bpow (emax - 1))%R ->
  rounded prec emax (IZR m * bpow e) (binary_normalize prec emax m e szero).
Proof.
  intros Hrange. pose proof (bpow_pos e) as Hb.
  pose proof (eta_pos prec emax) as Heta. unfold rounded.
  destruct m as [|p|p]; cbn [binary_normalize].
  - split; [done|]. simpl value. rewrite Rmult_0_l, Rminus_0_r, Rabs_R0.
    repeat split; nra.
  - assert (Hpos : (0 < IZR (Z.pos p) * bpow e)%R).
    { assert (0 < IZR (Z.pos p))%R by (apply IZR_lt; lia). nra. }
    set (V := (IZR (Z.pos p) * bpow e)%R) in *.
    rewrite Rabs_pos_eq in Hrange by lra.
    destruct (binary_round_correct false p e Hrange)
      as (y & Hf & Hv & _ & Hy & Herr). fold V in Herr.
    split; [done|]. rewrite Hv. rewrite (Rabs_pos_eq V) by lra.
    split; [done|]. split; lra.
  - assert (Hpos : (0 < IZR (Z.pos p) * bpow e)%R).
    { assert (0 < IZR (Z.pos p))%R by (apply IZR_lt; lia). nra. }
    assert (Hneg : (IZR (Z.neg p) * bpow e = - (IZR (Z.pos p) * bpow e))%R).
    { replace (Z.neg p) with (- Z.pos p) by lia. rewrite opp_IZR. lra. }
    rewrite Hneg in *.
    set (V := (IZR (Z.pos p) * bpow e)%R) in *.
    rewrite Rabs_Ropp in *. rewrite Rabs_pos_eq in Hrange by lra.
    destruct (binary_round_correct true p e Hrange)
      as (y & Hf & Hv & _ & Hy & Herr). fold V in Herr.
    split; [done|]. rewrite Hv. rewrite (Rabs_pos_eq V) by lra.
    split; [|split; lra].
    replace (- y - - V)%R with (- (y - V))%R by lra.
    by rewrite Rabs_Ropp.
Qed.

(** A number of the format, rounded to it or to a wider one, is
    itself. *)
Lemma rounded_exact r z :
  finite prec emax z -> value z = r -> rounded prec emax r z.
Proof.
  intros Hf <-. pose proof (eps_pos prec). pose proof (eta_pos prec emax).
  pose proof (Rabs_pos (value z)).
  split; [done|]. rewrite Rminus_diag, Rabs_R0. repeat split; nra.
Qed.

(** *** Canonical numbers *)

Lemma bounded_spec (m : positive) e :
  bounded prec emax m e = true ->
  fexp prec emax (Z.pos (digits2_pos m) + e) = e /\ e <= emax - prec.
Proof.
  unfold bounded, canonical_mantissa.
  intros [H1 H2]%andb_prop. apply Z.eqb_eq in H1. apply Z.leb_le in H2. done.
Qed.

Lemma value_finite s (m : positive) e :
  value (S754_finite s m e)
  = (if s then - (IZR (Z.pos m) * bpow e) else IZR (Z.pos m) * bpow e)%R.
Proof. done. Qed.

Lemma value_cond s (m : positive) e :
  value (S754_finite s m e) = (IZR (cond_Zopp s (Z.pos m)) * bpow e)%R.
Proof.
  destruct s; simpl; [|done].
  replace (Z.neg m) with (- Z.pos m) by lia. rewrite opp_IZR. lra.
Qed.

(** A canonical number is below [2^emax]. *)
Lemma finite_range z :
  finite prec emax z -> (Rabs (value z) < bpow emax)%R.
Proof.
  pose proof (bpow_pos emax).
  destruct z as [s|s| |s m e]; simpl finite; try done;
    [intros _; simpl; rewrite Rabs_R0; lra|].
  intros [Hc He]%bounded_spec.
  pose proof (value_bounds (Z.pos m) e ltac:(lia)) as [Hlo Hhi].
  cbn [Zdigits2] in Hlo, Hhi.
  pose proof (bpow_le (Z.pos (digits2_pos m) + e) emax
                ltac:(unfold fexp in Hc; lia)).
  pose proof (bpow_pos (Z.pos (digits2_pos m) - 1 + e)).
  rewrite value_finite. destruct s; rewrite ?Rabs_Ropp; rewrite Rabs_pos_eq; lra.
Qed.

(** *** Addition *)

Lemma SFadd_correct x y :
  finite prec emax x -> finite prec emax y ->
  (Rabs (value x + value y) < bpow (emax - 1))%R ->
  rounded prec emax (value x + value y) (SFadd prec emax x y).
Proof.
  intros Hx Hy Hrange.
  destruct x as [sx|sx| |sx mx ex], y as [sy|sy| |sy my ey]; try done.
  - apply rounded_exact; [by destruct sx, sy|]. destruct sx, sy; simpl; lra.
  - apply rounded_exact; [done|]. simpl. lra.
  - apply rounded_exact; [done|]. simpl. lra.
  - cbn [SFadd].
    set (ez := Z.min ex ey).
    destruct (shl_align_spec mx ex ez) as (Hv1 & He1 & _).
    destruct (shl_align_spec my ey ez) as (Hv2 & He2 & _).
    replace (Z.min ex ez) with ez in He1 by lia.
    replace (Z.min ey ez) with ez in He2 by lia.
    rewrite He1 in Hv1. rewrite He2 in Hv2.
    set (ax := (shl_align mx ex ez).1) in *.
    set (ay := (shl_align my ey ez).1) in *.
    assert (Hsum : (value (S754_finite sx mx ex) + value (S754_finite sy my ey)
                    = IZR (cond_Zopp sx (Z.pos ax) + cond_Zopp sy (Z.pos ay))
                      * bpow ez)%R).
    { rewrite plus_IZR, !value_finite.
      destruct sx, sy; cbn [cond_Zopp];
        rewrite ?(opp_IZR (Z.pos _)); try lra;
        replace (IZR (Z.neg ax)) with (- IZR (Z.pos ax))%R
          by (by rewrite <- opp_IZR);
        try replace (IZR (Z.neg ay)) with (- IZR (Z.pos ay))%R
          by (by rewrite <- opp_IZR); lra. }
    rewrite Hsum in *. by apply binary_normalize_correct.
Qed.

(** *** Multiplication *)

Lemma Zdigits2_mul (a b : positive) :
  Z.pos (digits2_pos a) + Z.pos (digits2_pos b) - 1
  <= Z.pos (digits2_pos (a * b)).
Proof.
  pose proof (digits2_pos_bounds a) as [Ha _].
  pose proof (digits2_pos_bounds b) as [Hb _].
  pose proof (digits2_pos_bounds (a * b)) as [_ Hab].
  destruct (Z_le_gt_dec (Z.pos (digits2_pos a) + Z.pos (digits2_pos b) - 1)
              (Z.pos (digits2_pos (a * b)))) as [|Hgt]; [done|].
  assert (H1 : 2 ^ Z.pos (digits2_pos (a * b))
               <= 2 ^ (Z.pos (digits2_pos a) - 1 + (Z.pos (digits2_pos b) - 1)))
    by (apply Z.pow_le_mono_r; lia).
  rewrite Z.pow_add_r in H1 by lia.
  rewrite Pos2Z.inj_mul in Hab. nia.
Qed.

Lemma SFmul_correct x y :
  finite prec emax x -> finite prec emax y ->
  (Rabs (value x * value y) < bpow (emax - 1))%R ->
  rounded prec emax (value x * value y) (SFmul prec emax x y).
Proof.
  intros Hx Hy Hrange.
  destruct x as [sx|sx| |sx mx ex], y as [sy|sy| |sy my ey]; try done;
    try (apply rounded_exact; [done|]; simpl; lra).
  cbn [SFmul]. simpl finite in Hx, Hy.
  apply bounded_spec in Hx as [Hcx Hex]. apply bounded_spec in Hy as [Hcy Hey].
  pose proof (bpow_pos ex). pose proof (bpow_pos ey).
  assert (Hpx : (0 < IZR (Z.pos mx))%R) by (apply IZR_lt; lia).
  assert (Hpy : (0 < IZR (Z.pos my))%R) by (apply IZR_lt; lia).
  set (P := (IZR (Z.pos (mx * my)) * bpow (ex + ey))%R).
  assert (HP : P = (IZR (Z.pos mx) * bpow ex * (IZR (Z.pos my) * bpow ey))%R).
  { unfold P. rewrite Pos2Z.inj_mul, mult_IZR, bpow_add. lra. }
  assert (HP0 : (0 < P)%R).
  { rewrite HP. repeat apply Rmult_lt_0_compat; done. }
  assert (Hprod : (value (S754_finite sx mx ex) * value (S754_finite sy my ey)
                   = if xorb sx sy then - P else P)%R).
  { rewrite !value_finite, HP. destruct sx, sy; simpl; ring. }
  assert (Habs : Rabs (value (S754_finite sx mx ex) * value (S754_finite sy my ey))
                 = P).
  { rewrite Hprod. destruct (xorb sx sy); rewrite ?Rabs_Ropp;
      apply Rabs_pos_eq; lra. }
  rewrite Habs in Hrange.
  destruct (binary_round_aux_correct prec emax Hprec Hemax (xorb sx sy)
              (Z.pos (mx * my)) (ex + ey) loc_Exact P)
    as (v & Hf & Hv & _ & Hv0 & Herr); [lia|done| |done|].
  { pose proof (Zdigits2_mul mx my). cbn [Zdigits2].
    unfold fexp, emin in *. lia. }
  pose proof (eps_pos prec). pose proof (eta_pos prec emax).
  split; [done|]. rewrite Habs, Hv, Hprod.
  destruct (xorb sx sy).
  - replace (- v - - P)%R with (- (v - P))%R by lra. rewrite Rabs_Ropp.
    split; [done|]. split; lra.
  - split; [done|]. split; lra.
Qed.
End Format2.

Section Format3.
Variables prec emax : Z.
Hypothesis Hprec : 0 < prec.
Hypothesis Hemax : prec < emax.

(** *** Division *)

Lemma new_location_spec (q m2 r e : Z) :
  0 < m2 -> 0 <= r < m2 ->
  located ((IZR q + IZR r / IZR m2) * bpow e) q e (new_location m2 r).
Proof.
  intros Hm2 Hr. pose proof (bpow_pos e) as Hb.
  assert (Hm2' : (0 < IZR m2)%R) by (by apply IZR_lt).
  assert (Hr0 : (0 <= IZR r)%R) by (apply IZR_le; lia).
  assert (Hrm : (IZR r < IZR m2)%R) by (apply IZR_lt; lia).
  set (f := (IZR r / IZR m2)%R).
  assert (Hf : (f * IZR m2 = IZR r)%R) by (unfold f; field; lra).
  unfold new_location.
  assert (Hsame : forall b : bool,
    (if b then new_location_even m2 else new_location_odd m2) r
    = if b then new_location_even m2 r else new_location_odd m2 r)
    by (by intros []).
  rewrite Hsame. clear Hsame.
  unfold new_location_even, new_location_odd.
  destruct (Z.eqb_spec r 0) as [Hr0'|Hne].
  { assert (f = 0%R) as ->.
    { unfold f. rewrite Hr0'. field. lra. }
    destruct (Z.even m2); unfold located; ring. }
  assert (Hrpos : (0 < IZR r)%R) by (apply IZR_lt; lia).
  assert (Hf0 : (0 < f)%R) by (unfold f; apply Rdiv_lt_0_compat; lra).
  assert (Hf1 : (f < 1)%R) by nra.
  destruct (Z.even m2) eqn:Ev.
  - destruct (Z.compare_spec (2 * r) m2) as [Heq|Hlt|Hgt]; unfold located.
    + assert (f = / 2)%R as ->; [|lra].
      apply IZR_eq in Heq. rewrite mult_IZR in Heq. nra.
    + apply IZR_lt in Hlt. rewrite mult_IZR in Hlt.
      assert (f < / 2)%R by nra. nra.
    + apply IZR_lt in Hgt. rewrite mult_IZR in Hgt.
      assert (/ 2 < f)%R by nra. nra.
  - assert (Hodd : 2 * r <> m2).
    { intros <-. rewrite Z.even_mul in Ev. done. }
    destruct (Z.compare_spec (2 * r + 1) m2) as [Heq|Hlt|Hgt]; unfold located.
    + assert (Hlt : (2 * IZR r < IZR m2)%R)
        by (rewrite <- mult_IZR; apply IZR_lt; lia).
      assert (f < / 2)%R by nra. nra.
    + assert (Hlt' : (2 * IZR r < IZR m2)%R)
        by (rewrite <- mult_IZR; apply IZR_lt; lia).
      assert (f < / 2)%R by nra. nra.
    + assert (Hgt' : (IZR m2 < 2 * IZR r)%R)
        by (rewrite <- mult_IZR; apply IZR_lt; lia).
      assert (/ 2 < f)%R by nra. nra.
Qed.

(** A mantissa that starts a slice holding a number above [2^k] has at
    least so many digits that it reaches [k]. *)
Lemma digits_reach q e k x :
  0 <= q -> (x < (IZR q + 1) * bpow e)%R -> (bpow k < x)%R ->
  k + 1 <= Zdigits2 q + e.
Proof.
  intros Hq Hx Hk. pose proof (bpow_pos e) as Hb.
  pose proof (Zdigits2_nonneg q) as Hd.
  assert (Hq1 : q + 1 <= 2 ^ Zdigits2 q).
  { destruct (Z.eq_dec q 0) as [->|Hne]; [simpl; lia|].
    pose proof (Zdigits2_bounds q ltac:(lia)). lia. }
  apply IZR_le in Hq1. rewrite plus_IZR, <- bpow_IZR in Hq1 by done.
  assert (Hlt : (bpow k < bpow (Zdigits2 q + e))%R).
  { rewrite bpow_add. nra. }
  apply bpow_lt_inv in Hlt. lia.
Qed.

Lemma SFdiv_correct x y :
  finite prec emax x -> finite prec emax y -> value y <> 0%R ->
  (Rabs (value x / value y) < bpow (emax - 1))%R ->
  rounded prec emax (value x / value y) (SFdiv prec emax x y).
Proof.
  intros Hx Hy Hy0 Hrange.
  destruct y as [sy|sy| |sy my ey]; try done; try (by simpl in Hy0).
  destruct x as [sx|sx| |sx mx ex]; try done.
  { apply rounded_exact; [done|].
    change (value (S754_zero sx)) with 0%R. unfold Rdiv. by rewrite Rmult_0_l. }
  cbn [SFdiv].
  pose proof (bpow_pos ex) as Hbx. pose proof (bpow_pos ey) as Hby.
  assert (Hpx : (0 < IZR (Z.pos mx))%R) by (apply IZR_lt; lia).
  assert (Hpy : (0 < IZR (Z.pos my))%R) by (apply IZR_lt; lia).
  set (A := (IZR (Z.pos mx) * bpow ex)%R).
  set (B := (IZR (Z.pos my) * bpow ey)%R).
  assert (HA : (0 < A)%R) by (unfold A; nra).
  assert (HB : (0 < B)%R) by (unfold B; nra).
  assert (HAB : (0 < A / B)%R) by (by apply Rdiv_lt_0_compat).
  assert (Hquot : (value (S754_finite sx mx ex) / value (S754_finite sy my ey)
                   = if xorb sx sy then - (A / B) else A / B)%R).
  { rewrite !value_finite. fold A B. destruct sx, sy; simpl; field; lra. }
  assert (Habs : Rabs (value (S754_finite sx mx ex) / value (S754_finite sy my ey))
                 = (A / B)%R).
  { rewrite Hquot. destruct (xorb sx sy); rewrite ?Rabs_Ropp;
      apply Rabs_pos_eq; lra. }
  rewrite Habs in Hrange.
  (* the core *)
  unfold SFdiv_core_binary. cbn [Zdigits2].
  set (d1 := Z.pos (digits2_pos mx)). set (d2 := Z.pos (digits2_pos my)).
  set (D := d1 + ex - (d2 + ey)).
  set (e' := Z.min (fexp prec emax D) (ex - ey)).
  set (s := ex - ey - e').
  assert (Hs : 0 <= s) by (unfold s, e'; lia).
  set (m' := match s with
             | 0 => Z.pos mx
             | Z.pos _ => Z.shiftl (Z.pos mx) s
             | Z.neg _ => 0
             end).
  assert (Hm' : m' = Z.pos mx * 2 ^ s).
  { unfold m'. destruct s as [|p|p] eqn:Es; [lia| |lia].
    by rewrite Z.shiftl_mul_pow2. }
  pose proof (Z_div_mod m' (Z.pos my) ltac:(lia)) as Hdiv.
  destruct (Z.div_eucl m' (Z.pos my)) as [q r]. destruct Hdiv as [Hqr Hr].
  assert (Hq : 0 <= q).
  { assert (0 <= m') by (rewrite Hm'; pose proof (Z.pow_nonneg 2 s); lia). nia. }
  assert (Hval : (A / B = (IZR q + IZR r / IZR (Z.pos my)) * bpow e')%R).
  { assert (Hm'R : (IZR m' = IZR (Z.pos mx) * bpow s)%R)
      by (rewrite Hm', mult_IZR, <- bpow_IZR; done).
    assert (HqrR : (IZR m' = IZR (Z.pos my) * IZR q + IZR r)%R)
      by (rewrite Hqr, plus_IZR, mult_IZR; done).
    assert (Hex : (bpow ex = bpow s * bpow e' * bpow ey)%R).
    { rewrite <- !bpow_add. f_equal. unfold s. lia. }
    unfold A, B. rewrite Hex. pose proof (bpow_pos e'). 
    field_simplify_eq; [|split; lra]. 
    replace (IZR (Z.pos mx) * bpow s)%R with (IZR m') by done.
    rewrite HqrR. ring. }
  pose proof (new_location_spec q (Z.pos my) r e' ltac:(lia) Hr) as Hloc.
  rewrite <- Hval in Hloc.
  destruct (binary_round_aux_correct prec emax Hprec Hemax (xorb sx sy)
              q e' (new_location (Z.pos my) r) (A / B)%R)
    as (v & Hf & Hv & _ & Hv0 & Herr); [done|done| |done|].
  { (* enough digits *)
    pose proof (located_bounds _ _ _ _ Hloc) as [_ Hhi].
    assert (Hlow : (bpow (D - 1) < A / B)%R).
    { pose proof (value_bounds (Z.pos mx) ex ltac:(lia)) as [HAlo _].
      pose proof (value_bounds (Z.pos my) ey ltac:(lia)) as [_ HBhi].
      cbn [Zdigits2] in HAlo, HBhi. fold d1 in HAlo. fold d2 in HBhi.
      fold A in HAlo. fold B in HBhi.
      pose proof (bpow_pos (D - 1)). pose proof (bpow_pos (d2 + ey)).
      assert (Hsplit : (bpow (d1 - 1 + ex) = bpow (D - 1) * bpow (d2 + ey))%R).
      { rewrite <- bpow_add. f_equal. unfold D. lia. }
      apply Rmult_lt_reg_r with B; [done|].
      replace (A / B * B)%R with A by (field; lra). nra. }
    pose proof (digits_reach q e' (D - 1) _ Hq Hhi Hlow).
    pose proof (fexp_mono prec emax D (Zdigits2 q + e') ltac:(lia)).
    unfold e' in *. lia. }
  pose proof (eps_pos prec). pose proof (eta_pos prec emax).
  split; [done|]. rewrite Habs, Hv, Hquot.
  destruct (xorb sx sy).
  - replace (- v - - (A / B))%R with (- (v - A / B))%R by lra. rewrite Rabs_Ropp.
    split; [done|]. split; lra.
  - split; [done|]. split; lra.
Qed.
End Format3.

Section Format4.
Variables prec emax : Z.
Hypothesis Hprec : 0 < prec.
Hypothesis Hemax : prec < emax.

(** *** Square root *)

Lemma SFsqrt_correct x :
  finite prec emax x -> (0 <= value x)%R ->
  (sqrt (value x) < bpow (emax - 1))%R ->
  rounded prec emax (sqrt (value x)) (SFsqrt prec emax x).
Proof.
  intros Hx Hx0 Hrange.
  destruct x as [sx|sx| |sx mx ex]; try done.
  { apply rounded_exact; [done|].
    change (value (S754_zero sx)) with 0%R. by rewrite sqrt_0. }
  pose proof (bpow_pos ex) as Hbx.
  assert (Hpx : (0 < IZR (Z.pos mx))%R) by (apply IZR_lt; lia).
  destruct sx.
  { rewrite value_finite in Hx0. nra. }
  rewrite value_finite in Hrange |- *.
  cbn [SFsqrt]. unfold SFsqrt_core_binary. cbn [Zdigits2].
  set (d := Z.pos (digits2_pos mx)).
  set (e' := Z.min (fexp prec emax (Z.div2 (d + ex + 1))) (Z.div2 ex)).
  set (s := ex - 2 * e').
  assert (Hs : 0 <= s).
  { unfold s, e'. rewrite !Z.div2_div.
    pose proof (Z.mul_div_le ex 2 ltac:(lia)). lia. }
  set (m' := match s with
             | 0 => Z.pos mx
             | Z.pos _ => Z.shiftl (Z.pos mx) s
             | Z.neg _ => 0
             end).
  assert (Hm' : m' = Z.pos mx * 2 ^ s).
  { unfold m'. destruct s as [|p|p] eqn:Es; [lia| |lia].
    by rewrite Z.shiftl_mul_pow2. }
  assert (Hm'0 : 0 < m').
  { rewrite Hm'. pose proof (Z.pow_pos_nonneg 2 s). lia. }
  pose proof (Z.sqrtrem_spec m' ltac:(lia)) as Hsq.
  destruct (Z.sqrtrem m') as [q r]. destruct Hsq as [Hqr Hr].
  assert (Hq : 0 <= q) by lia.
  set (t := sqrt (IZR m')).
  assert (Ht0 : (0 <= t)%R) by apply sqrt_pos.
  assert (Htt : (t * t = IZR q * IZR q + IZR r)%R).
  { unfold t. rewrite sqrt_sqrt by (apply IZR_le; lia).
    by rewrite Hqr, plus_IZR, mult_IZR. }
  assert (Hq0 : (0 <= IZR q)%R) by (apply IZR_le; lia).
  assert (Hr0 : (0 <= IZR r)%R) by (apply IZR_le; lia).
  assert (Hr2 : (IZR r <= 2 * IZR q)%R)
    by (rewrite <- mult_IZR; apply IZR_le; lia).
  pose proof (bpow_pos e') as Hbe.
  assert (Hval : sqrt (IZR (Z.pos mx) * bpow ex) = (t * bpow e')%R).
  { assert (Hex : (bpow ex = bpow s * (bpow e' * bpow e'))%R).
    { rewrite <- !bpow_add. f_equal. unfold s. lia. }
    rewrite Hex, <- Rmult_assoc.
    replace (IZR (Z.pos mx) * bpow s)%R with (IZR m')
      by (by rewrite Hm', mult_IZR, <- bpow_IZR).
    rewrite sqrt_mult; [|apply IZR_le; lia|nra].
    rewrite sqrt_square by lra. done. }
  rewrite Hval in Hrange |- *.
  set (l := if r =? 0 then loc_Exact
            else loc_Inexact (if r <=? q then Lt else Gt)).
  assert (Hloc : located (t * bpow e') q e' l).
  { unfold l. destruct (Z.eqb_spec r 0) as [Hr0'|Hne].
    - unfold located. f_equal. rewrite Hr0' in Htt. nra.
    - assert (Hrpos : (1 <= IZR r)%R) by (apply IZR_le; lia).
      destruct (Z.leb_spec r q) as [Hle|Hgt]; unfold located.
      + apply IZR_le in Hle.
        assert (IZR q < t)%R by nra.
        assert (t < IZR q + / 2)%R by nra. nra.
      + assert (Hgt' : (IZR q + 1 <= IZR r)%R)
          by (rewrite <- plus_IZR; apply IZR_le; lia).
        assert (IZR q + / 2 < t)%R by nra.
        assert (t < IZR q + 1)%R by nra. nra. }
  destruct (binary_round_aux_correct prec emax Hprec Hemax false
              q e' l (t * bpow e')%R)
    as (v & Hf & Hv & _ & Hv0 & Herr); [done|done| |done|].
  { pose proof (located_bounds _ _ _ _ Hloc) as [_ Hhi].
    assert (Hlow : (bpow (d - 1 + s) <= t * t)%R).
    { pose proof (value_bounds (Z.pos mx) s ltac:(lia)) as [Hlo _].
      cbn [Zdigits2] in Hlo. fold d in Hlo.
      replace (IZR (Z.pos mx) * bpow s)%R with (IZR m') in Hlo
        by (by rewrite Hm', mult_IZR, <- bpow_IZR).
      unfold t. rewrite sqrt_sqrt by (apply IZR_le; lia). done. }
    pose proof (Zdigits2_nonneg q) as Hdq.
    assert (Hq1 : q + 1 <= 2 ^ Zdigits2 q).
    { destruct (Z.eq_dec q 0) as [->|Hne]; [simpl; lia|].
      pose proof (Zdigits2_bounds q ltac:(lia)). lia. }
    apply IZR_le in Hq1. rewrite plus_IZR, <- bpow_IZR in Hq1 by done.
    assert (Htq : (t < bpow (Zdigits2 q))%R) by nra.
    assert (Hlt : (bpow (d - 1 + s) < bpow (Zdigits2 q + Zdigits2 q))%R).
    { rewrite (bpow_add (Zdigits2 q)).
      pose proof (bpow_pos (Zdigits2 q)). nra. }
    apply bpow_lt_inv in Hlt.
    assert (Hhalf : Z.div2 (d + ex + 1) <= Zdigits2 q + e').
    { rewrite Z.div2_div. unfold s in Hlt.
      assert ((d + ex + 1) / 2 < Zdigits2 q + e' + 1); [|lia].
      apply Z.div_lt_upper_bound; lia. }
    pose proof (fexp_mono prec emax _ _ Hhalf).
    unfold e' in *. lia. }
  cbn [negb] in Hv. simpl in Hv.
  pose proof (eps_pos prec). pose proof (eta_pos prec emax).
  assert (0 < t * bpow e')%R.
  { assert (0 < IZR m')%R by (by apply IZR_lt).
    assert (0 < t)%R by (apply sqrt_lt_R0; done).
    by apply Rmult_lt_0_compat. }
  split; [done|]. rewrite Hv, (Rabs_pos_eq (t * bpow e')) by lra.
  split; [done|]. split; lra.
Qed.

(** *** Order *)

Lemma SFltb_zero_pos z :
  finite prec emax z -> (0 < value z)%R -> SFltb (S754_zero false) z = true.
Proof.
  intros Hz Hpos. destruct z as [sz|sz| |sz mz ez]; try done.
  - simpl in Hpos. lra.
  - destruct sz; [|done]. rewrite value_finite in Hpos.
    pose proof (bpow_pos ez).
    assert (0 < IZR (Z.pos mz))%R by (apply IZR_lt; lia). nra.
Qed.
End Format4.
End RoundingFacts.

(** ** The length of a normalised vector *)

Module ToleranceFacts.
Import Floats.SpecFloat B32 Rounding RoundingFacts Tolerance.
Local Open Scope R_scope.

(** *** The constants of binary32 and binary64 *)

Lemma eps32 : eps 24 = / 16777216.
Proof. unfold eps, bpow. simpl. lra. Qed.

Lemma eta32 : 0 < eta 24 128 <= / 1427247692705959881058285969449495136382746624.
Proof. unfold eta, emin, bpow. simpl. lra. Qed.

Lemma eps64 : eps 53 = / 9007199254740992.
Proof. unfold eps, bpow. simpl. lra. Qed.

Lemma eta64 : 0 < eta 53 1024 <= / 1427247692705959881058285969449495136382746624.
Proof.
  split; [apply eta_pos|].
  apply Rle_trans with (bpow (-150)); [apply bpow_le; unfold emin; lia|].
  unfold bpow. simpl. lra.
Qed.

Lemma bpow_60 : bpow 60 = 1152921504606846976.
Proof. unfold bpow. simpl. lra. Qed.

Lemma bpow_m60 : bpow (-60) = / 1152921504606846976.
Proof. unfold bpow. simpl. lra. Qed.

Lemma bpow_127 : bpow 127 = 170141183460469231731687303715884105728.
Proof. unfold bpow. simpl. lra. Qed.

Lemma bpow_128 : bpow 128 = 340282366920938463463374607431768211456.
Proof. unfold bpow. simpl. lra. Qed.

Lemma bpow_1023_ge : bpow 128 <= bpow (1024 - 1).
Proof. apply bpow_le. lia. Qed.

Lemma bpow_m19 : bpow (-19) = / 524288.
Proof. unfold bpow. simpl. lra. Qed.

(** *** One rounding, as an interval *)

Lemma rounded_interval prec emax r z :
  rounded prec emax r z -> 0 <= r ->
  0 <= value z /\ value z <= r + (eps prec * r + eta prec emax) /\
  r - (eps prec * r + eta prec emax) <= value z.
Proof.
  intros (_ & Herr & Hpos & _) Hr. rewrite (Rabs_pos_eq r) in Herr by done.
  specialize (Hpos Hr). revert Herr.
  unfold Rabs at 1. destruct (Rcase_abs _); lra.
Qed.

Lemma Rabs_sq x : Rabs x * Rabs x = x * x.
Proof. unfold Rabs. destruct (Rcase_abs x); ring. Qed.

(** The square root kept between two multiples of the length. *)
Lemma sqrt_between L S lo hi t :
  0 <= L -> L * L = S -> 0 <= lo <= 1 -> 1 <= hi ->
  lo * S <= t <= hi * S -> lo * L <= sqrt t <= hi * L.
Proof.
  intros HL HS Hlo Hhi Ht.
  assert (HS0 : 0 <= S) by nra.
  split.
  - rewrite <- (sqrt_square (lo * L)) by nra.
    apply sqrt_le_1; [nra|nra|].
    replace (lo * L * (lo * L)) with (lo * lo * S) by (rewrite <- HS; ring).
    assert (lo * lo * S <= lo * S); [|lra].
    apply Rmult_le_compat_r; [done|nra].
  - rewrite <- (sqrt_square (hi * L)) by nra.
    apply sqrt_le_1; [nra|nra|].
    replace (hi * L * (hi * L)) with (hi * hi * S) by (rewrite <- HS; ring).
    assert (hi * S <= hi * hi * S); [|lra].
    apply Rmult_le_compat_r; [done|nra].
Qed.

(** The square of a rounded quotient. *)
Lemma square_error E h u q :
  0 <= E <= 1 -> 0 <= h <= 1 -> Rabs q <= 2 ->
  Rabs (u - q) <= E * Rabs q + h ->
  Rabs (u * u - q * q) <= 3 * E * (q * q) + 9 * h.
Proof.
  intros HE Hh Hq Herr.
  set (x := Rabs q) in *. set (d := Rabs (u - q)) in *.
  assert (Hx : 0 <= x) by apply Rabs_pos.
  assert (Hd : 0 <= d) by apply Rabs_pos.
  assert (Hxx : x * x = q * q) by apply Rabs_sq.
  replace (u * u - q * q) with ((u - q) * (u + q)) by ring.
  rewrite Rabs_mult. fold d.
  assert (Hsum : Rabs (u + q) <= d + 2 * x).
  { replace (u + q) with ((u - q) + 2 * q) by ring.
    eapply Rle_trans; [apply Rabs_triang|].
    rewrite (Rabs_mult 2 q), (Rabs_pos_eq 2) by lra. fold d x. lra. }
  pose proof (Rabs_pos (u + q)) as Hs0.
  assert (H1 : d * Rabs (u + q) <= (E * x + h) * (d + 2 * x)).
  { apply Rmult_le_compat; lra. }
  assert (H2 : (E * x + h) * (d + 2 * x)
               <= (E * x + h) * (E * x + h + 2 * x)).
  { apply Rmult_le_compat_l; [nra|lra]. }
  assert (Hxx0 : 0 <= x * x) by nra.
  assert (HExx : E * E * (x * x) <= E * (x * x)).
  { apply Rmult_le_compat_r; [done|nra]. }
  assert (HEhx : E * h * x <= 2 * h).
  { assert (E * h <= h) by nra. nra. }
  assert (Hhx : h * x <= 2 * h) by nra.
  assert (Hhh : h * h <= h) by nra.
  rewrite <- Hxx.
  replace ((E * x + h) * (E * x + h + 2 * x))
    with (E * E * (x * x) + 2 * (E * h * x) + h * h + 2 * E * (x * x)
          + 2 * (h * x)) in H2 by ring.
  lra.
Qed.

(** *** Conversions between binary32 and binary64 *)

Lemma to_double_correct x :
  finite 24 128 x -> rounded 53 1024 (value x) (to_double x).
Proof.
  intros Hx. pose proof (finite_range 24 128 x Hx) as Hr.
  destruct x as [s|s| |s m e]; try done.
  { by apply rounded_exact. }
  unfold to_double. rewrite value_cond in Hr |- *.
  apply binary_normalize_correct; [lia|lia|].
  pose proof bpow_1023_ge. lra.
Qed.

Lemma of_double_correct x :
  finite 53 1024 x -> Rabs (value x) < bpow 127 ->
  rounded 24 128 (value x) (of_double x).
Proof.
  intros Hx Hr. destruct x as [s|s| |s m e]; try done.
  { by apply rounded_exact. }
  unfold of_double. rewrite value_cond in Hr |- *.
  by apply binary_normalize_correct; [lia|lia|].
Qed.

Lemma square_bounds a :
  Rabs a <= bpow 60 -> 0 <= a * a <= bpow 60 * bpow 60.
Proof.
  intros Ha. rewrite <- (Rabs_sq a). pose proof (Rabs_pos a).
  split; [nra|]. apply Rmult_le_compat; lra.
Qed.

Lemma square_low a : bpow (-60) <= Rabs a -> bpow (-60) * bpow (-60) <= a * a.
Proof.
  intros Ha. rewrite <- (Rabs_sq a). pose proof (bpow_pos (-60)).
  apply Rmult_le_compat; lra.
Qed.

(** *** The norm of a vector in range *)

Lemma norm_well_scaled (n : vec3 float) :
  well_scaled n ->
  finite 24 128 (norm n) /\
  bpow (-60) <= real_length n <= 2 * bpow 60 /\
  (1 - / 2097152) * real_length n <= value (norm n)
    <= (1 + / 2097152) * real_length n.
Proof.
  intros ((Hfx & Hfy & Hfz) & (Hx & Hy & Hz) & Hlow).
  unfold real_length.
  destruct n as [x y z]. cbn [vx vy vz] in *.
  change (norm (V3 x y z))
    with (of_double (SFsqrt 53 1024 (to_double
            (SFadd 24 128 (SFadd 24 128 (SFadd 24 128 zero (SFmul 24 128 x x))
                                         (SFmul 24 128 y y))
                          (SFmul 24 128 z z))))).
  apply square_bounds in Hx, Hy, Hz.
  assert (Hu : bpow (-60) * bpow (-60)
               <= value x * value x + value y * value y + value z * value z).
  { destruct Hlow as [H|[H|H]]; apply square_low in H; lra. }
  clear Hlow.
  set (A1 := value x * value x) in *. set (A2 := value y * value y) in *.
  set (A3 := value z * value z) in *.
  set (S := A1 + A2 + A3) in *.
  rewrite bpow_60 in Hx, Hy, Hz. rewrite bpow_m60 in Hu.
  pose proof eta32 as Hh. pose proof eta64 as Hh'.
  pose proof bpow_127 as H127. pose proof bpow_128 as H128.
  pose proof bpow_1023_ge as H1023.
  change (128 - 1)%Z with 127%Z in *.
  (* the squares *)
  assert (Hp1 : rounded 24 128 A1 (SFmul 24 128 x x)).
  { apply SFmul_correct; [lia|lia|done|done|].
    fold A1. rewrite Rabs_pos_eq by lra.
    change (128 - 1)%Z with 127%Z. lra. }
  assert (Hp2 : rounded 24 128 A2 (SFmul 24 128 y y)).
  { apply SFmul_correct; [lia|lia|done|done|].
    fold A2. rewrite Rabs_pos_eq by lra.
    change (128 - 1)%Z with 127%Z. lra. }
  assert (Hp3 : rounded 24 128 A3 (SFmul 24 128 z z)).
  { apply SFmul_correct; [lia|lia|done|done|].
    fold A3. rewrite Rabs_pos_eq by lra.
    change (128 - 1)%Z with 127%Z. lra. }
  set (p1 := SFmul 24 128 x x) in *. set (p2 := SFmul 24 128 y y) in *.
  set (p3 := SFmul 24 128 z z) in *.
  destruct (rounded_interval _ _ _ _ Hp1 ltac:(lra)) as (Hp1a & Hp1b & Hp1c).
  destruct (rounded_interval _ _ _ _ Hp2 ltac:(lra)) as (Hp2a & Hp2b & Hp2c).
  destruct (rounded_interval _ _ _ _ Hp3 ltac:(lra)) as (Hp3a & Hp3b & Hp3c).
  rewrite eps32 in Hp1b, Hp1c, Hp2b, Hp2c, Hp3b, Hp3c.
  (* the sum *)
  assert (Hs0 : rounded 24 128 (0 + value p1) (SFadd 24 128 zero p1)).
  { apply (SFadd_correct 24 128 ltac:(lia) ltac:(lia) zero p1);
      [done|apply Hp1|].
    change (value zero) with 0. rewrite Rabs_pos_eq by lra.
    change (128 - 1)%Z with 127%Z. lra. }
  set (s0 := SFadd 24 128 zero p1) in *.
  destruct (rounded_interval _ _ _ _ Hs0 ltac:(lra)) as (Hs0a & Hs0b & Hs0c).
  rewrite eps32 in Hs0b, Hs0c.
  assert (Hs1 : rounded 24 128 (value s0 + value p2) (SFadd 24 128 s0 p2)).
  { apply SFadd_correct; [lia|lia|apply Hs0|apply Hp2|].
    rewrite Rabs_pos_eq by lra. change (128 - 1)%Z with 127%Z. lra. }
  set (s1 := SFadd 24 128 s0 p2) in *.
  destruct (rounded_interval _ _ _ _ Hs1 ltac:(lra)) as (Hs1a & Hs1b & Hs1c).
  rewrite eps32 in Hs1b, Hs1c.
  assert (Hs2 : rounded 24 128 (value s1 + value p3) (SFadd 24 128 s1 p3)).
  { apply SFadd_correct; [lia|lia|apply Hs1|apply Hp3|].
    rewrite Rabs_pos_eq by lra. change (128 - 1)%Z with 127%Z. lra. }
  set (s2 := SFadd 24 128 s1 p3) in *.
  destruct (rounded_interval _ _ _ _ Hs2 ltac:(lra)) as (Hs2a & Hs2b & Hs2c).
  rewrite eps32 in Hs2b, Hs2c.
  assert (Hsum : (1 - 5 * / 16777216) * S <= value s2 <= (1 + 5 * / 16777216) * S).
  { unfold S in *. lra. }
  assert (HS : / 1152921504606846976 * / 1152921504606846976 <= S
               <= 3 * (1152921504606846976 * 1152921504606846976))
    by (unfold S in *; lra).
  clear Hp1a Hp1b Hp1c Hp2a Hp2b Hp2c Hp3a Hp3b Hp3c Hs0a Hs0b Hs0c
        Hs1a Hs1b Hs1c Hs2b Hs2c Hx Hy Hz.
  (* the square root, in binary64 *)
  pose proof (to_double_correct s2 (proj1 Hs2)) as Ht.
  set (t := to_double s2) in *.
  destruct (rounded_interval _ _ _ _ Ht ltac:(lra)) as (Hta & Htb & Htc).
  rewrite eps64 in Htb, Htc.
  set (L := sqrt S).
  assert (HL0 : 0 <= L) by apply sqrt_pos.
  assert (HLL : L * L = S) by (apply sqrt_sqrt; lra).
  assert (HL : / 1152921504606846976 <= L <= 2 * 1152921504606846976).
  { split.
    - rewrite <- (sqrt_square (/ 1152921504606846976)) by lra.
      apply sqrt_le_1; lra.
    - rewrite <- (sqrt_square (2 * 1152921504606846976)) by lra.
      apply sqrt_le_1; lra. }
  assert (Hst : (1 - 6 * / 16777216) * L <= sqrt (value t) <= (1 + 6 * / 16777216) * L).
  { apply (sqrt_between L S); [done|done|lra|lra|lra]. }
  assert (Hr : rounded 53 1024 (sqrt (value t)) (SFsqrt 53 1024 t)).
  { apply SFsqrt_correct; [lia|lia|apply Ht|done|lra]. }
  set (r := SFsqrt 53 1024 t) in *.
  destruct (rounded_interval _ _ _ _ Hr ltac:(lra)) as (Hra & Hrb & Hrc).
  rewrite eps64 in Hrb, Hrc.
  assert (Hnn : rounded 24 128 (value r) (of_double r)).
  { apply of_double_correct; [apply Hr|]. rewrite Rabs_pos_eq by done. lra. }
  set (nn := of_double r) in *.
  destruct (rounded_interval _ _ _ _ Hnn ltac:(lra)) as (Hna & Hnb & Hnc).
  rewrite eps32 in Hnb, Hnc.
  split; [apply Hnn|]. rewrite bpow_60, bpow_m60.
  split; [done|]. lra.
Qed.

(** *** The normalised vector *)

Lemma component_le_length a b c : Rabs a <= sqrt (a * a + b * b + c * c).
Proof.
  rewrite <- (sqrt_square (Rabs a)) by apply Rabs_pos.
  rewrite Rabs_sq. apply sqrt_le_1; nra.
Qed.

Lemma Rabs_le_of_bounds x y : - y <= x <= y -> Rabs x <= y.
Proof. intros H. unfold Rabs. destruct (Rcase_abs x); lra. Qed.

Lemma Rabs_bounds x y : Rabs x <= y -> - y <= x <= y.
Proof. unfold Rabs. destruct (Rcase_abs x); lra. Qed.

(** One component of the quotient: it is a number, and its square is
    the exact square within three roundings. *)
Lemma quotient_component (x nn : float) (L : R) :
  finite 24 128 x -> finite 24 128 nn ->
  0 < L -> Rabs (value x) <= L ->
  (1 - / 2097152) * L <= value nn ->
  finite 24 128 (SFdiv 24 128 x nn) /\
  Rabs (value (SFdiv 24 128 x nn) * value (SFdiv 24 128 x nn)
        - value x / value nn * (value x / value nn))
    <= 3 * / 16777216 * (value x / value nn * (value x / value nn))
       + 9 * eta 24 128.
Proof.
  intros Hx Hnn HL Ha Hlo.
  set (a := value x) in *. set (v := value nn) in *.
  assert (Hv : 0 < v) by lra.
  assert (Hq : Rabs (a / v) <= 2).
  { unfold Rdiv. rewrite Rabs_mult, (Rabs_pos_eq (/ v))
      by (left; by apply Rinv_0_lt_compat).
    apply Rmult_le_reg_r with v; [done|].
    rewrite Rmult_assoc, Rinv_l, Rmult_1_r by lra. lra. }
  assert (Hr : rounded 24 128 (a / v) (SFdiv 24 128 x nn)).
  { apply SFdiv_correct; [lia|lia|done|done|fold v; lra|].
    fold a v. change (128 - 1)%Z with 127%Z. rewrite bpow_127. lra. }
  split; [apply Hr|].
  pose proof eta32 as Hh.
  apply square_error; [lra|lra|done|].
  destruct Hr as (_ & Herr & _). by rewrite eps32 in Herr.
Qed.

Lemma normalized_well_scaled (n : vec3 float) :
  well_scaled n ->
  fgt0 (norm n) = true /\ near_unit (normalized n).
Proof.
  intros Hn. destruct (norm_well_scaled n Hn) as (Hfn & HL & Hnn).
  destruct Hn as ((Hfx & Hfy & Hfz) & _ & _).
  rewrite bpow_m60 in HL.
  assert (Hpos : 0 < value (norm n)) by lra.
  assert (Hgt : fgt0 (norm n) = true).
  { exact (SFltb_zero_pos 24 128 _ Hfn Hpos). }
  split; [done|].
  unfold normalized. rewrite Hgt.
  change (V3 (fdiv (vx n) (norm n)) (fdiv (vy n) (norm n))
             (fdiv (vz n) (norm n)))
    with (V3 (SFdiv 24 128 (vx n) (norm n)) (SFdiv 24 128 (vy n) (norm n))
             (SFdiv 24 128 (vz n) (norm n))).
  set (nn := norm n) in *. set (L := real_length n) in *.
  assert (HL0 : 0 < L) by lra.
  destruct (quotient_component (vx n) nn L Hfx Hfn HL0) as (Hux & Hex);
    [apply component_le_length|lra|].
  destruct (quotient_component (vy n) nn L Hfy Hfn HL0) as (Huy & Hey);
    [|lra|].
  { unfold L, real_length.
    replace (value (vx n) * value (vx n) + value (vy n) * value (vy n)
             + value (vz n) * value (vz n))
      with (value (vy n) * value (vy n) + value (vx n) * value (vx n)
            + value (vz n) * value (vz n)) by ring.
    apply component_le_length. }
  destruct (quotient_component (vz n) nn L Hfz Hfn HL0) as (Huz & Hez);
    [|lra|].
  { unfold L, real_length.
    replace (value (vx n) * value (vx n) + value (vy n) * value (vy n)
             + value (vz n) * value (vz n))
      with (value (vz n) * value (vz n) + value (vx n) * value (vx n)
            + value (vy n) * value (vy n)) by ring.
    apply component_le_length. }
  split; [done|]. unfold real_length. cbn [vx vy vz].
  set (ux := value (SFdiv 24 128 (vx n) nn)) in *.
  set (uy := value (SFdiv 24 128 (vy n) nn)) in *.
  set (uz := value (SFdiv 24 128 (vz n) nn)) in *.
  set (v := value nn) in *.
  set (rho := L / v).
  assert (Hrv : rho * v = L) by (unfold rho; field; lra).
  assert (Hrho0 : 0 < rho) by (unfold rho; apply Rdiv_lt_0_compat; lra).
  assert (Hrho_hi : rho <= 1 + 3 * / 4194304).
  { assert ((1 - / 2097152) * rho <= 1); [|lra].
    assert (0 <= (v - (1 - / 2097152) * L) * rho) by (apply Rmult_le_pos; lra).
    apply Rmult_le_reg_r with v; [done|]. nra. }
  assert (Hrho_lo : 1 - / 2097152 <= rho).
  { assert (1 <= (1 + / 2097152) * rho); [|lra].
    assert (0 <= ((1 + / 2097152) * L - v) * rho) by (apply Rmult_le_pos; lra).
    apply Rmult_le_reg_r with v; [done|]. nra. }
  assert (Hsum : value (vx n) / v * (value (vx n) / v)
                 + value (vy n) / v * (value (vy n) / v)
                 + value (vz n) / v * (value (vz n) / v) = rho * rho).
  { assert (HLL : L * L = value (vx n) * value (vx n)
                          + value (vy n) * value (vy n)
                          + value (vz n) * value (vz n)).
    { unfold L, real_length. apply sqrt_sqrt. nra. }
    unfold rho. field_simplify_eq; [|lra]. lra. }
  set (qx := value (vx n) / v * (value (vx n) / v)) in *.
  set (qy := value (vy n) / v * (value (vy n) / v)) in *.
  set (qz := value (vz n) / v * (value (vz n) / v)) in *.
  apply Rabs_bounds in Hex, Hey, Hez.
  pose proof eta32 as Hh.
  assert (Hr2 : 1 - / 1048576 <= rho * rho <= 1 + 7 * / 4194304) by nra.
  set (R2 := rho * rho) in *.
  assert (Hq0 : 0 <= qx /\ 0 <= qy /\ 0 <= qz).
  { unfold qx, qy, qz. repeat split; apply Rle_0_sqr. }
  rewrite bpow_m19. apply Rabs_le_of_bounds.
  assert (Hlen : (1 - / 524288) * 1 <= ux * ux + uy * uy + uz * uz
                 <= (1 + / 524288) * 1) by lra.
  pose proof (sqrt_between 1 1 (1 - / 524288) (1 + / 524288) _
                ltac:(lra) ltac:(lra) ltac:(lra) ltac:(lra) Hlen).
  lra.
Qed.

(** A vector of zeros has the norm zero, which is not positive. *)
Lemma normalized_all_zero (n : vec3 float) : all_zero n -> normalized n = vzero.
Proof.
  destruct n as [x y z]. unfold all_zero. cbn [vx vy vz].
  intros ([sx ->] & [sy ->] & [sz ->]). by destruct sx, sy, sz.
Qed.
End ToleranceFacts.

(** ** The norm in binary32 *)

Module SignFacts.
Import Floats.SpecFloat B32 Rounding RoundingFacts Tolerance.

Lemma binary_round_aux_not_negative prec emax mx ex lx :
  not_negative (binary_round_aux prec emax false mx ex lx).
Proof.
  unfold binary_round_aux.
  destruct (shr_fexp prec emax mx ex lx) as [mrs' e'].
  destruct (shr_fexp prec emax _ e' loc_Exact) as [mrs'' e''].
  destruct (shr_m mrs''); [done| |done].
  by destruct (Z.leb e'' (emax - prec)).
Qed.

Lemma SFsqrt_not_negative prec emax x : not_negative (SFsqrt prec emax x).
Proof.
  destruct x as [s|[]| |[] m e]; try done. simpl.
  destruct (SFsqrt_core_binary prec emax (Z.pos m) e) as [[mz ez] lz].
  apply binary_round_aux_not_negative.
Qed.

Lemma of_double_not_negative x : not_negative x -> not_negative (of_double x).
Proof.
  destruct x as [s|[]| |[] m e]; try done. intros _. simpl.
  unfold binary_round. destruct (shl_align _ _ _) as [mz ez].
  apply binary_round_aux_not_negative.
Qed.

Lemma not_negative_ltb x : not_negative x -> SFltb x zero = false.
Proof. by destruct x as [[]|[]| |[] m e]. Qed.

Lemma norm_not_negative (n : vec3 float) : not_negative (norm n).
Proof. apply of_double_not_negative, SFsqrt_not_negative. Qed.

Lemma norm_all_zero (n : vec3 float) : all_zero n -> norm n = zero.
Proof.
  destruct n as [x y z]. unfold all_zero. cbn [vx vy vz].
  intros ([sx ->] & [sy ->] & [sz ->]). by destruct sx, sy, sz.
Qed.
End SignFacts.

(** X1.  In binary32 [norm] is never negative, whatever the vector
    holds: the comparison [norm(pos) < 0] of C is false.  It is zero for
    a vector of zeros.  For a vector whose components are numbers of
    magnitude at most [2^60], one of them of magnitude at least [2^-60],
    it is a positive number within the relative error [2^-21] of the
    length of the vector. *)
Theorem norm_binary32 (n : vec3 B32.float) :
  Floats.SpecFloat.SFltb (norm n) B32.zero = false /\
  (Tolerance.all_zero n -> norm n = B32.zero) /\
  (Tolerance.well_scaled n ->
   Rounding.finite 24 128 (norm n) /\ fgt0 (norm n) = true /\
   (Rabs (Rounding.value (norm n) - Tolerance.real_length n)
    <= Rounding.bpow (-21) * Tolerance.real_length n)%R).
Proof.
  split; [apply SignFacts.not_negative_ltb, SignFacts.norm_not_negative|].
  split; [apply SignFacts.norm_all_zero|].
  intros Hn.
  destruct (ToleranceFacts.norm_well_scaled n Hn) as (Hf & HL & Hv).
  destruct (ToleranceFacts.normalized_well_scaled n Hn) as [Hgt _].
  split; [done|]. split; [done|].
  replace (Rounding.bpow (-21)) with (/ 2097152)%R
    by (unfold Rounding.bpow; simpl; lra).
  apply ToleranceFacts.Rabs_le_of_bounds. lra.
Qed.

(** ** The normals that are written *)

Section WrittenNormal.
Context {F : Type} {FO : FloatOps F}.
Variable NEIGHBORSIZE : nat.
Implicit Types (m : mesh F) (s : walk F) (v e : Z).

(** A pass on [v], on a mesh that earlier passes made of [m], writes the
    normal that the walk on [m] accumulates. *)
Lemma update_vertex_normal fuel v m m1 m2 (cv : vertex_t F) s :
  same_given m1 m ->
  GETPTR1 (vertices m) v = Done cv -> v_halfedge cv <> -1 ->
  traverse NEIGHBORSIZE fuel v (v_halfedge cv) m = Done (Walked s) ->
  update_vertex NEIGHBORSIZE fuel v m1 = Done m2 ->
  exists cv2, GETPTR1 (vertices m2) v = Done cv2 /\
              v_normal cv2 = normalized (w_normal s).
Proof.
  intros Hg Hcv Ho Htr Hrun. pose proof Hg as (Hfa & Hl & Hc).
  pose proof (orel_GETPTR1 core _ _ v Hc) as Hcore. rewrite Hcv in Hcore.
  destruct (GETPTR1 (vertices m1) v) as [cv1| |] eqn:Hcv1; simpl in Hcore;
    try done.
  injection Hcore as _ Ha.
  assert (Ho1 : v_halfedge cv1 <> -1) by congruence.
  destruct (update_vertex_spec NEIGHBORSIZE _ _ _ _ _ Hcv1 Ho1 Hrun)
    as (r & cv' & Hr & ((_ & Hn & _) & _) & _ & _ & Hcv' & Hres).
  pose proof (same_traverse NEIGHBORSIZE fuel v (v_halfedge cv1) m1 m Hfa Hl Hc)
    as Hsame.
  rewrite Hr, Ha, Htr in Hsame. simpl in Hsame.
  destruct r as [s1|s1]; [done|].
  destruct Hsame as (_ & _ & _ & Hnrm & _). simpl in Hn.
  exists cv'. split; [done|]. destruct Hres as (_ & -> & _).
  by rewrite <- Hn, Hnrm.
Qed.

(** After a batch that names [v], vertex [v] holds that normal. *)
Lemma batch_normal fuel (v_idxs : list Z) v m (cv : vertex_t F) s :
  GETPTR1 (vertices m) v = Done cv -> v_halfedge cv <> -1 ->
  traverse NEIGHBORSIZE fuel v (v_halfedge cv) m = Done (Walked s) ->
  forall m1 m',
    same_given m1 m ->
    update_vertex_neighbors NEIGHBORSIZE fuel v_idxs m1 = Done m' ->
    v ∈ v_idxs \/
    (exists c1, GETPTR1 (vertices m1) v = Done c1 /\
                v_normal c1 = normalized (w_normal s)) ->
    exists cv', GETPTR1 (vertices m') v = Done cv' /\
                v_normal cv' = normalized (w_normal s).
Proof.
  intros Hcv Ho Htr.
  induction v_idxs as [|w rest IH]; intros m1 m' Hg Hrun Hcase.
  { injection Hrun as <-. destruct Hcase as [Hin|?]; [|done].
    by apply elem_of_nil in Hin. }
  simpl in Hrun. apply bind_Done in Hrun as (m2 & H2 & Hrun).
  assert (Hg2 : same_given m2 m).
  { eapply same_given_trans; [|exact Hg].
    eapply frame_same_given, update_vertex_frame, H2. }
  apply (IH m2 m' Hg2 Hrun).
  destruct (decide (w = v)) as [->|Hne].
  { right. exact (update_vertex_normal fuel v m m1 m2 cv s Hg Hcv Ho Htr H2). }
  destruct Hcase as [Hin|(c1 & Hc1 & Hn1)].
  { left. apply elem_of_cons in Hin as [->|Hin]; done. }
  right. exists c1. split; [|done].
  destruct (update_vertex_index _ _ _ _ _ H2) as [->|Hw]; [done|].
  pose proof (update_vertex_frame _ _ _ _ _ H2) as (_ & _ & _ & Hothers).
  apply GETPTR1_Done in Hc1 as [Hv0 Hc1]. apply GETPTR1_Done.
  split; [done|]. rewrite Hothers; [done|lia].
Qed.
End WrittenNormal.

(** C8 (amended).  In binary32, after any batch that runs to its end:
    the normal written to a face of the batch is [normalized] of the
    cross product of its edge vectors, and the normal written to a vertex
    of the batch whose walk is completed is [normalized] of the sum the
    walk accumulates, the sum of normal times area over the faces of its
    first [N] visits.  When the three components of that vector are
    numbers of magnitude at most [2^60], one of them of magnitude at
    least [2^-60], the normal written has three finite components and a
    length within [2^-19] of 1; when they are three zeros, the normal
    written is the zero vector.  A triangle of non-zero area around the
    vertex or in the face is not among the conditions, and does not
    replace them. *)
Theorem written_normals_unit_or_zero (N fuel : nat) (m : mesh B32.float) :
  (forall f c0 c1 c2 f_idxs m',
     f <> -1 -> corners m f c0 c1 c2 -> f ∈ f_idxs ->
     update_face_normals f_idxs m = Done m' ->
     let n := cross (vsub c1 c0) (vsub c2 c0) in
     exists cf, GETPTR1 (faces m') f = Done cf /\
       f_normal cf = normalized n /\
       (Tolerance.well_scaled n -> Tolerance.near_unit (f_normal cf)) /\
       (Tolerance.all_zero n -> f_normal cf = vzero)) /\
  (forall v v_idxs m' (cv : vertex_t B32.float) s,
     GETPTR1 (vertices m) v = Done cv -> v_halfedge cv <> -1 ->
     traverse N fuel v (v_halfedge cv) m = Done (Walked s) ->
     v ∈ v_idxs ->
     update_vertex_neighbors N fuel v_idxs m = Done m' ->
     let n := face_sum m (take N (w_visited s).*1) in
     exists cv', GETPTR1 (vertices m') v = Done cv' /\
       w_normal s = n /\ v_normal cv' = normalized n /\
       (Tolerance.well_scaled n -> Tolerance.near_unit (v_normal cv')) /\
       (Tolerance.all_zero n -> v_normal cv' = vzero)).
Proof.
  split.
  - intros f c0 c1 c2 f_idxs m' Hf Hc Hin Hrun n.
    destruct (update_face_normals_keeps f_idxs f m m' c0 c1 c2 Hf Hc
                (or_introl Hin) Hrun) as (cf & Hcf & Hn & _).
    exists cf. split; [done|]. split; [done|]. rewrite Hn. split.
    + intros Hw. by apply ToleranceFacts.normalized_well_scaled.
    + apply ToleranceFacts.normalized_all_zero.
  - intros v v_idxs m' cv s Hcv Ho Htr Hin Hrun n.
    destruct (batch_normal N fuel v_idxs v m cv s Hcv Ho Htr m m')
      as (cv' & Hcv' & Hn); [done|done|by left|].
    pose proof (traverse_counted N _ _ _ _ _ Htr) as ((_ & Hsum & _) & _).
    simpl in Hsum. rewrite ring_normal_face_sum in Hsum. fold n in Hsum.
    exists cv'. split; [done|]. split; [done|]. rewrite Hn, Hsum.
    split; [done|]. split.
    + intros Hw. by apply ToleranceFacts.normalized_well_scaled.
    + apply ToleranceFacts.normalized_all_zero.
Qed.

(** ** The shift loop *)

Section ShiftLoop.
Context {F : Type} {FO : FloatOps F}.
Variable NEIGHBORSIZE : nat.

(** X11.  The shift loop started at slot [i], inside the array, moves
    the entry of slot [i] to slot 1 and the entries of slots 1 to [i-1]
    up by one; slot 0 and the slots after [i] stay, and nothing but the
    slots of the vertex is written. *)
Theorem shift_loop_rotates v (m : mesh F) (nb : list Z) (i : nat) (x : Z) :
  neighbors_are m v nb -> length nb = NEIGHBORSIZE ->
  (1 <= i)%nat -> nb !! i = Some x ->
  exists m',
    shift_neighbors NEIGHBORSIZE (i - 1) v (Z.of_nat i) m = Done m' /\
    neighbors_are m' v
      (take 1 nb ++ x :: take (i - 1) (drop 1 nb) ++ drop (S i) nb) /\
    halfedges m' = halfedges m /\ faces m' = faces m.
Proof.
  intros Hnb Hlen Hi Hx. pose proof (lookup_lt_Some _ _ _ Hx) as Hlt.
  destruct (shift_neighbors_spec NEIGHBORSIZE (i - 1) i v m nb Hnb Hlen)
    as (m' & Hm' & Hnb'); [done|lia|].
  exists m'. split; [done|].
  rewrite (shifted_rotates (i - 1) i nb x) in Hnb' by (done || lia).
  replace (i - (i - 1))%nat with 1%nat in Hnb' by lia.
  split; [done|]. by eapply shift_neighbors_same.
Qed.
End ShiftLoop.

(** ** The further statements at work *)

Import Probe.

Ltac run_here H := first [exact H | reflexivity].
Ltac in_range_here :=
  split; [vm_compute; discriminate | vm_compute; reflexivity].
Ltac link_here := first [left; reflexivity | right; in_range_here].
Ltac linked_here :=
  split; [|split];
  repeat first
    [ apply Forall_nil_2
    | apply Forall_cons; split
    | assumption
    | in_range_here
    | link_here
    | split ].

Lemma open_fan_at_linked (N : nat) (anchor : Z) :
  link (halfedges (open_fan_at N anchor)) anchor ->
  linked (open_fan_at N anchor).
Proof. intros Ha. linked_here. Defined.

Lemma open_fan_at_next (N : nat) (anchor : Z) : all_next (open_fan_at N anchor).
Proof.
  unfold all_next.
  repeat (apply Forall_cons; split; [vm_compute; discriminate|]).
  apply Forall_nil_2.
Defined.

Lemma update_face_normals_idempotent_witness :
  exists m',
    update_face_normals [0; 1; 0] (pillow 4) = Done m' /\
    update_face_normals [0; 1; 0] m' = Done m'.
Proof.
  destruct (update_face_normals [0; 1; 0] (pillow 4)) as [m'| |] eqn:H;
    try (vm_compute in H; discriminate H).
  exists m'. split; [run_here H|].
  exact (update_face_normals_idempotent [0; 1; 0] (pillow 4) m' H).
Defined.

Lemma update_face_normals_any_order_witness :
  [0; 1] ≡ₚ [1; 0] /\
  update_face_normals [0; 1] (pillow 4) = update_face_normals [1; 0] (pillow 4).
Proof.
  split; [apply perm_swap|].
  exact (update_face_normals_any_order [0; 1] [1; 0] (pillow 4) (perm_swap 1 0 [])).
Defined.

Lemma update_face_normals_in_bounds_witness :
  linked (open_fan 20) /\
  Forall (link (faces (open_fan 20))) [0; -1; 3] /\
  exists m', update_face_normals [0; -1; 3] (open_fan 20) = Done m' /\ linked m'.
Proof.
  assert (Hl : linked (open_fan 20))
    by (apply (open_fan_at_linked 20 9); link_here).
  assert (Hin : Forall (link (faces (open_fan 20))) [0; -1; 3])
    by (repeat (apply Forall_cons; split; [link_here|]); apply Forall_nil_2).
  split; [exact Hl|]. split; [exact Hin|].
  exact (update_face_normals_in_bounds [0; -1; 3] (open_fan 20) Hl Hin).
Defined.

Lemma update_vertex_neighbors_preserves_witness :
  exists m',
    update_vertex_neighbors 4 4 [0; 1] (closed_fan 4) = Done m' /\
    faces m' = faces (closed_fan 4) /\
    links <$> halfedges m' = links <$> halfedges (closed_fan 4) /\
    core <$> vertices m' = core <$> vertices (closed_fan 4) /\
    (forall n, Z.of_nat n ∉ [0; 1] ->
       vertices m' !! n = vertices (closed_fan 4) !! n).
Proof.
  destruct (update_vertex_neighbors 4 4 [0; 1] (closed_fan 4)) as [m'| |] eqn:H;
    try (vm_compute in H; discriminate H).
  exists m'. split; [run_here H|].
  exact (update_vertex_neighbors_preserves 4 4 [0; 1] (closed_fan 4) m' H).
Defined.

Lemma valence_counts_visits_witness :
  exists cv s0 s m',
    GETPTR1 (vertices (open_fan_at 20 3)) 0 = Done cv /\ v_halfedge cv <> -1 /\
    forward_sweep 20 20 0 (v_halfedge cv) (open_fan_at 20 3) = Done s0 /\
    traverse 20 20 0 (v_halfedge cv) (open_fan_at 20 3) = Done (Walked s) /\
    update_vertex_neighbors 20 20 [0] (open_fan_at 20 3) = Done m' /\
    enters_fallback s0 = true /\
    exists cv',
      GETPTR1 (vertices m') 0 = Done cv' /\ 1 <= v_valence cv' /\
      Z.of_nat (length (w_visited s))
        = v_valence cv' + (if enters_fallback s0 then 1 else 0).
Proof.
  assert (H1 : GETPTR1 (vertices (open_fan_at 20 3)) 0
               = Done (fresh_vertex 20 origin 3)) by reflexivity.
  assert (H2 : v_halfedge (fresh_vertex 20 origin 3) <> -1) by (simpl; lia).
  destruct (forward_sweep 20 20 0 (v_halfedge (fresh_vertex 20 origin 3))
              (open_fan_at 20 3)) as [s0| |] eqn:H3;
    try (vm_compute in H3; discriminate H3).
  destruct (traverse 20 20 0 (v_halfedge (fresh_vertex 20 origin 3))
              (open_fan_at 20 3)) as [[s|s]| |] eqn:H4;
    try (vm_compute in H4; discriminate H4).
  destruct (update_vertex_neighbors 20 20 [0] (open_fan_at 20 3))
    as [m'| |] eqn:H5; try (vm_compute in H5; discriminate H5).
  assert (H6 : enters_fallback s0 = true)
    by (pose proof H3 as H3'; vm_compute in H3'; injection H3' as <-;
        reflexivity).
  exists (fresh_vertex 20 origin 3), s0, s, m'.
  split; [exact H1|]. split; [exact H2|]. split; [run_here H3|].
  split; [run_here H4|]. split; [run_here H5|]. split; [run_here H6|].
  exact (valence_counts_visits 20 20 0 (open_fan_at 20 3) m' _ s0 s
           H1 H2 H3 H4 H5).
Defined.

Lemma shift_loop_out_of_bounds_witness :
  exists cv s0,
    GETPTR1 (vertices (open_fan 3)) 0 = Done cv /\ v_halfedge cv <> -1 /\
    forward_sweep 3 20 0 (v_halfedge cv) (open_fan 3) = Done s0 /\
    enters_fallback s0 = true /\ Z.of_nat 3 <= w_i s0 /\ 2 <= w_i s0 /\
    update_vertex_neighbors 3 20 [0; 1] (open_fan 3) = Fault.
Proof.
  assert (H1 : GETPTR1 (vertices (open_fan 3)) 0
               = Done (fresh_vertex 3 origin 9)) by reflexivity.
  assert (H2 : v_halfedge (fresh_vertex 3 origin 9) <> -1) by (simpl; lia).
  destruct (forward_sweep 3 20 0 (v_halfedge (fresh_vertex 3 origin 9))
              (open_fan 3)) as [s0| |] eqn:H3;
    try (vm_compute in H3; discriminate H3).
  assert (H4 : enters_fallback s0 = true)
    by (pose proof H3 as H3'; vm_compute in H3'; injection H3' as <-;
        reflexivity).
  assert (H5 : Z.of_nat 3 <= w_i s0)
    by (pose proof H3 as H3'; vm_compute in H3'; injection H3' as <-;
        simpl; lia).
  assert (H6 : 2 <= w_i s0)
    by (pose proof H3 as H3'; vm_compute in H3'; injection H3' as <-;
        simpl; lia).
  exists (fresh_vertex 3 origin 9), s0.
  split; [exact H1|]. split; [exact H2|]. split; [run_here H3|].
  split; [run_here H4|]. split; [run_here H5|]. split; [run_here H6|].
  exact (shift_loop_out_of_bounds 3 20 0 [1] (open_fan 3) _ s0
           H1 H2 H3 H4 H5 H6).
Defined.

Lemma vertex_pass_faults_only_in_shift_witness :
  linked (open_fan 3) /\ all_next (open_fan 3) /\
  link (vertices (open_fan 3)) 0 /\
  2 * Z.of_nat 20 + 1 <= INT_MAX /\
  update_vertex_neighbors 3 20 [0] (open_fan 3) = Fault /\
  exists cv s0,
    GETPTR1 (vertices (open_fan 3)) 0 = Done cv /\ v_halfedge cv <> -1 /\
    forward_sweep 3 20 0 (v_halfedge cv) (open_fan 3) = Done s0 /\
    enters_fallback s0 = true /\ Z.of_nat 3 <= w_i s0 /\ 2 <= w_i s0.
Proof.
  assert (Hl : linked (open_fan 3))
    by (apply (open_fan_at_linked 3 9); link_here).
  assert (Ha : all_next (open_fan 3)) by apply (open_fan_at_next 3 9).
  assert (Hv : link (vertices (open_fan 3)) 0) by link_here.
  assert (Hrun : update_vertex_neighbors 3 20 [0] (open_fan 3) = Fault)
    by (vm_compute; reflexivity).
  assert (Hfuel : 2 * Z.of_nat 20 + 1 <= INT_MAX) by (unfold INT_MAX; lia).
  split; [exact Hl|]. split; [exact Ha|]. split; [exact Hv|].
  split; [exact Hfuel|]. split; [exact Hrun|].
  exact (vertex_pass_faults_only_in_shift 3 20 0 (open_fan 3) Hl Ha Hv Hfuel Hrun).
Defined.

Lemma trapped_sweep_spins_witness :
  GETPTR1 (vertices (lasso 4)) 0 = Done (fresh_vertex 4 (point 0 0 0) 0) /\
  (forall n, ring_step (lasso 4)
               (match n with O => 0 | S _ => 2 end)
               (match S n with O => 0 | S _ => 2 end)) /\
  Z.of_nat 1000 <= INT_MAX /\
  exists s0 s,
    start_walk 4 0 0 (lasso 4) = Done s0 /\
    spins (forward_body 4 0 0) 1000 s0 s /\
    w_i s = 1000 /\ w_curr s = 2 /\
    update_vertex_neighbors 4 1000 [0; 1] (lasso 4) = Timeout.
Proof.
  assert (H1 : GETPTR1 (vertices (lasso 4)) 0
               = Done (fresh_vertex 4 (point 0 0 0) 0)) by reflexivity.
  assert (H2 : forall n, ring_step (lasso 4)
                 (match n with O => 0 | S _ => 2 end)
                 (match S n with O => 0 | S _ => 2 end))
    by (intros [|n]; ring_step_here).
  assert (H3 : Z.of_nat 1000 <= INT_MAX) by (unfold INT_MAX; lia).
  split; [exact H1|]. split; [exact H2|]. split; [exact H3|].
  refine (trapped_sweep_spins 4 1000 0 [1] (lasso 4) _
            (fun n => match n with O => 0 | S _ => 2 end) H1 eq_refl H2 _ H3).
  intros n. simpl. lia.
Defined.

Lemma boundary_vertex_pass_witness :
  linked (open_fan_at 20 6) /\
  open_path (open_fan_at 20 6) 6 [3; 0] /\
  back_path (open_fan_at 20 6) 6 [9] /\
  exists m' cv',
    update_vertex_neighbors 20 20 [0] (open_fan_at 20 6) = Done m' /\
    GETPTR1 (vertices m') 0 = Done cv' /\
    v_neighbors cv' = 6 :: 0 :: 3 :: 9 :: replicate 16 (-1) /\
    v_valence cv' = 3.
Proof.
  assert (Hl : linked (open_fan_at 20 6))
    by (apply (open_fan_at_linked 20 6); link_here).
  assert (Hfw : open_path (open_fan_at 20 6) 6 [3; 0]).
  { split; [ring_step_here|]. split; [ring_step_here|].
    eexists. split; reflexivity. }
  assert (Hbw : back_path (open_fan_at 20 6) 6 [9]).
  { split.
    - eexists. split; [reflexivity|]. split; [simpl; lia|].
      split; [reflexivity|lia].
    - eexists. split; [reflexivity|]. right. reflexivity. }
  assert (H1 : GETPTR1 (vertices (open_fan_at 20 6)) 0
               = Done (fresh_vertex 20 origin 6)) by reflexivity.
  assert (Hn1 : 6 ∉ [3; 0]).
  { intros H. repeat (apply elem_of_cons in H as [H|H]; [discriminate|]).
    by apply elem_of_nil in H. }
  assert (Hn2 : 6 ∉ [9]).
  { intros H. repeat (apply elem_of_cons in H as [H|H]; [discriminate|]).
    by apply elem_of_nil in H. }
  split; [exact Hl|]. split; [exact Hfw|]. split; [exact Hbw|].
  destruct (boundary_vertex_pass 20 20 0 (open_fan_at 20 6) _ [3; 0] [9]
              Hl H1 Hfw Hn1 Hbw Hn2)
    as (m' & cv' & Hrun & Hcv' & Hnb & _ & Hval & _);
    [simpl; lia|simpl; lia|simpl; lia|].
  exists m', cv'. split; [exact Hrun|]. split; [exact Hcv'|].
  split; [exact Hnb|exact Hval].
Defined.

Lemma vertex_pass_idempotent_witness :
  exists m',
    update_vertex_neighbors 20 20 [0] (open_fan_at 20 3) = Done m' /\
    update_vertex_neighbors 20 20 [0] m' = Done m'.
Proof.
  destruct (update_vertex_neighbors 20 20 [0] (open_fan_at 20 3))
    as [m'| |] eqn:H; try (vm_compute in H; discriminate H).
  exists m'. split; [run_here H|].
  exact (vertex_pass_idempotent 20 20 0 (open_fan_at 20 3) m' H).
Defined.

Lemma stale_fields_ignored_witness :
  same_given (single_triangle origin (-1) [])
    (single_triangle (point 1 2 3) 7 [5; 5]) /\
  orel (fun a b =>
          same_given a b /\
          forall v cv, v ∈ [0; 1] ->
            GETPTR1 (vertices (single_triangle origin (-1) [])) v = Done cv ->
            v_halfedge cv <> -1 ->
            v_neighbors <$> vertices a !! Z.to_nat v
            = v_neighbors <$> vertices b !! Z.to_nat v)
    (update_vertex_neighbors 4 4 [0; 1] (single_triangle origin (-1) []))
    (update_vertex_neighbors 4 4 [0; 1] (single_triangle (point 1 2 3) 7 [5; 5])).
Proof.
  assert (Hg : same_given (single_triangle origin (-1) [])
                 (single_triangle (point 1 2 3) 7 [5; 5]))
    by (repeat split).
  split; [exact Hg|].
  exact (stale_fields_ignored 4 4 [0; 1] _ _ Hg).
Defined.

Lemma shift_loop_rotates_witness :
  neighbors_are (Mesh (F := B32.float) [] [Vertex origin origin 0 0 [9; 6; 3; 0; -1]] [])
    0 [9; 6; 3; 0; -1] /\
  exists m',
    shift_neighbors 5 2 0 3
      (Mesh (F := B32.float) [] [Vertex origin origin 0 0 [9; 6; 3; 0; -1]] [])
      = Done m' /\
    neighbors_are m' 0 [9; 0; 6; 3; -1].
Proof.
  assert (Hnb : neighbors_are
                  (Mesh (F := B32.float) [] [Vertex origin origin 0 0 [9; 6; 3; 0; -1]] [])
                  0 [9; 6; 3; 0; -1])
    by (eexists; split; reflexivity).
  split; [exact Hnb|].
  destruct (shift_loop_rotates 5 0 _ [9; 6; 3; 0; -1] 3 0 Hnb eq_refl
              (le_S 1 2 (le_S 1 1 (le_n 1))) eq_refl)
    as (m' & Hm' & Hnb' & _).
  exists m'. split; [exact Hm'|exact Hnb'].
Defined.

Lemma update_face_normals_preserves_witness :
  exists m',
    update_face_normals [1; -1] (pillow 4) = Done m' /\
    halfedges m' = halfedges (pillow 4) /\ vertices m' = vertices (pillow 4) /\
    f_halfedge <$> faces m' = f_halfedge <$> faces (pillow 4) /\
    (forall n, Z.of_nat n ∉ [1; -1] -> faces m' !! n = faces (pillow 4) !! n).
Proof.
  destruct (update_face_normals [1; -1] (pillow 4)) as [m'| |] eqn:H;
    try (vm_compute in H; discriminate H).
  exists m'. split; [run_here H|].
  exact (update_face_normals_preserves [1; -1] (pillow 4) m' H).
Defined.

(** The index of a record that is there is one of the first numbers. *)
Ltac nat_cases n :=
  destruct n as [|n]; [|first [exfalso; lia | nat_cases n]].

Ltac index_cases e Hh :=
  let He := fresh "He" in
  apply GETPTR1_Done in Hh as [He Hh];
  let Hlt := fresh "Hlt" in
  pose proof (lookup_lt_Some _ _ _ Hh) as Hlt;
  match type of Hlt with
  | (_ < ?len)%nat => let k := eval vm_compute in len in change len with k in Hlt
  end;
  let n := fresh "n" in let E := fresh "E" in
  remember (Z.to_nat e) as n eqn:E;
  nat_cases n;
  match type of E with
  | ?k = _ => assert (e = Z.of_nat k) as -> by lia
  end;
  clear E Hlt.

(** The open fan is consistent, whichever half-edge out of vertex 0 is
    its anchor. *)
Lemma open_fan_at_consistent (N : nat) (anchor : Z) :
  anchor ∈ [0; 3; 6; 9] -> consistent (open_fan_at N anchor).
Proof.
  intros Ha. split; [|split].
  - intros e h Hh Hne. index_cases e Hh; vm_compute in Hh; injection Hh as <-;
      first [exfalso; apply Hne; reflexivity | repeat split; reflexivity].
  - intros e h Hh Hne. index_cases e Hh; vm_compute in Hh; injection Hh as <-;
      first [exfalso; apply Hne; reflexivity | reflexivity].
  - intros v cv Hcv Hne. index_cases v Hcv; vm_compute in Hcv.
    + injection Hcv as <-. simpl.
      repeat (apply elem_of_cons in Ha as [->|Ha]; [reflexivity|]).
      by apply elem_of_nil in Ha.
    + injection Hcv as <-. reflexivity.
    + injection Hcv as <-. reflexivity.
    + injection Hcv as <-. reflexivity.
    + injection Hcv as <-. reflexivity.
    + injection Hcv as <-. reflexivity.
Defined.


(** ** Normals in binary32, on the scenarios *)

Import Floats.SpecFloat B32 Rounding Tolerance.

(** C8, as stated, fails in four ways.  On the pillow both faces around
    A have the area 0.5, their normals are opposite, and the normal
    written to A is the zero vector.  On the triangle with legs of
    length [2^70] the cross product overflows: the normal written to the
    face is (0, 0, NaN), neither a unit vector nor the zero vector, and
    the area written is infinite.  On the triangle with legs of length
    [2^35] the cross product is (0, 0, 2^70) and its norm overflows: the
    normal written is the zero vector, the area written infinite.  On
    the triangle with legs of length [2^-80] the cross product
    underflows: the normal written to the face is the zero vector and
    the area written is 0. *)
Lemma normals_cancel_overflow_underflow :
  (exists m1 m2,
     update_face_normals [0; 1] (pillow 20) = Done m1 /\
     f_area <$> faces m1 = [half; half] /\
     update_vertex_neighbors 20 20 [0] m1 = Done m2 /\
     (fun cv => (v_valence cv, v_normal cv)) <$> vertices m2 !! 0%nat
       = Some (2, vzero) /\
     norm (F := float) vzero <> one) /\
  (exists m',
     corners (scaled_triangle 70) 0
       (V3 zero (lit 1 70) zero) origin (V3 (lit 1 70) zero zero) /\
     value (lit 1 70) = bpow 70 /\
     update_face_normals [0] (scaled_triangle 70) = Done m' /\
     (fun cf => (f_normal cf, f_area cf)) <$> faces m'
       = [(V3 zero zero S754_nan, S754_infinity false)]) /\
  (exists m',
     corners (scaled_triangle 35) 0
       (V3 zero (lit 1 35) zero) origin (V3 (lit 1 35) zero zero) /\
     cross (vsub origin (V3 zero (lit 1 35) zero))
           (vsub (V3 (lit 1 35) zero zero) (V3 zero (lit 1 35) zero))
       = V3 zero zero (lit 1 70) /\
     update_face_normals [0] (scaled_triangle 35) = Done m' /\
     (fun cf => (f_normal cf, f_area cf)) <$> faces m'
       = [(vzero, S754_infinity false)]) /\
  (exists m',
     corners (scaled_triangle (-80)) 0
       (V3 zero (lit 1 (-80)) zero) origin (V3 (lit 1 (-80)) zero zero) /\
     value (lit 1 (-80)) = bpow (-80) /\
     update_face_normals [0] (scaled_triangle (-80)) = Done m' /\
     (fun cf => (f_normal cf, f_area cf)) <$> faces m' = [(vzero, zero)]).
Proof.
  split; [|split; [|split]].
  - do 2 eexists.
    split; [vm_compute; reflexivity|].
    split; [reflexivity|].
    split; [vm_compute; reflexivity|].
    split; [reflexivity|]. vm_compute. intros [=].
  - eexists.
    split; [do 7 eexists; repeat split; try reflexivity; simpl; lia|].
    split.
    { replace (lit 1 70) with (S754_finite false 8388608 47)
        by (vm_compute; reflexivity).
      unfold value, bpow. simpl powerRZ. lra. }
    split; [vm_compute; reflexivity|]. reflexivity.
  - eexists.
    split; [do 7 eexists; repeat split; try reflexivity; simpl; lia|].
    split; [vm_compute; reflexivity|].
    split; [vm_compute; reflexivity|]. reflexivity.
  - eexists.
    split; [do 7 eexists; repeat split; try reflexivity; simpl; lia|].
    split.
    { replace (lit 1 (-80)) with (S754_finite false 8388608 (-103))
        by (vm_compute; reflexivity).
      unfold value, bpow. simpl powerRZ. lra. }
    split; [vm_compute; reflexivity|]. reflexivity.
Qed.

Lemma scaled_triangle_corners (e : Z) :
  corners (scaled_triangle e) 0
    (V3 zero (lit 1 e) zero) origin (V3 (lit 1 e) zero zero).
Proof.
  do 7 eexists. repeat split; try reflexivity; simpl; lia.
Defined.

Lemma written_normals_unit_or_zero_witness :
  (exists m' cf,
     0 <> -1 /\
     corners (scaled_triangle 3) 0
       (V3 zero (lit 1 3) zero) origin (V3 (lit 1 3) zero zero) /\
     0 ∈ [0] /\
     update_face_normals [0] (scaled_triangle 3) = Done m' /\
     well_scaled (cross (vsub origin (V3 zero (lit 1 3) zero))
                        (vsub (V3 (lit 1 3) zero zero)
                              (V3 zero (lit 1 3) zero))) /\
     GETPTR1 (faces m') 0 = Done cf /\
     f_normal cf = point 0 0 1 /\ near_unit (f_normal cf)) /\
  (exists cv s m' cv',
     GETPTR1 (vertices (tilted_fan 3)) 0 = Done cv /\ v_halfedge cv <> -1 /\
     traverse 3 4 0 (v_halfedge cv) (tilted_fan 3) = Done (Walked s) /\
     0 ∈ [1; 0; 2; 0] /\
     update_vertex_neighbors 3 4 [1; 0; 2; 0] (tilted_fan 3) = Done m' /\
     face_sum (tilted_fan 3) (take 3 (w_visited s).*1) = point 5 0 2 /\
     well_scaled (point 5 0 2) /\
     GETPTR1 (vertices m') 0 = Done cv' /\
     v_normal cv' = V3 (S754_finite false 15577254 (-24)) zero
                       (S754_finite false 12461803 (-25)) /\
     near_unit (v_normal cv')).
Proof.
  split.
  - assert (Hne : 0 <> -1) by lia.
    assert (Hin : 0 ∈ [0]) by apply list_elem_of_here.
    destruct (update_face_normals [0] (scaled_triangle 3))
      as [m'| |] eqn:Hrun; try (vm_compute in Hrun; discriminate Hrun).
    assert (Hw : well_scaled (cross (vsub origin (V3 zero (lit 1 3) zero))
                                    (vsub (V3 (lit 1 3) zero zero)
                                          (V3 zero (lit 1 3) zero)))).
    { split; [repeat split; vm_compute; reflexivity|].
      replace (cross _ _)
        with (V3 (S754_zero false) (S754_zero false)
                 (S754_finite false 8388608 (-17)))
        by (vm_compute; reflexivity).
      cbn [vx vy vz value]. unfold bpow. simpl powerRZ.
      rewrite Rabs_R0, !Rabs_pos_eq by lra.
      split; [repeat split; lra|]. right. right. lra. }
    destruct (proj1 (written_normals_unit_or_zero 3 4 (scaled_triangle 3))
                0 _ _ _ [0] m' Hne (scaled_triangle_corners 3) Hin Hrun)
      as (cf & Hcf & Hn & Hunit & _).
    exists m', cf.
    split; [exact Hne|]. split; [apply scaled_triangle_corners|].
    split; [exact Hin|]. split; [reflexivity|]. split; [exact Hw|].
    split; [exact Hcf|].
    split; [rewrite Hn; vm_compute; reflexivity|]. exact (Hunit Hw).
  - assert (H1 : GETPTR1 (vertices (tilted_fan 3)) 0
                 = Done (fresh_vertex 3 origin 0)) by reflexivity.
    assert (H2 : v_halfedge (fresh_vertex 3 origin 0) <> -1) by (simpl; lia).
    assert (Hin : 0 ∈ [1; 0; 2; 0]) by (apply list_elem_of_further, list_elem_of_here).
    destruct (traverse 3 4 0 (v_halfedge (fresh_vertex 3 origin 0)) (tilted_fan 3))
      as [[s|s]| |] eqn:H3; try (vm_compute in H3; discriminate H3).
    destruct (update_vertex_neighbors 3 4 [1; 0; 2; 0] (tilted_fan 3))
      as [m'| |] eqn:H4; try (vm_compute in H4; discriminate H4).
    assert (Hs : face_sum (tilted_fan 3) (take 3 (w_visited s).*1)
                 = point 5 0 2).
    { pose proof H3 as H5. vm_compute in H5. injection H5 as <-.
      vm_compute. reflexivity. }
    assert (Hw : well_scaled (point 5 0 2)).
    { split; [repeat split; vm_compute; reflexivity|].
      replace (point 5 0 2)
        with (V3 (S754_finite false 10485760 (-21)) (S754_zero false)
                 (S754_finite false 8388608 (-22)))
        by (vm_compute; reflexivity).
      cbn [vx vy vz value]. unfold bpow. simpl powerRZ.
      rewrite Rabs_R0, !Rabs_pos_eq by lra.
      split; [repeat split; lra|]. left. lra. }
    destruct (proj2 (written_normals_unit_or_zero 3 4 (tilted_fan 3))
                0 [1; 0; 2; 0] m' _ s H1 H2 H3 Hin H4)
      as (cv' & Hcv' & _ & Hn & Hunit & _).
    rewrite Hs in Hn, Hunit.
    exists (fresh_vertex 3 origin 0), s, m', cv'.
    split; [exact H1|]. split; [exact H2|]. split; [exact H3|].
    split; [exact Hin|]. split; [reflexivity|]. split; [exact Hs|].
    split; [exact Hw|]. split; [exact Hcv'|].
    split; [rewrite Hn; vm_compute; reflexivity|]. exact (Hunit Hw).
Defined.

(** The norm of the zero vector, of (3,4,0) and of (1,1,1); outside the
    range of the third part the norm of a non-zero vector can be
    infinite or zero. *)
Lemma norm_binary32_witness :
  all_zero (point 0 0 0) /\ norm (point 0 0 0) = zero /\
  well_scaled (point 3 4 0) /\ norm (point 3 4 0) = lit 5 0 /\
  well_scaled (point 1 1 1) /\
  norm (point 1 1 1) = S754_finite false 14529495 (-23) /\
  (Rabs (value (norm (point 1 1 1)) - real_length (point 1 1 1))
   <= bpow (-21) * real_length (point 1 1 1))%R /\
  norm (V3 (lit 1 70) zero zero) = S754_infinity false /\
  norm (V3 (lit 1 (-80)) zero zero) = zero.
Proof.
  assert (H0 : all_zero (point 0 0 0)).
  { repeat split; by exists false. }
  assert (H1 : well_scaled (point 3 4 0)).
  { split; [repeat split; vm_compute; reflexivity|].
    replace (point 3 4 0)
      with (V3 (S754_finite false 12582912 (-22))
               (S754_finite false 8388608 (-21)) (S754_zero false))
      by (vm_compute; reflexivity).
    cbn [vx vy vz value]. unfold bpow. simpl powerRZ.
    rewrite Rabs_R0, !Rabs_pos_eq by lra.
    split; [repeat split; lra|]. left. lra. }
  assert (H2 : well_scaled (point 1 1 1)).
  { split; [repeat split; vm_compute; reflexivity|].
    replace (point 1 1 1)
      with (V3 (S754_finite false 8388608 (-23))
               (S754_finite false 8388608 (-23))
               (S754_finite false 8388608 (-23)))
      by (vm_compute; reflexivity).
    cbn [vx vy vz value]. unfold bpow. simpl powerRZ.
    rewrite !Rabs_pos_eq by lra.
    split; [repeat split; lra|]. left. lra. }
  split; [exact H0|].
  split; [exact (proj1 (proj2 (norm_binary32 (point 0 0 0))) H0)|].
  split; [exact H1|]. split; [vm_compute; reflexivity|].
  split; [exact H2|]. split; [vm_compute; reflexivity|].
  split; [exact (proj2 (proj2 (proj2 (proj2 (norm_binary32 (point 1 1 1)))
                                       H2)))|].
  split; vm_compute; reflexivity.
Defined.
